(** * update_function_docs: version resolution and documentation rewriting

    A shallow embedding of [scripts/update_function_docs/update_function_docs.go].
    Go strings and byte slices are byte sequences ([list ascii]); the
    regular expressions of the program are values of a small regex syntax run
    by a backtracking matcher with leftmost-first priorities; the commands of
    the program that talk to git and to the file system are computations over
    an explicit world with an event log. *)

From Stdlib Require Import Ascii String List Bool Arith NArith ZArith Lia
  Permutation.
Import ListNotations.

Set Implicit Arguments.

(** ** Byte strings *)

Definition bytes := list ascii.

(** A string literal as a byte sequence. *)
Definition b (s : string) : bytes := list_ascii_of_string s.

Definition beq (x y : bytes) : bool :=
  if list_eq_dec ascii_dec x y then true else false.

Definition isEmpty (x : bytes) : bool :=
  match x with [] => true | _ :: _ => false end.

(** ** The functions of Go's [strings] package the program calls *)

Module strings.

(** [strings.HasPrefix(s, p)]. *)
Fixpoint HasPrefix (s p : bytes) {struct p} : bool :=
  match p, s with
  | [], _ => true
  | _ :: _, [] => false
  | c :: p', d :: s' => if ascii_dec c d then HasPrefix s' p' else false
  end.

(** [strings.Contains(s, sub)]. *)
Fixpoint Contains (s sub : bytes) : bool :=
  HasPrefix s sub ||
  match s with
  | [] => false
  | _ :: s' => Contains s' sub
  end.

(** [strings.Split(s, sep)] for a one-byte separator: the pieces between
    the separators, an empty piece included; never an empty list. *)
Fixpoint Split (s : bytes) (sep : ascii) : list bytes :=
  match s with
  | [] => [[]]
  | c :: s' =>
      if ascii_dec c sep then [] :: Split s' sep
      else match Split s' sep with
           | [] => [[c]]
           | seg :: segs => (c :: seg) :: segs
           end
  end.

(** [strings.Join(elems, sep)]. *)
Fixpoint Join (elems : list bytes) (sep : bytes) : bytes :=
  match elems with
  | [] => []
  | [e] => e
  | e :: rest => e ++ sep ++ Join rest sep
  end.

End strings.

(** ** Character classes *)

Definition inRange (lo hi c : ascii) : bool :=
  (nat_of_ascii lo <=? nat_of_ascii c) && (nat_of_ascii c <=? nat_of_ascii hi).

Definition isDigit (c : ascii) : bool := inRange "0" "9" c.

(** [\w] of RE2: [0-9A-Za-z_]. *)
Definition isWord (c : ascii) : bool :=
  isDigit c || inRange "A" "Z" c || inRange "a" "z" c
  || (if ascii_dec c "_" then true else false).

(** [[-\w]]. *)
Definition isWordDash (c : ascii) : bool :=
  isWord c || (if ascii_dec c "-" then true else false).

(** [\s] of RE2: tab, newline, form feed, carriage return, space. *)
Definition isSpace (c : ascii) : bool :=
  match nat_of_ascii c with
  | 9 | 10 | 12 | 13 | 32 => true
  | _ => false
  end.

(** [.] without the [s] flag: anything but a newline. *)
Definition isDot (c : ascii) : bool :=
  if ascii_dec c "010" then false else true.

(** ** Regular expressions

    The fragment of RE2 syntax the program's patterns are written in:
    literals, the classes above, greedy [*] and [+] over a class,
    concatenation, alternation and numbered capture groups.  None of the
    patterns has an anchor or a word boundary, so a match at a position
    depends on the text from that position on only; all the classes and
    literals are ASCII, so matching bytes and matching runes agree. *)

Inductive cset : Type :=
| CsChar (c : ascii)
| CsDigit
| CsWordDash
| CsSpace
| CsDot.

Definition cset_mem (cs : cset) (c : ascii) : bool :=
  match cs with
  | CsChar d => if ascii_dec d c then true else false
  | CsDigit => isDigit c
  | CsWordDash => isWordDash c
  | CsSpace => isSpace c
  | CsDot => isDot c
  end.

Inductive regex : Type :=
| REmpty
| RSet (cs : cset)
| RStar (cs : cset)
| RPlus (cs : cset)
| RCat (r1 r2 : regex)
| RAlt (r1 r2 : regex)
| RCap (n : N) (r : regex).

(** The text of the capture groups that took part in a match. *)
Definition caps := list (N * bytes).

Fixpoint cap_get (n : N) (c : caps) : option bytes :=
  match c with
  | [] => None
  | (m, t) :: c' => if N.eqb n m then Some t else cap_get n c'
  end.

Module regexp.

(** Greedy iteration of a class: the longest run first, then each shorter
    one, the empty one last. *)
Fixpoint star (cs : cset) (s : bytes) (c : caps) : list (bytes * caps) :=
  match s with
  | [] => [([], c)]
  | x :: s' => if cset_mem cs x then star cs s' c ++ [(s, c)] else [(s, c)]
  end.

(** [exec r s c]: every way [r] matches a prefix of [s], as the rest of
    the input and the captures, in the order a backtracking matcher tries
    them; the first is the leftmost-first match at this position. *)
Fixpoint exec (r : regex) (s : bytes) (c : caps) : list (bytes * caps) :=
  match r with
  | REmpty => [(s, c)]
  | RSet cs =>
      match s with
      | x :: s' => if cset_mem cs x then [(s', c)] else []
      | [] => []
      end
  | RStar cs => star cs s c
  | RPlus cs =>
      match s with
      | x :: s' => if cset_mem cs x then star cs s' c else []
      | [] => []
      end
  | RCat r1 r2 => flat_map (fun p => exec r2 (fst p) (snd p)) (exec r1 s c)
  | RAlt r1 r2 => exec r1 s c ++ exec r2 s c
  | RCap n r1 =>
      map (fun p => (fst p, (n, firstn (length s - length (fst p)) s) :: snd p))
          (exec r1 s c)
  end.

(** The leftmost-first match of [r] at the start of [s]. *)
Definition matchAt (r : regex) (s : bytes) : option (bytes * caps) :=
  hd_error (exec r s []).

(** [MatchString] of a compiled regexp: a match anywhere in [s]. *)
Fixpoint MatchString (r : regex) (s : bytes) : bool :=
  match matchAt r s with
  | Some _ => true
  | None => match s with
            | [] => false
            | _ :: s' => MatchString r s'
            end
  end.

(** A literal. *)
Fixpoint lit (s : bytes) : regex :=
  match s with
  | [] => REmpty
  | c :: s' => RCat (RSet (CsChar c)) (lit s')
  end.

(** An alternation [a|b|...]; of nothing, the empty regex. *)
Fixpoint alts (rs : list regex) : regex :=
  match rs with
  | [] => REmpty
  | [r] => r
  | r :: rs' => RAlt r (alts rs')
  end.

End regexp.

(** ** Replacement templates and [ReplaceAll] *)

Module template.

(** The longest run of name characters at the start of [s]. *)
Fixpoint nameRun (s : bytes) : bytes * bytes :=
  match s with
  | x :: s' =>
      if isWord x then let (n, r) := nameRun s' in (x :: n, r) else ([], s)
  | [] => ([], [])
  end.

(** The number a name of digits denotes; [None] for any other name, for
    a number of more than eight digits and for a leading zero. *)
Fixpoint parseNum (acc : N) (name : bytes) : option N :=
  match name with
  | [] => Some acc
  | x :: name' =>
      if negb (isDigit x) || (100000000 <=? acc)%N then None
      else parseNum (acc * 10 + (N_of_ascii x - 48))%N name'
  end.

Definition groupNum (name : bytes) : option N :=
  match name with
  | "0"%char :: _ :: _ => None
  | _ => parseNum 0 name
  end.

(** [extract]: the reference after a [$], as its group number (if it is
    one) and the rest of the template; [None] when it is malformed. *)
Definition extract (str : bytes) : option (option N * bytes) :=
  match str with
  | [] => None
  | "{"%char :: str' =>
      match nameRun str' with
      | ([], _) => None
      | (name, "}"%char :: rest) => Some (groupNum name, rest)
      | (_, _) => None
      end
  | _ =>
      match nameRun str with
      | ([], _) => None
      | (name, rest) => Some (groupNum name, rest)
      end
  end.

(** [expand]: the template with [$$], [$name] and [${name}] replaced;
    the patterns have no named groups, so a name that is not a number
    expands to nothing. *)
Fixpoint expand (fuel : nat) (tmpl : bytes) (c : caps) : bytes :=
  match fuel with
  | 0 => tmpl
  | S fuel' =>
      match tmpl with
      | [] => []
      | "$"%char :: "$"%char :: t => "$"%char :: expand fuel' t c
      | "$"%char :: t =>
          match extract t with
          | Some (Some n, rest) =>
              match cap_get n c with
              | Some txt => txt ++ expand fuel' rest c
              | None => expand fuel' rest c
              end
          | Some (None, rest) => expand fuel' rest c
          | None => "$"%char :: expand fuel' t c
          end
      | x :: t => x :: expand fuel' t c
      end
  end.

Definition Expand (tmpl : bytes) (c : caps) : bytes :=
  expand (length tmpl) tmpl c.

End template.

Module Import replace.

(** The leftmost-first match at the start of [s] with group 0, the whole
    match, recorded: the length of the match and the groups. *)
Definition findAt (r : regex) (s : bytes) : option (nat * caps) :=
  match regexp.matchAt r s with
  | Some (rest, c) =>
      let n := length s - length rest in
      Some (n, (0%N, firstn n s) :: c)
  | None => None
  end.

(** The loop of [ReplaceAll]: [skip] bytes of the last match are still to
    be passed; [fresh] is false when the last match ended at this very
    position, where an empty match is not replaced. *)
Fixpoint replaceFrom (r : regex) (tmpl : bytes) (skip : nat) (fresh : bool)
    (s : bytes) : bytes :=
  match skip with
  | S k =>
      match s with
      | [] => []
      | _ :: s' => replaceFrom r tmpl k false s'
      end
  | 0 =>
      match findAt r s with
      | Some (S k, c) =>
          template.Expand tmpl c ++
          match s with
          | [] => []
          | _ :: s' => replaceFrom r tmpl k false s'
          end
      | Some (0, c) =>
          (if fresh then template.Expand tmpl c else []) ++
          match s with
          | [] => []
          | x :: s' => x :: replaceFrom r tmpl 0 true s'
          end
      | None =>
          match s with
          | [] => []
          | x :: s' => x :: replaceFrom r tmpl 0 true s'
          end
      end
  end.

(** [re.ReplaceAll(src, repl)]. *)
Definition ReplaceAll (r : regex) (src tmpl : bytes) : bytes :=
  replaceFrom r tmpl 0 true src.

End replace.

(** ** The patterns of the program *)

Import regexp.

Definition rchar (c : ascii) : regex := RSet (CsChar c).

Fixpoint rseq (rs : list regex) : regex :=
  match rs with
  | [] => REmpty
  | [r] => r
  | r :: rs' => RCat r (rseq rs')
  end.

(** [v\d*\.\d*]. *)
Definition minorRe : regex :=
  rseq [rchar "v"; RStar CsDigit; rchar "."; RStar CsDigit].

(** [v\d*\.\d*\.\d*]. *)
Definition patchRe : regex :=
  rseq [rchar "v"; RStar CsDigit; rchar "."; RStar CsDigit; rchar ".";
        RStar CsDigit].

(** [releaseBranchPattern]: [-\w]* \/ ( v \d* \. \d* ), written without blanks in the source. *)
Definition releaseBranchPattern : regex :=
  rseq [RStar CsWordDash; rchar "/"; RCap 1 minorRe].

(** [releaseTagPattern]: .* (go|ts) \/ [-\w]* \/ ( v \d* \. \d* \. \d* ). *)
Definition releaseTagPattern : regex :=
  rseq [RStar CsDot; RCap 1 (RAlt (lit (b "go")) (lit (b "ts"))); rchar "/";
        RStar CsWordDash; rchar "/"; RCap 2 patchRe].

(** [versionGroup]: [unstable|v\d*\.\d*\.\d*|v\d*\.\d*]. *)
Definition versionGroup : regex :=
  RAlt (lit (b "unstable")) (RAlt patchRe minorRe).

(** ** The release descriptor *)

Record functionExample : Type := {
  ExamplePath : bytes;
  ExampleName : bytes
}.

Definition functionExamples := list functionExample.

Definition exampleNames (fe : functionExamples) : list bytes :=
  map ExampleName fe.

Record functionRelease : Type := {
  FunctionName : bytes;
  MinorVersion : bytes;
  Language : bytes;
  LatestPatchVersion : bytes;
  FunctionPath : bytes;
  Examples : functionExamples;
  IsContrib : bool
}.

(** ** The three rewrite rules

    The patterns are compiled from text that splices in the function name
    and the example names; the splice is embedded as the literal of the
    name, which is what [regexp.MustCompile] builds for a name without a
    metacharacter of the regex syntax. *)

Definition isMeta (c : ascii) : bool :=
  existsb (fun m => if ascii_dec c m then true else false)
          (b "\.+*?()|[]{}^$").

Definition literalName (s : bytes) : bool := forallb (fun c => negb (isMeta c)) s.

Definition isASCII (c : ascii) : bool := nat_of_ascii c <? 128.

(** A name that the patterns take as the literal of itself: it holds no
    metacharacter of the regex syntax and only bytes of ASCII, so that the
    text of the pattern is valid UTF-8, which [regexp.MustCompile] asks
    for. *)
Definition plainName (s : bytes) : bool := literalName s && forallb isASCII s.

Definition noDollar (s : bytes) : bool :=
  forallb (fun c => if ascii_dec c "$" then false else true) s.

Definition noColon (s : bytes) : bool :=
  forallb (fun c => if ascii_dec c ":" then false else true) s.

(** [(<name>)(:|/)(<versionGroup>)]. *)
Definition tagPattern (fr : functionRelease) : regex :=
  rseq [RCap 1 (lit (FunctionName fr));
        RCap 2 (RAlt (rchar ":") (rchar "/"));
        RCap 3 versionGroup].

Definition replaceTags (fr : functionRelease) (contents : bytes) : bytes :=
  ReplaceAll (tagPattern fr) contents (b "${1}${2}" ++ LatestPatchVersion fr).

Definition catalogURL : bytes := b "https://catalog.kpt.dev/".

(** [(https://catalog\.kpt\.dev/<name>/)(<versionGroup>)]. *)
Definition urlPattern (fr : functionRelease) : regex :=
  rseq [RCap 1 (rseq [lit catalogURL; lit (FunctionName fr); rchar "/"]);
        RCap 2 versionGroup].

Definition replaceURLs (fr : functionRelease) (contents : bytes) : bytes :=
  ReplaceAll (urlPattern fr) contents (b "${1}" ++ MinorVersion fr).

Definition catalogGit : bytes :=
  b "https://github.com/GoogleContainerTools/kpt-functions-catalog.git/".

Definition exampleSubPath (fr : functionRelease) : bytes :=
  if IsContrib fr then b "contrib/examples" else b "examples".

(** [(https://github\.com/GoogleContainerTools/kpt-functions-catalog\.git/<subpath>/)(<names>)(\s+)],
    the names joined by [|]. *)
Definition kptPkgPattern (fr : functionRelease) : regex :=
  rseq [RCap 1 (rseq [lit catalogGit; lit (exampleSubPath fr); rchar "/"]);
        RCap 2 (alts (map lit (exampleNames (Examples fr))));
        RCap 3 (RPlus CsSpace)].

Definition replaceKptPackages (fr : functionRelease) (contents : bytes) : bytes :=
  ReplaceAll (kptPkgPattern fr) contents
    (b "${1}${2}@" ++ FunctionName fr ++ b "/" ++ LatestPatchVersion fr ++ b "${3}").

(** The rewriting [updateDoc] does to the contents of a file. *)
Definition updateContents (fr : functionRelease) (contents : bytes) : bytes :=
  replaceKptPackages fr (replaceURLs fr (replaceTags fr contents)).

(** ** Direct recognisers

    What the patterns recognise, written as plain scanning functions; the
    rewrite rules are compared with them below. *)

(** The input after its longest run of bytes of a class. *)
Fixpoint dropRun (p : ascii -> bool) (s : bytes) : bytes :=
  match s with
  | x :: s' => if p x then dropRun p s' else s
  | [] => []
  end.

Fixpoint takeRun (p : ascii -> bool) (s : bytes) : bytes :=
  match s with
  | x :: s' => if p x then x :: takeRun p s' else []
  | [] => []
  end.

(** The input after the byte [x] it starts with. *)
Definition afterChar (x : ascii) (s : bytes) : option bytes :=
  match s with
  | y :: s' => if ascii_dec x y then Some s' else None
  | [] => None
  end.

(** The input after the version token it starts with: the literal
    [unstable], or [v], digits, a dot, digits and, if a dot follows, that
    dot and digits. *)
Definition tokenRest (s : bytes) : option bytes :=
  if strings.HasPrefix s (b "unstable") then Some (skipn 8 s)
  else
    match afterChar "v" s with
    | None => None
    | Some s1 =>
        match afterChar "." (dropRun isDigit s1) with
        | None => None
        | Some s2 =>
            match afterChar "." (dropRun isDigit s2) with
            | Some s3 => Some (dropRun isDigit s3)
            | None => Some (dropRun isDigit s2)
            end
        end
    end.

(** The version token at the start of the input, and the rest. *)
Definition versionToken (s : bytes) : option (bytes * bytes) :=
  match tokenRest s with
  | Some rest => Some (firstn (length s - length rest) s, rest)
  | None => None
  end.

Definition isSep (c : ascii) : bool :=
  (if ascii_dec c ":" then true else false)
  || (if ascii_dec c "/" then true else false).

(** A tag reference at the start of the input: the name, [:] or [/], and a
    version token; the separator and what follows the token. *)
Definition tagRefAt (fn s : bytes) : option (ascii * bytes) :=
  if strings.HasPrefix s fn then
    match skipn (length fn) s with
    | sep :: s1 =>
        if isSep sep then
          match tokenRest s1 with
          | Some rest => Some (sep, rest)
          | None => None
          end
        else None
    | [] => None
    end
  else None.

(** A catalog URL of the function at the start of the input: what follows
    its version token. *)
Definition catalogRefAt (fn s : bytes) : option bytes :=
  let prefix := catalogURL ++ fn ++ b "/" in
  if strings.HasPrefix s prefix then tokenRest (skipn (length prefix) s)
  else None.

Definition startsWithSpace (s : bytes) : bool :=
  match s with
  | x :: _ => isSpace x
  | [] => false
  end.

(** The names the alternation of the example names tries, in order; with
    no example the group is empty and matches the empty text. *)
Definition nameChoices (names : list bytes) : list bytes :=
  match names with
  | [] => [[]]
  | _ => names
  end.

(** An example package reference at the start of the input: the first of
    the names that is there and is followed by white space. *)
Definition pkgRefAt (subPath : bytes) (names : list bytes) (s : bytes)
  : option (bytes * bytes) :=
  let prefix := catalogGit ++ subPath ++ b "/" in
  if strings.HasPrefix s prefix then
    let s1 := skipn (length prefix) s in
    match find (fun n => strings.HasPrefix s1 n
                         && startsWithSpace (skipn (length n) s1))
               (nameChoices names) with
    | Some n => Some (n, skipn (length n) s1)
    | None => None
    end
  else None.

(** ** [golang.org/x/mod/semver]

    The comparison of the library the program imports, after the library's
    source: [Compare] parses both versions; an invalid version is below every
    valid one and equal to every invalid one. *)

Module semver.

Local Open Scope Z_scope.

Record parsed : Type := {
  major : bytes;
  minor : bytes;
  patch : bytes;
  prerelease : bytes
}.

(** A decimal number without a leading zero, and the rest. *)
Definition parseInt (v : bytes) : option (bytes * bytes) :=
  match v with
  | [] => None
  | x :: v' =>
      if negb (isDigit x) then None
      else
        let t := x :: takeRun isDigit v' in
        let rest := dropRun isDigit v' in
        if (if ascii_dec x "0" then true else false) && negb (isEmpty (takeRun isDigit v'))
        then None
        else Some (t, rest)
  end.

Definition isIdentChar (c : ascii) : bool :=
  inRange "A" "Z" c || inRange "a" "z" c || isDigit c
  || (if ascii_dec c "-" then true else false).

Definition isNum (v : bytes) : bool := forallb isDigit v.

Definition isBadNum (v : bytes) : bool :=
  match v with
  | "0"%char :: _ :: _ => isNum v
  | _ => false
  end.

(** The dot-separated identifiers after a [-] or a [+] up to the byte
    [stop] (if any) or the end, when they are well formed; [numeric]
    says whether a number among them must have no leading zero. *)
Definition identsOK (numeric : bool) (body : bytes) : bool :=
  forallb (fun i => negb (isEmpty i) && forallb isIdentChar i
                    && negb (numeric && isBadNum i))
          (strings.Split body ".").

Definition parsePrerelease (v : bytes) : option (bytes * bytes) :=
  match v with
  | "-"%char :: v' =>
      let notPlus := fun c : ascii => if ascii_dec c "+" then false else true in
      let body := takeRun notPlus v' in
      if identsOK true body then Some ("-"%char :: body, dropRun notPlus v')
      else None
  | _ => None
  end.

Definition parseBuild (v : bytes) : option (bytes * bytes) :=
  match v with
  | "+"%char :: v' => if identsOK false v' then Some (v, []) else None
  | _ => None
  end.

Definition parseTail (mj mn pt v : bytes) : option parsed :=
  let pre := match v with
             | "-"%char :: _ => parsePrerelease v
             | _ => Some ([], v)
             end in
  match pre with
  | None => None
  | Some (p, v1) =>
      let bld := match v1 with
                 | "+"%char :: _ => parseBuild v1
                 | _ => Some ([], v1)
                 end in
      match bld with
      | Some (_, []) =>
          Some {| major := mj; minor := mn; patch := pt; prerelease := p |}
      | _ => None
      end
  end.

Definition parse (v : bytes) : option parsed :=
  match v with
  | "v"%char :: v0 =>
      match parseInt v0 with
      | None => None
      | Some (mj, []) =>
          Some {| major := mj; minor := b "0"; patch := b "0"; prerelease := [] |}
      | Some (mj, "."%char :: v1) =>
          match parseInt v1 with
          | None => None
          | Some (mn, []) =>
              Some {| major := mj; minor := mn; patch := b "0"; prerelease := [] |}
          | Some (mn, "."%char :: v2) =>
              match parseInt v2 with
              | None => None
              | Some (pt, v3) => parseTail mj mn pt v3
              end
          | Some _ => None
          end
      | Some _ => None
      end
  | _ => None
  end.

(** Byte-wise order of strings: is [x] below [y]? *)
Fixpoint strLt (x y : bytes) : bool :=
  match x, y with
  | [], [] => false
  | [], _ :: _ => true
  | _ :: _, [] => false
  | c :: x', d :: y' =>
      if ascii_dec c d then strLt x' y'
      else (nat_of_ascii c <? nat_of_ascii d)%nat
  end.

Definition compareInt (x y : bytes) : Z :=
  if beq x y then 0
  else if (length x <? length y)%nat then -1
  else if (length y <? length x)%nat then 1
  else if strLt x y then -1 else 1.

Definition compareIdent (dx dy : bytes) : Z :=
  let ix := isNum dx in
  let iy := isNum dy in
  if negb (Bool.eqb ix iy) then (if ix then -1 else 1)
  else if ix && (length dx <? length dy)%nat then -1
  else if ix && (length dy <? length dx)%nat then 1
  else if strLt dx dy then -1 else 1.

(** The loop of [comparePrerelease] over the identifiers of both sides:
    the first pair that differs decides; the side that ends first is the
    smaller one. *)
Fixpoint compareIdents (xs ys : list bytes) : Z :=
  match xs, ys with
  | dx :: xs', dy :: ys' =>
      if negb (beq dx dy) then compareIdent dx dy
      else match xs', ys' with
           | [], _ => -1
           | _, [] => 1
           | _, _ => compareIdents xs' ys'
           end
  | [], _ => -1
  | _, [] => 1
  end.

Definition comparePrerelease (x y : bytes) : Z :=
  if beq x y then 0
  else if isEmpty x then 1
  else if isEmpty y then -1
  else compareIdents (strings.Split (tl x) ".") (strings.Split (tl y) ".").

Definition Compare (v w : bytes) : Z :=
  match parse v, parse w with
  | None, None => 0
  | None, Some _ => -1
  | Some _, None => 1
  | Some pv, Some pw =>
      let c := compareInt (major pv) (major pw) in
      if negb (c =? 0) then c else
      let c := compareInt (minor pv) (minor pw) in
      if negb (c =? 0) then c else
      let c := compareInt (patch pv) (patch pw) in
      if negb (c =? 0) then c else
      comparePrerelease (prerelease pv) (prerelease pw)
  end.

End semver.

(** ** The collaborators: git, the file system, the metadata parser *)

Inductive error : Type :=
| ErrUsage               (* usage: update_function_docs <RELEASE_BRANCH> *)
| ErrDirtyRepo           (* dirty repo *)
| ErrInvalidBranch       (* invalid branch format *)
| ErrMissingIdentifier   (* missing function name and/or minor version *)
| ErrNoMatchingTag       (* could not find matching tag for release branch *)
| ErrPathsNotFound       (* function doc paths not found from ... *)
| ErrExpectedFunctionPath (* expected FunctionPath in parseMetadata *)
| ErrExampleDirMissing (path : bytes) (* example dir does not exist: ... *)
| ErrDocsUpToDate        (* docs up to date *)
| ErrExternal (msg : bytes) (* an error of a command, the file system or the parser *)
| ErrPanic.              (* index out of range *)

Inductive event : Type :=
| EvCmd (name : bytes) (args : list bytes)
| EvStat (path : bytes)
| EvReadFile (path : bytes)
| EvWriteFile (path contents : bytes).

(** The outside of the program: a state of the working tree and of the
    repository, and what each primitive answers in it. *)
Record Env : Type := {
  World : Type;
  runCmdIn : bytes -> list bytes -> World -> (bytes * option bytes) * World;
  executableIn : World -> bytes + bytes;
  isDirIn : bytes -> World -> bool;
  readFileIn : bytes -> World -> bytes + bytes;
  writeFileIn : bytes -> bytes -> World -> option bytes * World;
  yamlExampleURLs : bytes -> list bytes + bytes;
  pathJoin : list bytes -> bytes;
  pathDir : bytes -> bytes
}.

Section Program.

Variable E : Env.

(** A computation of the program: it reads and changes the world, appends
    to the log of what it did outside, and returns or fails. *)
Definition M (A : Type) : Type :=
  World E * list event -> (error + A) * (World E * list event).

Definition ret {A} (a : A) : M A := fun st => (inr a, st).

Definition throw {A} (e : error) : M A := fun st => (inl e, st).

Definition bind {A B} (m : M A) (k : A -> M B) : M B :=
  fun st =>
    match m st with
    | (inl e, st') => (inl e, st')
    | (inr a, st') => k a st'
    end.

Definition logged {A} (ev : event) (f : World E -> A * World E) : M A :=
  fun st =>
    let (a, w') := f (fst st) in
    (inr a, (w', snd st ++ [ev])).

Notation "x <- m ;; k" := (bind m (fun x => k))
  (at level 61, m at next level, right associativity).
Notation "m ;;; k" := (bind m (fun _ => k))
  (at level 61, right associativity).

(** [runCmd]: the standard output and, when the command fails, its error. *)
Definition runCmd (name : bytes) (args : list bytes) : M (bytes * option bytes) :=
  logged (EvCmd name args) (runCmdIn E name args).

Definition checked (r : bytes * option bytes) : M bytes :=
  match snd r with
  | Some msg => throw (ErrExternal msg)
  | None => ret (fst r)
  end.

Definition isCleanRepo : M bool :=
  r <- runCmd (b "git") [b "diff-index"; b "--quiet"; b "HEAD"; b "--"] ;;
  ret (match snd r with Some _ => false | None => true end).

Definition gitFetch : M bytes :=
  r <- runCmd (b "git") [b "fetch"; b "--tags"] ;; checked r.

Definition gitCheckout (branch : bytes) : M bytes :=
  r <- runCmd (b "git") [b "checkout"; branch] ;; checked r.

Definition gitTag : M bytes :=
  r <- runCmd (b "git") [b "tag"] ;; checked r.

Definition gitAdd : M bytes :=
  r <- runCmd (b "git") [b "add"; b "-u"] ;; checked r.

Definition quote : bytes := ["034"%char].

Definition gitCommit (msg : bytes) : M bytes :=
  r <- runCmd (b "git") [b "commit"; b "-m"; quote ++ msg ++ quote] ;;
  checked r.

Definition gitShow : M bytes :=
  r <- runCmd (b "git") [b "show"] ;; checked r.

Definition dirExists (path : bytes) : M bool :=
  logged (EvStat path) (fun w => (isDirIn E path w, w)).

Definition readFile (path : bytes) : M bytes :=
  r <- logged (EvReadFile path) (fun w => (readFileIn E path w, w)) ;;
  match r with
  | inl c => ret c
  | inr msg => throw (ErrExternal msg)
  end.

Definition writeFile (path contents : bytes) : M unit :=
  r <- logged (EvWriteFile path contents) (writeFileIn E path contents) ;;
  match r with
  | None => ret tt
  | Some msg => throw (ErrExternal msg)
  end.

Definition executable : M bytes :=
  fun st =>
    match executableIn E (fst st) with
    | inl p => (inr p, st)
    | inr msg => (inl (ErrExternal msg), st)
    end.

(** [segments[len(segments)-k]], a panic when there is no such index. *)
Definition fromEnd (segments : list bytes) (k : nat) : option bytes :=
  if (k <=? length segments)%nat then nth_error segments (length segments - k)
  else None.

Definition indexFromEnd (segments : list bytes) (k : nat) : M bytes :=
  match fromEnd segments k with
  | Some s => ret s
  | None => throw ErrPanic
  end.

(** The loop of [readLatestPatchVersion] over the tags, from the best
    language and patch version so far; [None] is a panic. *)
Fixpoint scanTags (funcPattern : bytes) (tags : list bytes)
    (lang latestPatchVersion : bytes) : option (bytes * bytes) :=
  match tags with
  | [] => Some (lang, latestPatchVersion)
  | tag :: tags' =>
      if negb (strings.Contains tag funcPattern)
         || negb (MatchString releaseTagPattern tag)
      then scanTags funcPattern tags' lang latestPatchVersion
      else
        let segments := strings.Split tag "/" in
        match fromEnd segments 1 with
        | None => None
        | Some patchVersion =>
            if isEmpty latestPatchVersion
               || (semver.Compare patchVersion latestPatchVersion =? 1)%Z
            then match fromEnd segments 3 with
                 | None => None
                 | Some l => scanTags funcPattern tags' l patchVersion
                 end
            else scanTags funcPattern tags' lang latestPatchVersion
        end
  end.

Definition funcPatternOf (fr : functionRelease) : bytes :=
  FunctionName fr ++ b "/" ++ MinorVersion fr.

Definition newline : ascii := "010"%char.

Definition withVersion (fr : functionRelease) (lang latest : bytes)
  : functionRelease :=
  {| FunctionName := FunctionName fr; MinorVersion := MinorVersion fr;
     Language := lang; LatestPatchVersion := latest;
     FunctionPath := FunctionPath fr; Examples := Examples fr;
     IsContrib := IsContrib fr |}.

(** [readLatestPatchVersion] once the tags are listed and split into
    lines. *)
Definition resolveFromLines (fr : functionRelease) (lines : list bytes)
  : error + functionRelease :=
  match scanTags (funcPatternOf fr) lines [] [] with
  | None => inl ErrPanic
  | Some (lang, latestPatchVersion) =>
      if isEmpty latestPatchVersion || isEmpty lang then inl ErrNoMatchingTag
      else inr (withVersion fr lang latestPatchVersion)
  end.

Definition resolveFromTags (fr : functionRelease) (tags : bytes)
  : error + functionRelease :=
  resolveFromLines fr (strings.Split tags newline).

Definition lift {A} (r : error + A) : M A :=
  match r with
  | inl e => throw e
  | inr a => ret a
  end.

Definition readLatestPatchVersion (fr : functionRelease) : M functionRelease :=
  if isEmpty (FunctionName fr) || isEmpty (MinorVersion fr)
  then throw ErrMissingIdentifier
  else tags <- gitTag ;; lift (resolveFromTags fr tags).

(** [parseMetadata]: the examples listed in [metadata.yaml]. *)
Fixpoint readExamples (examplesPath : bytes) (urls : list bytes)
    (acc : functionExamples) : M functionExamples :=
  match urls with
  | [] => ret acc
  | exampleURL :: urls' =>
      exampleName <- indexFromEnd (strings.Split exampleURL "/") 1 ;;
      let examplePath := pathJoin E [examplesPath; exampleName] in
      ok <- dirExists examplePath ;;
      if negb ok then throw (ErrExampleDirMissing examplePath)
      else readExamples examplesPath urls'
             (acc ++ [{| ExamplePath := examplePath; ExampleName := exampleName |}])
  end.

Definition withExamples (fr : functionRelease) (ex : functionExamples)
  : functionRelease :=
  {| FunctionName := FunctionName fr; MinorVersion := MinorVersion fr;
     Language := Language fr; LatestPatchVersion := LatestPatchVersion fr;
     FunctionPath := FunctionPath fr; Examples := ex;
     IsContrib := IsContrib fr |}.

Definition parseMetadata (fr : functionRelease) (examplesPath : bytes)
  : M functionRelease :=
  if isEmpty (FunctionPath fr) then throw ErrExpectedFunctionPath
  else
    yamlFile <- readFile (pathJoin E [FunctionPath fr; b "metadata.yaml"]) ;;
    match yamlExampleURLs E yamlFile with
    | inr msg => throw (ErrExternal msg)
    | inl urls =>
        ex <- readExamples examplesPath urls (Examples fr) ;;
        ret (withExamples fr ex)
    end.

Definition withPath (fr : functionRelease) (path : bytes) (contrib : bool)
  : functionRelease :=
  {| FunctionName := FunctionName fr; MinorVersion := MinorVersion fr;
     Language := Language fr; LatestPatchVersion := LatestPatchVersion fr;
     FunctionPath := path; Examples := Examples fr; IsContrib := contrib |}.

(** The loop of [readDocPaths] over [pathsToTry]. *)
Fixpoint probePaths (fr : functionRelease)
    (pathsToTry : list (bytes * bytes * bool)) : M (functionRelease * bytes) :=
  match pathsToTry with
  | [] => ret (fr, [])
  | (functionPath, examplesPath, isContrib) :: rest =>
      ok <- dirExists functionPath ;;
      if ok then ret (withPath fr functionPath isContrib, examplesPath)
      else probePaths fr rest
  end.

Definition readDocPaths (fr : functionRelease) : M functionRelease :=
  executablePath <- executable ;;
  let repoBase := pathDir E (pathDir E (pathDir E executablePath)) in
  let pathsToTry :=
    [ (pathJoin E [repoBase; b "functions"; Language fr; FunctionName fr],
       pathJoin E [repoBase; b "examples"], false);
      (pathJoin E [repoBase; b "contrib"; b "functions"; Language fr;
                   FunctionName fr],
       pathJoin E [repoBase; b "contrib"; b "examples"], true) ] in
  found <- probePaths fr pathsToTry ;;
  if isEmpty (FunctionPath (fst found)) then throw ErrPathsNotFound
  else parseMetadata (fst found) (snd found).

Definition named (fn mv : bytes) : functionRelease :=
  {| FunctionName := fn; MinorVersion := mv; Language := [];
     LatestPatchVersion := []; FunctionPath := []; Examples := [];
     IsContrib := false |}.

Definition newFunctionRelease (branch : bytes) : M functionRelease :=
  if negb (MatchString releaseBranchPattern branch) then throw ErrInvalidBranch
  else
    let segments := strings.Split branch "/" in
    mv <- indexFromEnd segments 1 ;;
    fn <- indexFromEnd segments 2 ;;
    fr <- readLatestPatchVersion (named fn mv) ;;
    readDocPaths fr.

Definition updateDoc (fr : functionRelease) (filePath : bytes) : M unit :=
  contents <- readFile filePath ;;
  writeFile filePath (updateContents fr contents).

Definition updateFunctionDoc (fr : functionRelease) : M unit :=
  updateDoc fr (pathJoin E [FunctionPath fr; b "README.md"]).

Fixpoint updateExamples (fr : functionRelease) (ex : functionExamples) : M unit :=
  match ex with
  | [] => ret tt
  | example :: ex' =>
      updateDoc fr (pathJoin E [ExamplePath example; b "README.md"]) ;;;
      updateExamples fr ex'
  end.

Definition updateExampleDocs (fr : functionRelease) : M unit :=
  updateExamples fr (Examples fr).

Definition updateDocs (fr : functionRelease) : M unit :=
  updateFunctionDoc fr ;;; updateExampleDocs fr.

(** [main] on the command line [args]; an error is what [exitWithErr]
    reports before the process exits with status 1. *)
Definition main (args : list bytes) : M unit :=
  match args with
  | _ :: releaseBranch :: _ =>
      clean <- isCleanRepo ;;
      if negb clean then throw ErrDirtyRepo
      else
        gitFetch ;;;
        gitCheckout releaseBranch ;;;
        fr <- newFunctionRelease releaseBranch ;;
        updateDocs fr ;;;
        clean' <- isCleanRepo ;;
        if clean' then throw ErrDocsUpToDate
        else
          gitAdd ;;;
          gitCommit (b "docs: Update tags for " ++ Language fr ++ b "/"
                     ++ FunctionName fr ++ b "/" ++ LatestPatchVersion fr) ;;;
          gitShow ;;;
          ret tt
  | _ => throw ErrUsage
  end.

End Program.

(** ** The rewrite rules, as the specification words them

    Each rule goes through the contents from the left: where a reference
    starts it is rewritten and the scan goes on after it, anywhere else the
    byte is copied. *)

Section Scan.

(** What stands at the start of the input: the text that replaces it and
    the input after it. *)
Variable occ : bytes -> option (bytes * bytes).

Fixpoint scanFuel (fuel : nat) (s : bytes) : bytes :=
  match fuel with
  | 0 => s
  | S fuel' =>
      match occ s with
      | Some (out, rest) => out ++ scanFuel fuel' rest
      | None =>
          match s with
          | [] => []
          | x :: s' => x :: scanFuel fuel' s'
          end
      end
  end.

Definition scan (s : bytes) : bytes := scanFuel (S (length s)) s.

End Scan.

Definition tagOcc (fn latest s : bytes) : option (bytes * bytes) :=
  match tagRefAt fn s with
  | Some (sep, rest) => Some (fn ++ sep :: latest, rest)
  | None => None
  end.

Definition catalogOcc (fn mv s : bytes) : option (bytes * bytes) :=
  match catalogRefAt fn s with
  | Some rest => Some (catalogURL ++ fn ++ b "/" ++ mv, rest)
  | None => None
  end.

Definition pkgOcc (fr : functionRelease) (s : bytes) : option (bytes * bytes) :=
  match pkgRefAt (exampleSubPath fr) (exampleNames (Examples fr)) s with
  | Some (name, rest) =>
      Some (catalogGit ++ exampleSubPath fr ++ b "/" ++ name ++ b "@"
            ++ FunctionName fr ++ b "/" ++ LatestPatchVersion fr
            ++ takeRun isSpace rest,
            dropRun isSpace rest)
  | None => None
  end.

(** The tag rule: [name sep token] becomes [name sep latest]. *)
Inductive TagsRewritten (fn latest : bytes) : bytes -> bytes -> Prop :=
| TagsEnd : TagsRewritten fn latest [] []
| TagsRef (sep : ascii) (tok rest out : bytes) :
    isSep sep = true ->
    versionToken (tok ++ rest) = Some (tok, rest) ->
    TagsRewritten fn latest rest out ->
    TagsRewritten fn latest (fn ++ sep :: tok ++ rest) (fn ++ sep :: latest ++ out)
| TagsCopy (x : ascii) (s out : bytes) :
    tagRefAt fn (x :: s) = None ->
    TagsRewritten fn latest s out ->
    TagsRewritten fn latest (x :: s) (x :: out).

(** The catalog rule: the token after the catalog URL of the function
    becomes the minor version. *)
Inductive URLsRewritten (fn mv : bytes) : bytes -> bytes -> Prop :=
| URLsEnd : URLsRewritten fn mv [] []
| URLsRef (tok rest out : bytes) :
    versionToken (tok ++ rest) = Some (tok, rest) ->
    URLsRewritten fn mv rest out ->
    URLsRewritten fn mv (catalogURL ++ fn ++ b "/" ++ tok ++ rest)
                        (catalogURL ++ fn ++ b "/" ++ mv ++ out)
| URLsCopy (x : ascii) (s out : bytes) :
    catalogRefAt fn (x :: s) = None ->
    URLsRewritten fn mv s out ->
    URLsRewritten fn mv (x :: s) (x :: out).

(** The example rule: [@name/latest] goes between the example name and the
    white space after it. *)
Inductive PkgsRewritten (fr : functionRelease) : bytes -> bytes -> Prop :=
| PkgsEnd : PkgsRewritten fr [] []
| PkgsRef (name ws rest out : bytes) :
    In name (nameChoices (exampleNames (Examples fr))) ->
    ws <> [] ->
    forallb isSpace ws = true ->
    startsWithSpace rest = false ->
    pkgRefAt (exampleSubPath fr) (exampleNames (Examples fr))
             (catalogGit ++ exampleSubPath fr ++ b "/" ++ name ++ ws ++ rest)
      = Some (name, ws ++ rest) ->
    PkgsRewritten fr rest out ->
    PkgsRewritten fr
      (catalogGit ++ exampleSubPath fr ++ b "/" ++ name ++ ws ++ rest)
      (catalogGit ++ exampleSubPath fr ++ b "/" ++ name ++ b "@"
       ++ FunctionName fr ++ b "/" ++ LatestPatchVersion fr ++ ws ++ out)
| PkgsCopy (x : ascii) (s out : bytes) :
    pkgRefAt (exampleSubPath fr) (exampleNames (Examples fr)) (x :: s) = None ->
    PkgsRewritten fr s out ->
    PkgsRewritten fr (x :: s) (x :: out).

(** A regex that matches exactly the text [l]. *)
Definition isLit (r : regex) (l : bytes) : Prop :=
  forall s c, exec r s c =
              if strings.HasPrefix s l then [(skipn (length l) s, c)] else [].

Definition noSpace (s : bytes) : bool := forallb (fun c => negb (isSpace c)) s.

(** [s] starts with [l] and white space follows. *)
Definition spaceAfter (s l : bytes) : bool :=
  strings.HasPrefix s l && startsWithSpace (skipn (length l) s).

Definition startsWithDigit (s : bytes) : bool :=
  match s with
  | x :: _ => isDigit x
  | [] => false
  end.

(** Nowhere in [s] is the word [unstable] directly followed by a digit. *)
Fixpoint noUnstableDigit (s : bytes) : bool :=
  negb (strings.HasPrefix s (b "unstable") && startsWithDigit (skipn 8 s))
  && match s with
     | [] => true
     | _ :: s' => noUnstableDigit s'
     end.

(** [s] is [v], digits, a dot, digits, a dot and digits, and nothing more. *)
Definition isPatchForm (s : bytes) : bool :=
  match afterChar "v" s with
  | None => false
  | Some s1 =>
      match afterChar "." (dropRun isDigit s1) with
      | None => false
      | Some s2 =>
          match afterChar "." (dropRun isDigit s2) with
          | None => false
          | Some s3 => isEmpty (dropRun isDigit s3)
          end
      end
  end.

(** The release of the examples: [apply-setters], minor version [v1.0]. *)
Definition applySetters (latest : bytes) : functionRelease :=
  {| FunctionName := b "apply-setters";
     MinorVersion := b "v1.0";
     Language := b "go";
     LatestPatchVersion := latest;
     FunctionPath := b "functions/go/apply-setters";
     Examples := [ {| ExamplePath := b "examples/apply-setters-simple";
                      ExampleName := b "apply-setters-simple" |} ];
     IsContrib := false |}.

Definition pkgLine : bytes :=
  catalogGit ++ b "examples/apply-setters-simple" ++ [newline].

(** A name as the branch pattern reads one: letters, digits, [_] and [-],
    at least one. *)
Definition isName (s : bytes) : bool :=
  negb (isEmpty s) && forallb isWordDash s.

(** [s] is a version token and nothing more. *)
Definition isToken (s : bytes) : bool :=
  match tokenRest s with
  | Some [] => true
  | _ => false
  end.

(** The bytes of a version token: name bytes and the dot. *)
Definition isTokenChar (c : ascii) : bool :=
  isWord c || (if ascii_dec c "." then true else false).

(** ** Comparisons with values -1, 0 and 1

    The shapes the comparison of versions is put together from. *)

Module cmp.

Local Open Scope Z_scope.

(** The second comparison decides when the first one gives 0. *)
Definition lexZ (a c : Z) : Z := if a =? 0 then c else a.

Definition sgn (n m : nat) : Z :=
  if (n <? m)%nat then -1 else if (m <? n)%nat then 1 else 0.

(** Lexicographic comparison of lists; a proper prefix is smaller. *)
Fixpoint cmpList {A} (c : A -> A -> Z) (xs ys : list A) : Z :=
  match xs, ys with
  | [], [] => 0
  | [], _ :: _ => -1
  | _ :: _, [] => 1
  | x :: xs', y :: ys' => lexZ (c x y) (cmpList c xs' ys')
  end.

(** [None] above everything. *)
Definition optTop {A} (c : A -> A -> Z) (x y : option A) : Z :=
  match x, y with
  | None, None => 0
  | None, Some _ => 1
  | Some _, None => -1
  | Some a, Some a' => c a a'
  end.

(** [None] below everything. *)
Definition optBot {A} (c : A -> A -> Z) (x y : option A) : Z :=
  match x, y with
  | None, None => 0
  | None, Some _ => -1
  | Some _, None => 1
  | Some a, Some a' => c a a'
  end.

(** A comparison that comes from a total preorder. *)
Record ok {A} (c : A -> A -> Z) : Prop := {
  ok_sign : forall x y, c x y = -1 \/ c x y = 0 \/ c x y = 1;
  ok_flip : forall x y, c y x = - c x y;
  ok_cong : forall x y z, c x y = 0 -> c x z = c y z;
  ok_trans : forall x y z, c x y = -1 -> c y z = -1 -> c x z = -1
}.

Definition chr (x y : ascii) : Z := sgn (nat_of_ascii x) (nat_of_ascii y).

Definition str (x y : bytes) : Z := cmpList chr x y.

Definition len (x y : bytes) : Z := sgn (length x) (length y).

End cmp.

(** ** The order behind [semver.Compare] *)

Module semverOrder.

Import cmp.
Local Open Scope Z_scope.

(** Numbers: the shorter one is smaller, then byte by byte. *)
Definition intCmp (x y : bytes) : Z := lexZ (len x y) (str x y).

Definition rank (x : bytes) : nat := if semver.isNum x then 0 else 1.

Definition numLen (x : bytes) : nat := if semver.isNum x then length x else 0.

(** Identifiers: numbers below the others; numbers as numbers, the
    others byte by byte. *)
Definition identCmp (x y : bytes) : Z :=
  lexZ (sgn (rank x) (rank y)) (lexZ (sgn (numLen x) (numLen y)) (str x y)).

(** The identifiers of a pre-release part; [None] when there is none. *)
Definition preKey (x : bytes) : option (list bytes) :=
  if isEmpty x then None else Some (strings.Split (tl x) ".").

Definition preCmp : option (list bytes) -> option (list bytes) -> Z :=
  optTop (cmpList identCmp).

Definition verCmp (pv pw : semver.parsed) : Z :=
  lexZ (intCmp (semver.major pv) (semver.major pw))
    (lexZ (intCmp (semver.minor pv) (semver.minor pw))
       (lexZ (intCmp (semver.patch pv) (semver.patch pw))
          (preCmp (preKey (semver.prerelease pv))
                  (preKey (semver.prerelease pw))))).

(** A pre-release part is empty or starts with a hyphen. *)
Definition isPre (x : bytes) : Prop := x = [] \/ exists body, x = "-"%char :: body.

End semverOrder.

(** ** The tags that take part in the resolution *)

(** The test of the loop of [readLatestPatchVersion]. *)
Definition survives (funcPattern tag : bytes) : bool :=
  strings.Contains tag funcPattern && MatchString releaseTagPattern tag.

Definition survivors (funcPattern : bytes) (tags : list bytes) : list bytes :=
  filter (survives funcPattern) tags.

(** The last segment of a tag and the third one from the end. *)
Definition patchOf (tag : bytes) : bytes :=
  match fromEnd (strings.Split tag "/") 1 with
  | Some p => p
  | None => []
  end.

Definition langOf (tag : bytes) : bytes :=
  match fromEnd (strings.Split tag "/") 3 with
  | Some l => l
  | None => []
  end.

(** The choice the loop makes among tags that all take part. *)
Fixpoint pickFrom (tags : list bytes) (lang latest : bytes) : bytes * bytes :=
  match tags with
  | [] => (lang, latest)
  | tag :: tags' =>
      if isEmpty latest || (semver.Compare (patchOf tag) latest =? 1)%Z
      then pickFrom tags' (langOf tag) (patchOf tag)
      else pickFrom tags' lang latest
  end.

(** The tag listing of the example of the specification. *)
Definition threeTags : bytes :=
  b "functions/go/apply-setters/v1.0.1" ++ [newline]
  ++ b "functions/go/apply-setters/v1.0.10" ++ [newline]
  ++ b "functions/go/apply-setters/v1.0.2" ++ [newline].

(** ** Runs *)

Definition isCmd (ev : event) : bool :=
  match ev with
  | EvCmd _ _ => true
  | _ => false
  end.

(** [<function-name>/<minor-version>] as [newFunctionRelease] reads it off
    a branch. *)
Definition branchPattern (branch : bytes) : bytes :=
  match fromEnd (strings.Split branch "/") 2, fromEnd (strings.Split branch "/") 1 with
  | Some fn, Some mv => fn ++ b "/" ++ mv
  | _, _ => []
  end.

Fixpoint dropLast (segs : list bytes) : list bytes :=
  match segs with
  | [] | [_] => []
  | s :: segs' => s :: dropLast segs'
  end.

(** A small world: every command succeeds, [git tag] prints [tags], every
    directory exists, every file is empty and no example is listed. *)
Definition demoEnv (tags : bytes) : Env :=
  {| World := unit;
     runCmdIn := fun name args w =>
       if beq name (b "git") && (if list_eq_dec (list_eq_dec ascii_dec) args [b "tag"]
                                 then true else false)
       then ((tags, None), w) else (([], None), w);
     executableIn := fun _ =>
       inl (b "/repo/scripts/update_function_docs/update_function_docs");
     isDirIn := fun _ _ => true;
     readFileIn := fun _ _ => inl [];
     writeFileIn := fun _ _ w => (None, w);
     yamlExampleURLs := fun _ => inl [];
     pathJoin := fun elems => strings.Join elems (b "/");
     pathDir := fun p => strings.Join (dropLast (strings.Split p "/")) (b "/") |}.

(** ** Branch names *)

Definition noSlash (s : bytes) : bool :=
  forallb (fun c => if ascii_dec c "/" then false else true) s.

(** [s] starts with a slash, [v], digits and a dot. *)
Definition minorMarkAt (s : bytes) : bool :=
  match afterChar "/" s with
  | None => false
  | Some s1 =>
      match afterChar "v" s1 with
      | None => false
      | Some s2 =>
          match afterChar "." (dropRun isDigit s2) with
          | None => false
          | Some _ => true
          end
      end
  end.

(** Somewhere in [s] there is a slash, [v], digits and a dot. *)
Fixpoint hasMinorMark (s : bytes) : bool :=
  minorMarkAt s
  || match s with
     | [] => false
     | _ :: s' => hasMinorMark s'
     end.

(** ** Decimal numbers *)







(** ** What a run leaves behind *)

(** Looking at the file system without changing it. *)
Definition isProbe (ev : event) : bool :=
  match ev with
  | EvStat _ | EvReadFile _ => true
  | _ => false
  end.

Definition isFileEvent (ev : event) : bool := negb (isCmd ev).

(** The example [parseMetadata] records for a URL of [metadata.yaml]:
    the directory named by the last segment of the URL, under the examples
    path. *)
Definition exampleOf (E : Env) (examplesPath exampleURL : bytes) : functionExample :=
  {| ExamplePath := pathJoin E [examplesPath; patchOf exampleURL];
     ExampleName := patchOf exampleURL |}.

(** The files [updateDocs] goes through, in order. *)
Definition docTargets (E : Env) (fr : functionRelease) : list bytes :=
  pathJoin E [FunctionPath fr; b "README.md"]
  :: map (fun example => pathJoin E [ExamplePath example; b "README.md"])
         (Examples fr).

(** A file read and written back rewritten: the path and what was read. *)
Definition rewriteEvents (fr : functionRelease) (pc : bytes * bytes) : list event :=
  [EvReadFile (fst pc); EvWriteFile (fst pc) (updateContents fr (snd pc))].

Definition cleanCheck : event :=
  EvCmd (b "git") [b "diff-index"; b "--quiet"; b "HEAD"; b "--"].

(** The commands of [main] before it looks at a file. *)
Definition preamble (releaseBranch : bytes) : list event :=
  [cleanCheck;
   EvCmd (b "git") [b "fetch"; b "--tags"];
   EvCmd (b "git") [b "checkout"; releaseBranch];
   EvCmd (b "git") [b "tag"]].

Definition commitMessage (fr : functionRelease) : bytes :=
  b "docs: Update tags for " ++ Language fr ++ b "/" ++ FunctionName fr
  ++ b "/" ++ LatestPatchVersion fr.

(** The commands of [main] once the files are written. *)
Definition epilogue (fr : functionRelease) : list event :=
  [cleanCheck;
   EvCmd (b "git") [b "add"; b "-u"];
   EvCmd (b "git") [b "commit"; b "-m"; quote ++ commitMessage fr ++ quote];
   EvCmd (b "git") [b "show"]].

(** ** A repository with files

    A world of files and a flag that says whether the working tree has
    changed: a write sets it, [git diff-index] fails when it is set,
    [git tag] prints [threeTags], every directory but the [missing] ones
    exists, and the metadata of every function lists the one example
    [apply-setters-simple]. *)
Fixpoint lookupFile (p : bytes) (files : list (bytes * bytes)) : option bytes :=
  match files with
  | [] => None
  | (q, c) :: files' => if beq p q then Some c else lookupFile p files'
  end.

Definition repoEnv (missing : list bytes) : Env :=
  {| World := list (bytes * bytes) * bool;
     runCmdIn := fun name args w =>
       match args with
       | sub :: _ =>
           if beq sub (b "tag") then ((threeTags, None), w)
           else if beq sub (b "diff-index") && snd w
                then (([], Some (b "exit status 1")), w)
                else (([], None), w)
       | [] => (([], None), w)
       end;
     executableIn := fun _ =>
       inl (b "/repo/scripts/update_function_docs/update_function_docs");
     isDirIn := fun p _ => negb (existsb (beq p) missing);
     readFileIn := fun p w =>
       match lookupFile p (fst w) with
       | Some c => inl c
       | None => inr (b "no such file")
       end;
     writeFileIn := fun p c w => (None, ((p, c) :: fst w, true));
     yamlExampleURLs := fun _ => inl [catalogGit ++ b "examples/apply-setters-simple"];
     pathJoin := fun elems => strings.Join elems (b "/");
     pathDir := fun p => strings.Join (dropLast (strings.Split p "/")) (b "/") |}.

(** The files of the function [apply-setters] and of its example. *)
Definition repoFiles : list (bytes * bytes) :=
  [(b "/repo/functions/go/apply-setters/metadata.yaml", []);
   (b "/repo/functions/go/apply-setters/README.md",
    b "gcr.io/kpt-fn/apply-setters:unstable" ++ [newline]);
   (b "/repo/examples/apply-setters-simple/README.md",
    b "kpt pkg get " ++ pkgLine)].

(** The start of a run in that repository, and the release of the branch
    [apply-setters/v1.0] as the run builds it: after the tags are read,
    after the function directory is found, after the metadata is read. *)
Definition repoStart (missing : list bytes) : World (repoEnv missing) * list event :=
  ((repoFiles, false), []).

Definition resolved : functionRelease :=
  withVersion (named (b "apply-setters") (b "v1.0")) (b "go") (b "v1.0.10").

Definition located : functionRelease :=
  withPath resolved (b "/repo/functions/go/apply-setters") false.

Definition documented : functionRelease :=
  withExamples located
    [{| ExamplePath := b "/repo/examples/apply-setters-simple";
        ExampleName := b "apply-setters-simple" |}].

(** ** The world a log leaves

    What a logged action does to the world: a command and a write change
    it as the primitives say, looking at a directory and reading a file
    leave it as it is. *)
Definition replay1 (E : Env) (w : World E) (ev : event) : World E :=
  match ev with
  | EvCmd name args => snd (runCmdIn E name args w)
  | EvWriteFile path contents => snd (writeFileIn E path contents w)
  | EvStat _ | EvReadFile _ => w
  end.

(** The world after the actions of a log, from the world [w]. *)
Definition replay (E : Env) (evs : list event) (w : World E) : World E :=
  fold_left (replay1 E) evs w.

(** Whether the working tree is clean in a world: what [git diff-index]
    reports there. *)
Definition cleanIn (E : Env) (w : World E) : bool :=
  match snd (fst (runCmdIn E (b "git") [b "diff-index"; b "--quiet"; b "HEAD"; b "--"] w)) with
  | Some _ => false
  | None => true
  end.

(** [Rewrote E fr w done w']: from the world [w], the files of [done] were
    rewritten in order, each read in the world the writes before it left
    and written back rewritten without error; [w'] is the world after the
    last write.  [done] pairs each path with the contents read. *)
Inductive Rewrote (E : Env) (fr : functionRelease)
  : World E -> list (bytes * bytes) -> World E -> Prop :=
| RewroteNone (w : World E) : Rewrote E fr w [] w
| RewroteFile (w w' : World E) (p c : bytes) (done : list (bytes * bytes)) :
    readFileIn E p w = inl c ->
    fst (writeFileIn E p (updateContents fr c) w) = None ->
    Rewrote E fr (snd (writeFileIn E p (updateContents fr c) w)) done w' ->
    Rewrote E fr w ((p, c) :: done) w'.

(** A release for which the patterns and the templates are what the
    definitions of the rules say: a function name and example names that
    are plain, versions without [$]. *)
Definition plainRelease (fr : functionRelease) : bool :=
  plainName (FunctionName fr)
  && forallb plainName (exampleNames (Examples fr))
  && noDollar (MinorVersion fr)
  && noDollar (LatestPatchVersion fr).


(** The end of [main], from the second check of the working tree on. *)
Definition finish (E : Env) (fr : functionRelease) : M E unit :=
  bind (isCleanRepo E)
    (fun clean' : bool =>
       if clean' then throw E ErrDocsUpToDate
       else bind (gitAdd E) (fun _ =>
            bind (gitCommit E (commitMessage fr)) (fun _ =>
            bind (gitShow E) (fun _ => ret E tt)))).

(** * Properties *)

(** ** Byte strings *)

Lemma beq_true (x y : bytes) : beq x y = true <-> x = y.
Proof. unfold beq. destruct (list_eq_dec ascii_dec x y); split; congruence. Qed.

Lemma beq_refl (x : bytes) : beq x x = true.
Proof. apply beq_true. reflexivity. Qed.

Lemma beq_false (x y : bytes) : beq x y = false <-> x <> y.
Proof. unfold beq. destruct (list_eq_dec ascii_dec x y); split; congruence. Qed.

Lemma HasPrefix_app (p s : bytes) : strings.HasPrefix (p ++ s) p = true.
Proof.
  induction p as [|c p IH]; simpl; [reflexivity|].
  destruct (ascii_dec c c); [exact IH | congruence].
Qed.

Lemma HasPrefix_split (s p : bytes) :
  strings.HasPrefix s p = true -> s = p ++ skipn (length p) s.
Proof.
  revert s; induction p as [|c p IH]; intros s H; simpl in *; [reflexivity|].
  destruct s as [|d s]; [discriminate|].
  destruct (ascii_dec c d); [subst; simpl; f_equal; auto | discriminate].
Qed.

Lemma skipn_app_exact (p s : bytes) : skipn (length p) (p ++ s) = s.
Proof. induction p; simpl; auto. Qed.

Lemma firstn_app_exact (p s : bytes) : firstn (length p) (p ++ s) = p.
Proof. induction p; simpl; f_equal; auto. Qed.

Lemma takeRun_dropRun (p : ascii -> bool) (s : bytes) :
  takeRun p s ++ dropRun p s = s.
Proof.
  induction s as [|x s IH]; simpl; [reflexivity|].
  destruct (p x); simpl; [f_equal; exact IH | reflexivity].
Qed.

Lemma dropRun_length (p : ascii -> bool) (s : bytes) :
  length (dropRun p s) <= length s.
Proof.
  induction s as [|x s IH]; simpl; [lia|]. destruct (p x); simpl; lia.
Qed.

Lemma takeRun_all (p : ascii -> bool) (s : bytes) : forallb p (takeRun p s) = true.
Proof.
  induction s as [|x s IH]; simpl; [reflexivity|].
  destruct (p x) eqn:Hx; simpl; [rewrite Hx; exact IH | reflexivity].
Qed.

(** ** The matcher on the shapes the patterns are made of *)

Lemma exec_lit (l s : bytes) (c : caps) :
  exec (lit l) s c =
  if strings.HasPrefix s l then [(skipn (length l) s, c)] else [].
Proof.
  revert s; induction l as [|x l IH]; intros s; simpl; [reflexivity|].
  destruct s as [|y s]; simpl; [reflexivity|].
  destruct (ascii_dec x y) as [->|Hne]; simpl.
  - rewrite IH, app_nil_r. reflexivity.
  - reflexivity.
Qed.

Lemma star_hd (cs : cset) (s : bytes) (c : caps) :
  hd_error (star cs s c) = Some (dropRun (cset_mem cs) s, c).
Proof.
  induction s as [|x s IH]; simpl; [reflexivity|].
  destruct (cset_mem cs x); [|reflexivity].
  destruct (star cs s c); simpl in *; [discriminate | exact IH].
Qed.

(** A run followed by a byte outside the class: only the whole run can be
    followed by it, so nothing is tried twice. *)
Lemma star_then_char (cs : cset) (x : ascii) (r : regex) (s : bytes) (c : caps) :
  cset_mem cs x = false ->
  flat_map (fun p => exec (RCat (rchar x) r) (fst p) (snd p)) (star cs s c) =
  match dropRun (cset_mem cs) s with
  | y :: s' => if ascii_dec x y then exec r s' c else []
  | [] => []
  end.
Proof.
  intros Hx. induction s as [|y s IH]; [reflexivity|].
  cbn [star dropRun]. destruct (cset_mem cs y) eqn:Hy.
  - rewrite flat_map_app, IH. cbn [flat_map fst snd exec rchar cset_mem].
    destruct (ascii_dec x y) as [->|Hne]; [congruence|].
    cbn [flat_map]. rewrite !app_nil_r. reflexivity.
  - cbn [flat_map fst snd exec rchar cset_mem].
    destruct (ascii_dec x y); cbn [flat_map fst snd]; rewrite ?app_nil_r; reflexivity.
Qed.

Lemma star_then_last (cs : cset) (x : ascii) (s : bytes) (c : caps) :
  cset_mem cs x = false ->
  flat_map (fun p => exec (rchar x) (fst p) (snd p)) (star cs s c) =
  match dropRun (cset_mem cs) s with
  | y :: s' => if ascii_dec x y then [(s', c)] else []
  | [] => []
  end.
Proof.
  intros Hx. induction s as [|y s IH]; [reflexivity|].
  cbn [star dropRun]. destruct (cset_mem cs y) eqn:Hy.
  - rewrite flat_map_app, IH. cbn [flat_map fst snd exec rchar cset_mem].
    destruct (ascii_dec x y) as [->|Hne]; [congruence|].
    rewrite !app_nil_r. reflexivity.
  - cbn [flat_map fst snd exec rchar cset_mem].
    destruct (ascii_dec x y); rewrite ?app_nil_r; reflexivity.
Qed.

Lemma exec_char_cat (x : ascii) (r : regex) (s : bytes) (c : caps) :
  exec (RCat (rchar x) r) s c =
  match afterChar x s with
  | Some s' => exec r s' c
  | None => []
  end.
Proof.
  destruct s as [|y s]; [reflexivity|].
  cbn [exec rchar cset_mem afterChar].
  destruct (ascii_dec x y); cbn [flat_map fst snd]; rewrite ?app_nil_r; reflexivity.
Qed.

Lemma exec_star_char_cat (cs : cset) (x : ascii) (r : regex) (s : bytes) (c : caps) :
  cset_mem cs x = false ->
  exec (RCat (RStar cs) (RCat (rchar x) r)) s c =
  match afterChar x (dropRun (cset_mem cs) s) with
  | Some s' => exec r s' c
  | None => []
  end.
Proof.
  intros Hx. change (exec (RCat (RStar cs) (RCat (rchar x) r)) s c)
    with (flat_map (fun p => exec (RCat (rchar x) r) (fst p) (snd p)) (star cs s c)).
  rewrite star_then_char by exact Hx.
  destruct (dropRun (cset_mem cs) s) as [|y s']; [reflexivity|].
  cbn [afterChar]. destruct (ascii_dec x y); reflexivity.
Qed.

Lemma exec_minorRe (s : bytes) (c : caps) :
  exec minorRe s c =
  match afterChar "v" s with
  | None => []
  | Some s1 =>
      match afterChar "." (dropRun isDigit s1) with
      | None => []
      | Some s2 => star CsDigit s2 c
      end
  end.
Proof.
  unfold minorRe, rseq. rewrite exec_char_cat.
  destruct (afterChar "v" s) as [s1|]; [|reflexivity].
  rewrite exec_star_char_cat by reflexivity. reflexivity.
Qed.

Lemma exec_patchRe (s : bytes) (c : caps) :
  exec patchRe s c =
  match afterChar "v" s with
  | None => []
  | Some s1 =>
      match afterChar "." (dropRun isDigit s1) with
      | None => []
      | Some s2 =>
          match afterChar "." (dropRun isDigit s2) with
          | None => []
          | Some s3 => star CsDigit s3 c
          end
      end
  end.
Proof.
  unfold patchRe, rseq. rewrite exec_char_cat.
  destruct (afterChar "v" s) as [s1|]; [|reflexivity].
  rewrite exec_star_char_cat by reflexivity.
  change (cset_mem CsDigit) with isDigit.
  destruct (afterChar "." (dropRun isDigit s1)) as [s2|]; [|reflexivity].
  rewrite exec_star_char_cat by reflexivity. reflexivity.
Qed.

Lemma hd_error_app_l {A} (l1 l2 : list A) (a : A) :
  hd_error l1 = Some a -> hd_error (l1 ++ l2) = Some a.
Proof. destruct l1; simpl; congruence. Qed.

(** The version group: its first match is the version token. *)
Lemma versionGroup_hd (s : bytes) (c : caps) :
  hd_error (exec versionGroup s c) =
  match tokenRest s with
  | Some rest => Some (rest, c)
  | None => None
  end.
Proof.
  unfold versionGroup, tokenRest.
  change (exec (RAlt (lit (b "unstable")) (RAlt patchRe minorRe)) s c)
    with (exec (lit (b "unstable")) s c ++ (exec patchRe s c ++ exec minorRe s c)).
  rewrite exec_lit, exec_patchRe, exec_minorRe.
  destruct (strings.HasPrefix s (b "unstable")); [reflexivity|].
  cbn [app].
  destruct (afterChar "v" s) as [s1|]; [|reflexivity].
  destruct (afterChar "." (dropRun isDigit s1)) as [s2|]; [|reflexivity].
  destruct (afterChar "." (dropRun isDigit s2)) as [s3|].
  - apply hd_error_app_l, star_hd.
  - cbn [app]. apply star_hd.
Qed.

Lemma isLit_lit (l : bytes) : isLit (lit l) l.
Proof. intros s c. apply exec_lit. Qed.

Lemma isLit_rchar (x : ascii) : isLit (rchar x) [x].
Proof.
  intros s c. destruct s as [|y s]; [reflexivity|].
  cbn [exec rchar cset_mem strings.HasPrefix length skipn].
  destruct (ascii_dec x y); reflexivity.
Qed.

Lemma HasPrefix_app_iff (s l1 l2 : bytes) :
  strings.HasPrefix s (l1 ++ l2) =
  strings.HasPrefix s l1 && strings.HasPrefix (skipn (length l1) s) l2.
Proof.
  revert s; induction l1 as [|x l1 IH]; intros s; [reflexivity|].
  destruct s as [|y s]; [reflexivity|].
  cbn [app strings.HasPrefix length skipn].
  destruct (ascii_dec x y); [apply IH | reflexivity].
Qed.

Lemma skipn_skipn_add {A} (n m : nat) (l : list A) :
  skipn n (skipn m l) = skipn (m + n) l.
Proof.
  revert l; induction m as [|m IH]; intros l; [reflexivity|].
  destruct l; simpl; [destruct n; reflexivity | apply IH].
Qed.

Lemma isLit_cat (r1 r2 : regex) (l1 l2 : bytes) :
  isLit r1 l1 -> isLit r2 l2 -> isLit (RCat r1 r2) (l1 ++ l2).
Proof.
  intros H1 H2 s c. cbn [exec]. rewrite H1, HasPrefix_app_iff.
  destruct (strings.HasPrefix s l1); [|reflexivity].
  cbn [flat_map fst snd andb]. rewrite H2, app_nil_r.
  destruct (strings.HasPrefix (skipn (length l1) s) l2); [|reflexivity].
  rewrite skipn_skipn_add, length_app. reflexivity.
Qed.

Lemma firstn_consumed (l s : bytes) :
  strings.HasPrefix s l = true ->
  firstn (length s - length (skipn (length l) s)) s = l.
Proof.
  intros H. apply HasPrefix_split in H.
  rewrite H at 1 3. rewrite length_app.
  replace (length l + length (skipn (length l) s) - length (skipn (length l) s))
    with (length l) by lia.
  apply firstn_app_exact.
Qed.

Lemma exec_cap_lit (n : N) (r r' : regex) (l s : bytes) (c : caps) :
  isLit r l ->
  exec (RCat (RCap n r) r') s c =
  if strings.HasPrefix s l then exec r' (skipn (length l) s) ((n, l) :: c) else [].
Proof.
  intros H. cbn [exec]. rewrite H.
  destruct (strings.HasPrefix s l) eqn:Hp; [|reflexivity].
  cbn [map flat_map fst snd]. rewrite app_nil_r, firstn_consumed by exact Hp.
  reflexivity.
Qed.

Lemma exec_cap_sep (n : N) (r' : regex) (s : bytes) (c : caps) :
  exec (RCat (RCap n (RAlt (rchar ":") (rchar "/"))) r') s c =
  match s with
  | y :: s' => if isSep y then exec r' s' ((n, [y]) :: c) else []
  | [] => []
  end.
Proof.
  destruct s as [|y s]; [reflexivity|].
  cbn [exec rchar cset_mem]. unfold isSep.
  destruct (ascii_dec ":" y) as [<-|H1].
  - destruct (ascii_dec "/" ":"); [discriminate|].
    cbn [app map flat_map fst snd length]. rewrite app_nil_r.
    replace (S (length s) - length s) with 1 by lia. reflexivity.
  - destruct (ascii_dec "/" y) as [<-|H2].
    + destruct (ascii_dec "/" ":"); [discriminate|].
      cbn [app map flat_map fst snd length orb]. rewrite app_nil_r.
      replace (S (length s) - length s) with 1 by lia. reflexivity.
    + destruct (ascii_dec y ":"); [congruence|].
      destruct (ascii_dec y "/"); [congruence|]. reflexivity.
Qed.

Lemma hd_error_map {A B} (f : A -> B) (l : list A) :
  hd_error (map f l) = option_map f (hd_error l).
Proof. destruct l; reflexivity. Qed.

Lemma exec_cap_token_hd (n : N) (s : bytes) (c : caps) :
  hd_error (exec (RCap n versionGroup) s c) =
  match tokenRest s with
  | Some rest => Some (rest, (n, firstn (length s - length rest) s) :: c)
  | None => None
  end.
Proof.
  cbn [exec]. rewrite hd_error_map, versionGroup_hd.
  destruct (tokenRest s); reflexivity.
Qed.

(** ** Replacement templates *)

Import template.

Lemma nameRun_split (s : bytes) : fst (nameRun s) ++ snd (nameRun s) = s.
Proof.
  induction s as [|x s IH]; [reflexivity|]. cbn [nameRun].
  destruct (isWord x); [|reflexivity].
  destruct (nameRun s); simpl in *. f_equal. exact IH.
Qed.

Lemma extract_shorter (t rest : bytes) (g : option N) :
  extract t = Some (g, rest) -> length rest < length t.
Proof.
  unfold extract. destruct t as [|x t]; [discriminate|].
  assert (Hgen : forall u, match nameRun u with
                           | ([], _) => None
                           | (name, r) => Some (groupNum name, r)
                           end = Some (g, rest) -> length rest < length u).
  { intros u. pose proof (nameRun_split u) as Hs.
    destruct (nameRun u) as [[|y name] r]; [discriminate|].
    intros [= _ <-]. simpl in Hs. rewrite <- Hs. simpl. rewrite length_app. lia. }
  assert (Hbr : match nameRun t with
                | ([], _) => None
                | (name, "}"%char :: r) => Some (groupNum name, r)
                | (_, _) => None
                end = Some (g, rest) -> length rest < length (x :: t)).
  { pose proof (nameRun_split t) as Hs.
    destruct (nameRun t) as [[|y name] r]; [discriminate|].
    destruct r as [|z r]; [discriminate|].
    destruct (ascii_dec z "}") as [->|Hz].
    - intros [= _ <-]. simpl in Hs. rewrite <- Hs. simpl. rewrite length_app. simpl. lia.
    - intros H. exfalso. 
      destruct z as [[] [] [] [] [] [] [] []]; try discriminate H. congruence. }
  destruct (ascii_dec x "{") as [->|Hx]; [exact Hbr|].
  intros H. apply (Hgen (x :: t)).
  destruct x as [[] [] [] [] [] [] [] []]; try exact H. congruence.
Qed.

Lemma expand_fuel (f1 f2 : nat) (t : bytes) (c : caps) :
  length t <= f1 -> length t <= f2 -> expand f1 t c = expand f2 t c.
Proof.
  revert f2 t; induction f1 as [|f1 IH]; intros f2 t H1 H2.
  - destruct t; [|simpl in H1; lia]. destruct f2; reflexivity.
  - destruct f2 as [|f2].
    { destruct t; [reflexivity | simpl in H2; lia]. }
    destruct t as [|x t]; [reflexivity|]. simpl in H1, H2.
    assert (Hcopy : x :: expand f1 t c = x :: expand f2 t c).
    { f_equal. apply IH; lia. }
    assert (Hdollar : forall t, length t <= f1 -> length t <= f2 ->
              match extract t with
              | Some (Some n, rest) =>
                  match cap_get n c with
                  | Some txt => txt ++ expand f1 rest c
                  | None => expand f1 rest c
                  end
              | Some (None, rest) => expand f1 rest c
              | None => "$"%char :: expand f1 t c
              end =
              match extract t with
              | Some (Some n, rest) =>
                  match cap_get n c with
                  | Some txt => txt ++ expand f2 rest c
                  | None => expand f2 rest c
                  end
              | Some (None, rest) => expand f2 rest c
              | None => "$"%char :: expand f2 t c
              end).
    { intros u Hu1 Hu2. destruct (extract u) as [[g rest]|] eqn:He.
      - apply extract_shorter in He.
        rewrite (IH f2 rest) by lia. reflexivity.
      - f_equal. apply IH; lia. }
    cbn [expand].
    destruct (ascii_dec x "$") as [->|Hx].
    + destruct t as [|y t]; [apply Hdollar; simpl; lia|].
      destruct (ascii_dec y "$") as [->|Hy].
      * f_equal. apply IH; simpl in *; lia.
      * specialize (Hdollar (y :: t) ltac:(lia) ltac:(lia)).
        destruct y as [[] [] [] [] [] [] [] []]; try exact Hdollar. congruence.
    + destruct x as [[] [] [] [] [] [] [] []]; try exact Hcopy. congruence.
Qed.

Lemma expand_plain (fuel : nat) (t : bytes) (c : caps) :
  noDollar t = true -> length t <= fuel -> expand fuel t c = t.
Proof.
  revert fuel; induction t as [|x t IH]; intros fuel Hd Hl.
  - destruct fuel; reflexivity.
  - destruct fuel as [|fuel]; [simpl in Hl; lia|].
    cbn [noDollar forallb] in Hd. apply andb_prop in Hd as [Hx Hd].
    destruct (ascii_dec x "$") as [->|Hne]; [discriminate|].
    assert (Hc : x :: expand fuel t c = x :: t).
    { f_equal. apply IH; [exact Hd | simpl in Hl; lia]. }
    cbn [expand].
    destruct x as [[] [] [] [] [] [] [] []]; try exact Hc. congruence.
Qed.

Lemma expand_plain_app (fuel : nat) (t rest : bytes) (c : caps) :
  noDollar t = true -> length (t ++ rest) <= fuel ->
  expand fuel (t ++ rest) c = t ++ expand (length rest) rest c.
Proof.
  revert fuel; induction t as [|x t IH]; intros fuel Hd Hl.
  - apply expand_fuel; [exact Hl | lia].
  - destruct fuel as [|fuel]; [simpl in Hl; lia|].
    cbn [noDollar forallb] in Hd. apply andb_prop in Hd as [Hx Hd].
    destruct (ascii_dec x "$") as [->|Hne]; [discriminate|].
    assert (Hc : x :: expand fuel (t ++ rest) c = x :: t ++ expand (length rest) rest c).
    { f_equal. apply IH; [exact Hd | simpl in Hl; lia]. }
    cbn [expand app].
    destruct x as [[] [] [] [] [] [] [] []]; try exact Hc. congruence.
Qed.

Lemma noDollar_app (x y : bytes) :
  noDollar (x ++ y) = noDollar x && noDollar y.
Proof. apply forallb_app. Qed.

Lemma isWord_brace : isWord "}" = false.
Proof. vm_compute. reflexivity. Qed.

Lemma expand_group (f : nat) (d : ascii) (n : N) (t : bytes) (c : caps) :
  groupNum [d] = Some n ->
  isWord d = true ->
  expand (S f) ("$"%char :: "{"%char :: d :: "}"%char :: t) c =
  match cap_get n c with
  | Some txt => txt ++ expand f t c
  | None => expand f t c
  end.
Proof.
  intros Hn Hw.
  assert (He : extract ("{"%char :: d :: "}"%char :: t) = Some (Some n, t)).
  { unfold extract. cbn [nameRun]. rewrite Hw, isWord_brace, Hn. reflexivity. }
  cbn [expand]. rewrite He. reflexivity.
Qed.

(** The template of the tag rule. *)
Lemma Expand_tags (latest g1 g2 : bytes) (c : caps) :
  noDollar latest = true ->
  cap_get 1 c = Some g1 -> cap_get 2 c = Some g2 ->
  Expand (b "${1}${2}" ++ latest) c = g1 ++ g2 ++ latest.
Proof.
  intros Hd H1 H2. unfold Expand.
  change (b "${1}${2}" ++ latest)
    with ("$"%char :: "{"%char :: "1"%char :: "}"%char ::
          "$"%char :: "{"%char :: "2"%char :: "}"%char :: latest).
  cbn [length].
  rewrite (@expand_group _ "1" 1%N) by (vm_compute; reflexivity).
  rewrite H1.
  rewrite (@expand_group _ "2" 2%N) by (vm_compute; reflexivity).
  rewrite H2. f_equal. f_equal. apply expand_plain; [exact Hd | lia].
Qed.

(** The template of the catalog rule. *)
Lemma Expand_urls (mv g1 : bytes) (c : caps) :
  noDollar mv = true ->
  cap_get 1 c = Some g1 ->
  Expand (b "${1}" ++ mv) c = g1 ++ mv.
Proof.
  intros Hd H1. unfold Expand.
  change (b "${1}" ++ mv)
    with ("$"%char :: "{"%char :: "1"%char :: "}"%char :: mv).
  cbn [length].
  rewrite (@expand_group _ "1" 1%N) by (vm_compute; reflexivity).
  rewrite H1. f_equal. apply expand_plain; [exact Hd | lia].
Qed.

(** The template of the example rule. *)
Lemma Expand_pkgs (fn latest g1 g2 g3 : bytes) (c : caps) :
  noDollar fn = true -> noDollar latest = true ->
  cap_get 1 c = Some g1 -> cap_get 2 c = Some g2 -> cap_get 3 c = Some g3 ->
  Expand (b "${1}${2}@" ++ fn ++ b "/" ++ latest ++ b "${3}") c =
  g1 ++ g2 ++ b "@" ++ fn ++ b "/" ++ latest ++ g3.
Proof.
  intros Hf Hd H1 H2 H3. unfold Expand.
  change (b "${1}${2}@" ++ fn ++ b "/" ++ latest ++ b "${3}")
    with ("$"%char :: "{"%char :: "1"%char :: "}"%char ::
          "$"%char :: "{"%char :: "2"%char :: "}"%char ::
          (b "@" ++ fn ++ b "/" ++ latest ++ b "${3}")).
  cbn [length].
  rewrite (@expand_group _ "1" 1%N) by (vm_compute; reflexivity).
  rewrite H1.
  rewrite (@expand_group _ "2" 2%N) by (vm_compute; reflexivity).
  rewrite H2. f_equal. f_equal.
  replace (b "@" ++ fn ++ b "/" ++ latest ++ b "${3}")
    with ((b "@" ++ fn ++ b "/" ++ latest) ++ b "${3}")
    by (rewrite <- !app_assoc; reflexivity).
  rewrite expand_plain_app.
  - change (expand (length (b "${3}")) (b "${3}") c)
      with (expand 4 ("$"%char :: "{"%char :: "3"%char :: "}"%char :: []) c).
    rewrite (@expand_group _ "3" 3%N) by (vm_compute; reflexivity).
    rewrite H3. cbn [expand]. rewrite app_nil_r, <- !app_assoc. reflexivity.
  - rewrite !noDollar_app, Hf, Hd. reflexivity.
  - lia.
Qed.

(** ** [ReplaceAll] as a left-to-right scan *)

Section ScanProps.

Variable occ : bytes -> option (bytes * bytes).

(** What is recognised is a non-empty start of the input. *)
Hypothesis occ_suffix :
  forall s out rest, occ s = Some (out, rest) ->
  exists m, m <> [] /\ s = m ++ rest.

Lemma occ_shorter (s out rest : bytes) :
  occ s = Some (out, rest) -> length rest < length s.
Proof.
  intros H. apply occ_suffix in H as (m & Hm & ->).
  rewrite length_app. destruct m; [congruence | simpl; lia].
Qed.

Lemma scanFuel_enough (f1 f2 : nat) (s : bytes) :
  length s < f1 -> length s < f2 -> scanFuel occ f1 s = scanFuel occ f2 s.
Proof.
  revert f2 s; induction f1 as [|f1 IH]; intros f2 s H1 H2; [lia|].
  destruct f2 as [|f2]; [lia|]. cbn [scanFuel].
  destruct (occ s) as [[out rest]|] eqn:Ho.
  - apply occ_shorter in Ho. f_equal. apply IH; lia.
  - destruct s as [|x s]; [reflexivity|]. simpl in H1, H2.
    f_equal. apply IH; lia.
Qed.

Lemma scan_eq (s : bytes) :
  scan occ s =
  match occ s with
  | Some (out, rest) => out ++ scan occ rest
  | None =>
      match s with
      | [] => []
      | x :: s' => x :: scan occ s'
      end
  end.
Proof.
  unfold scan at 1. cbn [scanFuel].
  destruct (occ s) as [[out rest]|] eqn:Ho.
  - apply occ_shorter in Ho. f_equal. apply scanFuel_enough; lia.
  - destruct s as [|x s]; [reflexivity|]. f_equal.
Qed.

Variable r : regex.
Variable tmpl : bytes.

(** The pattern and its template do what [occ] says. *)
Hypothesis occ_findAt :
  forall s,
    match findAt r s with
    | Some (n, c) => Some (template.Expand tmpl c, n)
    | None => None
    end =
    match occ s with
    | Some (out, rest) => Some (out, length s - length rest)
    | None => None
    end.

Lemma replaceFrom_scan (s : bytes) :
  forall k fresh fuel,
    k <= length s -> length s - k < fuel ->
    replaceFrom r tmpl k fresh s = scanFuel occ fuel (skipn k s).
Proof.
  induction s as [|x s IH]; intros k fresh fuel Hk Hf.
  - assert (k = 0) by (simpl in Hk; lia). subst k.
    destruct fuel as [|fuel]; [lia|].
    cbn [replaceFrom skipn scanFuel].
    pose proof (occ_findAt []) as Hl.
    destruct (occ []) as [[out rest]|] eqn:Ho.
    + apply occ_shorter in Ho. simpl in Ho. lia.
    + destruct (findAt r []) as [[n c]|]; [discriminate | reflexivity].
  - destruct k as [|k].
    + destruct fuel as [|fuel]; [lia|].
      cbn [replaceFrom skipn scanFuel].
      pose proof (occ_findAt (x :: s)) as Hl.
      destruct (occ (x :: s)) as [[out rest]|] eqn:Ho.
      * destruct (findAt r (x :: s)) as [[n c]|]; [|discriminate].
        injection Hl as Hout Hn.
        pose proof Ho as Ho'. apply occ_suffix in Ho' as (m & Hm & Hs).
        destruct m as [|y m]; [congruence|].
        injection Hs as -> ->.
        assert (Hn' : n = S (length m))
          by (rewrite Hn, length_app; destruct (length rest); lia).
        rewrite Hn', Hout. f_equal.
        rewrite (IH (length m) false fuel).
        -- rewrite skipn_app_exact. reflexivity.
        -- rewrite length_app. lia.
        -- rewrite length_app. simpl in Hf. rewrite length_app in Hf. lia.
      * destruct (findAt r (x :: s)) as [[n c]|]; [discriminate|].
        f_equal. rewrite (IH 0 true fuel); [reflexivity | lia | simpl in Hf; lia].
    + cbn [replaceFrom skipn]. apply IH; simpl in Hk, Hf; lia.
Qed.

Lemma ReplaceAll_scan (s : bytes) : ReplaceAll r s tmpl = scan occ s.
Proof.
  unfold ReplaceAll, scan. rewrite (@replaceFrom_scan s 0 true (S (length s))).
  - reflexivity.
  - lia.
  - lia.
Qed.

End ScanProps.

(** ** The version token *)

Lemma afterChar_Some (x : ascii) (s s' : bytes) :
  afterChar x s = Some s' -> s = x :: s'.
Proof.
  destruct s as [|y s]; [discriminate|]. cbn [afterChar].
  destruct (ascii_dec x y); [intros [= ->]; congruence | discriminate].
Qed.

Lemma tokenRest_suffix (s rest : bytes) :
  tokenRest s = Some rest -> exists tok, tok <> [] /\ s = tok ++ rest.
Proof.
  unfold tokenRest.
  destruct (strings.HasPrefix s (b "unstable")) eqn:Hu.
  - intros [= <-]. exists (b "unstable"). split; [discriminate|].
    apply HasPrefix_split in Hu. exact Hu.
  - destruct (afterChar "v" s) as [s1|] eqn:H1; [|discriminate].
    apply afterChar_Some in H1. subst s.
    destruct (afterChar "." (dropRun isDigit s1)) as [s2|] eqn:H2; [|discriminate].
    apply afterChar_Some in H2.
    pose proof (takeRun_dropRun isDigit s1) as E1. rewrite H2 in E1.
    pose proof (takeRun_dropRun isDigit s2) as E2.
    destruct (afterChar "." (dropRun isDigit s2)) as [s3|] eqn:H3.
    + apply afterChar_Some in H3. rewrite H3 in E2.
      pose proof (takeRun_dropRun isDigit s3) as E3.
      intros [= <-].
      exists ("v"%char :: takeRun isDigit s1 ++ "."%char :: takeRun isDigit s2
              ++ "."%char :: takeRun isDigit s3).
      split; [discriminate|].
      rewrite <- E1 at 1. rewrite <- E2 at 1. rewrite <- E3 at 1.
      cbn [app]. rewrite <- !app_assoc. cbn [app].
      do 2 f_equal. rewrite <- !app_assoc. reflexivity.
    + intros [= <-].
      exists ("v"%char :: takeRun isDigit s1 ++ "."%char :: takeRun isDigit s2).
      split; [discriminate|].
      rewrite <- E1 at 1. rewrite <- E2 at 1.
      cbn [app]. rewrite <- !app_assoc. reflexivity.
Qed.

Lemma tokenRest_shorter (s rest : bytes) :
  tokenRest s = Some rest -> length rest < length s.
Proof.
  intros H. apply tokenRest_suffix in H as (tok & Ht & ->).
  rewrite length_app. destruct tok; [congruence | simpl; lia].
Qed.

Lemma versionToken_split (s tok rest : bytes) :
  versionToken s = Some (tok, rest) -> tok <> [] /\ s = tok ++ rest.
Proof.
  unfold versionToken. destruct (tokenRest s) as [r|] eqn:Hr; [|discriminate].
  intros [= <- <-]. apply tokenRest_suffix in Hr as (tok & Ht & ->).
  rewrite length_app.
  replace (length tok + length r - length r) with (length tok) by lia.
  rewrite firstn_app_exact. split; [exact Ht | reflexivity].
Qed.

Lemma versionToken_of_rest (tok rest : bytes) :
  tokenRest (tok ++ rest) = Some rest ->
  versionToken (tok ++ rest) = Some (tok, rest).
Proof.
  intros H. unfold versionToken. rewrite H, length_app.
  replace (length tok + length rest - length rest) with (length tok) by lia.
  rewrite firstn_app_exact. reflexivity.
Qed.

(** ** The tag rule *)

Lemma tagRefAt_split (fn s rest : bytes) (sep : ascii) :
  tagRefAt fn s = Some (sep, rest) ->
  exists tok, tok <> [] /\ isSep sep = true /\ s = fn ++ sep :: tok ++ rest
              /\ tokenRest (tok ++ rest) = Some rest.
Proof.
  unfold tagRefAt. destruct (strings.HasPrefix s fn) eqn:Hp; [|discriminate].
  apply HasPrefix_split in Hp.
  destruct (skipn (length fn) s) as [|y s1]; [discriminate|].
  destruct (isSep y) eqn:Hy; [|discriminate].
  destruct (tokenRest s1) as [r|] eqn:Hr; [|discriminate].
  intros [= <- <-]. pose proof Hr as Hr'.
  apply tokenRest_suffix in Hr' as (tok & Ht & ->).
  exists tok. repeat split; assumption.
Qed.

Lemma tagOcc_suffix (fn latest s out rest : bytes) :
  tagOcc fn latest s = Some (out, rest) -> exists m, m <> [] /\ s = m ++ rest.
Proof.
  unfold tagOcc. destruct (tagRefAt fn s) as [[sep r]|] eqn:H; [|discriminate].
  intros [= <- <-]. apply tagRefAt_split in H as (tok & Ht & _ & -> & _).
  exists (fn ++ sep :: tok). split.
  - destruct fn; discriminate.
  - rewrite <- app_assoc. reflexivity.
Qed.

Lemma tag_findAt (fr : functionRelease) (s : bytes) :
  noDollar (LatestPatchVersion fr) = true ->
  match findAt (tagPattern fr) s with
  | Some (n, c) =>
      Some (template.Expand (b "${1}${2}" ++ LatestPatchVersion fr) c, n)
  | None => None
  end =
  match tagOcc (FunctionName fr) (LatestPatchVersion fr) s with
  | Some (out, rest) => Some (out, length s - length rest)
  | None => None
  end.
Proof.
  intros Hd. unfold findAt, matchAt, tagPattern, rseq, tagOcc, tagRefAt.
  rewrite exec_cap_lit with (l := FunctionName fr) by apply isLit_lit.
  destruct (strings.HasPrefix s (FunctionName fr)); [|reflexivity].
  rewrite exec_cap_sep.
  destruct (skipn (length (FunctionName fr)) s) as [|y s1]; [reflexivity|].
  destruct (isSep y); [|reflexivity].
  rewrite exec_cap_token_hd.
  destruct (tokenRest s1) as [rest|]; [|reflexivity].
  rewrite (@Expand_tags _ (FunctionName fr) [y]) by (exact Hd || reflexivity).
  reflexivity.
Qed.

Lemma replaceTags_scan (fr : functionRelease) (contents : bytes) :
  noDollar (LatestPatchVersion fr) = true ->
  replaceTags fr contents =
  scan (tagOcc (FunctionName fr) (LatestPatchVersion fr)) contents.
Proof.
  intros Hd. unfold replaceTags. apply ReplaceAll_scan.
  - intros s out rest. apply tagOcc_suffix.
  - intros s. apply tag_findAt. exact Hd.
Qed.

Lemma scan_tags_rewritten (fn latest : bytes) (n : nat) :
  forall s, length s <= n ->
  TagsRewritten fn latest s (scan (tagOcc fn latest) s).
Proof.
  induction n as [|n IH]; intros s Hl.
  - destruct s; [|simpl in Hl; lia].
    rewrite scan_eq by apply tagOcc_suffix.
    destruct (tagOcc fn latest []) as [[out rest]|] eqn:Ho.
    + apply tagOcc_suffix in Ho as (m & Hm & Hs).
      destruct m; [congruence | discriminate].
    + constructor.
  - rewrite scan_eq by apply tagOcc_suffix.
    unfold tagOcc at 1.
    destruct (tagRefAt fn s) as [[sep rest]|] eqn:Hr.
    + apply tagRefAt_split in Hr as (tok & Ht & Hsep & -> & Htok).
      rewrite <- app_assoc. cbn [app].
      apply TagsRef.
      * exact Hsep.
      * apply versionToken_of_rest. exact Htok.
      * apply IH. rewrite !length_app in Hl. cbn [length] in Hl.
        rewrite length_app in Hl. destruct tok; [congruence|]. simpl in Hl. lia.
    + destruct s as [|x s]; [constructor|].
      apply TagsCopy; [exact Hr|]. apply IH. simpl in Hl. lia.
Qed.

(** With a function name free of regex metacharacters and a latest patch
    version without [$], the tag rule rewrites the contents as
    [TagsRewritten] says: from the left, each occurrence of the function
    name, [:] or [/], and a version token as [tokenRest] reads one keeps the
    name and that very separator and has the token replaced by the latest
    patch version; every other byte is copied unchanged. *)
Lemma replaceTags_rewrites_version_token (fr : functionRelease) (contents : bytes) :
  literalName (FunctionName fr) = true ->
  noDollar (LatestPatchVersion fr) = true ->
  TagsRewritten (FunctionName fr) (LatestPatchVersion fr)
                contents (replaceTags fr contents).
Proof.
  intros _ Hd. rewrite replaceTags_scan by exact Hd.
  apply scan_tags_rewritten with (n := length contents). lia.
Qed.

(** ** The catalog rule *)

Lemma isLit_catalog (fn : bytes) :
  isLit (rseq [lit catalogURL; lit fn; rchar "/"]) (catalogURL ++ fn ++ b "/").
Proof.
  cbn [rseq]. apply isLit_cat; [apply isLit_lit|].
  apply isLit_cat; [apply isLit_lit | apply isLit_rchar].
Qed.

Lemma exec_cap_lit_last (n : N) (r : regex) (l s : bytes) (c : caps) :
  isLit r l ->
  exec (RCap n r) s c =
  if strings.HasPrefix s l then [(skipn (length l) s, (n, l) :: c)] else [].
Proof.
  intros H. cbn [exec]. rewrite H.
  destruct (strings.HasPrefix s l) eqn:Hp; [|reflexivity].
  cbn [map fst snd]. rewrite firstn_consumed by exact Hp. reflexivity.
Qed.

Lemma catalogRefAt_split (fn s rest : bytes) :
  catalogRefAt fn s = Some rest ->
  exists tok, tok <> [] /\ s = catalogURL ++ fn ++ b "/" ++ tok ++ rest
              /\ tokenRest (tok ++ rest) = Some rest.
Proof.
  unfold catalogRefAt.
  destruct (strings.HasPrefix s (catalogURL ++ fn ++ b "/")) eqn:Hp; [|discriminate].
  apply HasPrefix_split in Hp. intros Hr. pose proof Hr as Hr'.
  apply tokenRest_suffix in Hr' as (tok & Ht & Hs).
  exists tok. rewrite Hs in Hp, Hr. repeat split; try assumption.
  rewrite Hp at 1. rewrite <- !app_assoc. reflexivity.
Qed.

Lemma catalogOcc_suffix (fn mv s out rest : bytes) :
  catalogOcc fn mv s = Some (out, rest) -> exists m, m <> [] /\ s = m ++ rest.
Proof.
  unfold catalogOcc. destruct (catalogRefAt fn s) as [r|] eqn:H; [|discriminate].
  intros [= <- <-]. apply catalogRefAt_split in H as (tok & Ht & -> & _).
  exists (catalogURL ++ fn ++ b "/" ++ tok). split.
  - discriminate.
  - rewrite <- !app_assoc. reflexivity.
Qed.

Lemma url_findAt (fr : functionRelease) (s : bytes) :
  noDollar (MinorVersion fr) = true ->
  match findAt (urlPattern fr) s with
  | Some (n, c) => Some (template.Expand (b "${1}" ++ MinorVersion fr) c, n)
  | None => None
  end =
  match catalogOcc (FunctionName fr) (MinorVersion fr) s with
  | Some (out, rest) => Some (out, length s - length rest)
  | None => None
  end.
Proof.
  intros Hd. unfold findAt, matchAt, urlPattern, catalogOcc, catalogRefAt.
  cbn [rseq].
  rewrite exec_cap_lit with (l := catalogURL ++ FunctionName fr ++ b "/")
    by apply isLit_catalog.
  destruct (strings.HasPrefix s (catalogURL ++ FunctionName fr ++ b "/"));
    [|reflexivity].
  rewrite exec_cap_token_hd.
  destruct (tokenRest _) as [rest|]; [|reflexivity].
  rewrite (@Expand_urls _ (catalogURL ++ FunctionName fr ++ b "/"))
    by (exact Hd || reflexivity).
  rewrite <- !app_assoc. reflexivity.
Qed.

Lemma replaceURLs_scan (fr : functionRelease) (contents : bytes) :
  noDollar (MinorVersion fr) = true ->
  replaceURLs fr contents =
  scan (catalogOcc (FunctionName fr) (MinorVersion fr)) contents.
Proof.
  intros Hd. unfold replaceURLs. apply ReplaceAll_scan.
  - intros s out rest. apply catalogOcc_suffix.
  - intros s. apply url_findAt. exact Hd.
Qed.

Lemma scan_urls_rewritten (fn mv : bytes) (n : nat) :
  forall s, length s <= n ->
  URLsRewritten fn mv s (scan (catalogOcc fn mv) s).
Proof.
  induction n as [|n IH]; intros s Hl.
  - destruct s; [|simpl in Hl; lia].
    rewrite scan_eq by apply catalogOcc_suffix.
    destruct (catalogOcc fn mv []) as [[out rest]|] eqn:Ho.
    + apply catalogOcc_suffix in Ho as (m & Hm & Hs).
      destruct m; [congruence | discriminate].
    + constructor.
  - rewrite scan_eq by apply catalogOcc_suffix.
    unfold catalogOcc at 1.
    destruct (catalogRefAt fn s) as [rest|] eqn:Hr.
    + apply catalogRefAt_split in Hr as (tok & Ht & -> & Htok).
      rewrite <- !app_assoc.
      apply URLsRef.
      * apply versionToken_of_rest. exact Htok.
      * apply IH. rewrite !length_app in Hl.
        destruct tok; [congruence|]. simpl in Hl. lia.
    + destruct s as [|x s]; [constructor|].
      apply URLsCopy; [exact Hr|]. apply IH. simpl in Hl. lia.
Qed.

(** With a function name free of regex metacharacters and a minor version
    without [$], the catalog rule rewrites the contents as [URLsRewritten]
    says: from the left, each occurrence of
    [https://catalog.kpt.dev/<name>/] followed by a version token as
    [tokenRest] reads one keeps the URL and has the token replaced by the
    minor version of the release, not by its latest patch version; every
    other byte is copied unchanged. *)
Lemma replaceURLs_rewrites_to_minor (fr : functionRelease) (contents : bytes) :
  literalName (FunctionName fr) = true ->
  noDollar (MinorVersion fr) = true ->
  URLsRewritten (FunctionName fr) (MinorVersion fr)
                contents (replaceURLs fr contents).
Proof.
  intros _ Hd. rewrite replaceURLs_scan by exact Hd.
  apply scan_urls_rewritten with (n := length contents). lia.
Qed.

(** ** The example rule *)

Lemma exec_alts_lit (n : bytes) (names : list bytes) (s : bytes) (c : caps) :
  exec (alts (map lit (n :: names))) s c =
  map (fun m => (skipn (length m) s, c))
      (filter (fun m => strings.HasPrefix s m) (n :: names)).
Proof.
  revert n; induction names as [|n' names IH]; intros n.
  - cbn [map alts filter]. rewrite exec_lit.
    destruct (strings.HasPrefix s n); reflexivity.
  - change (exec (alts (map lit (n :: n' :: names))) s c)
      with (exec (lit n) s c ++ exec (alts (map lit (n' :: names))) s c).
    rewrite IH, exec_lit. cbn [filter].
    destruct (strings.HasPrefix s n); reflexivity.
Qed.

Lemma exec_names (names : list bytes) (s : bytes) (c : caps) :
  exec (alts (map lit names)) s c =
  map (fun m => (skipn (length m) s, c))
      (filter (fun m => strings.HasPrefix s m) (nameChoices names)).
Proof.
  destruct names as [|n names]; [reflexivity|]. apply exec_alts_lit.
Qed.

Lemma exec_cap_names (k : N) (names : list bytes) (s : bytes) (c : caps) :
  exec (RCap k (alts (map lit names))) s c =
  map (fun m => (skipn (length m) s, (k, m) :: c))
      (filter (fun m => strings.HasPrefix s m) (nameChoices names)).
Proof.
  cbn [exec]. rewrite exec_names, map_map.
  induction (nameChoices names) as [|m l IH]; [reflexivity|].
  cbn [filter]. destruct (strings.HasPrefix s m) eqn:Hp; [|exact IH].
  cbn [map fst snd]. rewrite firstn_consumed by exact Hp. f_equal. exact IH.
Qed.

Lemma takeRun_length (p : ascii -> bool) (s : bytes) :
  length (takeRun p s) + length (dropRun p s) = length s.
Proof. rewrite <- length_app, takeRun_dropRun. reflexivity. Qed.

Lemma firstn_takeRun (p : ascii -> bool) (s : bytes) :
  firstn (length (takeRun p s)) s = takeRun p s.
Proof.
  pose proof (takeRun_dropRun p s) as E. rewrite <- E at 2.
  apply firstn_app_exact.
Qed.

Lemma exec_cap_spaces (k : N) (s : bytes) (c : caps) :
  hd_error (exec (RCap k (RPlus CsSpace)) s c) =
  if startsWithSpace s
  then Some (dropRun isSpace s, (k, takeRun isSpace s) :: c)
  else None.
Proof.
  cbn [exec]. rewrite hd_error_map.
  destruct s as [|x s]; [reflexivity|].
  cbn [startsWithSpace cset_mem dropRun takeRun].
  destruct (isSpace x) eqn:Hx; [|reflexivity].
  rewrite star_hd. cbn [option_map fst snd]. change (cset_mem CsSpace) with isSpace.
  do 4 f_equal.
  pose proof (takeRun_length isSpace s) as E. cbn [length].
  replace (S (length s) - length (dropRun isSpace s))
    with (S (length (takeRun isSpace s))) by lia.
  cbn [firstn]. f_equal. apply firstn_takeRun.
Qed.

Lemma exec_cap_spaces_nil (k : N) (s : bytes) (c : caps) :
  startsWithSpace s = false -> exec (RCap k (RPlus CsSpace)) s c = [].
Proof.
  intros H. cbn [exec]. destruct s as [|x s]; [reflexivity|].
  cbn [startsWithSpace] in H. cbn [cset_mem]. rewrite H. reflexivity.
Qed.

Lemma exec_names_spaces (names : list bytes) (s : bytes) (c : caps) :
  hd_error (exec (RCat (RCap 2 (alts (map lit names))) (RCap 3 (RPlus CsSpace))) s c) =
  match find (fun n => strings.HasPrefix s n
                       && startsWithSpace (skipn (length n) s))
             (nameChoices names) with
  | Some n => Some (dropRun isSpace (skipn (length n) s),
                    (3%N, takeRun isSpace (skipn (length n) s)) :: (2%N, n) :: c)
  | None => None
  end.
Proof.
  change (exec (RCat (RCap 2 (alts (map lit names))) (RCap 3 (RPlus CsSpace))) s c)
    with (flat_map (fun p => exec (RCap 3 (RPlus CsSpace)) (fst p) (snd p))
                   (exec (RCap 2 (alts (map lit names))) s c)).
  rewrite exec_cap_names.
  induction (nameChoices names) as [|m l IH]; [reflexivity|].
  cbn [filter find]. destruct (strings.HasPrefix s m) eqn:Hp.
  - cbn [map flat_map fst snd andb].
    destruct (startsWithSpace (skipn (length m) s)) eqn:Hs.
    + pose proof (exec_cap_spaces 3 (skipn (length m) s) ((2%N, m) :: c)) as H.
      rewrite Hs in H. apply hd_error_app_l. exact H.
    + rewrite exec_cap_spaces_nil by exact Hs. exact IH.
  - cbn [andb]. exact IH.
Qed.

Lemma pkgRefAt_split (sub : bytes) (names : list bytes) (s name r : bytes) :
  pkgRefAt sub names s = Some (name, r) ->
  In name (nameChoices names)
  /\ s = catalogGit ++ sub ++ b "/" ++ name ++ r
  /\ startsWithSpace r = true.
Proof.
  unfold pkgRefAt.
  destruct (strings.HasPrefix s (catalogGit ++ sub ++ b "/")) eqn:Hp; [|discriminate].
  apply HasPrefix_split in Hp.
  destruct (find _ (nameChoices names)) as [n|] eqn:Hf; [|discriminate].
  intros [= <- <-]. apply find_some in Hf as [Hin Hn].
  apply andb_prop in Hn as [Hn Hs]. apply HasPrefix_split in Hn.
  repeat split; [exact Hin | | exact Hs].
  rewrite Hp at 1. rewrite Hn at 1. rewrite <- !app_assoc. reflexivity.
Qed.

Lemma dropRun_stops (p : ascii -> bool) (s : bytes) :
  match dropRun p s with
  | x :: _ => p x = false
  | [] => True
  end.
Proof.
  induction s as [|x s IH]; [exact I|]. cbn [dropRun].
  destruct (p x) eqn:Hx; [exact IH | exact Hx].
Qed.

Lemma startsWithSpace_dropRun (s : bytes) :
  startsWithSpace (dropRun isSpace s) = false.
Proof.
  pose proof (dropRun_stops isSpace s) as H.
  destruct (dropRun isSpace s); [reflexivity | exact H].
Qed.

Lemma takeRun_nonempty (s : bytes) :
  startsWithSpace s = true -> takeRun isSpace s <> [].
Proof.
  destruct s as [|x s]; [discriminate|]. cbn [startsWithSpace takeRun].
  intros ->. discriminate.
Qed.

Lemma pkgOcc_suffix (fr : functionRelease) (s out rest : bytes) :
  pkgOcc fr s = Some (out, rest) -> exists m, m <> [] /\ s = m ++ rest.
Proof.
  unfold pkgOcc.
  destruct (pkgRefAt _ _ s) as [[name r]|] eqn:H; [|discriminate].
  intros [= <- <-]. apply pkgRefAt_split in H as (_ & -> & _).
  exists (catalogGit ++ exampleSubPath fr ++ b "/" ++ name ++ takeRun isSpace r).
  split; [discriminate|].
  rewrite <- !app_assoc. rewrite takeRun_dropRun. reflexivity.
Qed.

Lemma isLit_git (sub : bytes) :
  isLit (rseq [lit catalogGit; lit sub; rchar "/"]) (catalogGit ++ sub ++ b "/").
Proof.
  cbn [rseq]. apply isLit_cat; [apply isLit_lit|].
  apply isLit_cat; [apply isLit_lit | apply isLit_rchar].
Qed.

Lemma pkg_findAt (fr : functionRelease) (s : bytes) :
  noDollar (FunctionName fr) = true ->
  noDollar (LatestPatchVersion fr) = true ->
  match findAt (kptPkgPattern fr) s with
  | Some (n, c) =>
      Some (template.Expand
              (b "${1}${2}@" ++ FunctionName fr ++ b "/"
               ++ LatestPatchVersion fr ++ b "${3}") c, n)
  | None => None
  end =
  match pkgOcc fr s with
  | Some (out, rest) => Some (out, length s - length rest)
  | None => None
  end.
Proof.
  intros Hf Hd. unfold findAt, matchAt, kptPkgPattern, pkgOcc, pkgRefAt.
  cbn [rseq].
  rewrite exec_cap_lit with (l := catalogGit ++ exampleSubPath fr ++ b "/")
    by apply isLit_git.
  destruct (strings.HasPrefix s (catalogGit ++ exampleSubPath fr ++ b "/"));
    [|reflexivity].
  rewrite exec_names_spaces.
  destruct (find _ (nameChoices (exampleNames (Examples fr)))) as [n|];
    [|reflexivity].
  rewrite (@Expand_pkgs _ _ (catalogGit ++ exampleSubPath fr ++ b "/") n
             (takeRun isSpace
                (skipn (length n)
                   (skipn (length (catalogGit ++ exampleSubPath fr ++ b "/")) s))))
    by (assumption || reflexivity).
  rewrite <- !app_assoc. reflexivity.
Qed.

Lemma replaceKptPackages_scan (fr : functionRelease) (contents : bytes) :
  noDollar (FunctionName fr) = true ->
  noDollar (LatestPatchVersion fr) = true ->
  replaceKptPackages fr contents = scan (pkgOcc fr) contents.
Proof.
  intros Hf Hd. unfold replaceKptPackages. apply ReplaceAll_scan.
  - intros s out rest. apply pkgOcc_suffix.
  - intros s. apply pkg_findAt; assumption.
Qed.

Lemma scan_pkgs_rewritten (fr : functionRelease) (n : nat) :
  forall s, length s <= n -> PkgsRewritten fr s (scan (pkgOcc fr) s).
Proof.
  induction n as [|n IH]; intros s Hl.
  - destruct s; [|simpl in Hl; lia].
    rewrite scan_eq by apply pkgOcc_suffix.
    destruct (pkgOcc fr []) as [[out rest]|] eqn:Ho.
    + apply pkgOcc_suffix in Ho as (m & Hm & Hs).
      destruct m; [congruence | discriminate].
    + constructor.
  - rewrite scan_eq by apply pkgOcc_suffix.
    unfold pkgOcc at 1.
    destruct (pkgRefAt _ _ s) as [[name r]|] eqn:Hr.
    + pose proof Hr as Hr'. apply pkgRefAt_split in Hr' as (Hin & Hs & Hsp).
      pose proof (takeRun_dropRun isSpace r) as Er.
      assert (Hs' : s = catalogGit ++ exampleSubPath fr ++ b "/" ++ name
                        ++ takeRun isSpace r ++ dropRun isSpace r)
        by (rewrite Er; exact Hs).
      rewrite <- !app_assoc. rewrite Hs' at 1.
      apply PkgsRef.
      * exact Hin.
      * apply takeRun_nonempty. exact Hsp.
      * apply takeRun_all.
      * apply startsWithSpace_dropRun.
      * rewrite Er, <- Hs. exact Hr.
      * apply IH. rewrite Hs' in Hl. rewrite !length_app in Hl.
        pose proof (takeRun_nonempty _ Hsp) as Hne.
        destruct (takeRun isSpace r); [congruence|]. simpl in Hl. lia.
    + destruct s as [|x s]; [constructor|].
      apply PkgsCopy; [exact Hr|]. apply IH. simpl in Hl. lia.
Qed.

(** With a function name and a latest patch version without [$] and
    example names free of regex metacharacters, the example rule rewrites
    the contents as [PkgsRewritten] says: from the left, each occurrence of
    the catalog repository URL, the examples sub-path of the release
    ([examples], or [contrib/examples] for a contrib function), one of the
    example names and white space gets [@<name>/<latest patch>] between the
    example name and the white space; the white space and every other byte
    are copied unchanged. *)
Lemma replaceKptPackages_pins_examples (fr : functionRelease) (contents : bytes) :
  forallb literalName (exampleNames (Examples fr)) = true ->
  noDollar (FunctionName fr) = true ->
  noDollar (LatestPatchVersion fr) = true ->
  PkgsRewritten fr contents (replaceKptPackages fr contents).
Proof.
  intros _ Hf Hd. rewrite replaceKptPackages_scan by assumption.
  apply scan_pkgs_rewritten with (n := length contents). lia.
Qed.

(** ** References that no white space follows *)

Lemma noSpace_skipn (n : nat) (u : bytes) :
  noSpace u = true -> noSpace (skipn n u) = true.
Proof.
  revert u; induction n as [|n IH]; intros u H; [exact H|].
  destruct u as [|x u]; [reflexivity|]. cbn [skipn].
  apply IH. cbn [noSpace forallb] in H. apply andb_prop in H as [_ H]. exact H.
Qed.

Lemma noSpace_start (u : bytes) : noSpace u = true -> startsWithSpace u = false.
Proof.
  destruct u as [|x u]; [reflexivity|]. cbn [noSpace forallb startsWithSpace].
  intros H. apply andb_prop in H as [H _]. destruct (isSpace x); [discriminate | reflexivity].
Qed.

Lemma spaceAfter_noSpace (u l : bytes) : noSpace u = true -> spaceAfter u l = false.
Proof.
  intros H. unfold spaceAfter.
  rewrite (noSpace_start _ (noSpace_skipn (length l) _ H)). apply andb_false_r.
Qed.

Lemma spaceAfter_app (p u l : bytes) :
  noSpace u = true -> spaceAfter (p ++ u) l = spaceAfter p l.
Proof.
  intros Hu. revert p; induction l as [|c l IH]; intros p.
  - unfold spaceAfter. cbn [strings.HasPrefix length skipn andb].
    destruct p as [|x p]; [apply noSpace_start; exact Hu | reflexivity].
  - destruct p as [|x p].
    + cbn [app]. rewrite spaceAfter_noSpace by exact Hu. reflexivity.
    + unfold spaceAfter in *. cbn [app strings.HasPrefix length skipn].
      destruct (ascii_dec c x); [apply IH | reflexivity].
Qed.

Lemma spaceAfter_length (p l : bytes) :
  spaceAfter p l = true -> length l <= length p.
Proof.
  unfold spaceAfter. intros H. apply andb_prop in H as [H _].
  apply HasPrefix_split in H. rewrite H, length_app. lia.
Qed.

Lemma pkgRefAt_alt (sub : bytes) (names : list bytes) (s : bytes) :
  pkgRefAt sub names s =
  match find (fun n => spaceAfter s ((catalogGit ++ sub ++ b "/") ++ n))
             (nameChoices names) with
  | Some n => Some (n, skipn (length ((catalogGit ++ sub ++ b "/") ++ n)) s)
  | None => None
  end.
Proof.
  unfold pkgRefAt. set (P := catalogGit ++ sub ++ b "/").
  assert (Hq : forall n, spaceAfter s (P ++ n) =
                         strings.HasPrefix s P &&
                         (strings.HasPrefix (skipn (length P) s) n
                          && startsWithSpace (skipn (length n) (skipn (length P) s)))).
  { intros n. unfold spaceAfter.
    rewrite HasPrefix_app_iff, skipn_skipn_add, length_app, andb_assoc.
    reflexivity. }
  cbv zeta. fold P.
  destruct (strings.HasPrefix s P) eqn:Hp.
  - induction (nameChoices names) as [|n l IH]; [reflexivity|].
    cbn [find]. rewrite Hq. cbn [andb].
    destruct (strings.HasPrefix (skipn (length P) s) n
              && startsWithSpace (skipn (length n) (skipn (length P) s))).
    + rewrite skipn_skipn_add, length_app. reflexivity.
    + exact IH.
  - induction (nameChoices names) as [|n l IH]; [reflexivity|].
    cbn [find]. rewrite Hq. cbn [andb]. exact IH.
Qed.

Lemma takeRun_app_noSpace (r u : bytes) :
  noSpace u = true -> takeRun isSpace (r ++ u) = takeRun isSpace r.
Proof.
  intros Hu. induction r as [|x r IH].
  - cbn [app takeRun]. destruct u as [|y u]; [reflexivity|].
    cbn [noSpace forallb] in Hu. apply andb_prop in Hu as [Hy _].
    cbn [takeRun]. destruct (isSpace y); [discriminate | reflexivity].
  - cbn [app takeRun]. destruct (isSpace x); [f_equal; exact IH | reflexivity].
Qed.

Lemma dropRun_app_noSpace (r u : bytes) :
  noSpace u = true -> dropRun isSpace (r ++ u) = dropRun isSpace r ++ u.
Proof.
  intros Hu. induction r as [|x r IH].
  - cbn [app dropRun]. destruct u as [|y u]; [reflexivity|].
    cbn [noSpace forallb] in Hu. apply andb_prop in Hu as [Hy _].
    cbn [dropRun]. destruct (isSpace y); [discriminate | reflexivity].
  - cbn [app dropRun]. destruct (isSpace x); [exact IH | reflexivity].
Qed.

Lemma find_pointwise {A} (f g : A -> bool) (l : list A) :
  (forall a, f a = g a) -> find f l = find g l.
Proof.
  intros H. induction l as [|a l IH]; [reflexivity|].
  cbn [find]. rewrite H, IH. reflexivity.
Qed.

Lemma pkgOcc_app (fr : functionRelease) (p u : bytes) :
  noSpace u = true ->
  pkgOcc fr (p ++ u) =
  match pkgOcc fr p with
  | Some (out, rest) => Some (out, rest ++ u)
  | None => None
  end.
Proof.
  intros Hu. unfold pkgOcc. rewrite !pkgRefAt_alt.
  rewrite (find_pointwise _ (fun n => spaceAfter p
             ((catalogGit ++ exampleSubPath fr ++ b "/") ++ n)))
    by (intros n; apply spaceAfter_app; exact Hu).
  destruct (find _ _) as [n|] eqn:Hf; [|reflexivity].
  apply find_some in Hf as [_ Hn]. apply spaceAfter_length in Hn.
  rewrite skipn_app.
  replace (length ((catalogGit ++ exampleSubPath fr ++ b "/") ++ n) - length p)
    with 0 by lia.
  cbn [skipn].
  rewrite takeRun_app_noSpace, dropRun_app_noSpace by exact Hu. reflexivity.
Qed.

Lemma scan_pkgs_noSpace (fr : functionRelease) (u : bytes) :
  noSpace u = true -> scan (pkgOcc fr) u = u.
Proof.
  induction u as [|x u IH]; intros Hu.
  - rewrite scan_eq by apply pkgOcc_suffix.
    destruct (pkgOcc fr []) as [[out rest]|] eqn:Ho; [|reflexivity].
    apply pkgOcc_suffix in Ho as (m & Hm & Hs). destruct m; [congruence | discriminate].
  - rewrite scan_eq by apply pkgOcc_suffix.
    pose proof (pkgOcc_app fr [] (x :: u) Hu) as Ha. cbn [app] in Ha.
    destruct (pkgOcc fr []) as [[out rest]|] eqn:Ho.
    + apply pkgOcc_suffix in Ho as (m & Hm & Hs). destruct m; [congruence | discriminate].
    + rewrite Ha. f_equal. apply IH.
      cbn [noSpace forallb] in Hu. apply andb_prop in Hu as [_ Hu]. exact Hu.
Qed.

Lemma scan_pkgs_app (fr : functionRelease) (u : bytes) (n : nat) :
  noSpace u = true ->
  forall p, length p <= n ->
  scan (pkgOcc fr) (p ++ u) = scan (pkgOcc fr) p ++ u.
Proof.
  intros Hu. induction n as [|n IH]; intros p Hl.
  - destruct p; [|simpl in Hl; lia]. cbn [app].
    rewrite scan_pkgs_noSpace by exact Hu.
    rewrite (scan_eq (pkgOcc fr) (pkgOcc_suffix fr) []).
    destruct (pkgOcc fr []) as [[out rest]|] eqn:Ho; [|reflexivity].
    apply pkgOcc_suffix in Ho as (m & Hm & Hs). destruct m; [congruence | discriminate].
  - rewrite (scan_eq (pkgOcc fr) (pkgOcc_suffix fr) (p ++ u)).
    rewrite (scan_eq (pkgOcc fr) (pkgOcc_suffix fr) p).
    rewrite pkgOcc_app by exact Hu.
    destruct (pkgOcc fr p) as [[out rest]|] eqn:Ho.
    + rewrite <- app_assoc. f_equal. apply IH.
      apply (occ_shorter (pkgOcc fr) (pkgOcc_suffix fr)) in Ho. lia.
    + destruct p as [|x p].
      * cbn [app]. destruct u as [|y u]; [reflexivity|].
        f_equal. apply scan_pkgs_noSpace.
        cbn [noSpace forallb] in Hu. apply andb_prop in Hu as [_ Hu]. exact Hu.
      * cbn [app]. f_equal. apply IH. simpl in Hl. lia.
Qed.

Lemma noSpace_app (x y : bytes) : noSpace (x ++ y) = noSpace x && noSpace y.
Proof. apply forallb_app. Qed.

(** C10. With a function name and a latest patch version without [$] and
    example names free of regex metacharacters: an example package URL
    whose name holds no white space and that ends the contents, with no
    white space after it, is left as it is, no pinned suffix is appended;
    what stands before it is rewritten as it would be on its own. *)
Theorem replaceKptPackages_end_untouched
    (fr : functionRelease) (pre name : bytes) :
  forallb literalName (exampleNames (Examples fr)) = true ->
  noDollar (FunctionName fr) = true ->
  noDollar (LatestPatchVersion fr) = true ->
  noSpace name = true ->
  replaceKptPackages fr (pre ++ catalogGit ++ exampleSubPath fr ++ b "/" ++ name) =
  replaceKptPackages fr pre ++ catalogGit ++ exampleSubPath fr ++ b "/" ++ name.
Proof.
  intros _ Hf Hd Hn. rewrite !replaceKptPackages_scan by assumption.
  apply scan_pkgs_app with (n := length pre); [|lia].
  rewrite !noSpace_app, Hn.
  unfold exampleSubPath. destruct (IsContrib fr); reflexivity.
Qed.

(** ** Locality of the recognisers

    A [:] or a [/] ends every version token, so what a recogniser finds
    before one does not depend on what comes after it. *)

Lemma isSep_cases (sep : ascii) : isSep sep = true -> sep = ":"%char \/ sep = "/"%char.
Proof.
  unfold isSep. destruct (ascii_dec sep ":"); [left; assumption|].
  destruct (ascii_dec sep "/"); [right; assumption | discriminate].
Qed.

Lemma dropRun_app (p : ascii -> bool) (a r : bytes) :
  dropRun p (a ++ r) =
  match dropRun p a with
  | [] => dropRun p r
  | y :: a' => (y :: a') ++ r
  end.
Proof.
  induction a as [|x a IH]; [reflexivity|]. cbn [app dropRun].
  destruct (p x); [exact IH | reflexivity].
Qed.

Lemma dropRun_app_stop (p : ascii -> bool) (a t : bytes) (sep : ascii) :
  p sep = false -> dropRun p (a ++ sep :: t) = dropRun p a ++ sep :: t.
Proof.
  intros H. rewrite dropRun_app. cbn [dropRun]. rewrite H.
  destruct (dropRun p a); reflexivity.
Qed.

Lemma afterChar_app_stop (c sep : ascii) (a t : bytes) :
  c <> sep ->
  afterChar c (a ++ sep :: t) = option_map (fun r => r ++ sep :: t) (afterChar c a).
Proof.
  intros H. destruct a as [|x a]; cbn [app afterChar].
  - destruct (ascii_dec c sep); [congruence | reflexivity].
  - destruct (ascii_dec c x); reflexivity.
Qed.

Lemma HasPrefix_app_stop (l a t : bytes) (sep : ascii) :
  ~ In sep l -> strings.HasPrefix (a ++ sep :: t) l = strings.HasPrefix a l.
Proof.
  revert a; induction l as [|c l IH]; intros a Hn; [reflexivity|].
  destruct a as [|x a]; cbn [app strings.HasPrefix].
  - destruct (ascii_dec c sep) as [->|]; [|reflexivity].
    exfalso. apply Hn. left. reflexivity.
  - destruct (ascii_dec c x); [|reflexivity].
    apply IH. intros Hi. apply Hn. right. exact Hi.
Qed.

Lemma skipn_app_le {A} (n : nat) (a r : list A) :
  n <= length a -> skipn n (a ++ r) = skipn n a ++ r.
Proof.
  intros H. rewrite skipn_app. replace (n - length a) with 0 by lia. reflexivity.
Qed.

Lemma HasPrefix_length (s l : bytes) :
  strings.HasPrefix s l = true -> length l <= length s.
Proof. intros H. apply HasPrefix_split in H. rewrite H, length_app. lia. Qed.

Lemma tokenRest_app_sep (w t : bytes) (sep : ascii) :
  isSep sep = true ->
  tokenRest (w ++ sep :: t) = option_map (fun r => r ++ sep :: t) (tokenRest w).
Proof.
  intros Hs. unfold tokenRest.
  assert (Hd : isDigit sep = false)
    by (destruct (isSep_cases _ Hs) as [-> | ->]; reflexivity).
  assert (Hv : "v"%char <> sep)
    by (destruct (isSep_cases _ Hs) as [-> | ->]; discriminate).
  assert (Hp : "."%char <> sep)
    by (destruct (isSep_cases _ Hs) as [-> | ->]; discriminate).
  rewrite HasPrefix_app_stop.
  2:{ destruct (isSep_cases _ Hs) as [-> | ->]; cbn; intuition discriminate. }
  destruct (strings.HasPrefix w (b "unstable")) eqn:Hu.
  - apply HasPrefix_length in Hu. cbn [option_map].
    rewrite skipn_app_le by exact Hu. reflexivity.
  - rewrite afterChar_app_stop by exact Hv.
    destruct (afterChar "v" w) as [s1|]; [|reflexivity]. cbn [option_map].
    rewrite dropRun_app_stop, afterChar_app_stop by assumption.
    destruct (afterChar "." (dropRun isDigit s1)) as [s2|]; [|reflexivity].
    cbn [option_map].
    rewrite dropRun_app_stop, afterChar_app_stop by assumption.
    destruct (afterChar "." (dropRun isDigit s2)) as [s3|]; cbn [option_map].
    + rewrite dropRun_app_stop by assumption. reflexivity.
    + reflexivity.
Qed.

Lemma HasPrefix_app_long (l a r : bytes) :
  length l <= length a -> strings.HasPrefix (a ++ r) l = strings.HasPrefix a l.
Proof.
  revert a; induction l as [|c l IH]; intros a H; [reflexivity|].
  destruct a as [|x a]; [simpl in H; lia|]. cbn [app strings.HasPrefix].
  destruct (ascii_dec c x); [apply IH; simpl in H; lia | reflexivity].
Qed.

Lemma tagRefAt_app_sep (fn w t : bytes) (sep : ascii) :
  length fn < length w -> isSep sep = true ->
  tagRefAt fn (w ++ sep :: t) =
  option_map (fun p => (fst p, snd p ++ sep :: t)) (tagRefAt fn w).
Proof.
  intros Hl Hs. unfold tagRefAt.
  rewrite HasPrefix_app_long by lia.
  destruct (strings.HasPrefix w fn); [|reflexivity].
  rewrite skipn_app_le by lia.
  destruct (skipn (length fn) w) as [|y w'] eqn:Hw.
  - exfalso. apply (f_equal (@length _)) in Hw. rewrite length_skipn in Hw.
    simpl in Hw. lia.
  - cbn [app]. destruct (isSep y); [|reflexivity].
    rewrite tokenRest_app_sep by exact Hs.
    destruct (tokenRest w'); reflexivity.
Qed.

(** ** The tag rule applied twice *)

Section TagsTwice.

Variables fn latest : bytes.

Let R := scan (tagOcc fn latest).

Lemma R_eq (s : bytes) :
  R s =
  match tagRefAt fn s with
  | Some (sep, rest) => fn ++ sep :: latest ++ R rest
  | None =>
      match s with
      | [] => []
      | x :: s' => x :: R s'
      end
  end.
Proof.
  unfold R. rewrite scan_eq at 1 by apply tagOcc_suffix.
  unfold tagOcc at 1. destruct (tagRefAt fn s) as [[sep rest]|]; [|reflexivity].
  rewrite <- app_assoc. reflexivity.
Qed.

(** Either nothing is rewritten, or the contents and the result agree up
    to the separator of a reference. *)
Lemma R_common_prefix (s : bytes) :
  R s = s \/
  exists w sep t t',
    length fn <= length w /\ isSep sep = true
    /\ s = w ++ sep :: t /\ R s = w ++ sep :: t'.
Proof.
  induction s as [|x s IH]; rewrite R_eq.
  - destruct (tagRefAt fn []) as [[sep rest]|] eqn:Hr; [|left; reflexivity].
    apply tagRefAt_split in Hr as (tok & _ & Hsep & Hs & _).
    destruct fn; discriminate.
  - destruct (tagRefAt fn (x :: s)) as [[sep rest]|] eqn:Hr.
    + apply tagRefAt_split in Hr as (tok & _ & Hsep & Hs & _).
      right. exists fn, sep, (tok ++ rest), (latest ++ R rest).
      repeat split; [lia | exact Hsep | exact Hs].
    + destruct IH as [IH | (w & sep & t & t' & Hl & Hsep & Hs & Hr')].
      * left. rewrite IH. reflexivity.
      * right. exists (x :: w), sep, t, t'.
        repeat split; [simpl; lia | exact Hsep | rewrite Hs; reflexivity
                      | rewrite Hr'; reflexivity].
Qed.

Lemma R_head (s : bytes) : startsWithDigit (R s) = startsWithDigit s.
Proof.
  rewrite R_eq. destruct (tagRefAt fn s) as [[sep rest]|] eqn:Hr.
  - apply tagRefAt_split in Hr as (tok & _ & Hsep & -> & _).
    destruct fn; reflexivity.
  - destruct s; reflexivity.
Qed.

(** Where no reference starts before the rewrite, none starts after it. *)
Lemma no_new_reference (x : ascii) (s : bytes) :
  tagRefAt fn (x :: s) = None -> tagRefAt fn (x :: R s) = None.
Proof.
  intros Hn.
  destruct (R_common_prefix s) as [-> | (w & sep & t & t' & Hl & Hsep & Hs & Hr)];
    [exact Hn|].
  rewrite Hr. rewrite Hs in Hn.
  change (x :: w ++ sep :: t) with ((x :: w) ++ sep :: t) in Hn.
  change (x :: w ++ sep :: t') with ((x :: w) ++ sep :: t').
  rewrite tagRefAt_app_sep in Hn |- * by (simpl; lia || exact Hsep).
  destruct (tagRefAt fn (x :: w)); [discriminate | reflexivity].
Qed.

End TagsTwice.

Lemma dropRun_id (p : ascii -> bool) (r : bytes) :
  match r with x :: _ => p x | [] => false end = false -> dropRun p r = r.
Proof. destruct r as [|x r]; [reflexivity|]. cbn [dropRun]. intros ->. reflexivity. Qed.

Lemma patchForm_token (latest r : bytes) :
  isPatchForm latest = true -> startsWithDigit r = false ->
  tokenRest (latest ++ r) = Some r.
Proof.
  unfold isPatchForm. intros Hp Hr.
  destruct (afterChar "v" latest) as [s1|] eqn:H1; [|discriminate].
  apply afterChar_Some in H1. subst latest.
  destruct (afterChar "." (dropRun isDigit s1)) as [s2|] eqn:H2; [|discriminate].
  apply afterChar_Some in H2.
  destruct (afterChar "." (dropRun isDigit s2)) as [s3|] eqn:H3; [|discriminate].
  apply afterChar_Some in H3.
  destruct (dropRun isDigit s3) eqn:H4; [|discriminate].
  unfold tokenRest. cbn [app].
  replace (strings.HasPrefix ("v"%char :: s1 ++ r) (b "unstable")) with false
    by reflexivity.
  cbn [afterChar]. destruct (ascii_dec "v" "v"); [|congruence].
  rewrite dropRun_app, H2. cbn [app afterChar].
  destruct (ascii_dec "." "."); [|congruence].
  rewrite dropRun_app, H3. cbn [app afterChar].
  destruct (ascii_dec "." "."); [|congruence].
  rewrite dropRun_app, H4. f_equal. apply dropRun_id. exact Hr.
Qed.

Lemma noUnstableDigit_suffix (a s : bytes) :
  noUnstableDigit (a ++ s) = true -> noUnstableDigit s = true.
Proof.
  induction a as [|x a IH]; [trivial|]. cbn [app noUnstableDigit].
  intros H. apply andb_prop in H as [_ H]. apply IH. exact H.
Qed.

Lemma noUnstableDigit_head (s : bytes) :
  noUnstableDigit s = true ->
  strings.HasPrefix s (b "unstable") = true -> startsWithDigit (skipn 8 s) = false.
Proof.
  intros H Hu. destruct s as [|x s]; [discriminate|].
  cbn [noUnstableDigit] in H. apply andb_prop in H as [H _].
  rewrite Hu in H. cbn [andb] in H.
  destruct (startsWithDigit (skipn 8 (x :: s))); [discriminate | reflexivity].
Qed.

Lemma tokenRest_rest_head (s rest : bytes) :
  tokenRest s = Some rest -> noUnstableDigit s = true ->
  startsWithDigit rest = false.
Proof.
  unfold tokenRest. intros H Hn.
  destruct (strings.HasPrefix s (b "unstable")) eqn:Hu.
  - injection H as <-. apply noUnstableDigit_head; assumption.
  - destruct (afterChar "v" s) as [s1|]; [|discriminate].
    destruct (afterChar "." (dropRun isDigit s1)) as [s2|]; [|discriminate].
    assert (Hstop : forall u, startsWithDigit (dropRun isDigit u) = false).
    { intros u. pose proof (dropRun_stops isDigit u) as Hs.
      destruct (dropRun isDigit u); [reflexivity | exact Hs]. }
    destruct (afterChar "." (dropRun isDigit s2)) as [s3|];
      injection H as <-; apply Hstop.
Qed.

Lemma scan_tags_twice (fn latest : bytes) (n : nat) :
  isPatchForm latest = true ->
  forall s, length s <= n -> noUnstableDigit s = true ->
  scan (tagOcc fn latest) (scan (tagOcc fn latest) s) = scan (tagOcc fn latest) s.
Proof.
  intros Hp. induction n as [|n IH]; intros s Hl Hn.
  - destruct s; [|simpl in Hl; lia].
    rewrite (R_eq fn latest []).
    destruct (tagRefAt fn []) as [[sep rest]|] eqn:Hr.
    + apply tagRefAt_split in Hr as (tok & _ & _ & Hs & _). destruct fn; discriminate.
    + rewrite (R_eq fn latest []), Hr. reflexivity.
  - rewrite (R_eq fn latest s).
    destruct (tagRefAt fn s) as [[sep rest]|] eqn:Hr.
    + pose proof Hr as Hr'.
      apply tagRefAt_split in Hr' as (tok & Ht & Hsep & Hs & Htok).
      assert (Hnr : noUnstableDigit (tok ++ rest) = true).
      { rewrite Hs in Hn. apply noUnstableDigit_suffix in Hn.
        apply (noUnstableDigit_suffix [sep]). exact Hn. }
      assert (Hrest : startsWithDigit rest = false)
        by (apply (tokenRest_rest_head _ Htok Hnr)).
      rewrite (R_eq fn latest (fn ++ sep :: latest ++ scan (tagOcc fn latest) rest)).
      assert (Hre : tagRefAt fn (fn ++ sep :: latest ++ scan (tagOcc fn latest) rest)
                    = Some (sep, scan (tagOcc fn latest) rest)).
      { unfold tagRefAt. rewrite HasPrefix_app, skipn_app_exact, Hsep.
        rewrite patchForm_token; [reflexivity | exact Hp |].
        rewrite R_head. exact Hrest. }
      rewrite Hre. do 3 f_equal. apply IH.
      * rewrite Hs in Hl. rewrite length_app in Hl. cbn [length] in Hl.
        rewrite length_app in Hl. lia.
      * apply (noUnstableDigit_suffix tok). exact Hnr.
    + destruct s as [|x s]; [rewrite (R_eq fn latest []), Hr; reflexivity|].
      rewrite (R_eq fn latest (x :: scan (tagOcc fn latest) s)).
      rewrite (no_new_reference fn latest x s Hr). f_equal. apply IH.
      * simpl in Hl. lia.
      * apply (noUnstableDigit_suffix [x]). exact Hn.
Qed.

(** The examples of the specification for the tag rule: the separator is
    kept. *)
Example replaceTags_separators :
  replaceTags (applySetters (b "v1.0.3")) (b "apply-setters/v1.0")
    = b "apply-setters/v1.0.3"
  /\ replaceTags (applySetters (b "v1.0.3")) (b "apply-setters:v1.0")
    = b "apply-setters:v1.0.3".
Proof. split; vm_compute; reflexivity. Qed.

(** C5. The tag rule replaces more than the version token: the pattern
    lets every run of digits be empty, so in [See apply-setters:v1.0. Then]
    it reads the full stop after [v1.0] as the dot before an empty patch
    number, and the full stop is replaced with the token. *)
Theorem replaceTags_takes_following_dot :
  replaceTags (applySetters (b "v1.0.3")) (b "See apply-setters:v1.0. Then")
  = b "See apply-setters:v1.0.3 Then".
Proof. vm_compute. reflexivity. Qed.

(** The example of the specification for the catalog rule. *)
Example replaceURLs_minor :
  replaceURLs (applySetters (b "v1.0.5"))
    (b "https://catalog.kpt.dev/apply-setters/v1.0.1")
  = b "https://catalog.kpt.dev/apply-setters/v1.0".
Proof. vm_compute. reflexivity. Qed.

(** C6. The catalog rule replaces more than the version token: the
    pattern lets every run of digits be empty, so in
    [https://catalog.kpt.dev/apply-setters/v1.0. Next] the full stop after
    [v1.0] is read as the dot before an empty patch number and is replaced
    with the token. *)
Theorem replaceURLs_takes_following_dot :
  replaceURLs (applySetters (b "v1.0.5"))
    (b "https://catalog.kpt.dev/apply-setters/v1.0. Next")
  = b "https://catalog.kpt.dev/apply-setters/v1.0 Next".
Proof. vm_compute. reflexivity. Qed.

(** The example of the specification for the example rule. *)
Example replaceKptPackages_pin :
  replaceKptPackages (applySetters (b "v1.0.1")) pkgLine
  = catalogGit ++ b "examples/apply-setters-simple@apply-setters/v1.0.1" ++ [newline].
Proof. vm_compute. reflexivity. Qed.

(** C7. The example rule pins a URL that names no example: for a release
    without examples the alternation of the example names is empty and
    matches the empty text, so the URL of the examples directory itself,
    followed by white space, gets the suffix. *)
Theorem replaceKptPackages_pins_without_example :
  replaceKptPackages
    {| FunctionName := b "apply-setters";
       MinorVersion := b "v1.0";
       Language := b "go";
       LatestPatchVersion := b "v1.0.1";
       FunctionPath := b "functions/go/apply-setters";
       Examples := [];
       IsContrib := false |}
    (b "See " ++ catalogGit ++ b "examples/ for more")
  = b "See " ++ catalogGit ++ b "examples/@apply-setters/v1.0.1 for more".
Proof. vm_compute. reflexivity. Qed.

Lemma replaceKptPackages_end_untouched_witness :
  replaceKptPackages (applySetters (b "v1.0.1"))
    (b "kpt pkg get " ++ catalogGit ++ exampleSubPath (applySetters (b "v1.0.1"))
     ++ b "/" ++ b "apply-setters-simple")
  = replaceKptPackages (applySetters (b "v1.0.1")) (b "kpt pkg get ")
    ++ catalogGit ++ exampleSubPath (applySetters (b "v1.0.1"))
    ++ b "/" ++ b "apply-setters-simple".
Proof.
  apply (replaceKptPackages_end_untouched (applySetters (b "v1.0.1"))
           (b "kpt pkg get ") (b "apply-setters-simple")); reflexivity.
Defined.

(** The reference alone, at the end of the contents: nothing changes. *)
Example replaceKptPackages_no_space :
  replaceKptPackages (applySetters (b "v1.0.1"))
    (catalogGit ++ b "examples/apply-setters-simple")
  = catalogGit ++ b "examples/apply-setters-simple".
Proof. vm_compute. reflexivity. Qed.

(** ** Names *)

Lemma takeRun_app_stop (p : ascii -> bool) (a t : bytes) (y : ascii) :
  forallb p a = true -> p y = false -> takeRun p (a ++ y :: t) = a.
Proof.
  intros Ha Hy. induction a as [|x a IH]; cbn [app takeRun].
  - rewrite Hy. reflexivity.
  - cbn [forallb] in Ha. apply andb_prop in Ha as [Hx Ha].
    rewrite Hx. f_equal. apply IH. exact Ha.
Qed.

Lemma dropRun_app_all (p : ascii -> bool) (a t : bytes) :
  forallb p a = true -> dropRun p (a ++ t) = dropRun p t.
Proof.
  intros Ha. induction a as [|x a IH]; [reflexivity|]. cbn [app dropRun].
  cbn [forallb] in Ha. apply andb_prop in Ha as [Hx Ha].
  rewrite Hx. apply IH. exact Ha.
Qed.

Lemma isSep_not_word (y : ascii) : isSep y = true -> isWordDash y = false.
Proof. intros H. destruct (isSep_cases _ H) as [-> | ->]; reflexivity. Qed.

Lemma HasPrefix_takeRun (p : ascii -> bool) (s : bytes) :
  strings.HasPrefix s (takeRun p s) = true.
Proof.
  pose proof (takeRun_dropRun p s) as E. rewrite <- E at 1. apply HasPrefix_app.
Qed.

Lemma skipn_takeRun (p : ascii -> bool) (s : bytes) :
  skipn (length (takeRun p s)) s = dropRun p s.
Proof.
  pose proof (takeRun_dropRun p s) as E. rewrite <- E at 2. apply skipn_app_exact.
Qed.

(** For a name, a tag reference starts with the whole run of name bytes. *)
Lemma tagRefAt_name (fn s : bytes) :
  forallb isWordDash fn = true ->
  tagRefAt fn s =
  if beq (takeRun isWordDash s) fn then
    match dropRun isWordDash s with
    | y :: s1 =>
        if isSep y then
          match tokenRest s1 with
          | Some rest => Some (y, rest)
          | None => None
          end
        else None
    | [] => None
    end
  else None.
Proof.
  intros Hfn. destruct (beq (takeRun isWordDash s) fn) eqn:Hb.
  - apply beq_true in Hb. subst fn. unfold tagRefAt.
    rewrite HasPrefix_takeRun, skipn_takeRun. reflexivity.
  - unfold tagRefAt. destruct (strings.HasPrefix s fn) eqn:Hp; [|reflexivity].
    apply HasPrefix_split in Hp.
    destruct (skipn (length fn) s) as [|y s1]; [reflexivity|].
    destruct (isSep y) eqn:Hy; [|reflexivity].
    exfalso. apply beq_false in Hb. apply Hb. rewrite Hp.
    apply takeRun_app_stop; [exact Hfn | apply isSep_not_word; exact Hy].
Qed.

Lemma isName_parts (fn : bytes) :
  isName fn = true -> fn <> [] /\ forallb isWordDash fn = true.
Proof.
  unfold isName. intros H. apply andb_prop in H as [H1 H2].
  split; [destruct fn; [discriminate | discriminate] | exact H2].
Qed.

Lemma scan_tags_nil (fn latest : bytes) : scan (tagOcc fn latest) [] = [].
Proof.
  rewrite (R_eq fn latest []).
  destruct (tagRefAt fn []) as [[sep rest]|] eqn:Hr; [|reflexivity].
  apply tagRefAt_split in Hr as (tok & _ & _ & Hs & _). destruct fn; discriminate.
Qed.

(** A run of name bytes and the byte that ends it are copied when no end
    of the run that is the function name is followed by a separator and a
    version token. *)
Lemma scan_word_run (fn latest a rest : bytes) (y : ascii) :
  isName fn = true ->
  forallb isWordDash a = true -> isWordDash y = false ->
  (forall a1 a2, a = a1 ++ a2 -> a2 = fn -> isSep y = true -> tokenRest rest = None) ->
  scan (tagOcc fn latest) (a ++ y :: rest) = a ++ y :: scan (tagOcc fn latest) rest.
Proof.
  intros Hn Ha Hy Hc. apply isName_parts in Hn as [Hne Hw].
  induction a as [|x a IH].
  - cbn [app]. rewrite (R_eq fn latest (y :: rest)).
    rewrite tagRefAt_name by exact Hw. cbn [takeRun]. rewrite Hy.
    replace (beq [] fn) with false; [reflexivity|].
    symmetry. apply beq_false. congruence.
  - cbn [forallb] in Ha. apply andb_prop in Ha as [Hx Ha].
    cbn [app]. rewrite (R_eq fn latest (x :: a ++ y :: rest)).
    rewrite tagRefAt_name by exact Hw.
    change (x :: a ++ y :: rest) with ((x :: a) ++ y :: rest).
    rewrite takeRun_app_stop by (cbn [forallb]; rewrite ?Hx, ?Ha; auto).
    rewrite dropRun_app_all by (cbn [forallb]; rewrite ?Hx, ?Ha; auto).
    cbn [dropRun]. rewrite Hy.
    assert (Hnone : (if beq (x :: a) fn
                     then if isSep y
                          then match tokenRest rest with
                               | Some r => Some (y, r)
                               | None => None
                               end
                          else None
                     else None) = None).
    { destruct (beq (x :: a) fn) eqn:Hb; [|reflexivity].
      destruct (isSep y) eqn:Hs; [|reflexivity].
      apply beq_true in Hb.
      rewrite (Hc [] (x :: a) eq_refl Hb eq_refl). reflexivity. }
    rewrite Hnone. cbn [app]. f_equal. apply IH; [exact Ha|].
    intros a1 a2 E. apply (Hc (x :: a1) a2). rewrite E. reflexivity.
Qed.

Lemma tokenRest_slash (t : bytes) : tokenRest ("/"%char :: t) = None.
Proof. reflexivity. Qed.

(** Inside [https://catalog.kpt.dev/] no tag reference starts; the one at
    the function name after it is rewritten. *)
Lemma scan_tags_catalog (fn latest tok : bytes) :
  isName fn = true -> isToken tok = true ->
  scan (tagOcc fn latest) (catalogURL ++ fn ++ b "/" ++ tok)
  = catalogURL ++ fn ++ b "/" ++ latest.
Proof.
  intros Hn Ht.
  change (catalogURL ++ fn ++ b "/" ++ tok)
    with (b "https" ++ ":"%char :: ([] ++ "/"%char :: ([] ++ "/"%char ::
          (b "catalog" ++ "."%char :: (b "kpt" ++ "."%char ::
          (b "dev" ++ "/"%char :: (fn ++ "/"%char :: tok))))))).
  rewrite scan_word_run by (try reflexivity; try exact Hn).
  rewrite scan_word_run by (try reflexivity; try exact Hn).
  rewrite scan_word_run by (try reflexivity; try exact Hn; intros; discriminate).
  rewrite scan_word_run by (try reflexivity; try exact Hn; intros; discriminate).
  rewrite scan_word_run by (try reflexivity; try exact Hn; intros; discriminate).
  rewrite scan_word_run.
  - rewrite (R_eq fn latest (fn ++ "/"%char :: tok)).
    unfold tagRefAt. rewrite HasPrefix_app, skipn_app_exact.
    cbn [isSep]. unfold isToken in Ht.
    destruct (tokenRest tok) as [[|z r]|]; try discriminate.
    replace (isSep "/") with true by reflexivity.
    rewrite scan_tags_nil, app_nil_r. reflexivity.
  - exact Hn.
  - reflexivity.
  - reflexivity.
  - intros a1 a2 E <- _.
    destruct a1 as [|c1 a1]; [cbn [app] in E; subst a2; reflexivity|].
    destruct a1 as [|c2 a1]; [injection E as _ <-; reflexivity|].
    destruct a1 as [|c3 a1]; [injection E as _ _ <-; reflexivity|].
    destruct a1 as [|c4 a1]; [injection E as _ _ _ <-; discriminate Hn|].
    discriminate E.
Qed.

(** ** The bytes of names and of version tokens *)

Lemma forallb_impl {A} (p q : A -> bool) (l : list A) :
  (forall a, p a = true -> q a = true) -> forallb p l = true -> forallb q l = true.
Proof.
  intros H. induction l as [|a l IH]; [trivial|]. cbn [forallb].
  intros Hl. apply andb_prop in Hl as [Ha Hl]. rewrite (H a Ha), (IH Hl). reflexivity.
Qed.

Lemma digit_tokenChar (c : ascii) : isDigit c = true -> isTokenChar c = true.
Proof. intros H. unfold isTokenChar, isWord. rewrite H. reflexivity. Qed.

Lemma tokenChar_noSpace (c : ascii) : isTokenChar c = true -> negb (isSpace c) = true.
Proof.
  destruct c as [[] [] [] [] [] [] [] []]; vm_compute; intros H;
    first [reflexivity | discriminate H].
Qed.

Lemma tokenChar_noDollar (c : ascii) :
  isTokenChar c = true -> (if ascii_dec c "$" then false else true) = true.
Proof.
  intros H. destruct (ascii_dec c "$") as [->|]; [discriminate H | reflexivity].
Qed.

Lemma wordDash_noSpace (c : ascii) : isWordDash c = true -> negb (isSpace c) = true.
Proof.
  destruct c as [[] [] [] [] [] [] [] []]; vm_compute; intros H;
    first [reflexivity | discriminate H].
Qed.

Lemma wordDash_noDollar (c : ascii) :
  isWordDash c = true -> (if ascii_dec c "$" then false else true) = true.
Proof.
  intros H. destruct (ascii_dec c "$") as [->|]; [discriminate H | reflexivity].
Qed.

Lemma wordDash_literal (c : ascii) : isWordDash c = true -> negb (isMeta c) = true.
Proof.
  destruct c as [[] [] [] [] [] [] [] []]; vm_compute; intros H;
    first [reflexivity | discriminate H].
Qed.

Lemma isName_noSpace (fn : bytes) : isName fn = true -> noSpace fn = true.
Proof.
  intros H. apply isName_parts in H as [_ H].
  exact (forallb_impl _ _ _ wordDash_noSpace H).
Qed.

Lemma isName_noDollar (fn : bytes) : isName fn = true -> noDollar fn = true.
Proof.
  intros H. apply isName_parts in H as [_ H].
  exact (forallb_impl _ _ _ wordDash_noDollar H).
Qed.

Lemma isName_literal (fn : bytes) : isName fn = true -> literalName fn = true.
Proof.
  intros H. apply isName_parts in H as [_ H].
  exact (forallb_impl _ _ _ wordDash_literal H).
Qed.

Lemma isToken_chars (x : bytes) : isToken x = true -> forallb isTokenChar x = true.
Proof.
  unfold isToken. destruct (tokenRest x) as [[|z r]|] eqn:Hr; try discriminate.
  intros _. unfold tokenRest in Hr.
  destruct (strings.HasPrefix x (b "unstable")) eqn:Hu.
  - apply HasPrefix_split in Hu. change (length (b "unstable")) with 8 in Hu.
    assert (Hr' : skipn 8 x = []) by congruence.
    rewrite Hr', app_nil_r in Hu. rewrite Hu. reflexivity.
  - destruct (afterChar "v" x) as [s1|] eqn:H1; [|discriminate].
    apply afterChar_Some in H1. subst x.
    destruct (afterChar "." (dropRun isDigit s1)) as [s2|] eqn:H2; [|discriminate].
    apply afterChar_Some in H2.
    pose proof (takeRun_dropRun isDigit s1) as E1. rewrite H2 in E1.
    pose proof (takeRun_dropRun isDigit s2) as E2.
    pose proof (forallb_impl _ _ _ digit_tokenChar (takeRun_all isDigit s1)) as D1.
    pose proof (forallb_impl _ _ _ digit_tokenChar (takeRun_all isDigit s2)) as D2.
    pose proof (forallb_impl _ _ _ digit_tokenChar
                  (takeRun_all isDigit (dropRun isDigit s2))) as D3.
    pose proof (takeRun_dropRun isDigit (tl (dropRun isDigit s2))) as E3.
    pose proof (forallb_impl _ _ _ digit_tokenChar
                  (takeRun_all isDigit (tl (dropRun isDigit s2)))) as D4.
    clear H2. revert E1 E2 E3 D1 D2 D3 D4 Hr.
    generalize (takeRun isDigit s1) as d1.
    generalize (takeRun isDigit s2) as d2.
    generalize (takeRun isDigit (tl (dropRun isDigit s2))) as d3.
    intros d3 d2 d1 E1 E2 E3 D1 D2 D3 D4 Hr. subst s1.
    destruct (afterChar "." (dropRun isDigit s2)) as [s3|] eqn:H3.
    + apply afterChar_Some in H3. rewrite H3 in E2, E3. cbn [tl] in E3.
      assert (Hr' : dropRun isDigit s3 = []) by congruence.
      rewrite Hr', app_nil_r in E3. subst s3 s2.
      cbn [forallb]. rewrite !forallb_app. cbn [forallb]. rewrite !forallb_app.
      cbn [forallb]. rewrite D1, D2, D4. reflexivity.
    + assert (Hr' : dropRun isDigit s2 = []) by congruence.
      rewrite Hr', app_nil_r in E2. subst s2.
      cbn [forallb]. rewrite !forallb_app. cbn [forallb].
      rewrite D1, D2. reflexivity.
Qed.

Lemma isToken_noSpace (x : bytes) : isToken x = true -> noSpace x = true.
Proof. intros H. exact (forallb_impl _ _ _ tokenChar_noSpace (isToken_chars _ H)). Qed.

Lemma isToken_noDollar (x : bytes) : isToken x = true -> noDollar x = true.
Proof. intros H. exact (forallb_impl _ _ _ tokenChar_noDollar (isToken_chars _ H)). Qed.

(** ** The order of the rules *)

Lemma scan_urls_catalog (fn mv x : bytes) :
  isToken x = true ->
  scan (catalogOcc fn mv) (catalogURL ++ fn ++ b "/" ++ x)
  = catalogURL ++ fn ++ b "/" ++ mv.
Proof.
  intros Hx. rewrite scan_eq by apply catalogOcc_suffix.
  unfold catalogOcc at 1, catalogRefAt.
  replace (catalogURL ++ fn ++ b "/" ++ x) with ((catalogURL ++ fn ++ b "/") ++ x)
    by (rewrite <- !app_assoc; reflexivity).
  rewrite HasPrefix_app, skipn_app_exact.
  unfold isToken in Hx. destruct (tokenRest x) as [[|z r]|]; try discriminate.
  rewrite (scan_eq (catalogOcc fn mv) (@catalogOcc_suffix fn mv) []).
  destruct (catalogOcc fn mv []) as [[out rest]|] eqn:Ho.
  - apply catalogOcc_suffix in Ho as (m & Hm & Hs). destruct m; [congruence | discriminate].
  - rewrite app_nil_r, <- ?app_assoc. reflexivity.
Qed.

Lemma catalog_noSpace (fn x : bytes) :
  isName fn = true -> isToken x = true ->
  noSpace (catalogURL ++ fn ++ b "/" ++ x) = true.
Proof.
  intros Hn Hx. rewrite !noSpace_app, (isName_noSpace _ Hn), (isToken_noSpace _ Hx).
  reflexivity.
Qed.

(** On a catalog URL of the function that carries a version token, for a
    release whose function name is a name and whose minor and latest patch
    versions are version tokens: the rules in their fixed order (tags,
    catalog URLs, example references) leave the URL with the minor version,
    whereas the catalog rule applied before the tag rule leaves it with the
    latest patch version.  The tag pattern matches inside the catalog URL,
    so the order of these two rules decides the result. *)
Lemma rules_order_on_catalog_url (fr : functionRelease) (tok : bytes) :
  isName (FunctionName fr) = true ->
  forallb literalName (exampleNames (Examples fr)) = true ->
  isToken (MinorVersion fr) = true ->
  isToken (LatestPatchVersion fr) = true ->
  isToken tok = true ->
  updateContents fr (catalogURL ++ FunctionName fr ++ b "/" ++ tok)
    = catalogURL ++ FunctionName fr ++ b "/" ++ MinorVersion fr
  /\ replaceKptPackages fr
       (replaceTags fr (replaceURLs fr (catalogURL ++ FunctionName fr ++ b "/" ++ tok)))
    = catalogURL ++ FunctionName fr ++ b "/" ++ LatestPatchVersion fr.
Proof.
  intros Hn _ Hm Hl Ht.
  pose proof (isName_noDollar _ Hn) as Dn.
  pose proof (isToken_noDollar _ Hm) as Dm.
  pose proof (isToken_noDollar _ Hl) as Dl.
  unfold updateContents. split.
  - rewrite replaceTags_scan by exact Dl.
    rewrite scan_tags_catalog by assumption.
    rewrite replaceURLs_scan by exact Dm.
    rewrite scan_urls_catalog by assumption.
    rewrite replaceKptPackages_scan by assumption.
    apply scan_pkgs_noSpace. apply catalog_noSpace; assumption.
  - rewrite replaceURLs_scan by exact Dm.
    rewrite scan_urls_catalog by assumption.
    rewrite replaceTags_scan by exact Dl.
    rewrite scan_tags_catalog by assumption.
    rewrite replaceKptPackages_scan by assumption.
    apply scan_pkgs_noSpace. apply catalog_noSpace; assumption.
Qed.

(** C2, as stated, fails: on a catalog URL the tag rule and the catalog
    rule do not commute. *)
Lemma rules_order_matters :
  updateContents (applySetters (b "v1.0.5"))
    (b "https://catalog.kpt.dev/apply-setters/v1.0.1")
    = b "https://catalog.kpt.dev/apply-setters/v1.0"
  /\ replaceKptPackages (applySetters (b "v1.0.5"))
       (replaceTags (applySetters (b "v1.0.5"))
          (replaceURLs (applySetters (b "v1.0.5"))
             (b "https://catalog.kpt.dev/apply-setters/v1.0.1")))
    = b "https://catalog.kpt.dev/apply-setters/v1.0.5"
  /\ replaceKptPackages (applySetters (b "v1.0.5"))
       (replaceTags (applySetters (b "v1.0.5"))
          (replaceURLs (applySetters (b "v1.0.5"))
             (b "https://catalog.kpt.dev/apply-setters/v1.0.1")))
    <> updateContents (applySetters (b "v1.0.5"))
         (b "https://catalog.kpt.dev/apply-setters/v1.0.1").
Proof.
  split; [vm_compute; reflexivity|]. split; [vm_compute; reflexivity|].
  vm_compute. discriminate.
Qed.

(** ** Comparisons *)

Module cmpFacts.

Import cmp.
Local Open Scope Z_scope.

Lemma lexZ_cases (a c : Z) :
  (a = 0 /\ lexZ a c = c) \/ (a <> 0 /\ lexZ a c = a).
Proof.
  unfold lexZ. destruct (Z.eqb_spec a 0); [left | right]; auto.
Qed.

Lemma ok_right_cong {A} (c : A -> A -> Z) (H : ok c) (x y z : A) :
  c y z = 0 -> c x y = c x z.
Proof.
  intros E. pose proof (ok_flip H y z) as F1. rewrite E in F1.
  assert (E' : c z y = 0) by lia.
  pose proof (ok_cong H z y x E') as C.
  pose proof (ok_flip H x z). pose proof (ok_flip H x y). lia.
Qed.


Lemma ok_sgn {A} (f : A -> nat) : ok (fun x y => sgn (f x) (f y)).
Proof.
  split; intros; unfold sgn in *;
    repeat match goal with
           | |- context [(?a <? ?b)%nat] => destruct (Nat.ltb_spec a b)
           | H : context [(?a <? ?b)%nat] |- _ => destruct (Nat.ltb_spec a b)
           end; lia.
Qed.

Lemma ok_lex {A B C} (c1 : B -> B -> Z) (c2 : C -> C -> Z)
    (f : A -> B) (g : A -> C) :
  ok c1 -> ok c2 -> ok (fun x y => lexZ (c1 (f x) (f y)) (c2 (g x) (g y))).
Proof.
  intros H1 H2. split.
  - intros x y. destruct (lexZ_cases (c1 (f x) (f y)) (c2 (g x) (g y)))
      as [[_ ->] | [_ ->]]; [apply (ok_sign H2) | apply (ok_sign H1)].
  - intros x y. pose proof (ok_flip H1 (f x) (f y)). pose proof (ok_flip H2 (g x) (g y)).
    unfold lexZ. destruct (Z.eqb_spec (c1 (f x) (f y)) 0);
      destruct (Z.eqb_spec (c1 (f y) (f x)) 0); lia.
  - intros x y z E.
    destruct (lexZ_cases (c1 (f x) (f y)) (c2 (g x) (g y))) as [[E1 E2] | [E1 E2]];
      [|lia].
    rewrite E2 in E. rewrite (ok_cong H1 _ _ (f z) E1), (ok_cong H2 _ _ (g z) E).
    reflexivity.
  - intros x y z Exy Eyz.
    destruct (lexZ_cases (c1 (f x) (f y)) (c2 (g x) (g y))) as [[E1 E2] | [E1 E2]];
      destruct (lexZ_cases (c1 (f y) (f z)) (c2 (g y) (g z))) as [[E3 E4] | [E3 E4]];
      rewrite E2 in Exy; rewrite E4 in Eyz.
    + pose proof (ok_cong H1 _ _ (f z) E1) as E5. rewrite E3 in E5.
      unfold lexZ. rewrite E5. cbn. exact (ok_trans H2 _ _ _ Exy Eyz).
    + pose proof (ok_cong H1 _ _ (f z) E1) as E5.
      unfold lexZ. rewrite E5, Eyz. reflexivity.
    + pose proof (ok_right_cong H1 (f x) (f y) (f z) E3) as E5.
      unfold lexZ. rewrite <- E5, Exy. reflexivity.
    + pose proof (ok_trans H1 _ _ _ Exy Eyz) as E5.
      unfold lexZ. rewrite E5. reflexivity.
Qed.

Lemma ok_refl {A} (c : A -> A -> Z) (H : ok c) (x : A) : c x x = 0.
Proof. pose proof (ok_flip H x x). lia. Qed.

Lemma ok_cmpList {A} (c : A -> A -> Z) : ok c -> ok (cmpList c).
Proof.
  intros H. split.
  - induction x as [|a x IH]; destruct y as [|a' y]; cbn [cmpList]; auto.
    destruct (lexZ_cases (c a a') (cmpList c x y)) as [[_ ->] | [_ ->]];
      [apply IH | apply (ok_sign H)].
  - induction x as [|a x IH]; destruct y as [|a' y]; cbn [cmpList]; try reflexivity.
    pose proof (ok_flip H a a'). specialize (IH y).
    unfold lexZ. destruct (Z.eqb_spec (c a a') 0); destruct (Z.eqb_spec (c a' a) 0); lia.
  - induction x as [|a x IH]; destruct y as [|a' y]; cbn [cmpList];
      try discriminate; [reflexivity|].
    intros z E.
    destruct (lexZ_cases (c a a') (cmpList c x y)) as [[E1 E2] | [E1 E2]]; [|lia].
    rewrite E2 in E. destruct z as [|a'' z]; cbn [cmpList]; [reflexivity|].
    rewrite (ok_cong H _ _ a'' E1), (IH y z E). reflexivity.
  - induction x as [|a x IH]; destruct y as [|a' y]; destruct z as [|a'' z];
      cbn [cmpList]; try discriminate; try reflexivity.
    intros Exy Eyz.
    destruct (lexZ_cases (c a a') (cmpList c x y)) as [[E1 E2] | [E1 E2]];
      destruct (lexZ_cases (c a' a'') (cmpList c y z)) as [[E3 E4] | [E3 E4]];
      rewrite E2 in Exy; rewrite E4 in Eyz.
    + pose proof (ok_cong H _ _ a'' E1) as E5. rewrite E3 in E5.
      unfold lexZ. rewrite E5. cbn. exact (IH y z Exy Eyz).
    + pose proof (ok_cong H _ _ a'' E1) as E5.
      unfold lexZ. rewrite E5, Eyz. reflexivity.
    + pose proof (ok_right_cong H a a' a'' E3) as E5.
      unfold lexZ. rewrite <- E5, Exy. reflexivity.
    + pose proof (ok_trans H _ _ _ Exy Eyz) as E5.
      unfold lexZ. rewrite E5. reflexivity.
Qed.

Lemma ok_optTop {A} (c : A -> A -> Z) : ok c -> ok (optTop c).
Proof.
  intros H. split.
  - intros [x|] [y|]; cbn; auto. apply (ok_sign H).
  - intros [x|] [y|]; cbn; try reflexivity. apply (ok_flip H).
  - intros [x|] [y|] [z|]; cbn; try discriminate; try reflexivity.
    apply (ok_cong H).
  - intros [x|] [y|] [z|]; cbn; try discriminate; try reflexivity.
    apply (ok_trans H).
Qed.

Lemma ok_optBot {A} (c : A -> A -> Z) : ok c -> ok (optBot c).
Proof.
  intros H. split.
  - intros [x|] [y|]; cbn; auto. apply (ok_sign H).
  - intros [x|] [y|]; cbn; try reflexivity. apply (ok_flip H).
  - intros [x|] [y|] [z|]; cbn; try discriminate; try reflexivity.
    apply (ok_cong H).
  - intros [x|] [y|] [z|]; cbn; try discriminate; try reflexivity.
    apply (ok_trans H).
Qed.

Lemma ok_chr : ok chr.
Proof. apply (ok_sgn nat_of_ascii). Qed.

Lemma ok_str : ok str.
Proof. apply ok_cmpList, ok_chr. Qed.

Lemma ok_len : ok len.
Proof. apply (ok_sgn (@length ascii)). Qed.

Lemma chr_eq (x y : ascii) : chr x y = 0 -> x = y.
Proof.
  unfold chr, sgn. intros H.
  destruct (Nat.ltb_spec (nat_of_ascii x) (nat_of_ascii y)); [discriminate|].
  destruct (Nat.ltb_spec (nat_of_ascii y) (nat_of_ascii x)); [discriminate|].
  rewrite <- (ascii_nat_embedding x), <- (ascii_nat_embedding y).
  f_equal. lia.
Qed.

Lemma str_eq (x y : bytes) : str x y = 0 -> x = y.
Proof.
  revert y; induction x as [|a x IH]; destruct y as [|a' y]; cbn;
    try discriminate; [reflexivity|].
  intros H. destruct (lexZ_cases (chr a a') (cmpList chr x y)) as [[E1 E2] | [E1 E2]].
  - rewrite E2 in H. f_equal; [apply chr_eq; exact E1 | apply IH; exact H].
  - unfold str in H. cbn [cmpList] in H. lia.
Qed.

(** The byte-wise order of the library is the lexicographic one. *)
Lemma strLt_str (x y : bytes) :
  (if beq x y then 0 else if semver.strLt x y then -1 else 1) = str x y.
Proof.
  revert y; induction x as [|a x IH]; destruct y as [|a' y]; try reflexivity.
  cbn [semver.strLt]. unfold str. cbn [cmpList]. fold (str x y).
  destruct (ascii_dec a a') as [<-|Hne].
  - rewrite <- IH. replace (chr a a) with 0 by (symmetry; apply (ok_refl ok_chr)).
    cbn. destruct (beq x y) eqn:Hb.
    + apply beq_true in Hb. subst y. rewrite beq_refl. reflexivity.
    + replace (beq (a :: x) (a :: y)) with false; [reflexivity|].
      symmetry. apply beq_false. apply beq_false in Hb. congruence.
  - replace (beq (a :: x) (a' :: y)) with false
      by (symmetry; apply beq_false; congruence).
    unfold lexZ, chr, sgn.
    destruct (Nat.ltb_spec (nat_of_ascii a) (nat_of_ascii a')); [reflexivity|].
    destruct (Nat.ltb_spec (nat_of_ascii a') (nat_of_ascii a)); [reflexivity|].
    exfalso. apply Hne.
    rewrite <- (ascii_nat_embedding a), <- (ascii_nat_embedding a'). f_equal. lia.
Qed.

End cmpFacts.

(** ** Splitting *)

Lemma Split_nonempty (s : bytes) (c : ascii) : strings.Split s c <> [].
Proof.
  induction s as [|x s IH]; cbn [strings.Split]; [discriminate|].
  destruct (ascii_dec x c); [discriminate|].
  destruct (strings.Split s c); discriminate.
Qed.

Lemma Join_Split (s : bytes) (c : ascii) : strings.Join (strings.Split s c) [c] = s.
Proof.
  induction s as [|x s IH]; [reflexivity|]. cbn [strings.Split].
  pose proof (Split_nonempty s c) as Hne.
  destruct (ascii_dec x c) as [->|Hx].
  - destruct (strings.Split s c) as [|seg segs] eqn:E; [congruence|].
    change (strings.Join ([] :: seg :: segs) [c])
      with ([] ++ [c] ++ strings.Join (seg :: segs) [c]).
    rewrite IH. reflexivity.
  - destruct (strings.Split s c) as [|seg segs] eqn:E; [congruence|].
    destruct segs as [|seg' segs].
    + cbn [strings.Join] in *. rewrite IH. reflexivity.
    + change (strings.Join ((x :: seg) :: seg' :: segs) [c])
        with (x :: (seg ++ [c] ++ strings.Join (seg' :: segs) [c])).
      change (strings.Join (seg :: seg' :: segs) [c])
        with (seg ++ [c] ++ strings.Join (seg' :: segs) [c]) in IH.
      rewrite IH. reflexivity.
Qed.

Lemma Split_inj (s t : bytes) (c : ascii) :
  strings.Split s c = strings.Split t c -> s = t.
Proof.
  intros H. rewrite <- (Join_Split s c), <- (Join_Split t c), H. reflexivity.
Qed.

Module semverFacts.

Import cmp cmpFacts semverOrder.
Local Open Scope Z_scope.

Lemma ok_intCmp : ok intCmp.
Proof. apply (@ok_lex _ _ _ len str (fun x => x) (fun x => x) ok_len ok_str). Qed.

Lemma ok_identCmp : ok identCmp.
Proof.
  unfold identCmp.
  apply (@ok_lex _ _ _ (fun n m => sgn n m)
                (fun x y => lexZ (sgn (numLen x) (numLen y)) (str x y))
                rank (fun x => x)).
  - apply (@ok_sgn _ (fun n : nat => n)).
  - apply (@ok_lex _ _ _ (fun n m => sgn n m) str numLen (fun x => x)).
    + apply (@ok_sgn _ (fun n : nat => n)).
    + apply ok_str.
Qed.

Lemma ok_preCmp : ok preCmp.
Proof. apply ok_optTop, ok_cmpList, ok_identCmp. Qed.

Lemma ok_verCmp : ok verCmp.
Proof.
  unfold verCmp.
  apply (@ok_lex _ _ _ intCmp
           (fun pv pw =>
              lexZ (intCmp (semver.minor pv) (semver.minor pw))
                (lexZ (intCmp (semver.patch pv) (semver.patch pw))
                   (preCmp (preKey (semver.prerelease pv))
                      (preKey (semver.prerelease pw)))))
           semver.major (fun x => x) ok_intCmp).
  apply (@ok_lex _ _ _ intCmp
           (fun pv pw =>
              lexZ (intCmp (semver.patch pv) (semver.patch pw))
                (preCmp (preKey (semver.prerelease pv))
                   (preKey (semver.prerelease pw))))
           semver.minor (fun x => x) ok_intCmp).
  apply (@ok_lex _ _ _ intCmp preCmp semver.patch
           (fun pv => preKey (semver.prerelease pv)) ok_intCmp ok_preCmp).
Qed.

Lemma lexZ_0 (c : Z) : lexZ 0 c = c.
Proof. reflexivity. Qed.

Lemma sgn_cases (n m : nat) :
  ((n < m)%nat /\ (n <? m)%nat = true /\ sgn n m = -1)
  \/ ((m < n)%nat /\ (n <? m)%nat = false /\ (m <? n)%nat = true /\ sgn n m = 1)
  \/ (n = m /\ (n <? m)%nat = false /\ (m <? n)%nat = false /\ sgn n m = 0).
Proof.
  unfold sgn. destruct (Nat.ltb_spec n m); [left; auto|].
  destruct (Nat.ltb_spec m n); [right; left; auto | right; right].
  repeat split; lia.
Qed.

Lemma compareInt_eq (x y : bytes) : semver.compareInt x y = intCmp x y.
Proof.
  unfold semver.compareInt, intCmp, len.
  destruct (beq x y) eqn:Hb.
  - apply beq_true in Hb. subst y.
    destruct (sgn_cases (length x) (length x)) as [(H & _) | [(H & _) | (_ & _ & _ & ->)]];
      try lia.
    rewrite lexZ_0. symmetry. apply (ok_refl ok_str).
  - destruct (sgn_cases (length x) (length y))
      as [(_ & -> & ->) | [(_ & -> & -> & ->) | (_ & -> & -> & ->)]];
      try reflexivity.
    rewrite lexZ_0, <- strLt_str, Hb. reflexivity.
Qed.

Lemma compareIdent_eq (x y : bytes) :
  x <> y -> semver.compareIdent x y = identCmp x y.
Proof.
  intros Hne. apply beq_false in Hne.
  unfold semver.compareIdent, identCmp, rank, numLen.
  destruct (semver.isNum x), (semver.isNum y); cbn [Bool.eqb negb andb].
  - change (sgn 0 0) with 0. rewrite lexZ_0.
    destruct (sgn_cases (length x) (length y))
      as [(_ & -> & ->) | [(_ & -> & -> & ->) | (_ & -> & -> & ->)]];
      try reflexivity.
    rewrite lexZ_0, <- strLt_str, Hne. reflexivity.
  - reflexivity.
  - reflexivity.
  - change (sgn 1 1) with 0. change (sgn 0 0) with 0. rewrite !lexZ_0.
    rewrite <- strLt_str, Hne. reflexivity.
Qed.

Lemma identCmp_eq (x y : bytes) : identCmp x y = 0 -> x = y.
Proof.
  unfold identCmp. intros H.
  destruct (lexZ_cases (sgn (rank x) (rank y))
              (lexZ (sgn (numLen x) (numLen y)) (str x y))) as [[_ E] | [E1 E]];
    rewrite E in H; [|contradiction].
  destruct (lexZ_cases (sgn (numLen x) (numLen y)) (str x y)) as [[_ E'] | [E1 E']];
    rewrite E' in H; [|contradiction].
  apply str_eq. exact H.
Qed.

Lemma compareIdents_eq (xs ys : list bytes) :
  xs <> [] -> ys <> [] -> xs <> ys ->
  semver.compareIdents xs ys = cmpList identCmp xs ys.
Proof.
  revert ys; induction xs as [|dx xs IH]; intros ys Hx Hy Hne; [congruence|].
  destruct ys as [|dy ys]; [congruence|].
  cbn [semver.compareIdents cmpList].
  destruct (beq dx dy) eqn:Hb; cbn [negb].
  - apply beq_true in Hb. subst dy.
    rewrite (ok_refl ok_identCmp). cbn.
    destruct xs as [|dx' xs]; destruct ys as [|dy' ys]; try reflexivity;
      [congruence|].
    apply IH; congruence.
  - apply beq_false in Hb. rewrite compareIdent_eq by exact Hb.
    destruct (lexZ_cases (identCmp dx dy) (cmpList identCmp xs ys)) as [[E _] | [_ E]].
    + apply identCmp_eq in E. contradiction.
    + symmetry. exact E.
Qed.

Lemma comparePrerelease_eq (x y : bytes) :
  isPre x -> isPre y ->
  semver.comparePrerelease x y = preCmp (preKey x) (preKey y).
Proof.
  intros Hx Hy. unfold semver.comparePrerelease.
  destruct (beq x y) eqn:Hb.
  - apply beq_true in Hb. subst y. symmetry. apply (ok_refl ok_preCmp).
  - apply beq_false in Hb. unfold preCmp, preKey.
    destruct Hx as [-> | [bx ->]]; destruct Hy as [-> | [by' ->]];
      cbn [isEmpty optTop tl]; try reflexivity; [congruence|].
    apply compareIdents_eq; try apply Split_nonempty.
    intros E. apply Split_inj in E. congruence.
Qed.

Lemma parsePrerelease_isPre (v t rest : bytes) :
  semver.parsePrerelease v = Some (t, rest) -> isPre t.
Proof.
  unfold semver.parsePrerelease. destruct v as [|x v]; [discriminate|].
  destruct (ascii_dec x "-") as [->|Hx].
  - destruct (semver.identsOK _ _); [|discriminate].
    intros [= <- _]. right. eexists. reflexivity.
  - intros H. exfalso.
    destruct x as [[] [] [] [] [] [] [] []]; try discriminate H. congruence.
Qed.

Lemma parseTail_isPre (mj mn pt v : bytes) (pv : semver.parsed) :
  semver.parseTail mj mn pt v = Some pv -> isPre (semver.prerelease pv).
Proof.
  unfold semver.parseTail.
  assert (Hpre : forall o : option (bytes * bytes),
             (forall t r, o = Some (t, r) -> isPre t) ->
             match o with
             | None => None
             | Some (p, v1) =>
                 match match v1 with
                       | "+"%char :: _ => semver.parseBuild v1
                       | _ => Some ([], v1)
                       end with
                 | Some (_, []) =>
                     Some {| semver.major := mj; semver.minor := mn;
                             semver.patch := pt; semver.prerelease := p |}
                 | _ => None
                 end
             end = Some pv -> isPre (semver.prerelease pv)).
  { intros [[p v1]|] Hp; [|discriminate].
    destruct (match v1 with
              | "+"%char :: _ => semver.parseBuild v1
              | _ => Some ([], v1)
              end) as [[bb [|z r]]|]; try discriminate.
    intros [= <-]. cbn. apply (Hp p v1). reflexivity. }
  intros H. apply Hpre in H; [exact H|].
  intros t r Ht. destruct v as [|x v].
  - injection Ht as <- _. left. reflexivity.
  - destruct (ascii_dec x "-") as [->|Hx].
    + apply parsePrerelease_isPre in Ht. exact Ht.
    + assert (E : Some (@nil ascii, x :: v) = Some (t, r)).
      { destruct x as [[] [] [] [] [] [] [] []]; try exact Ht. congruence. }
      injection E as <- _. left. reflexivity.
Qed.

Lemma parse_isPre (v : bytes) (pv : semver.parsed) :
  semver.parse v = Some pv -> isPre (semver.prerelease pv).
Proof.
  unfold semver.parse. intros H.
  destruct v as [|x v0]; [discriminate|].
  assert (Hin : match semver.parseInt v0 with
      | None => None
      | Some (mj, []) =>
          Some {| semver.major := mj; semver.minor := b "0";
                  semver.patch := b "0"; semver.prerelease := [] |}
      | Some (mj, "."%char :: v1) =>
          match semver.parseInt v1 with
          | None => None
          | Some (mn, []) =>
              Some {| semver.major := mj; semver.minor := mn;
                      semver.patch := b "0"; semver.prerelease := [] |}
          | Some (mn, "."%char :: v2) =>
              match semver.parseInt v2 with
              | None => None
              | Some (pt, v3) => semver.parseTail mj mn pt v3
              end
          | Some _ => None
          end
      | Some _ => None
      end = Some pv).
  { destruct x as [[] [] [] [] [] [] [] []]; try discriminate H. exact H. }
  clear H.
  destruct (semver.parseInt v0) as [[mj r0]|]; [|discriminate].
  destruct r0 as [|y r0]; [injection Hin as <-; left; reflexivity|].
  assert (Hin2 : match semver.parseInt r0 with
          | None => None
          | Some (mn, []) =>
              Some {| semver.major := mj; semver.minor := mn;
                      semver.patch := b "0"; semver.prerelease := [] |}
          | Some (mn, "."%char :: v2) =>
              match semver.parseInt v2 with
              | None => None
              | Some (pt, v3) => semver.parseTail mj mn pt v3
              end
          | Some _ => None
          end = Some pv).
  { destruct y as [[] [] [] [] [] [] [] []]; try discriminate Hin. exact Hin. }
  clear Hin.
  destruct (semver.parseInt r0) as [[mn r1]|]; [|discriminate].
  destruct r1 as [|z r1]; [injection Hin2 as <-; left; reflexivity|].
  assert (Hin3 : match semver.parseInt r1 with
              | None => None
              | Some (pt, v3) => semver.parseTail mj mn pt v3
              end = Some pv).
  { destruct z as [[] [] [] [] [] [] [] []]; try discriminate Hin2. exact Hin2. }
  destruct (semver.parseInt r1) as [[pt r2]|]; [|discriminate].
  apply parseTail_isPre in Hin3. exact Hin3.
Qed.


(** [semver.Compare] is the comparison of an order on the parsed
    versions, the versions that do not parse below all others. *)
Lemma Compare_eq (v w : bytes) :
  semver.Compare v w = optBot verCmp (semver.parse v) (semver.parse w).
Proof.
  unfold semver.Compare.
  destruct (semver.parse v) as [pv|] eqn:Hv; destruct (semver.parse w) as [pw|] eqn:Hw;
    try reflexivity.
  cbn [optBot]. unfold verCmp. rewrite !compareInt_eq.
  rewrite comparePrerelease_eq by (eapply parse_isPre; eassumption).
  unfold lexZ.
  destruct (intCmp (semver.major pv) (semver.major pw) =? 0); [|reflexivity].
  destruct (intCmp (semver.minor pv) (semver.minor pw) =? 0); [|reflexivity].
  destruct (intCmp (semver.patch pv) (semver.patch pw) =? 0); reflexivity.
Qed.

Lemma ok_Compare : ok semver.Compare.
Proof.
  pose proof (ok_optBot ok_verCmp) as H.
  split; intros; rewrite ?Compare_eq in *.
  - apply (ok_sign H).
  - apply (ok_flip H).
  - apply (ok_cong H). assumption.
  - eapply (ok_trans H); eassumption.
Qed.

End semverFacts.

(** ** What a match of the tag pattern says about a tag *)

Lemma star_suffix (cs : cset) (s : bytes) (c : caps) (p : bytes * caps) :
  In p (star cs s c) -> exists m, s = m ++ fst p.
Proof.
  induction s as [|x s IH]; cbn [star].
  - intros [<- | []]. exists []. reflexivity.
  - destruct (cset_mem cs x).
    + intros H. apply in_app_or in H as [H | [<- | []]].
      * destruct (IH H) as [m ->]. exists (x :: m). reflexivity.
      * exists []. reflexivity.
    + intros [<- | []]. exists []. reflexivity.
Qed.

Lemma exec_suffix (r : regex) :
  forall s c p, In p (exec r s c) -> exists m, s = m ++ fst p.
Proof.
  induction r as [|cs|cs|cs|r1 IH1 r2 IH2|r1 IH1 r2 IH2|n r IH]; intros s c p; cbn [exec].
  - intros [<- | []]. exists []. reflexivity.
  - destruct s as [|x s]; [intros []|]. destruct (cset_mem cs x); [|intros []].
    intros [<- | []]. exists [x]. reflexivity.
  - apply star_suffix.
  - destruct s as [|x s]; [intros []|]. destruct (cset_mem cs x); [|intros []].
    intros H. apply star_suffix in H as [m ->]. exists (x :: m). reflexivity.
  - intros H. apply in_flat_map in H as (p1 & H1 & H2).
    apply IH1 in H1 as [m1 ->]. apply IH2 in H2 as [m2 E]. rewrite E.
    exists (m1 ++ m2). rewrite app_assoc. reflexivity.
  - intros H. apply in_app_or in H as [H | H]; [apply (IH1 _ _ _ H) | apply (IH2 _ _ _ H)].
  - intros H. apply in_map_iff in H as (p1 & <- & H1). cbn [fst].
    apply (IH _ _ _ H1).
Qed.

Lemma exec_char_in (x : ascii) (r : regex) (s : bytes) (c : caps) (p : bytes * caps) :
  In p (exec (RCat (rchar x) r) s c) -> exists s', s = x :: s' /\ In p (exec r s' c).
Proof.
  rewrite exec_char_cat. destruct (afterChar x s) as [s'|] eqn:E; [|intros []].
  apply afterChar_Some in E. intros H. exists s'. split; assumption.
Qed.

Lemma exec_cat_in (r1 r2 : regex) (s : bytes) (c : caps) (p : bytes * caps) :
  In p (exec (RCat r1 r2) s c) ->
  exists m s1 c1, s = m ++ s1 /\ In p (exec r2 s1 c1).
Proof.
  cbn [exec]. intros H. apply in_flat_map in H as ([s1 c1] & H1 & H2).
  apply exec_suffix in H1 as [m E]. exists m, s1, c1. split; assumption.
Qed.

(** A match of the tag pattern holds two slashes. *)
Lemma tagPattern_slashes (s : bytes) :
  matchAt releaseTagPattern s <> None ->
  exists m1 m2 m3, s = m1 ++ "/"%char :: m2 ++ "/"%char :: m3.
Proof.
  unfold matchAt. destruct (exec releaseTagPattern s []) as [|p l] eqn:E;
    [intros H; exfalso; apply H; reflexivity|].
  intros _. assert (H : In p (exec releaseTagPattern s [])) by (rewrite E; left; reflexivity).
  unfold releaseTagPattern in H. cbn [rseq] in H.
  apply exec_cat_in in H as (m1 & s1 & c1 & -> & H).
  apply exec_cat_in in H as (m2 & s2 & c2 & -> & H).
  apply exec_char_in in H as (s3 & -> & H).
  apply exec_cat_in in H as (m4 & s4 & c4 & -> & H).
  apply exec_char_in in H as (s5 & -> & H).
  exists (m1 ++ m2), m4, s5. rewrite <- app_assoc. reflexivity.
Qed.

Lemma MatchString_true (r : regex) (s : bytes) :
  MatchString r s = true -> exists pre suf, s = pre ++ suf /\ matchAt r suf <> None.
Proof.
  induction s as [|x s IH]; cbn [MatchString].
  - destruct (matchAt r []) eqn:E; [|discriminate].
    intros _. exists [], []. split; [reflexivity | congruence].
  - destruct (matchAt r (x :: s)) eqn:E.
    + intros _. exists [], (x :: s). split; [reflexivity | congruence].
    + intros H. destruct (IH H) as (pre & suf & -> & Hm).
      exists (x :: pre), suf. split; [reflexivity | exact Hm].
Qed.

Lemma MatchString_at (r : regex) (pre suf : bytes) :
  matchAt r suf <> None -> MatchString r (pre ++ suf) = true.
Proof.
  intros H. induction pre as [|x pre IH]; cbn [app].
  - destruct suf; cbn [MatchString]; destruct (matchAt r _); congruence.
  - cbn [MatchString]. destruct (matchAt r (x :: pre ++ suf)); [reflexivity | exact IH].
Qed.

Lemma Split_length (s : bytes) (c : ascii) :
  length (strings.Split s c) = S (count_occ ascii_dec s c).
Proof.
  induction s as [|x s IH]; [reflexivity|]. cbn [strings.Split count_occ].
  destruct (ascii_dec x c) as [->|Hx].
  - cbn [length]. rewrite IH. reflexivity.
  - pose proof (Split_nonempty s c).
    destruct (strings.Split s c); [congruence|]. cbn [length] in *. exact IH.
Qed.

Lemma fromEnd_Some (segs : list bytes) (k : nat) :
  1 <= k <= length segs -> exists x, fromEnd segs k = Some x.
Proof.
  intros H. unfold fromEnd. rewrite (proj2 (Nat.leb_le _ _)) by lia.
  destruct (nth_error segs (length segs - k)) eqn:E; [eauto|].
  apply nth_error_None in E. lia.
Qed.

(** A tag the pattern matches has three segments or more. *)
Lemma match_three_segments (tag : bytes) :
  MatchString releaseTagPattern tag = true ->
  fromEnd (strings.Split tag "/") 1 = Some (patchOf tag)
  /\ fromEnd (strings.Split tag "/") 3 = Some (langOf tag).
Proof.
  intros H. apply MatchString_true in H as (pre & suf & -> & H).
  apply tagPattern_slashes in H as (m1 & m2 & m3 & ->).
  assert (Hl : 3 <= length (strings.Split (pre ++ m1 ++ "/"%char :: m2 ++ "/"%char :: m3) "/")).
  { rewrite Split_length, !count_occ_app. cbn [count_occ].
    destruct (ascii_dec "/" "/"); [|congruence].
    rewrite count_occ_app. cbn [count_occ].
    destruct (ascii_dec "/" "/"); [|congruence]. lia. }
  unfold patchOf, langOf.
  destruct (@fromEnd_Some (strings.Split (pre ++ m1 ++ "/"%char :: m2 ++ "/"%char :: m3) "/") 1)
    as [x1 ->]; [lia|].
  destruct (@fromEnd_Some (strings.Split (pre ++ m1 ++ "/"%char :: m2 ++ "/"%char :: m3) "/") 3)
    as [x3 ->]; [lia|].
  split; reflexivity.
Qed.

(** ** The loop over the tags *)

Lemma scanTags_pick (fp : bytes) (tags : list bytes) :
  forall lang latest,
    scanTags fp tags lang latest = Some (pickFrom (survivors fp tags) lang latest).
Proof.
  induction tags as [|tag tags IH]; intros lang latest; [reflexivity|].
  cbn [scanTags survivors filter]. unfold survives at 1.
  destruct (strings.Contains tag fp); cbn [negb orb andb].
  - destruct (MatchString releaseTagPattern tag) eqn:Hm; cbn [negb].
    + destruct (match_three_segments tag Hm) as [-> ->].
      cbn [pickFrom].
      destruct (isEmpty latest || (semver.Compare (patchOf tag) latest =? 1)%Z);
        apply IH.
    + apply IH.
  - apply IH.
Qed.

Lemma survivors_without (fp : bytes) (tags1 tags2 : list bytes) (tag : bytes) :
  survives fp tag = false ->
  survivors fp (tags1 ++ tag :: tags2) = survivors fp (tags1 ++ tags2).
Proof.
  intros H. unfold survivors. rewrite !filter_app. cbn [filter]. rewrite H. reflexivity.
Qed.

(** The guard of the loop: a tag in which the release-tag pattern matches
    nowhere, or that does not contain [<function-name>/<minor-version>],
    changes nothing to the resolution. *)
Lemma unmatched_tag_ignored
    (fr : functionRelease) (tags1 tags2 : list bytes) (tag : bytes) :
  strings.Contains tag (funcPatternOf fr) = false
  \/ MatchString releaseTagPattern tag = false ->
  resolveFromLines fr (tags1 ++ tag :: tags2) = resolveFromLines fr (tags1 ++ tags2).
Proof.
  intros H. unfold resolveFromLines. rewrite !scanTags_pick.
  rewrite survivors_without; [reflexivity|].
  unfold survives. destruct H as [-> | ->]; [reflexivity | apply andb_false_r].
Qed.

(** C3. A tag that does not have the shape
    [<prefix>/<language>/<function-name>/v<major>.<minor>.<patch>] is not
    ignored: [functions/go/apply-setters/v1.0.1/docs] has a further segment
    after the patch version, yet the release-tag pattern, which is looked
    for anywhere in the tag, matches inside it, and the resolution succeeds
    with the last segment [docs] as the latest patch version and the third
    one from the end, [apply-setters], as the language. *)
Theorem misshaped_tag_contributes :
  resolveFromTags (named (b "apply-setters") (b "v1.0"))
    (b "functions/go/apply-setters/v1.0.1/docs")
  = inr {| FunctionName := b "apply-setters";
           MinorVersion := b "v1.0";
           Language := b "apply-setters";
           LatestPatchVersion := b "docs";
           FunctionPath := [];
           Examples := [];
           IsContrib := false |}.
Proof. vm_compute. reflexivity. Qed.

Import cmp cmpFacts semverFacts.





(** The example of the specification: [v1.0.10] is above [v1.0.2]. *)
Example resolve_three_tags :
  resolveFromTags (named (b "apply-setters") (b "v1.0")) threeTags
  = inr (withVersion (named (b "apply-setters") (b "v1.0")) (b "go") (b "v1.0.10")).
Proof. vm_compute. reflexivity. Qed.

(** Two tags of equal precedence: the one listed first is kept. *)
Example resolve_tie :
  resolveFromTags (named (b "apply-setters") (b "v1.0"))
    (b "functions/ts/apply-setters/v1.0.3+a" ++ [newline]
     ++ b "functions/go/apply-setters/v1.0.3+b" ++ [newline])
  = inr (withVersion (named (b "apply-setters") (b "v1.0")) (b "ts") (b "v1.0.3+a")).
Proof. vm_compute. reflexivity. Qed.

(** ** Runs without a matching tag *)









(** The run of the example: the error is the one of the resolution, after
    four commands. *)
Example main_no_matching_tag :
  main (demoEnv threeTags)
    [b "update_function_docs"; b "origin/apply-setters/v2.0"] (tt, [])
  = (inl ErrNoMatchingTag,
     (tt, [EvCmd (b "git") [b "diff-index"; b "--quiet"; b "HEAD"; b "--"];
           EvCmd (b "git") [b "fetch"; b "--tags"];
           EvCmd (b "git") [b "checkout"; b "origin/apply-setters/v2.0"];
           EvCmd (b "git") [b "tag"]])).
Proof. vm_compute. reflexivity. Qed.

(** With a matching tag the same run goes on to the files. *)
Example main_touches_files :
  existsb (fun ev => negb (isCmd ev))
    (snd (snd (main (demoEnv threeTags)
                 [b "update_function_docs"; b "origin/apply-setters/v1.0"] (tt, []))))
  = true.
Proof. vm_compute. reflexivity. Qed.

(** ** The branch pattern *)

Lemma matchAt_branch (s : bytes) :
  match matchAt releaseBranchPattern s with
  | Some _ => true
  | None => false
  end = minorMarkAt (dropRun isWordDash s).
Proof.
  unfold matchAt, releaseBranchPattern. cbn [rseq].
  rewrite exec_star_char_cat by reflexivity.
  change (cset_mem CsWordDash) with isWordDash. unfold minorMarkAt.
  destruct (afterChar "/" (dropRun isWordDash s)) as [s1|]; [|reflexivity].
  cbn [exec]. rewrite hd_error_map, exec_minorRe.
  destruct (afterChar "v" s1) as [s2|]; [|reflexivity].
  destruct (afterChar "." (dropRun isDigit s2)) as [s3|]; [|reflexivity].
  rewrite star_hd. reflexivity.
Qed.

Lemma minorMarkAt_word (x : ascii) (s : bytes) :
  isWordDash x = true -> minorMarkAt (x :: s) = false.
Proof.
  intros H. unfold minorMarkAt. cbn [afterChar].
  destruct (ascii_dec "/" x) as [<-|]; [discriminate H | reflexivity].
Qed.

(** The branch pattern matches somewhere exactly when the branch holds a
    slash, [v], digits and a dot. *)
Lemma MatchString_branch (s : bytes) :
  MatchString releaseBranchPattern s = hasMinorMark s.
Proof.
  induction s as [|x s IH].
  - cbn [MatchString hasMinorMark]. pose proof (matchAt_branch []) as H.
    destruct (matchAt releaseBranchPattern []); cbn [dropRun] in H;
      rewrite <- H; reflexivity.
  - cbn [MatchString hasMinorMark]. pose proof (matchAt_branch (x :: s)) as H.
    cbn [dropRun] in H. destruct (isWordDash x) eqn:Hx.
    + rewrite minorMarkAt_word by exact Hx. cbn [orb].
      destruct (matchAt releaseBranchPattern (x :: s)); [|exact IH].
      rewrite <- IH. pose proof (matchAt_branch s) as H'. rewrite <- H in H'.
      destruct s as [|y s]; cbn [MatchString];
        destruct (matchAt releaseBranchPattern _); congruence.
    + destruct (matchAt releaseBranchPattern (x :: s)); rewrite <- H; cbn [orb];
        [reflexivity | exact IH].
Qed.

Lemma hasMinorMark_app (pre s : bytes) :
  minorMarkAt s = true -> hasMinorMark (pre ++ s) = true.
Proof.
  intros H. induction pre as [|x pre IH]; cbn [app].
  - destruct s; cbn [hasMinorMark]; rewrite H; reflexivity.
  - cbn [hasMinorMark]. rewrite IH. apply orb_true_r.
Qed.

Lemma Split_plain (s : bytes) : noSlash s = true -> strings.Split s "/" = [s].
Proof.
  induction s as [|x s IH]; [reflexivity|]. cbn [noSlash forallb strings.Split].
  intros H. apply andb_prop in H as [Hx H].
  destruct (ascii_dec x "/"); [discriminate|]. rewrite IH by exact H. reflexivity.
Qed.

Lemma Split_snoc (p s : bytes) :
  noSlash s = true ->
  strings.Split (p ++ "/"%char :: s) "/" = strings.Split p "/" ++ [s].
Proof.
  intros H. induction p as [|x p IH]; cbn [app strings.Split].
  - destruct (ascii_dec "/" "/"); [|congruence]. rewrite Split_plain by exact H. reflexivity.
  - rewrite IH. destruct (ascii_dec x "/"); [reflexivity|].
    pose proof (Split_nonempty p "/").
    destruct (strings.Split p "/"); [congruence | reflexivity].
Qed.

Lemma fromEnd_last (l : list bytes) (x : bytes) : fromEnd (l ++ [x]) 1 = Some x.
Proof.
  unfold fromEnd. rewrite length_app. cbn [length].
  rewrite (proj2 (Nat.leb_le _ _)) by lia.
  replace (length l + 1 - 1) with (length l) by lia.
  rewrite nth_error_app2 by lia. rewrite Nat.sub_diag. reflexivity.
Qed.

Lemma fromEnd_second (l : list bytes) (x y : bytes) :
  fromEnd ((l ++ [x]) ++ [y]) 2 = Some x.
Proof.
  unfold fromEnd. rewrite !length_app. cbn [length].
  rewrite (proj2 (Nat.leb_le _ _)) by lia.
  replace (length l + 1 + 1 - 2) with (length l) by lia.
  rewrite nth_error_app1 by (rewrite length_app; cbn; lia).
  rewrite nth_error_app2 by lia. rewrite Nat.sub_diag. reflexivity.
Qed.

Lemma digits_noSlash (d : bytes) : forallb isDigit d = true -> noSlash d = true.
Proof.
  apply forallb_impl. intros c H.
  destruct (ascii_dec c "/") as [->|]; [discriminate H | reflexivity].
Qed.

Lemma minor_noSlash (d1 d2 : bytes) :
  forallb isDigit d1 = true -> forallb isDigit d2 = true ->
  noSlash (b "v" ++ d1 ++ b "." ++ d2) = true.
Proof.
  intros H1 H2. unfold noSlash. rewrite !forallb_app.
  fold (noSlash d1). fold (noSlash d2).
  rewrite (digits_noSlash _ H1), (digits_noSlash _ H2). reflexivity.
Qed.

Lemma afterChar_same (x : ascii) (s : bytes) : afterChar x (x :: s) = Some s.
Proof. cbn [afterChar]. destruct (ascii_dec x x); [reflexivity | congruence]. Qed.

Lemma minorMarkAt_minor (d1 d2 : bytes) :
  forallb isDigit d1 = true ->
  minorMarkAt (b "/v" ++ d1 ++ b "." ++ d2) = true.
Proof.
  intros H1. unfold minorMarkAt.
  change (b "/v" ++ d1 ++ b "." ++ d2)
    with ("/"%char :: "v"%char :: d1 ++ "."%char :: d2).
  rewrite !afterChar_same. rewrite dropRun_app_all by exact H1.
  cbn [dropRun]. replace (isDigit ".") with false by reflexivity.
  rewrite afterChar_same. reflexivity.
Qed.

(** A branch [<prefix>/<fn>/v<digits>.<digits>] is parsed into the
    function name [<fn>] and the minor version [v<digits>.<digits>], its
    last two segments, with which the resolution goes on; and a branch that
    nowhere holds a slash, [v], digits and a dot is rejected with the
    invalid-branch-format error, with nothing done and no release
    returned. *)
Lemma newFunctionRelease_parses_branch (E : Env) :
  (forall (pre fn d1 d2 : bytes) (st : World E * list event),
      noSlash fn = true ->
      forallb isDigit d1 = true -> forallb isDigit d2 = true ->
      newFunctionRelease E (pre ++ b "/" ++ fn ++ b "/v" ++ d1 ++ b "." ++ d2) st
      = @bind E _ _ (readLatestPatchVersion E (named fn (b "v" ++ d1 ++ b "." ++ d2)))
                    (readDocPaths E) st)
  /\ (forall (branch : bytes) (st : World E * list event),
         hasMinorMark branch = false ->
         newFunctionRelease E branch st = (inl ErrInvalidBranch, st)).
Proof.
  split.
  - intros pre fn d1 d2 st Hfn H1 H2. unfold newFunctionRelease.
    rewrite MatchString_branch.
    replace (pre ++ b "/" ++ fn ++ b "/v" ++ d1 ++ b "." ++ d2)
      with ((pre ++ b "/" ++ fn) ++ (b "/v" ++ d1 ++ b "." ++ d2))
      by (rewrite <- !app_assoc; reflexivity).
    rewrite hasMinorMark_app by (apply minorMarkAt_minor; exact H1).
    cbn [negb].
    change ((pre ++ b "/" ++ fn) ++ b "/v" ++ d1 ++ b "." ++ d2)
      with ((pre ++ "/"%char :: fn) ++ "/"%char :: (b "v" ++ d1 ++ b "." ++ d2)).
    rewrite Split_snoc by (apply minor_noSlash; assumption).
    rewrite Split_snoc by exact Hfn.
    unfold indexFromEnd. rewrite fromEnd_last, fromEnd_second. reflexivity.
  - intros branch st H. unfold newFunctionRelease.
    rewrite MatchString_branch, H. reflexivity.
Qed.

(** C4. A branch that lacks the suffix [v<major>.<minor>] is not rejected:
    the release-branch pattern is looked for anywhere in the branch, so
    [origin/apply-setters/v1.0/docs], which goes on after [v1.0], passes the
    format check; its last two segments are taken, [v1.0] as the function
    name and [docs] as the minor version, and the run goes on to list the
    tags and ends on another error than the invalid-branch-format one. *)
Theorem branch_without_suffix_accepted :
  MatchString releaseBranchPattern (b "origin/apply-setters/v1.0/docs") = true
  /\ newFunctionRelease (demoEnv threeTags) (b "origin/apply-setters/v1.0/docs") (tt, [])
     = (inl ErrNoMatchingTag, (tt, [EvCmd (b "git") [b "tag"]]))
  /\ fst (newFunctionRelease (demoEnv threeTags)
            (b "origin/apply-setters/v1.0/docs") (tt, []))
     <> inl ErrInvalidBranch
  /\ branchPattern (b "origin/apply-setters/v1.0/docs") = b "v1.0/docs".
Proof.
  split; [vm_compute; reflexivity|]. split; [vm_compute; reflexivity|].
  split; [vm_compute; discriminate | vm_compute; reflexivity].
Qed.

(** With tags under that name the release is even resolved: function
    [v1.0], minor version [docs]. *)
Example branch_without_suffix_resolved :
  resolveFromTags (named (b "v1.0") (b "docs")) (b "v1.0/docs/go/x/v0.1.0")
  = inr (withVersion (named (b "v1.0") (b "docs")) (b "go") (b "v0.1.0")).
Proof. vm_compute. reflexivity. Qed.

(** ** The relations determine the result *)

Lemma TagsRewritten_scan (fn latest s out : bytes) :
  TagsRewritten fn latest s out -> out = scan (tagOcc fn latest) s.
Proof.
  induction 1 as [|sep tok rest out Hsep Htok _ IH|x s out Hn _ IH].
  - symmetry. apply scan_tags_nil.
  - rewrite (R_eq fn latest (fn ++ sep :: tok ++ rest)).
    unfold tagRefAt. rewrite HasPrefix_app, skipn_app_exact, Hsep.
    unfold versionToken in Htok.
    destruct (tokenRest (tok ++ rest)) as [r|]; [|discriminate].
    injection Htok as _ ->. rewrite IH. reflexivity.
  - rewrite (R_eq fn latest (x :: s)), Hn, IH. reflexivity.
Qed.

Lemma URLsRewritten_scan (fn mv s out : bytes) :
  URLsRewritten fn mv s out -> out = scan (catalogOcc fn mv) s.
Proof.
  induction 1 as [|tok rest out Htok _ IH|x s out Hn _ IH].
  - rewrite scan_eq by apply catalogOcc_suffix.
    destruct (catalogOcc fn mv []) as [[o r]|] eqn:Ho; [|reflexivity].
    apply catalogOcc_suffix in Ho as (m & Hm & Hs). destruct m; [congruence | discriminate].
  - rewrite scan_eq by apply catalogOcc_suffix.
    unfold catalogOcc at 1, catalogRefAt.
    replace (catalogURL ++ fn ++ b "/" ++ tok ++ rest)
      with ((catalogURL ++ fn ++ b "/") ++ tok ++ rest)
      by (rewrite <- !app_assoc; reflexivity).
    rewrite HasPrefix_app, skipn_app_exact.
    unfold versionToken in Htok.
    destruct (tokenRest (tok ++ rest)) as [r|]; [|discriminate].
    injection Htok as _ ->. rewrite IH, <- !app_assoc. reflexivity.
  - rewrite scan_eq by apply catalogOcc_suffix.
    unfold catalogOcc at 1. rewrite Hn, IH. reflexivity.
Qed.

Lemma takeRun_exact (p : ascii -> bool) (ws rest : bytes) :
  forallb p ws = true ->
  match rest with x :: _ => p x | [] => false end = false ->
  takeRun p (ws ++ rest) = ws /\ dropRun p (ws ++ rest) = rest.
Proof.
  intros Hw Hr. induction ws as [|x ws IH]; cbn [app].
  - destruct rest as [|y rest]; [split; reflexivity|].
    cbn [takeRun dropRun]. rewrite Hr. split; reflexivity.
  - cbn [forallb] in Hw. apply andb_prop in Hw as [Hx Hw].
    cbn [takeRun dropRun]. rewrite Hx. destruct (IH Hw) as [-> ->]. split; reflexivity.
Qed.

Lemma PkgsRewritten_scan (fr : functionRelease) (s out : bytes) :
  PkgsRewritten fr s out -> out = scan (pkgOcc fr) s.
Proof.
  induction 1 as [|name ws rest out Hin Hne Hws Hrest Href _ IH|x s out Hn _ IH].
  - rewrite scan_eq by apply pkgOcc_suffix.
    destruct (pkgOcc fr []) as [[o r]|] eqn:Ho; [|reflexivity].
    apply pkgOcc_suffix in Ho as (m & Hm & Hs). destruct m; [congruence | discriminate].
  - rewrite scan_eq by apply pkgOcc_suffix.
    unfold pkgOcc at 1. rewrite Href.
    destruct (takeRun_exact isSpace ws rest Hws Hrest) as [-> ->].
    rewrite IH, <- !app_assoc. reflexivity.
  - rewrite scan_eq by apply pkgOcc_suffix.
    unfold pkgOcc at 1. rewrite Hn, IH. reflexivity.
Qed.

(** ** [semver.Compare] on examples *)

Example Compare_numeric : semver.Compare (b "v1.0.10") (b "v1.0.2") = 1%Z.
Proof. vm_compute. reflexivity. Qed.

Example Compare_prerelease : semver.Compare (b "v1.0.1-rc1") (b "v1.0.1") = (-1)%Z.
Proof. vm_compute. reflexivity. Qed.

Example Compare_prerelease_numbers :
  semver.Compare (b "v1.0.1-rc.2") (b "v1.0.1-rc.10") = (-1)%Z.
Proof. vm_compute. reflexivity. Qed.

Example Compare_build : semver.Compare (b "v1.0.3+a") (b "v1.0.3+b") = 0%Z.
Proof. vm_compute. reflexivity. Qed.

Example Compare_invalid : semver.Compare (b "v1.0.01") (b "v0.0.1") = (-1)%Z.
Proof. vm_compute. reflexivity. Qed.

(** ** The tag rule applied twice, as a whole *)

Lemma isPatchForm_isToken (x : bytes) : isPatchForm x = true -> isToken x = true.
Proof.
  intros H. unfold isToken.
  pose proof (patchForm_token x [] H eq_refl) as E. rewrite app_nil_r in E.
  rewrite E. reflexivity.
Qed.

Lemma isPatchForm_noDollar (x : bytes) : isPatchForm x = true -> noDollar x = true.
Proof. intros H. apply isToken_noDollar, isPatchForm_isToken. exact H. Qed.

(** C8, as amended. With a function name free of regex metacharacters, a
    latest patch version of the form [v], digits, dot, digits, dot, digits,
    and contents in which no [unstable] is directly followed by a digit,
    applying the tag rule twice gives what applying it once gives. *)
Theorem replaceTags_idempotent (fr : functionRelease) (contents : bytes) :
  literalName (FunctionName fr) = true ->
  isPatchForm (LatestPatchVersion fr) = true ->
  noUnstableDigit contents = true ->
  replaceTags fr (replaceTags fr contents) = replaceTags fr contents.
Proof.
  intros _ Hp Hn. pose proof (isPatchForm_noDollar _ Hp) as Hd.
  rewrite !replaceTags_scan by exact Hd.
  apply scan_tags_twice with (n := length contents); [exact Hp | lia | exact Hn].
Qed.

Lemma replaceTags_idempotent_witness :
  replaceTags (applySetters (b "v1.0.1"))
    (replaceTags (applySetters (b "v1.0.1")) (b "apply-setters:v1.0.1"))
  = replaceTags (applySetters (b "v1.0.1")) (b "apply-setters:v1.0.1").
Proof.
  apply (replaceTags_idempotent (applySetters (b "v1.0.1")) (b "apply-setters:v1.0.1"));
    reflexivity.
Defined.

(** C8, as stated, fails: a token [unstable] with a digit after it is
    rewritten to the patch version with that digit after it, and the second
    pass then takes the longer run of digits for the token. *)
Lemma replaceTags_twice_differs :
  replaceTags (applySetters (b "v1.0.1")) (b "apply-setters:unstable1")
    = b "apply-setters:v1.0.11"
  /\ replaceTags (applySetters (b "v1.0.1"))
       (replaceTags (applySetters (b "v1.0.1")) (b "apply-setters:unstable1"))
    = b "apply-setters:v1.0.1"
  /\ replaceTags (applySetters (b "v1.0.1"))
       (replaceTags (applySetters (b "v1.0.1")) (b "apply-setters:unstable1"))
    <> replaceTags (applySetters (b "v1.0.1")) (b "apply-setters:unstable1").
Proof.
  split; [vm_compute; reflexivity|]. split; [vm_compute; reflexivity|].
  vm_compute. discriminate.
Qed.

(** The example of the specification: a reference that already carries the
    latest patch version stays as it is. *)
Example replaceTags_up_to_date :
  replaceTags (applySetters (b "v1.0.1")) (b "apply-setters:v1.0.1")
  = b "apply-setters:v1.0.1".
Proof. vm_compute. reflexivity. Qed.

(** A latest patch version with a pre-release part is not a version token
    as a whole, and the rule is not idempotent for it either. *)
Example replaceTags_prerelease_twice :
  replaceTags (applySetters (b "v1.0.1-rc1"))
    (replaceTags (applySetters (b "v1.0.1-rc1")) (b "apply-setters:v1.0"))
  = b "apply-setters:v1.0.1-rc1-rc1".
Proof. vm_compute. reflexivity. Qed.

(** ** Numbers are compared as numbers *)

Module numeric.

Import cmp cmpFacts semverOrder semverFacts.
















End numeric.





(** ** The resolution, without assumptions on the tags *)

Lemma ok_lt_le {A} (c : A -> A -> Z) (H : ok c) (a m r : A) :
  c a m = (-1)%Z -> c m r <> 1%Z -> c a r = (-1)%Z.
Proof.
  intros Ha Hm. destruct (ok_sign H m r) as [E | [E | E]]; [| |contradiction].
  - exact (ok_trans H _ _ _ Ha E).
  - rewrite <- (ok_right_cong H a m r E). exact Ha.
Qed.

Lemma ok_le_le {A} (c : A -> A -> Z) (H : ok c) (a m r : A) :
  c a m <> 1%Z -> c m r <> 1%Z -> c a r <> 1%Z.
Proof.
  intros Ha Hm. destruct (ok_sign H a m) as [E | [E | E]]; [| |contradiction].
  - rewrite (ok_lt_le H a m r E Hm). discriminate.
  - rewrite (ok_cong H a m r E). exact Hm.
Qed.

Lemma Compare_empty_le (x : bytes) : semver.Compare [] x <> 1%Z.
Proof.
  unfold semver.Compare. cbn [semver.parse].
  destruct (semver.parse x); discriminate.
Qed.

Lemma Compare_refl (x : bytes) : semver.Compare x x = 0%Z.
Proof. apply (ok_refl ok_Compare). Qed.

(** The loop never goes down, and ends at or above every tag it saw. *)
Lemma pickFrom_upper (tags : list bytes) :
  forall lang latest,
    semver.Compare latest (snd (pickFrom tags lang latest)) <> 1%Z
    /\ forall t, In t tags ->
                 semver.Compare (patchOf t) (snd (pickFrom tags lang latest)) <> 1%Z.
Proof.
  induction tags as [|tag tags IH]; intros lang latest.
  - cbn [pickFrom snd]. rewrite Compare_refl. split; [discriminate | intros t []].
  - cbn [pickFrom].
    destruct (isEmpty latest) eqn:He; cbn [orb].
    + destruct latest; [|discriminate He].
      destruct (IH (langOf tag) (patchOf tag)) as [Hm Hall].
      split; [apply Compare_empty_le|].
      intros t [<- | Ht]; [exact Hm | apply Hall; exact Ht].
    + destruct (Z.eqb_spec (semver.Compare (patchOf tag) latest) 1) as [Hgt | Hle].
      * destruct (IH (langOf tag) (patchOf tag)) as [Hm Hall].
        split.
        -- assert (Hlt : semver.Compare latest (patchOf tag) = (-1)%Z).
           { pose proof (ok_flip ok_Compare latest (patchOf tag)) as F.
             rewrite Hgt in F. lia. }
           rewrite (ok_lt_le ok_Compare _ _ _ Hlt Hm). discriminate.
        -- intros t [<- | Ht]; [exact Hm | apply Hall; exact Ht].
      * destruct (IH lang latest) as [Hm Hall].
        split; [exact Hm|].
        intros t [<- | Ht]; [|apply Hall; exact Ht].
        exact (ok_le_le ok_Compare _ _ _ Hle Hm).
Qed.

(** What the loop ends with is what it started from or comes from a tag. *)
Lemma pickFrom_origin (tags : list bytes) :
  forall lang latest,
    pickFrom tags lang latest = (lang, latest)
    \/ exists t, In t tags /\ pickFrom tags lang latest = (langOf t, patchOf t).
Proof.
  induction tags as [|tag tags IH]; intros lang latest; [left; reflexivity|].
  cbn [pickFrom].
  destruct (isEmpty latest || (semver.Compare (patchOf tag) latest =? 1)%Z).
  - destruct (IH (langOf tag) (patchOf tag)) as [E | (t & Ht & E)].
    + right. exists tag. split; [left; reflexivity | exact E].
    + right. exists t. split; [right; exact Ht | exact E].
  - destruct (IH lang latest) as [E | (t & Ht & E)].
    + left. exact E.
    + right. exists t. split; [right; exact Ht | exact E].
Qed.

Lemma resolveFromLines_inr (fr fr' : functionRelease) (lines : list bytes) :
  resolveFromLines fr lines = inr fr' ->
  fr' = withVersion fr (fst (pickFrom (survivors (funcPatternOf fr) lines) [] []))
                       (snd (pickFrom (survivors (funcPatternOf fr) lines) [] []))
  /\ snd (pickFrom (survivors (funcPatternOf fr) lines) [] []) <> []
  /\ fst (pickFrom (survivors (funcPatternOf fr) lines) [] []) <> [].
Proof.
  unfold resolveFromLines. rewrite scanTags_pick.
  destruct (pickFrom (survivors (funcPatternOf fr) lines) [] []) as [lang latest].
  cbn [fst snd]. destruct latest as [|x latest]; [discriminate|].
  destruct lang as [|y lang]; [discriminate|]. cbn [isEmpty orb].
  intros [= <-]. repeat split; discriminate.
Qed.

(** A successful resolution ends on a tag that takes part, and no tag
    that takes part is above it. *)
Lemma resolveFromLines_maximal (fr fr' : functionRelease) (lines : list bytes) :
  resolveFromLines fr lines = inr fr' ->
  (exists tag, In tag lines /\ survives (funcPatternOf fr) tag = true
               /\ fr' = withVersion fr (langOf tag) (patchOf tag))
  /\ (forall t, In t lines -> survives (funcPatternOf fr) t = true ->
                semver.Compare (patchOf t) (LatestPatchVersion fr') <> 1%Z).
Proof.
  intros H. apply resolveFromLines_inr in H as (E & Hp & Hl).
  split.
  - destruct (pickFrom_origin (survivors (funcPatternOf fr) lines) [] [])
      as [E0 | (t & Ht & E0)].
    + rewrite E0 in Hp. exfalso. apply Hp. reflexivity.
    + apply filter_In in Ht as [Hin Hs]. exists t. repeat split; auto.
      rewrite E, E0. reflexivity.
  - intros t Hin Hs. rewrite E. cbn [LatestPatchVersion withVersion].
    apply pickFrom_upper. apply filter_In. split; assumption.
Qed.

(** X1. Whatever [git tag] printed, when the resolution succeeds the
    release has the language and the patch version of one tag that takes
    part in it, neither of them empty, no tag that takes part has a patch
    version that [semver.Compare] puts above the selected one, and the other
    fields of the release are as they were. *)
Theorem resolved_version_is_an_upper_bound
    (fr fr' : functionRelease) (tags : bytes) :
  resolveFromTags fr tags = inr fr' ->
  (exists tag, In tag (strings.Split tags newline)
               /\ survives (funcPatternOf fr) tag = true
               /\ fr' = withVersion fr (langOf tag) (patchOf tag))
  /\ (forall t, In t (strings.Split tags newline) ->
                survives (funcPatternOf fr) t = true ->
                semver.Compare (patchOf t) (LatestPatchVersion fr') <> 1%Z)
  /\ LatestPatchVersion fr' <> [] /\ Language fr' <> [].
Proof.
  intros H. unfold resolveFromTags in H.
  destruct (resolveFromLines_maximal _ _ H) as [Hex Hall].
  apply resolveFromLines_inr in H as (E & Hp & Hl).
  repeat split; try assumption; rewrite E; assumption.
Qed.

Lemma resolved_version_is_an_upper_bound_witness :
  (exists tag, In tag (strings.Split threeTags newline)
               /\ survives (funcPatternOf (named (b "apply-setters") (b "v1.0"))) tag = true
               /\ withVersion (named (b "apply-setters") (b "v1.0")) (b "go") (b "v1.0.10")
                  = withVersion (named (b "apply-setters") (b "v1.0"))
                      (langOf tag) (patchOf tag))
  /\ (forall t, In t (strings.Split threeTags newline) ->
                survives (funcPatternOf (named (b "apply-setters") (b "v1.0"))) t = true ->
                semver.Compare (patchOf t)
                  (LatestPatchVersion
                     (withVersion (named (b "apply-setters") (b "v1.0"))
                        (b "go") (b "v1.0.10"))) <> 1%Z)
  /\ LatestPatchVersion
       (withVersion (named (b "apply-setters") (b "v1.0")) (b "go") (b "v1.0.10")) <> []
  /\ Language
       (withVersion (named (b "apply-setters") (b "v1.0")) (b "go") (b "v1.0.10")) <> [].
Proof.
  apply (@resolved_version_is_an_upper_bound
           (named (b "apply-setters") (b "v1.0"))
           (withVersion (named (b "apply-setters") (b "v1.0")) (b "go") (b "v1.0.10"))
           threeTags).
  vm_compute. reflexivity.
Defined.

(** X2. The order in which [git tag] lists the tags does not change the
    precedence of the result: two listings with the same lines, in any
    order, that both resolve give patch versions that [semver.Compare]
    holds equal. *)
Theorem resolution_independent_of_tag_order
    (fr r1 r2 : functionRelease) (tags1 tags2 : bytes) :
  Permutation (strings.Split tags1 newline) (strings.Split tags2 newline) ->
  resolveFromTags fr tags1 = inr r1 ->
  resolveFromTags fr tags2 = inr r2 ->
  semver.Compare (LatestPatchVersion r1) (LatestPatchVersion r2) = 0%Z.
Proof.
  intros HP H1 H2. unfold resolveFromTags in *.
  destruct (resolveFromLines_maximal _ _ H1) as [(t1 & Hin1 & Hs1 & E1) Hall1].
  destruct (resolveFromLines_maximal _ _ H2) as [(t2 & Hin2 & Hs2 & E2) Hall2].
  assert (A : semver.Compare (LatestPatchVersion r1) (LatestPatchVersion r2) <> 1%Z).
  { rewrite E1 at 1. cbn [LatestPatchVersion withVersion]. apply Hall2; [|exact Hs1].
    apply (Permutation_in _ HP). exact Hin1. }
  assert (B : semver.Compare (LatestPatchVersion r2) (LatestPatchVersion r1) <> 1%Z).
  { rewrite E2 at 1. cbn [LatestPatchVersion withVersion]. apply Hall1; [|exact Hs2].
    apply (Permutation_in _ (Permutation_sym HP)). exact Hin2. }
  pose proof (ok_flip ok_Compare (LatestPatchVersion r1) (LatestPatchVersion r2)) as F.
  destruct (ok_sign ok_Compare (LatestPatchVersion r1) (LatestPatchVersion r2))
    as [S | [S | S]]; [|exact S|contradiction].
  exfalso. apply B. rewrite S in F. lia.
Qed.

Lemma resolution_independent_of_tag_order_witness :
  semver.Compare
    (LatestPatchVersion
       (withVersion (named (b "apply-setters") (b "v1.0")) (b "go") (b "v1.0.10")))
    (LatestPatchVersion
       (withVersion (named (b "apply-setters") (b "v1.0")) (b "ts") (b "v1.0.10")))
  = 0%Z.
Proof.
  apply (@resolution_independent_of_tag_order
           (named (b "apply-setters") (b "v1.0"))
           (withVersion (named (b "apply-setters") (b "v1.0")) (b "go") (b "v1.0.10"))
           (withVersion (named (b "apply-setters") (b "v1.0")) (b "ts") (b "v1.0.10"))
           (b "functions/go/apply-setters/v1.0.10" ++ [newline]
            ++ b "functions/ts/apply-setters/v1.0.10")
           (b "functions/ts/apply-setters/v1.0.10" ++ [newline]
            ++ b "functions/go/apply-setters/v1.0.10")).
  - vm_compute. apply perm_swap.
  - vm_compute. reflexivity.
  - vm_compute. reflexivity.
Defined.

(** ** No index out of range *)









(** A split has a last piece. *)
Lemma fromEnd_Split_last (s : bytes) (c : ascii) :
  exists x, fromEnd (strings.Split s c) 1 = Some x.
Proof.
  apply fromEnd_Some. rewrite Split_length. lia.
Qed.

Lemma minorMarkAt_slash (s : bytes) :
  minorMarkAt s = true -> exists s', s = "/"%char :: s'.
Proof.
  unfold minorMarkAt, afterChar. destruct s as [|x s]; [discriminate|].
  destruct (ascii_dec "/" x) as [<- |]; [|discriminate].
  intros _. exists s. reflexivity.
Qed.

Lemma hasMinorMark_slash (s : bytes) :
  hasMinorMark s = true -> 1 <= count_occ ascii_dec s "/"%char.
Proof.
  induction s as [|x s IH]; cbn [hasMinorMark].
  - rewrite orb_false_r. intros H. apply minorMarkAt_slash in H as (s' & E). discriminate E.
  - intros H. apply orb_prop in H as [H | H].
    + apply minorMarkAt_slash in H as (s' & E). injection E as -> ->.
      cbn [count_occ]. destruct (ascii_dec "/" "/"); [lia | congruence].
    + specialize (IH H). cbn [count_occ]. destruct (ascii_dec x "/"); lia.
Qed.












(** ** Contents without a reference *)

Lemma replaceFrom_no_match (r : regex) (tmpl s : bytes) :
  (forall k, findAt r (skipn k s) = None) ->
  forall fresh, replaceFrom r tmpl 0 fresh s = s.
Proof.
  induction s as [|x s IH]; intros H fresh; cbn [replaceFrom].
  - pose proof (H 0) as H0. cbn [skipn] in H0. rewrite H0. reflexivity.
  - pose proof (H 0) as H0. cbn [skipn] in H0. rewrite H0. f_equal.
    apply IH. intros k. exact (H (S k)).
Qed.

Lemma findAt_lit_prefix (n : N) (r r' : regex) (l s : bytes) :
  isLit r l -> strings.HasPrefix s l = false -> findAt (RCat (RCap n r) r') s = None.
Proof.
  intros Hl Hp. unfold findAt, matchAt.
  rewrite exec_cap_lit with (l := l) by exact Hl. rewrite Hp. reflexivity.
Qed.

Lemma Contains_skipn (s sub : bytes) :
  strings.Contains s sub = false ->
  forall k, strings.HasPrefix (skipn k s) sub = false.
Proof.
  induction s as [|x s IH]; intros H k.
  - cbn [strings.Contains] in H. rewrite orb_false_r in H.
    destruct k; exact H.
  - cbn [strings.Contains] in H. apply orb_false_elim in H as [H1 H2].
    destruct k as [|k]; [exact H1 | apply IH; exact H2].
Qed.

Lemma Contains_app_false (s l1 l2 l3 : bytes) :
  strings.Contains s l2 = false ->
  forall k, strings.HasPrefix (skipn k s) (l1 ++ l2 ++ l3) = false.
Proof.
  intros H k. rewrite HasPrefix_app_iff, HasPrefix_app_iff.
  rewrite skipn_skipn.
  rewrite (Contains_skipn _ _ H). cbn [andb]. apply andb_false_r.
Qed.

Lemma ReplaceAll_without_prefix (n : N) (r r' : regex) (l tmpl s : bytes) :
  isLit r l ->
  (forall k, strings.HasPrefix (skipn k s) l = false) ->
  ReplaceAll (RCat (RCap n r) r') s tmpl = s.
Proof.
  intros Hl H. unfold ReplaceAll. apply replaceFrom_no_match.
  intros k. apply findAt_lit_prefix with (l := l); [exact Hl | apply H].
Qed.

Lemma replaceTags_without_name (fr : functionRelease) (contents : bytes) :
  strings.Contains contents (FunctionName fr) = false ->
  replaceTags fr contents = contents.
Proof.
  intros H. unfold replaceTags, tagPattern, rseq.
  apply ReplaceAll_without_prefix with (l := FunctionName fr).
  - apply isLit_lit.
  - apply Contains_skipn. exact H.
Qed.

Lemma replaceURLs_without_name (fr : functionRelease) (contents : bytes) :
  strings.Contains contents (FunctionName fr) = false ->
  replaceURLs fr contents = contents.
Proof.
  intros H. unfold replaceURLs, urlPattern. cbn [rseq].
  apply ReplaceAll_without_prefix with (l := catalogURL ++ FunctionName fr ++ b "/").
  - apply isLit_catalog.
  - apply Contains_app_false. exact H.
Qed.

Lemma replaceKptPackages_without_repository (fr : functionRelease) (contents : bytes) :
  strings.Contains contents catalogGit = false ->
  replaceKptPackages fr contents = contents.
Proof.
  intros H. unfold replaceKptPackages, kptPkgPattern. cbn [rseq].
  apply ReplaceAll_without_prefix with (l := catalogGit ++ exampleSubPath fr ++ b "/").
  - apply isLit_git.
  - intros k. rewrite HasPrefix_app_iff. rewrite (Contains_skipn _ _ H). reflexivity.
Qed.

(** X4. For a release whose function name and example names are plain
    (no regex metacharacter, ASCII only), a file that mentions neither the
    function name nor the repository of the example packages is written
    back as it was read: none of the three rules changes a byte of it,
    whatever the versions of the release are. *)
Theorem updateContents_without_reference (fr : functionRelease) (contents : bytes) :
  plainName (FunctionName fr) = true ->
  forallb plainName (exampleNames (Examples fr)) = true ->
  strings.Contains contents (FunctionName fr) = false ->
  strings.Contains contents catalogGit = false ->
  updateContents fr contents = contents.
Proof.
  intros _ _ Hn Hg. unfold updateContents.
  rewrite (replaceTags_without_name _ _ Hn), (replaceURLs_without_name _ _ Hn).
  apply replaceKptPackages_without_repository. exact Hg.
Qed.

Lemma updateContents_without_reference_witness :
  updateContents (applySetters (b "v1.0.1"))
    (b "# set-labels" ++ [newline] ++ b "See gcr.io/kpt-fn/set-labels:v0.1.")
  = b "# set-labels" ++ [newline] ++ b "See gcr.io/kpt-fn/set-labels:v0.1.".
Proof.
  apply updateContents_without_reference; vm_compute; reflexivity.
Defined.

(** ** Lines *)

Lemma tokenRest_token_chars (s rest : bytes) :
  tokenRest s = Some rest ->
  exists tok, s = tok ++ rest /\ forallb isTokenChar tok = true.
Proof.
  unfold tokenRest.
  destruct (strings.HasPrefix s (b "unstable")) eqn:Hu.
  - intros [= <-]. exists (b "unstable"). split; [|reflexivity].
    apply HasPrefix_split in Hu. exact Hu.
  - destruct (afterChar "v" s) as [s1|] eqn:H1; [|discriminate].
    apply afterChar_Some in H1. subst s.
    destruct (afterChar "." (dropRun isDigit s1)) as [s2|] eqn:H2; [|discriminate].
    apply afterChar_Some in H2.
    pose proof (takeRun_dropRun isDigit s1) as E1. rewrite H2 in E1.
    pose proof (takeRun_dropRun isDigit s2) as E2.
    pose proof (forallb_impl _ _ _ digit_tokenChar (takeRun_all isDigit s1)) as D1.
    pose proof (forallb_impl _ _ _ digit_tokenChar (takeRun_all isDigit s2)) as D2.
    destruct (afterChar "." (dropRun isDigit s2)) as [s3|] eqn:H3.
    + apply afterChar_Some in H3. rewrite H3 in E2.
      pose proof (takeRun_dropRun isDigit s3) as E3.
      pose proof (forallb_impl _ _ _ digit_tokenChar (takeRun_all isDigit s3)) as D3.
      intros [= <-].
      exists ("v"%char :: takeRun isDigit s1 ++ "."%char :: takeRun isDigit s2
              ++ "."%char :: takeRun isDigit s3).
      split.
      * rewrite <- E1 at 1. rewrite <- E2 at 1. rewrite <- E3 at 1.
        cbn [app]. rewrite <- !app_assoc. cbn [app].
        do 2 f_equal. rewrite <- !app_assoc. reflexivity.
      * cbn [forallb]. rewrite !forallb_app. cbn [forallb]. rewrite !forallb_app.
        cbn [forallb]. rewrite D1, D2, D3. reflexivity.
    + intros [= <-].
      exists ("v"%char :: takeRun isDigit s1 ++ "."%char :: takeRun isDigit s2).
      split.
      * rewrite <- E1 at 1. rewrite <- E2 at 1.
        cbn [app]. rewrite <- !app_assoc. reflexivity.
      * cbn [forallb]. rewrite !forallb_app. cbn [forallb].
        rewrite D1, D2. reflexivity.
Qed.

Lemma tokenChar_not_newline (tok : bytes) :
  forallb isTokenChar tok = true -> count_occ ascii_dec tok newline = 0.
Proof.
  induction tok as [|x tok IH]; [reflexivity|]. cbn [forallb count_occ].
  intros H. apply andb_prop in H as [Hx Ht].
  destruct (ascii_dec x newline) as [-> |]; [discriminate Hx | apply IH; exact Ht].
Qed.

Lemma space_run_count (r : bytes) (c : ascii) :
  count_occ ascii_dec (takeRun isSpace r) c + count_occ ascii_dec (dropRun isSpace r) c
  = count_occ ascii_dec r c.
Proof.
  rewrite <- count_occ_app, takeRun_dropRun. reflexivity.
Qed.

Section ScanCount.

Variable occ : bytes -> option (bytes * bytes).
Variable c : ascii.

(** What is recognised is a non-empty start of the input, replaced by a
    text with as many [c] as it has. *)
Hypothesis occ_count :
  forall s out rest, occ s = Some (out, rest) ->
  exists m, m <> [] /\ s = m ++ rest
            /\ count_occ ascii_dec out c = count_occ ascii_dec m c.

Lemma scan_count (n : nat) :
  forall s, length s <= n ->
  count_occ ascii_dec (scan occ s) c = count_occ ascii_dec s c.
Proof.
  assert (Hsuf : forall s out rest, occ s = Some (out, rest) ->
                 exists m, m <> [] /\ s = m ++ rest).
  { intros s out rest H. apply occ_count in H as (m & Hm & Hs & _).
    exists m. split; assumption. }
  induction n as [|n IH]; intros s Hl.
  - destruct s; [|simpl in Hl; lia].
    rewrite scan_eq by exact Hsuf.
    destruct (occ []) as [[out rest]|] eqn:Ho; [|reflexivity].
    apply Hsuf in Ho as (m & Hm & Hs). destruct m; [congruence | discriminate Hs].
  - rewrite scan_eq by exact Hsuf.
    destruct (occ s) as [[out rest]|] eqn:Ho.
    + apply occ_count in Ho as (m & Hm & -> & Hc).
      rewrite !count_occ_app, Hc. f_equal. apply IH.
      rewrite length_app in Hl. destruct m; [congruence | simpl in Hl; lia].
    + destruct s as [|x s]; [reflexivity|]. cbn [count_occ].
      simpl in Hl. rewrite IH by lia. reflexivity.
Qed.

End ScanCount.

Lemma tags_count (fn latest : bytes) (s : bytes) :
  count_occ ascii_dec latest newline = 0 ->
  count_occ ascii_dec (scan (tagOcc fn latest) s) newline
  = count_occ ascii_dec s newline.
Proof.
  intros Hl. apply scan_count with (n := length s); [|lia].
  intros s0 out rest H. unfold tagOcc in H.
  destruct (tagRefAt fn s0) as [[sep r]|] eqn:Hr; [|discriminate].
  injection H as <- <-.
  apply tagRefAt_split in Hr as (tok & Ht & Hsep & -> & Hrest).
  apply tokenRest_token_chars in Hrest as (tok' & E & Hc).
  apply app_inv_tail in E. subst tok'.
  exists (fn ++ sep :: tok). split; [destruct fn; discriminate|].
  split; [rewrite <- app_assoc; reflexivity|].
  rewrite !count_occ_app. cbn [count_occ].
  destruct (ascii_dec sep newline); rewrite Hl, (tokenChar_not_newline _ Hc); reflexivity.
Qed.

Lemma urls_count (fn mv : bytes) (s : bytes) :
  count_occ ascii_dec mv newline = 0 ->
  count_occ ascii_dec (scan (catalogOcc fn mv) s) newline
  = count_occ ascii_dec s newline.
Proof.
  intros Hl. apply scan_count with (n := length s); [|lia].
  intros s0 out rest H. unfold catalogOcc in H.
  destruct (catalogRefAt fn s0) as [r|] eqn:Hr; [|discriminate].
  injection H as <- <-. unfold catalogRefAt in Hr.
  destruct (strings.HasPrefix s0 (catalogURL ++ fn ++ b "/")) eqn:Hp; [|discriminate].
  apply HasPrefix_split in Hp.
  apply tokenRest_token_chars in Hr as (tok & E & Hc).
  exists ((catalogURL ++ fn ++ b "/") ++ tok). split; [discriminate|].
  split; [rewrite Hp at 1; rewrite E, <- !app_assoc; reflexivity|].
  change (count_occ ascii_dec (catalogURL ++ fn ++ b "/" ++ mv) newline
          = count_occ ascii_dec ((catalogURL ++ fn ++ b "/") ++ tok) newline).
  rewrite <- !app_assoc, !count_occ_app, Hl, (tokenChar_not_newline _ Hc).
  reflexivity.
Qed.

Lemma pkgs_count (fr : functionRelease) (s : bytes) :
  count_occ ascii_dec (FunctionName fr) newline = 0 ->
  count_occ ascii_dec (LatestPatchVersion fr) newline = 0 ->
  count_occ ascii_dec (scan (pkgOcc fr) s) newline = count_occ ascii_dec s newline.
Proof.
  intros Hf Hl. apply scan_count with (n := length s); [|lia].
  intros s0 out rest H. unfold pkgOcc in H.
  destruct (pkgRefAt _ _ s0) as [[name r]|] eqn:Hr; [|discriminate].
  injection H as <- <-. apply pkgRefAt_split in Hr as (_ & -> & _).
  exists (catalogGit ++ exampleSubPath fr ++ b "/" ++ name ++ takeRun isSpace r).
  split; [discriminate|].
  split; [rewrite <- !app_assoc, takeRun_dropRun; reflexivity|].
  change (count_occ ascii_dec
            (catalogGit ++ exampleSubPath fr ++ b "/" ++ name ++ b "@"
             ++ FunctionName fr ++ b "/" ++ LatestPatchVersion fr
             ++ takeRun isSpace r) newline
          = count_occ ascii_dec
              (catalogGit ++ exampleSubPath fr ++ b "/" ++ name
               ++ takeRun isSpace r) newline).
  rewrite !count_occ_app, Hf, Hl.
  change (count_occ ascii_dec (b "@") newline) with 0.
  change (count_occ ascii_dec (b "/") newline) with 0. lia.
Qed.

(** X5. The rewriting keeps the lines of a file: for a release whose
    function name and example names are plain (no regex metacharacter,
    ASCII only), and whose function name, minor version and latest patch
    version hold neither [$] nor a line feed, the new contents have exactly
    as many line feeds as the old ones. *)
Theorem updateContents_keeps_line_count (fr : functionRelease) (contents : bytes) :
  plainName (FunctionName fr) = true ->
  forallb plainName (exampleNames (Examples fr)) = true ->
  noDollar (FunctionName fr) = true ->
  noDollar (MinorVersion fr) = true ->
  noDollar (LatestPatchVersion fr) = true ->
  count_occ ascii_dec (FunctionName fr) newline = 0 ->
  count_occ ascii_dec (MinorVersion fr) newline = 0 ->
  count_occ ascii_dec (LatestPatchVersion fr) newline = 0 ->
  count_occ ascii_dec (updateContents fr contents) newline
  = count_occ ascii_dec contents newline.
Proof.
  intros _ _ Hdf Hdm Hdl Hf Hm Hl. unfold updateContents.
  rewrite replaceKptPackages_scan, replaceURLs_scan, replaceTags_scan by assumption.
  rewrite pkgs_count, urls_count, tags_count by assumption. reflexivity.
Qed.

Lemma updateContents_keeps_line_count_witness :
  count_occ ascii_dec
    (updateContents (applySetters (b "v1.0.1"))
       (b "gcr.io/kpt-fn/apply-setters:unstable" ++ [newline] ++ pkgLine)) newline
  = count_occ ascii_dec
      (b "gcr.io/kpt-fn/apply-setters:unstable" ++ [newline] ++ pkgLine) newline.
Proof.
  apply updateContents_keeps_line_count; vm_compute; reflexivity.
Defined.

(** ** The package rule, applied twice *)

Section ScanCopy.

Variable occ : bytes -> option (bytes * bytes).

Hypothesis occ_suffix :
  forall s out rest, occ s = Some (out, rest) ->
  exists m, m <> [] /\ s = m ++ rest.

(** A stretch in which no reference starts is copied. *)
Lemma scan_copy (u t : bytes) :
  (forall u1 u2, u = u1 ++ u2 -> u2 <> [] -> occ (u2 ++ t) = None) ->
  scan occ (u ++ t) = u ++ scan occ t.
Proof.
  induction u as [|x u IH]; intros H; [reflexivity|].
  rewrite scan_eq by exact occ_suffix.
  rewrite (H [] (x :: u) eq_refl) by discriminate.
  cbn [app]. f_equal. apply IH.
  intros u1 u2 E Hn. apply (H (x :: u1) u2); [rewrite E; reflexivity | exact Hn].
Qed.

End ScanCopy.

Lemma wordDash_not_at (c : ascii) : isWordDash c = true -> c <> "@"%char.
Proof. intros H ->. discriminate H. Qed.

Lemma wordDash_not_colon (c : ascii) : isWordDash c = true -> c <> ":"%char.
Proof. intros H ->. discriminate H. Qed.

Lemma tokenChar_not_colon (c : ascii) : isTokenChar c = true -> c <> ":"%char.
Proof. intros H ->. discriminate H. Qed.

Lemma space_not_at (c : ascii) : isSpace c = true -> c <> "@"%char.
Proof. intros H ->. discriminate H. Qed.

Lemma space_not_https (c : ascii) : isSpace c = true -> ~ In c (b "https:").
Proof.
  intros H Hin. cbn in Hin.
  repeat (destruct Hin as [<- | Hin]; [discriminate H|]). exact Hin.
Qed.

Lemma forallb_not_In (p : ascii -> bool) (c : ascii) (l : bytes) :
  (forall x, p x = true -> x <> c) -> forallb p l = true -> ~ In c l.
Proof.
  intros Hp Hl Hin. rewrite forallb_forall in Hl.
  exact (Hp c (Hl c Hin) eq_refl).
Qed.

(** The scheme of a URL does not start inside a text without colon that
    is followed by a byte not in it. *)
Lemma https_inside (u t : bytes) (y : ascii) :
  ~ In ":"%char u -> ~ In y (b "https:") ->
  strings.HasPrefix (u ++ y :: t) (b "https:") = false.
Proof.
  intros Hu Hy.
  destruct (strings.HasPrefix (u ++ y :: t) (b "https:")) eqn:H; [exfalso|reflexivity].
  apply HasPrefix_split in H. revert H.
  generalize (skipn (length (b "https:")) (u ++ y :: t)). intros z H.
  cbn [b list_ascii_of_string app] in H. cbn in Hy.
  do 5 (destruct u as [|? u]; cbn [app] in H;
        [injection H as H _; subst y; tauto | injection H as _ H]).
  destruct u as [|? u]; cbn [app] in H.
  - injection H as H _. subst y. tauto.
  - injection H as H _. subst. apply Hu. cbn. tauto.
Qed.

(** ** The prefix of a package reference *)

Lemma prefix_scheme (sub s : bytes) :
  strings.HasPrefix s (catalogGit ++ sub ++ b "/") = true ->
  strings.HasPrefix s (b "https:") = true.
Proof.
  change (catalogGit ++ sub ++ b "/")
    with (b "https:" ++ (skipn 6 catalogGit ++ sub ++ b "/")).
  rewrite HasPrefix_app_iff. intros H. apply andb_prop in H as [H _]. exact H.
Qed.

(** The prefix does not overlap itself: none of its proper suffixes
    starts the scheme again. *)
Lemma prefix_no_overlap (fr : functionRelease) (i : nat) (t : bytes) :
  1 <= i ->
  i < length (catalogGit ++ exampleSubPath fr ++ b "/") ->
  strings.HasPrefix (skipn i (catalogGit ++ exampleSubPath fr ++ b "/") ++ t)
                    (b "https:") = false.
Proof.
  intros H1 H2. destruct i as [|i]; [lia|].
  unfold exampleSubPath in *. destruct (IsContrib fr).
  - do 82 (destruct i as [|i]; [reflexivity|]). vm_compute in H2. lia.
  - do 74 (destruct i as [|i]; [reflexivity|]). vm_compute in H2. lia.
Qed.

Lemma prefix_no_at (fr : functionRelease) :
  ~ In "@"%char (catalogGit ++ exampleSubPath fr ++ b "/").
Proof.
  apply forallb_not_In with (p := fun c => if ascii_dec c "@" then false else true).
  - intros x H ->. discriminate H.
  - unfold exampleSubPath. destruct (IsContrib fr); vm_compute; reflexivity.
Qed.

Lemma choices_wordDash (names : list bytes) :
  forallb (forallb isWordDash) names = true ->
  forall n, In n (nameChoices names) -> forallb isWordDash n = true.
Proof.
  intros H n Hin. destruct names as [|n0 names].
  - destruct Hin as [<- | []]. reflexivity.
  - cbn [nameChoices] in Hin. rewrite forallb_forall in H. apply H. exact Hin.
Qed.

Lemma wordDash_space (c : ascii) : isWordDash c = true -> isSpace c = false.
Proof. intros H. apply wordDash_noSpace in H. destruct (isSpace c); [discriminate H | reflexivity]. Qed.

(** After a name that a [@] follows, no name of the group is followed by
    white space. *)
Lemma word_then_at (n' : bytes) :
  forall n X,
    forallb isWordDash n = true -> forallb isWordDash n' = true ->
    strings.HasPrefix (n ++ "@"%char :: X) n' = true ->
    startsWithSpace (skipn (length n') (n ++ "@"%char :: X)) = false.
Proof.
  induction n' as [|a n' IH]; intros n X Hn Hn' H.
  - cbn [length skipn]. destruct n as [|d n]; [reflexivity|].
    cbn [app startsWithSpace]. cbn [forallb] in Hn. apply andb_prop in Hn as [Hd _].
    apply wordDash_space. exact Hd.
  - cbn [forallb] in Hn'. apply andb_prop in Hn' as [Ha Hn'].
    destruct n as [|d n]; cbn [app strings.HasPrefix] in H.
    + destruct (ascii_dec a "@") as [-> |]; [discriminate Ha | discriminate H].
    + destruct (ascii_dec a d); [|discriminate H].
      cbn [forallb] in Hn. apply andb_prop in Hn as [_ Hn].
      cbn [length skipn app]. apply IH; assumption.
Qed.

Lemma pkgRefAt_pinned (sub : bytes) (names : list bytes) (n X : bytes) :
  forallb (forallb isWordDash) names = true ->
  forallb isWordDash n = true ->
  pkgRefAt sub names ((catalogGit ++ sub ++ b "/") ++ n ++ "@"%char :: X) = None.
Proof.
  intros Hnames Hn. unfold pkgRefAt. cbv zeta.
  rewrite HasPrefix_app, skipn_app_exact.
  destruct (find _ (nameChoices names)) as [n'|] eqn:F; [|reflexivity].
  apply find_some in F as [Hin Hf]. apply andb_prop in Hf as [H1 H2].
  rewrite word_then_at in H2; [discriminate H2 | exact Hn | | exact H1].
  apply choices_wordDash with (names := names); assumption.
Qed.

Lemma pkgOcc_needs_scheme (fr : functionRelease) (s : bytes) :
  strings.HasPrefix s (b "https:") = false -> pkgOcc fr s = None.
Proof.
  intros H. unfold pkgOcc, pkgRefAt. cbv zeta.
  destruct (strings.HasPrefix s (catalogGit ++ exampleSubPath fr ++ b "/")) eqn:Hp;
    [|reflexivity].
  apply prefix_scheme in Hp. congruence.
Qed.

Lemma pkgOcc_shape (fr : functionRelease) (s out rest : bytes) :
  pkgOcc fr s = Some (out, rest) ->
  exists n r,
    In n (nameChoices (exampleNames (Examples fr)))
    /\ s = (catalogGit ++ exampleSubPath fr ++ b "/") ++ n ++ r
    /\ startsWithSpace r = true
    /\ out = ((catalogGit ++ exampleSubPath fr ++ b "/") ++ n
              ++ "@"%char :: FunctionName fr ++ "/"%char :: LatestPatchVersion fr)
             ++ takeRun isSpace r
    /\ rest = dropRun isSpace r.
Proof.
  unfold pkgOcc. destruct (pkgRefAt _ _ s) as [[n r]|] eqn:H; [|discriminate].
  intros E. apply pkgRefAt_split in H as (Hin & Hs & Hsp).
  exists n, r. repeat split; try assumption.
  - rewrite Hs, <- !app_assoc. reflexivity.
  - assert (Eo : out = catalogGit ++ exampleSubPath fr ++ b "/" ++ n ++ b "@"
                       ++ FunctionName fr ++ b "/" ++ LatestPatchVersion fr
                       ++ takeRun isSpace r) by congruence.
    rewrite Eo, <- !app_assoc. cbn [app]. rewrite <- !app_assoc. reflexivity.
  - congruence.
Qed.

Lemma HasPrefix_weaken (a r m : bytes) :
  strings.HasPrefix a m = true -> strings.HasPrefix (a ++ r) m = true.
Proof.
  intros H. apply HasPrefix_split in H. rewrite H, <- app_assoc. apply HasPrefix_app.
Qed.

(** What the rule gives starts with no text without [@] that the
    contents did not start with. *)
Lemma pinned_prefix (fr : functionRelease) (k : nat) :
  forall s m, length s <= k -> ~ In "@"%char m ->
    strings.HasPrefix (scan (pkgOcc fr) s) m = true ->
    strings.HasPrefix s m = true.
Proof.
  induction k as [|k IH]; intros s m Hl Hm.
  - destruct s; [|simpl in Hl; lia].
    rewrite scan_eq by apply pkgOcc_suffix.
    destruct (pkgOcc fr []) as [[out rest]|] eqn:Ho; [|trivial].
    apply pkgOcc_suffix in Ho as (x & Hx & E).
    destruct x; [congruence | discriminate E].
  - rewrite scan_eq by apply pkgOcc_suffix.
    destruct (pkgOcc fr s) as [[out rest]|] eqn:Ho.
    + apply pkgOcc_shape in Ho as (n & r & _ & -> & _ & -> & ->).
      replace ((((catalogGit ++ exampleSubPath fr ++ b "/") ++ n
                 ++ "@"%char :: FunctionName fr ++ "/"%char :: LatestPatchVersion fr)
                ++ takeRun isSpace r) ++ scan (pkgOcc fr) (dropRun isSpace r))
        with (((catalogGit ++ exampleSubPath fr ++ b "/") ++ n)
              ++ "@"%char :: (FunctionName fr ++ "/"%char :: LatestPatchVersion fr
                              ++ takeRun isSpace r
                              ++ scan (pkgOcc fr) (dropRun isSpace r)))
        by (rewrite <- !app_assoc; cbn [app]; rewrite <- !app_assoc; reflexivity).
      rewrite HasPrefix_app_stop by exact Hm.
      rewrite (app_assoc (catalogGit ++ exampleSubPath fr ++ b "/") n r).
      apply HasPrefix_weaken.
    + destruct s as [|x s]; [trivial|].
      destruct m as [|c m]; [reflexivity|]. cbn [strings.HasPrefix].
      destruct (ascii_dec c x); [|trivial].
      apply IH; [simpl in Hl; lia|]. intros Hin. apply Hm. right. exact Hin.
Qed.

Lemma pinned_no_new_reference (fr : functionRelease) (s : bytes) :
  forallb (forallb isWordDash) (exampleNames (Examples fr)) = true ->
  pkgOcc fr s = None -> pkgOcc fr (scan (pkgOcc fr) s) = None.
Proof.
  intros Hnames Hs.
  destruct (pkgOcc fr (scan (pkgOcc fr) s)) as [[out rest]|] eqn:Ho; [exfalso|reflexivity].
  apply pkgOcc_shape in Ho as (n & r & Hin & E & Hsp & _ & _).
  destruct r as [|w r]; [discriminate Hsp|]. cbn [startsWithSpace] in Hsp.
  assert (Hp : strings.HasPrefix s
                 (((catalogGit ++ exampleSubPath fr ++ b "/") ++ n) ++ [w]) = true).
  { apply pinned_prefix with (fr := fr) (k := length s); [lia| |].
    - intros Hat. apply in_app_or in Hat as [Hat | [Hat | []]].
      + apply in_app_or in Hat as [Hat | Hat].
        * exact (@prefix_no_at fr Hat).
        * pose proof (choices_wordDash _ Hnames n Hin) as Hn.
          exact (@forallb_not_In isWordDash "@"%char n wordDash_not_at Hn Hat).
      + exact (@space_not_at w Hsp Hat).
    - rewrite E.
      replace ((catalogGit ++ exampleSubPath fr ++ b "/") ++ n ++ w :: r)
        with ((((catalogGit ++ exampleSubPath fr ++ b "/") ++ n) ++ [w]) ++ r)
        by (rewrite <- !app_assoc; reflexivity).
      apply HasPrefix_app. }
  apply HasPrefix_split in Hp. revert Hp.
  generalize (skipn (length (((catalogGit ++ exampleSubPath fr ++ b "/") ++ n) ++ [w])) s).
  intros t Hp. rewrite <- !app_assoc in Hp. cbn [app] in Hp.
  unfold pkgOcc in Hs.
  destruct (pkgRefAt (exampleSubPath fr) (exampleNames (Examples fr)) s)
    as [[n' r']|] eqn:Hr; [discriminate Hs|].
  unfold pkgRefAt in Hr. cbv zeta in Hr.
  assert (Hs' : s = (catalogGit ++ exampleSubPath fr ++ b "/") ++ n ++ w :: t)
    by (rewrite Hp at 1; rewrite <- !app_assoc; reflexivity).
  rewrite Hs' in Hr. rewrite HasPrefix_app, skipn_app_exact in Hr.
  destruct (find _ (nameChoices (exampleNames (Examples fr)))) as [n''|] eqn:F;
    [discriminate Hr|].
  apply find_none with (x := n) in F; [|exact Hin].
  rewrite HasPrefix_app, skipn_app_exact in F. cbn [startsWithSpace andb] in F.
  congruence.
Qed.

Lemma noColon_not_In (s : bytes) : noColon s = true -> ~ In ":"%char s.
Proof.
  intros H Hin. unfold noColon in H. rewrite forallb_forall in H.
  specialize (H _ Hin). destruct (ascii_dec ":" ":"); [discriminate H | congruence].
Qed.

Lemma scan_pkgs_twice (fr : functionRelease) (k : nat) :
  forallb (forallb isWordDash) (exampleNames (Examples fr)) = true ->
  forallb isWordDash (FunctionName fr) = true ->
  noColon (LatestPatchVersion fr) = true ->
  forall s, length s <= k ->
    scan (pkgOcc fr) (scan (pkgOcc fr) s) = scan (pkgOcc fr) s.
Proof.
  intros Hnames Hfn Hlatest.
  induction k as [|k IH]; intros s Hl.
  - destruct s; [|simpl in Hl; lia].
    rewrite (@scan_pkgs_noSpace fr []) by reflexivity.
    apply scan_pkgs_noSpace. reflexivity.
  - rewrite (@scan_eq (pkgOcc fr) (@pkgOcc_suffix fr) s).
    destruct (pkgOcc fr s) as [[out rest]|] eqn:Ho.
    + apply pkgOcc_shape in Ho as (n & r & Hin & Hs & Hsp & Hout & Hrest).
      pose proof (choices_wordDash _ Hnames n Hin) as Hn.
      assert (HZ : ~ In ":"%char (n ++ "@"%char :: FunctionName fr
                                   ++ "/"%char :: LatestPatchVersion fr)).
      { intros Hc. apply in_app_or in Hc as [Hc | [Hc | Hc]].
        - exact (@forallb_not_In isWordDash ":"%char n wordDash_not_colon Hn Hc).
        - discriminate Hc.
        - apply in_app_or in Hc as [Hc | [Hc | Hc]].
          + exact (@forallb_not_In isWordDash ":"%char _ wordDash_not_colon Hfn Hc).
          + discriminate Hc.
          + exact (noColon_not_In _ Hlatest Hc). }
      pose proof (takeRun_nonempty _ Hsp) as HW.
      pose proof (takeRun_all isSpace r) as HWs.
      assert (H0 : forall t, pkgOcc fr (out ++ t) = None).
      { intros t. rewrite Hout. unfold pkgOcc.
        replace ((((catalogGit ++ exampleSubPath fr ++ b "/") ++ n
                   ++ "@"%char :: FunctionName fr ++ "/"%char :: LatestPatchVersion fr)
                  ++ takeRun isSpace r) ++ t)
          with ((catalogGit ++ exampleSubPath fr ++ b "/") ++ n
                ++ "@"%char :: (FunctionName fr ++ "/"%char :: LatestPatchVersion fr
                                ++ takeRun isSpace r ++ t))
          by (rewrite <- !app_assoc; cbn [app]; rewrite <- !app_assoc; reflexivity).
        rewrite pkgRefAt_pinned by assumption. reflexivity. }
      revert Hout HZ HW HWs.
      generalize (takeRun isSpace r) as W.
      generalize (n ++ "@"%char :: FunctionName fr ++ "/"%char :: LatestPatchVersion fr)
        as Z.
      intros Z W Hout HZ HW HWs.
      assert (Hlen : length rest <= k).
      { rewrite Hrest. pose proof (dropRun_length isSpace r) as Hd.
        assert (Hp : 1 <= length (catalogGit ++ exampleSubPath fr ++ b "/"))
          by (rewrite length_app; cbn; lia).
        revert Hp Hl. rewrite Hs.
        generalize (catalogGit ++ exampleSubPath fr ++ b "/") as P.
        intros P Hp Hl. rewrite !length_app in Hl. lia. }
      rewrite scan_copy; [rewrite (IH rest Hlen); reflexivity | apply pkgOcc_suffix |].
      intros u1 u2 E Hu2. destruct W as [|w W]; [congruence|].
      cbn [forallb] in HWs. apply andb_prop in HWs as [Hw HWs].
      destruct u1 as [|c u1].
      * cbn [app] in E. subst u2. apply H0.
      * apply pkgOcc_needs_scheme. rewrite Hout, <- app_assoc in E.
        apply app_eq_app in E as [l [[E1 E2] | [E1 E2]]].
        -- destruct l as [|d l].
           ++ rewrite E2. cbn [app]. rewrite <- app_assoc. cbn [app].
              apply https_inside; [exact HZ | apply space_not_https; exact Hw].
           ++ pose proof (@prefix_no_overlap fr (length (c :: u1))
                            ((Z ++ w :: W) ++ scan (pkgOcc fr) rest)) as N.
              rewrite E1 in N.
              rewrite skipn_app_exact in N.
              rewrite E2, <- app_assoc. apply N.
              ** cbn [length]. lia.
              ** rewrite length_app. cbn [length]. lia.
        -- apply app_eq_app in E2 as [l' [[E3 E4] | [E3 E4]]].
           ++ rewrite E4, <- app_assoc. cbn [app].
              apply https_inside; [|apply space_not_https; exact Hw].
              intros Hc. apply HZ. rewrite E3. apply in_or_app. right. exact Hc.
           ++ destruct l' as [|e l'].
              ** cbn [app] in E4. rewrite <- E4. cbn [app].
                 apply (@https_inside [] _ w); [intros [] | apply space_not_https; exact Hw].
              ** cbn [app] in E4. injection E4 as _ E4.
                 destruct u2 as [|w2 u2]; [congruence|].
                 rewrite E4, forallb_app in HWs. apply andb_prop in HWs as [_ HWs].
                 cbn [forallb] in HWs. apply andb_prop in HWs as [Hw2 _].
                 cbn [app].
                 apply (@https_inside [] _ w2); [intros [] | apply space_not_https; exact Hw2].
    + destruct s as [|x s]; [apply scan_pkgs_noSpace; reflexivity|].
      pose proof (pinned_no_new_reference fr (x :: s) Hnames Ho) as N.
      rewrite (@scan_eq (pkgOcc fr) (@pkgOcc_suffix fr) (x :: s)), Ho in N.
      rewrite (@scan_eq (pkgOcc fr) (@pkgOcc_suffix fr) (x :: scan (pkgOcc fr) s)), N.
      f_equal. apply IH. simpl in Hl. lia.
Qed.

(** X6. Pinning is done once: with example names and a function name
    made of letters, digits, [_] and [-] only, and a latest patch version
    that holds neither [$] nor [:] (so every semantic version, with or
    without a pre-release or build part), applying the package rule to its
    own result changes nothing, since after the first pass a [@] follows
    every example name and the white space the pattern asks for does
    not. *)
Theorem replaceKptPackages_idempotent (fr : functionRelease) (contents : bytes) :
  forallb (forallb isWordDash) (exampleNames (Examples fr)) = true ->
  forallb isWordDash (FunctionName fr) = true ->
  noDollar (LatestPatchVersion fr) = true ->
  noColon (LatestPatchVersion fr) = true ->
  replaceKptPackages fr (replaceKptPackages fr contents)
  = replaceKptPackages fr contents.
Proof.
  intros Hnames Hfn Hd2 Hlatest.
  pose proof (forallb_impl _ _ _ wordDash_noDollar Hfn) as Hd1.
  rewrite !replaceKptPackages_scan by assumption.
  apply scan_pkgs_twice with (k := length contents); [assumption .. | lia].
Qed.

Lemma replaceKptPackages_idempotent_witness :
  replaceKptPackages (applySetters (b "v1.0.1-rc1"))
    (replaceKptPackages (applySetters (b "v1.0.1-rc1")) (b "kpt pkg get " ++ pkgLine))
  = replaceKptPackages (applySetters (b "v1.0.1-rc1")) (b "kpt pkg get " ++ pkgLine).
Proof.
  apply replaceKptPackages_idempotent; vm_compute; reflexivity.
Defined.

(** The run of the example: the second pass finds the reference pinned. *)
Example replaceKptPackages_pin_twice :
  replaceKptPackages (applySetters (b "v1.0.1"))
    (replaceKptPackages (applySetters (b "v1.0.1")) (b "kpt pkg get " ++ pkgLine))
  = b "kpt pkg get " ++ catalogGit
    ++ b "examples/apply-setters-simple@apply-setters/v1.0.1" ++ [newline].
Proof. vm_compute. reflexivity. Qed.

(** ** Steps of a run *)

Lemma dirExists_run (E : Env) (p : bytes) (w : World E) (log : list event) :
  dirExists E p (w, log) = (inr (isDirIn E p w), (w, log ++ [EvStat p])).
Proof. reflexivity. Qed.

Lemma readFile_run (E : Env) (p : bytes) (w : World E) (log : list event) :
  readFile E p (w, log)
  = (match readFileIn E p w with
     | inl c => inr c
     | inr msg => inl (ErrExternal msg)
     end, (w, log ++ [EvReadFile p])).
Proof.
  unfold readFile, bind, logged. cbn [fst snd].
  destruct (readFileIn E p w); reflexivity.
Qed.

Lemma writeFile_run (E : Env) (p c : bytes) (w : World E) (log : list event) :
  writeFile E p c (w, log)
  = (match fst (writeFileIn E p c w) with
     | None => inr tt
     | Some msg => inl (ErrExternal msg)
     end, (snd (writeFileIn E p c w), log ++ [EvWriteFile p c])).
Proof.
  unfold writeFile, bind, logged. cbn [fst snd].
  destruct (writeFileIn E p c w) as [[msg|] w']; reflexivity.
Qed.

Lemma last_segment (s : bytes) : fromEnd (strings.Split s "/") 1 = Some (patchOf s).
Proof.
  unfold patchOf. destruct (fromEnd_Split_last s "/") as (x & ->). reflexivity.
Qed.

(** ** The examples of the metadata *)

Lemma readExamples_step (E : Env) (examplesPath u : bytes) (urls : list bytes)
    (acc : functionExamples) (w : World E) (log : list event) :
  readExamples E examplesPath (u :: urls) acc (w, log)
  = if isDirIn E (ExamplePath (exampleOf E examplesPath u)) w
    then readExamples E examplesPath urls (acc ++ [exampleOf E examplesPath u])
           (w, log ++ [EvStat (ExamplePath (exampleOf E examplesPath u))])
    else (inl (ErrExampleDirMissing (ExamplePath (exampleOf E examplesPath u))),
          (w, log ++ [EvStat (ExamplePath (exampleOf E examplesPath u))])).
Proof.
  cbn [readExamples]. unfold indexFromEnd. rewrite last_segment.
  unfold bind at 1. unfold ret at 1. unfold bind. rewrite dirExists_run.
  cbn [exampleOf ExamplePath].
  destruct (isDirIn E (pathJoin E [examplesPath; patchOf u]) w); reflexivity.
Qed.

Lemma readExamples_all (E : Env) (examplesPath : bytes) (urls : list bytes) :
  forall acc w log,
    (forall u, In u urls ->
               isDirIn E (ExamplePath (exampleOf E examplesPath u)) w = true) ->
    readExamples E examplesPath urls acc (w, log)
    = (inr (acc ++ map (exampleOf E examplesPath) urls),
       (w, log ++ map (fun u => EvStat (ExamplePath (exampleOf E examplesPath u))) urls)).
Proof.
  induction urls as [|u urls IH]; intros acc w log H.
  - cbn [readExamples map]. rewrite !app_nil_r. reflexivity.
  - rewrite readExamples_step, (H u (or_introl eq_refl)).
    rewrite IH by (intros v Hv; apply H; right; exact Hv).
    cbn [map]. rewrite <- !app_assoc. reflexivity.
Qed.

Lemma readExamples_missing (E : Env) (examplesPath : bytes) (pre : list bytes) :
  forall u post acc w log,
    (forall v, In v pre ->
               isDirIn E (ExamplePath (exampleOf E examplesPath v)) w = true) ->
    isDirIn E (ExamplePath (exampleOf E examplesPath u)) w = false ->
    readExamples E examplesPath (pre ++ u :: post) acc (w, log)
    = (inl (ErrExampleDirMissing (ExamplePath (exampleOf E examplesPath u))),
       (w, log ++ map (fun v => EvStat (ExamplePath (exampleOf E examplesPath v)))
                      (pre ++ [u]))).
Proof.
  induction pre as [|v pre IH]; intros u post acc w log Hpre Hu.
  - cbn [app map]. rewrite readExamples_step, Hu. reflexivity.
  - cbn [app]. rewrite readExamples_step, (Hpre v (or_introl eq_refl)).
    rewrite IH by (try assumption; intros v' Hv'; apply Hpre; right; exact Hv').
    cbn [map]. rewrite <- !app_assoc. reflexivity.
Qed.

Lemma readExamples_inr (E : Env) (examplesPath : bytes) (urls : list bytes) :
  forall acc w log ex st',
    readExamples E examplesPath urls acc (w, log) = (inr ex, st') ->
    forall u, In u urls ->
              isDirIn E (ExamplePath (exampleOf E examplesPath u)) w = true.
Proof.
  induction urls as [|u urls IH]; intros acc w log ex st' H v Hv; [destruct Hv|].
  rewrite readExamples_step in H.
  destruct (isDirIn E (ExamplePath (exampleOf E examplesPath u)) w) eqn:Hd;
    [|discriminate H].
  destruct Hv as [<- | Hv]; [exact Hd|].
  exact (IH _ _ _ _ _ H v Hv).
Qed.

Lemma parseMetadata_inr (E : Env) (fr fr' : functionRelease) (examplesPath : bytes)
    (st st' : World E * list event) :
  parseMetadata E fr examplesPath st = (inr fr', st') ->
  exists yamlFile urls,
    readFileIn E (pathJoin E [FunctionPath fr; b "metadata.yaml"]) (fst st)
    = inl yamlFile
    /\ yamlExampleURLs E yamlFile = inl urls
    /\ fr' = withExamples fr (Examples fr ++ map (exampleOf E examplesPath) urls)
    /\ (forall u, In u urls ->
                  isDirIn E (ExamplePath (exampleOf E examplesPath u)) (fst st) = true)
    /\ st' = (fst st,
              snd st ++ EvReadFile (pathJoin E [FunctionPath fr; b "metadata.yaml"])
              :: map (fun u => EvStat (ExamplePath (exampleOf E examplesPath u))) urls).
Proof.
  destruct st as [w log]. unfold parseMetadata.
  destruct (isEmpty (FunctionPath fr)); [discriminate|].
  unfold bind at 1. rewrite readFile_run.
  destruct (readFileIn E _ w) as [yamlFile | msg] eqn:Hr; [|discriminate].
  destruct (yamlExampleURLs E yamlFile) as [urls | msg] eqn:Hy; [|discriminate].
  unfold bind.
  destruct (readExamples E examplesPath urls (Examples fr) _) as [[e | ex] st1] eqn:He;
    [discriminate|].
  intros H. pose proof (@readExamples_inr _ _ _ _ _ _ _ _ He) as Hall.
  rewrite readExamples_all in He by exact Hall.
  exists yamlFile, urls. cbn [fst snd]. repeat split; try assumption.
  - unfold ret in H. congruence.
  - unfold ret in H. rewrite <- app_assoc in He. cbn [app] in He. congruence.
Qed.

(** X7. When [parseMetadata] succeeds, the release has, after the
    examples it had, one example for each URL that [metadata.yaml] lists,
    in the order of the listing: its name is the last segment of the URL,
    its path that name under the examples path, and that directory exists.
    Nothing else of the release changes, its function path was set before,
    and all that was done outside is reading the metadata and looking at
    these directories. *)
Theorem parseMetadata_lists_examples
    (E : Env) (fr fr' : functionRelease) (examplesPath : bytes)
    (st st' : World E * list event) :
  parseMetadata E fr examplesPath st = (inr fr', st') ->
  exists yamlFile urls,
    readFileIn E (pathJoin E [FunctionPath fr; b "metadata.yaml"]) (fst st)
    = inl yamlFile
    /\ yamlExampleURLs E yamlFile = inl urls
    /\ fr' = withExamples fr (Examples fr ++ map (exampleOf E examplesPath) urls)
    /\ (forall u, In u urls ->
                  isDirIn E (ExamplePath (exampleOf E examplesPath u)) (fst st) = true)
    /\ st' = (fst st,
              snd st ++ EvReadFile (pathJoin E [FunctionPath fr; b "metadata.yaml"])
              :: map (fun u => EvStat (ExamplePath (exampleOf E examplesPath u))) urls)
    /\ exampleNames (Examples fr') = exampleNames (Examples fr) ++ map patchOf urls
    /\ FunctionPath fr' = FunctionPath fr /\ FunctionPath fr <> [].
Proof.
  intros H.
  assert (Hp : FunctionPath fr <> []).
  { intros E0. unfold parseMetadata in H. rewrite E0 in H. discriminate H. }
  apply parseMetadata_inr in H as (yamlFile & urls & Hr & Hy & Hfr & Hdirs & Hst).
  exists yamlFile, urls. repeat split; try assumption.
  - rewrite Hfr. cbn [Examples withExamples]. unfold exampleNames.
    rewrite map_app, map_map. reflexivity.
  - rewrite Hfr. reflexivity.
Qed.

Lemma parseMetadata_lists_examples_witness :
  exists yamlFile urls,
    readFileIn (repoEnv [])
      (pathJoin (repoEnv []) [FunctionPath located; b "metadata.yaml"])
      (fst (repoStart []))
    = inl yamlFile
    /\ yamlExampleURLs (repoEnv []) yamlFile = inl urls
    /\ documented
       = withExamples located
           (Examples located ++ map (exampleOf (repoEnv []) (b "/repo/examples")) urls)
    /\ (forall u, In u urls ->
                  isDirIn (repoEnv [])
                    (ExamplePath (exampleOf (repoEnv []) (b "/repo/examples") u))
                    (fst (repoStart [])) = true)
    /\ (fst (repoStart []),
        [EvReadFile (b "/repo/functions/go/apply-setters/metadata.yaml");
         EvStat (b "/repo/examples/apply-setters-simple")])
       = (fst (repoStart []),
          snd (repoStart [])
          ++ EvReadFile (pathJoin (repoEnv []) [FunctionPath located; b "metadata.yaml"])
          :: map (fun u => EvStat (ExamplePath
                                     (exampleOf (repoEnv []) (b "/repo/examples") u)))
                 urls)
    /\ exampleNames (Examples documented)
       = exampleNames (Examples located) ++ map patchOf urls
    /\ FunctionPath documented = FunctionPath located /\ FunctionPath located <> [].
Proof.
  apply (@parseMetadata_lists_examples (repoEnv []) located documented
           (b "/repo/examples") (repoStart [])
           (fst (repoStart []),
            [EvReadFile (b "/repo/functions/go/apply-setters/metadata.yaml");
             EvStat (b "/repo/examples/apply-setters-simple")])).
  vm_compute. reflexivity.
Defined.

(** X8. The first example of the metadata whose directory does not exist
    ends [parseMetadata]: the error names that directory, the examples
    listed after it are not looked at, and no release is returned. *)
Theorem parseMetadata_first_missing_example
    (E : Env) (fr : functionRelease) (examplesPath yamlFile u : bytes)
    (pre post : list bytes) (w : World E) (log : list event) :
  isEmpty (FunctionPath fr) = false ->
  readFileIn E (pathJoin E [FunctionPath fr; b "metadata.yaml"]) w = inl yamlFile ->
  yamlExampleURLs E yamlFile = inl (pre ++ u :: post) ->
  (forall v, In v pre ->
             isDirIn E (ExamplePath (exampleOf E examplesPath v)) w = true) ->
  isDirIn E (ExamplePath (exampleOf E examplesPath u)) w = false ->
  parseMetadata E fr examplesPath (w, log)
  = (inl (ErrExampleDirMissing (ExamplePath (exampleOf E examplesPath u))),
     (w, log ++ EvReadFile (pathJoin E [FunctionPath fr; b "metadata.yaml"])
         :: map (fun v => EvStat (ExamplePath (exampleOf E examplesPath v)))
                (pre ++ [u]))).
Proof.
  intros Hf Hr Hy Hpre Hu. unfold parseMetadata. rewrite Hf.
  unfold bind at 1. rewrite readFile_run, Hr, Hy.
  unfold bind. rewrite readExamples_missing by assumption.
  rewrite <- app_assoc. reflexivity.
Qed.

Lemma parseMetadata_first_missing_example_witness :
  parseMetadata (repoEnv [b "/repo/examples/apply-setters-simple"]) located
    (b "/repo/examples") ((repoFiles, false), [])
  = (inl (ErrExampleDirMissing
            (ExamplePath
               (exampleOf (repoEnv [b "/repo/examples/apply-setters-simple"])
                  (b "/repo/examples")
                  (catalogGit ++ b "examples/apply-setters-simple")))),
     ((repoFiles, false),
      [] ++ EvReadFile
              (pathJoin (repoEnv [b "/repo/examples/apply-setters-simple"])
                 [FunctionPath located; b "metadata.yaml"])
         :: map (fun v => EvStat
                            (ExamplePath
                               (exampleOf (repoEnv [b "/repo/examples/apply-setters-simple"])
                                  (b "/repo/examples") v)))
                ([] ++ [catalogGit ++ b "examples/apply-setters-simple"]))).
Proof.
  apply (@parseMetadata_first_missing_example
           (repoEnv [b "/repo/examples/apply-setters-simple"]) located
           (b "/repo/examples") [] (catalogGit ++ b "examples/apply-setters-simple")
           [] [] (repoFiles, false) []).
  - vm_compute. reflexivity.
  - vm_compute. reflexivity.
  - vm_compute. reflexivity.
  - intros v [].
  - vm_compute. reflexivity.
Defined.

(** ** The paths of the documentation *)

Lemma readDocPaths_run (E : Env) (fr : functionRelease) (exe : bytes)
    (w : World E) (log : list event) :
  executableIn E w = inl exe ->
  readDocPaths E fr (w, log)
  = let repoBase := pathDir E (pathDir E (pathDir E exe)) in
    let core := pathJoin E [repoBase; b "functions"; Language fr; FunctionName fr] in
    let contrib :=
      pathJoin E [repoBase; b "contrib"; b "functions"; Language fr; FunctionName fr] in
    if isDirIn E core w then
      if isEmpty core then (inl ErrPathsNotFound, (w, log ++ [EvStat core]))
      else parseMetadata E (withPath fr core false)
             (pathJoin E [repoBase; b "examples"]) (w, log ++ [EvStat core])
    else if isDirIn E contrib w then
      if isEmpty contrib
      then (inl ErrPathsNotFound, (w, log ++ [EvStat core; EvStat contrib]))
      else parseMetadata E (withPath fr contrib true)
             (pathJoin E [repoBase; b "contrib"; b "examples"])
             (w, log ++ [EvStat core; EvStat contrib])
    else
      if isEmpty (FunctionPath fr)
      then (inl ErrPathsNotFound, (w, log ++ [EvStat core; EvStat contrib]))
      else parseMetadata E fr [] (w, log ++ [EvStat core; EvStat contrib]).
Proof.
  intros He. unfold readDocPaths. unfold bind at 1. unfold executable.
  cbn [fst]. rewrite He. cbv zeta. cbn [probePaths].
  unfold bind at 1. unfold bind at 1. rewrite dirExists_run.
  destruct (isDirIn E _ w).
  - unfold ret. cbn [fst snd withPath FunctionPath].
    destruct (isEmpty _); reflexivity.
  - unfold bind at 1. rewrite dirExists_run.
    destruct (isDirIn E _ w).
    + unfold ret. cbn [fst snd withPath FunctionPath].
      rewrite <- app_assoc. destruct (isEmpty _); reflexivity.
    + unfold ret. cbn [fst snd]. rewrite <- app_assoc.
      destruct (isEmpty _); reflexivity.
Qed.

Lemma bind_never (E : Env) (A B : Type) (e0 : error) (m : M E A) (k : A -> M E B)
    (st : World E * list event) :
  fst (m st) <> inl e0 ->
  (forall a st', fst (k a st') <> inl e0) ->
  fst (bind m k st) <> inl e0.
Proof.
  intros Hm Hk. unfold bind. destruct (m st) as [[e | a] st'].
  - cbn [fst] in *. intros [= ->]. apply Hm. reflexivity.
  - apply Hk.
Qed.

Lemma readExamples_finds_paths (E : Env) (examplesPath : bytes) (urls : list bytes) :
  forall acc st, fst (readExamples E examplesPath urls acc st) <> inl ErrPathsNotFound.
Proof.
  induction urls as [|u urls IH]; intros acc [w log]; [discriminate|].
  rewrite readExamples_step.
  destruct (isDirIn E _ w); [apply IH | discriminate].
Qed.

Lemma parseMetadata_finds_paths (E : Env) (fr : functionRelease) (examplesPath : bytes)
    (st : World E * list event) :
  fst (parseMetadata E fr examplesPath st) <> inl ErrPathsNotFound.
Proof.
  destruct st as [w log]. unfold parseMetadata.
  destruct (isEmpty (FunctionPath fr)); [discriminate|].
  unfold bind at 1. rewrite readFile_run.
  destruct (readFileIn E _ w) as [y | msg]; [|discriminate].
  destruct (yamlExampleURLs E y) as [urls | msg]; [|discriminate].
  apply bind_never; [apply readExamples_finds_paths | intros; discriminate].
Qed.

Lemma isProbe_stats {A} (f : A -> bytes) (l : list A) :
  forallb isProbe (map (fun u => EvStat (f u)) l) = true.
Proof. induction l as [|a l IH]; [reflexivity | exact IH]. Qed.

(** What a successful [readDocPaths] has chosen. *)
Lemma readDocPaths_inr
    (E : Env) (fr fr' : functionRelease) (st st' : World E * list event) :
  FunctionPath fr = [] ->
  readDocPaths E fr st = (inr fr', st') ->
  exists exe urls probes,
    executableIn E (fst st) = inl exe
    /\ (let repoBase := pathDir E (pathDir E (pathDir E exe)) in
        let core := pathJoin E [repoBase; b "functions"; Language fr; FunctionName fr] in
        let contrib :=
          pathJoin E [repoBase; b "contrib"; b "functions"; Language fr;
                      FunctionName fr] in
        (isDirIn E core (fst st) = true
         /\ fr' = withExamples (withPath fr core false)
                    (Examples fr
                     ++ map (exampleOf E (pathJoin E [repoBase; b "examples"])) urls)
         /\ forall u, In u urls ->
               isDirIn E (ExamplePath
                            (exampleOf E (pathJoin E [repoBase; b "examples"]) u))
                 (fst st) = true)
        \/ (isDirIn E core (fst st) = false
            /\ isDirIn E contrib (fst st) = true
            /\ fr' = withExamples (withPath fr contrib true)
                       (Examples fr
                        ++ map (exampleOf E (pathJoin E [repoBase; b "contrib";
                                                         b "examples"])) urls)
            /\ forall u, In u urls ->
                  isDirIn E (ExamplePath
                               (exampleOf E (pathJoin E [repoBase; b "contrib";
                                                         b "examples"]) u))
                    (fst st) = true))
    /\ FunctionPath fr' <> []
    /\ st' = (fst st, snd st ++ probes)
    /\ forallb isProbe probes = true.
Proof.
  intros Hf H. destruct st as [w log]. cbn [fst snd].
  destruct (executableIn E w) as [exe | msg] eqn:He.
  2:{ unfold readDocPaths, bind, executable in H. cbn [fst] in H.
      rewrite He in H. discriminate H. }
  rewrite (@readDocPaths_run E fr exe w log He) in H. cbv zeta in H.
  destruct (isDirIn E _ w) eqn:Hcore.
  - destruct (isEmpty _) eqn:Hne; [discriminate H|].
    apply parseMetadata_inr in H as (y & urls & _ & _ & Hfr & Hex & Hst).
    cbn [fst snd withPath FunctionPath Examples] in *.
    exists exe, urls. eexists. split; [reflexivity|]. cbv zeta.
    split; [left; split; [exact Hcore | split; [exact Hfr | exact Hex]]|].
    split; [rewrite Hfr; cbn [FunctionPath withExamples withPath];
            intros E0; rewrite E0 in Hne; discriminate Hne|].
    split; [rewrite Hst, <- app_assoc; reflexivity|].
    cbn [app forallb isProbe andb]. apply isProbe_stats.
  - match type of H with
    | context [isDirIn E ?p w] => destruct (isDirIn E p w) eqn:Hcontrib
    end.
    + destruct (isEmpty _) eqn:Hne; [discriminate H|].
      apply parseMetadata_inr in H as (y & urls & _ & _ & Hfr & Hex & Hst).
      cbn [fst snd withPath FunctionPath Examples] in *.
      exists exe, urls. eexists. split; [reflexivity|]. cbv zeta.
      split; [right; split; [exact Hcore | split; [exact Hcontrib | split; [exact Hfr | exact Hex]]]|].
      split; [rewrite Hfr; cbn [FunctionPath withExamples withPath];
              intros E0; rewrite E0 in Hne; discriminate Hne|].
      split; [rewrite Hst, <- app_assoc; reflexivity|].
      cbn [app forallb isProbe andb]. apply isProbe_stats.
    + rewrite Hf in H. discriminate H.
Qed.

(** X9. When [readDocPaths] succeeds on a release without a path, the
    function path is [functions/<language>/<name>] under the repository if
    that directory exists, and only if it does not the one under [contrib];
    the release is marked as contributed exactly in the second case, so
    that the package rule looks for [examples/] or [contrib/examples/] in
    URLs accordingly.  The examples added to the release are those of the
    metadata: the file [metadata.yaml] of the function path was read from
    the world of the call, and for each URL it lists, in order, there is
    one example named by the last segment of the URL, with as path that
    name under the examples directory of the same side, an existing
    directory.  All that was done outside is looking at directories and
    reading a file: the world is as it was. *)
Theorem readDocPaths_prefers_core
    (E : Env) (fr fr' : functionRelease) (st st' : World E * list event) :
  FunctionPath fr = [] ->
  readDocPaths E fr st = (inr fr', st') ->
  exists exe yamlFile urls probes,
    executableIn E (fst st) = inl exe
    /\ yamlExampleURLs E yamlFile = inl urls
    /\ (let repoBase := pathDir E (pathDir E (pathDir E exe)) in
        let core := pathJoin E [repoBase; b "functions"; Language fr; FunctionName fr] in
        let contrib :=
          pathJoin E [repoBase; b "contrib"; b "functions"; Language fr;
                      FunctionName fr] in
        (isDirIn E core (fst st) = true
         /\ readFileIn E (pathJoin E [core; b "metadata.yaml"]) (fst st) = inl yamlFile
         /\ fr' = withExamples (withPath fr core false)
                    (Examples fr
                     ++ map (exampleOf E (pathJoin E [repoBase; b "examples"])) urls)
         /\ exampleSubPath fr' = b "examples"
         /\ forall u, In u urls ->
               isDirIn E (pathJoin E [pathJoin E [repoBase; b "examples"]; patchOf u])
                 (fst st) = true)
        \/ (isDirIn E core (fst st) = false
            /\ isDirIn E contrib (fst st) = true
            /\ readFileIn E (pathJoin E [contrib; b "metadata.yaml"]) (fst st)
               = inl yamlFile
            /\ fr' = withExamples (withPath fr contrib true)
                       (Examples fr
                        ++ map (exampleOf E (pathJoin E [repoBase; b "contrib";
                                                         b "examples"])) urls)
            /\ exampleSubPath fr' = b "contrib/examples"
            /\ forall u, In u urls ->
                  isDirIn E (pathJoin E [pathJoin E [repoBase; b "contrib";
                                                       b "examples"]; patchOf u])
                    (fst st) = true))
    /\ FunctionPath fr' <> []
    /\ st' = (fst st, snd st ++ probes)
    /\ forallb isProbe probes = true.
Proof.
  intros Hf H. destruct st as [w log]. cbn [fst snd].
  destruct (executableIn E w) as [exe | msg] eqn:He.
  2:{ unfold readDocPaths, bind, executable in H. cbn [fst] in H.
      rewrite He in H. discriminate H. }
  rewrite (@readDocPaths_run E fr exe w log He) in H. cbv zeta in H.
  destruct (isDirIn E _ w) eqn:Hcore.
  - destruct (isEmpty _) eqn:Hne; [discriminate H|].
    apply parseMetadata_inr in H as (y & urls & Hy & Hu & Hfr & Hex & Hst).
    cbn [fst snd withPath FunctionPath Examples] in *.
    exists exe, y, urls. eexists. split; [reflexivity|]. split; [exact Hu|]. cbv zeta.
    split.
    { left. split; [exact Hcore|]. split; [exact Hy|]. split; [exact Hfr|].
      split; [rewrite Hfr; reflexivity | exact Hex]. }
    split; [rewrite Hfr; cbn [FunctionPath withExamples withPath];
            intros E0; rewrite E0 in Hne; discriminate Hne|].
    split; [rewrite Hst, <- app_assoc; reflexivity|].
    cbn [app forallb isProbe andb]. apply isProbe_stats.
  - match type of H with
    | context [isDirIn E ?p w] => destruct (isDirIn E p w) eqn:Hcontrib
    end.
    + destruct (isEmpty _) eqn:Hne; [discriminate H|].
      apply parseMetadata_inr in H as (y & urls & Hy & Hu & Hfr & Hex & Hst).
      cbn [fst snd withPath FunctionPath Examples] in *.
      exists exe, y, urls. eexists. split; [reflexivity|]. split; [exact Hu|]. cbv zeta.
      split.
      { right. split; [exact Hcore|]. split; [exact Hcontrib|]. split; [exact Hy|].
        split; [exact Hfr|]. split; [rewrite Hfr; reflexivity | exact Hex]. }
      split; [rewrite Hfr; cbn [FunctionPath withExamples withPath];
              intros E0; rewrite E0 in Hne; discriminate Hne|].
      split; [rewrite Hst, <- app_assoc; reflexivity|].
      cbn [app forallb isProbe andb]. apply isProbe_stats.
    + rewrite Hf in H. discriminate H.
Qed.

Lemma readDocPaths_prefers_core_witness :
  exists exe yamlFile urls probes,
    executableIn (repoEnv []) (fst (repoStart [])) = inl exe
    /\ yamlExampleURLs (repoEnv []) yamlFile = inl urls
    /\ (let repoBase := pathDir (repoEnv []) (pathDir (repoEnv []) (pathDir (repoEnv []) exe)) in
        let core := pathJoin (repoEnv []) [repoBase; b "functions"; Language resolved; FunctionName resolved] in
        let contrib :=
          pathJoin (repoEnv []) [repoBase; b "contrib"; b "functions"; Language resolved;
                      FunctionName resolved] in
        (isDirIn (repoEnv []) core (fst (repoStart [])) = true
         /\ readFileIn (repoEnv []) (pathJoin (repoEnv []) [core; b "metadata.yaml"]) (fst (repoStart [])) = inl yamlFile
         /\ documented = withExamples (withPath resolved core false)
                    (Examples resolved
                     ++ map (exampleOf (repoEnv []) (pathJoin (repoEnv []) [repoBase; b "examples"])) urls)
         /\ exampleSubPath documented = b "examples"
         /\ forall u, In u urls ->
               isDirIn (repoEnv []) (pathJoin (repoEnv []) [pathJoin (repoEnv []) [repoBase; b "examples"]; patchOf u])
                 (fst (repoStart [])) = true)
        \/ (isDirIn (repoEnv []) core (fst (repoStart [])) = false
            /\ isDirIn (repoEnv []) contrib (fst (repoStart [])) = true
            /\ readFileIn (repoEnv []) (pathJoin (repoEnv []) [contrib; b "metadata.yaml"]) (fst (repoStart []))
               = inl yamlFile
            /\ documented = withExamples (withPath resolved contrib true)
                       (Examples resolved
                        ++ map (exampleOf (repoEnv []) (pathJoin (repoEnv []) [repoBase; b "contrib";
                                                         b "examples"])) urls)
            /\ exampleSubPath documented = b "contrib/examples"
            /\ forall u, In u urls ->
                  isDirIn (repoEnv []) (pathJoin (repoEnv []) [pathJoin (repoEnv []) [repoBase; b "contrib";
                                                       b "examples"]; patchOf u])
                    (fst (repoStart [])) = true))
    /\ FunctionPath documented <> []
    /\ (fst (repoStart []),
        [EvStat (b "/repo/functions/go/apply-setters");
         EvReadFile (b "/repo/functions/go/apply-setters/metadata.yaml");
         EvStat (b "/repo/examples/apply-setters-simple")])
       = (fst (repoStart []), snd (repoStart []) ++ probes)
    /\ forallb isProbe probes = true.
Proof.
  apply (@readDocPaths_prefers_core (repoEnv []) resolved documented (repoStart [])
           (fst (repoStart []),
            [EvStat (b "/repo/functions/go/apply-setters");
             EvReadFile (b "/repo/functions/go/apply-setters/metadata.yaml");
             EvStat (b "/repo/examples/apply-setters-simple")])).
  - reflexivity.
  - vm_compute. reflexivity.
Defined.

(** X10. On a release without a path, [readDocPaths] reports that the
    paths were not found exactly when neither the directory of the function
    under [functions] nor the one under [contrib/functions] exists; it has
    then looked at these two directories, in this order, and at nothing
    else. *)
Theorem readDocPaths_not_found_iff
    (E : Env) (fr : functionRelease) (exe : bytes) (w : World E) (log : list event) :
  executableIn E w = inl exe ->
  FunctionPath fr = [] ->
  isEmpty (pathJoin E [pathDir E (pathDir E (pathDir E exe)); b "functions";
                       Language fr; FunctionName fr]) = false ->
  isEmpty (pathJoin E [pathDir E (pathDir E (pathDir E exe)); b "contrib";
                       b "functions"; Language fr; FunctionName fr]) = false ->
  (fst (readDocPaths E fr (w, log)) = inl ErrPathsNotFound
   <-> isDirIn E (pathJoin E [pathDir E (pathDir E (pathDir E exe)); b "functions";
                              Language fr; FunctionName fr]) w = false
       /\ isDirIn E (pathJoin E [pathDir E (pathDir E (pathDir E exe)); b "contrib";
                                 b "functions"; Language fr; FunctionName fr]) w = false)
  /\ (fst (readDocPaths E fr (w, log)) = inl ErrPathsNotFound ->
      snd (readDocPaths E fr (w, log))
      = (w, log ++ [EvStat (pathJoin E [pathDir E (pathDir E (pathDir E exe));
                                        b "functions"; Language fr; FunctionName fr]);
                    EvStat (pathJoin E [pathDir E (pathDir E (pathDir E exe));
                                        b "contrib"; b "functions"; Language fr;
                                        FunctionName fr])])).
Proof.
  intros He Hf H1 H2. rewrite (@readDocPaths_run E fr exe w log He). cbv zeta.
  rewrite H1, H2, Hf. cbn [isEmpty].
  destruct (isDirIn E (pathJoin E [_; b "functions"; _; _]) w).
  - split; [split|].
    + intros H. exfalso. exact (parseMetadata_finds_paths _ _ _ _ H).
    + intros [H _]. discriminate H.
    + intros H. exfalso. exact (parseMetadata_finds_paths _ _ _ _ H).
  - destruct (isDirIn E (pathJoin E [_; b "contrib"; _; _; _]) w).
    + split; [split|].
      * intros H. exfalso. exact (parseMetadata_finds_paths _ _ _ _ H).
      * intros [_ H]. discriminate H.
      * intros H. exfalso. exact (parseMetadata_finds_paths _ _ _ _ H).
    + split; [split|]; try reflexivity. intros _. split; reflexivity.
Qed.

Lemma readDocPaths_not_found_iff_witness :
  (fst (readDocPaths (repoEnv [b "/repo/functions/go/apply-setters";
              b "/repo/contrib/functions/go/apply-setters"]) resolved
          ((repoFiles, false), [])) = inl ErrPathsNotFound
   <-> isDirIn (repoEnv [b "/repo/functions/go/apply-setters";
              b "/repo/contrib/functions/go/apply-setters"])
         (b "/repo/functions/go/apply-setters") (repoFiles, false) = false
       /\ isDirIn (repoEnv [b "/repo/functions/go/apply-setters";
              b "/repo/contrib/functions/go/apply-setters"])
            (b "/repo/contrib/functions/go/apply-setters") (repoFiles, false) = false)
  /\ (fst (readDocPaths (repoEnv [b "/repo/functions/go/apply-setters";
              b "/repo/contrib/functions/go/apply-setters"]) resolved
             ((repoFiles, false), [])) = inl ErrPathsNotFound ->
      snd (readDocPaths (repoEnv [b "/repo/functions/go/apply-setters";
              b "/repo/contrib/functions/go/apply-setters"]) resolved
             ((repoFiles, false), []))
      = ((repoFiles, false),
         [] ++ [EvStat (b "/repo/functions/go/apply-setters");
                EvStat (b "/repo/contrib/functions/go/apply-setters")])).
Proof.
  apply (@readDocPaths_not_found_iff (repoEnv [b "/repo/functions/go/apply-setters";
              b "/repo/contrib/functions/go/apply-setters"])
           resolved (b "/repo/scripts/update_function_docs/update_function_docs")
           (repoFiles, false) []); vm_compute; reflexivity.
Defined.

(** ** The files that are rewritten *)

Lemma updateDoc_run (E : Env) (fr : functionRelease) (p : bytes)
    (w : World E) (log : list event) :
  updateDoc E fr p (w, log)
  = match readFileIn E p w with
    | inr msg => (inl (ErrExternal msg), (w, log ++ [EvReadFile p]))
    | inl c =>
        (match fst (writeFileIn E p (updateContents fr c) w) with
         | None => inr tt
         | Some msg => inl (ErrExternal msg)
         end,
         (snd (writeFileIn E p (updateContents fr c) w),
          log ++ rewriteEvents fr (p, c)))
    end.
Proof.
  unfold updateDoc, bind. rewrite readFile_run.
  destruct (readFileIn E p w) as [c | msg]; [|reflexivity].
  rewrite writeFile_run, <- app_assoc. reflexivity.
Qed.

(** The run in the repository of the example: both files are rewritten. *)
Example updateDocs_repo :
  updateDocs (repoEnv []) documented ((repoFiles, false), [])
  = (inr tt,
     (((b "/repo/examples/apply-setters-simple/README.md",
        b "kpt pkg get " ++ catalogGit
        ++ b "examples/apply-setters-simple@apply-setters/v1.0.10" ++ [newline])
       :: (b "/repo/functions/go/apply-setters/README.md",
           b "gcr.io/kpt-fn/apply-setters:v1.0.10" ++ [newline])
       :: repoFiles, true),
      [EvReadFile (b "/repo/functions/go/apply-setters/README.md");
       EvWriteFile (b "/repo/functions/go/apply-setters/README.md")
         (b "gcr.io/kpt-fn/apply-setters:v1.0.10" ++ [newline]);
       EvReadFile (b "/repo/examples/apply-setters-simple/README.md");
       EvWriteFile (b "/repo/examples/apply-setters-simple/README.md")
         (b "kpt pkg get " ++ catalogGit
          ++ b "examples/apply-setters-simple@apply-setters/v1.0.10" ++ [newline])])).
Proof. vm_compute. reflexivity. Qed.

(** ** The commands of a run *)

Lemma command_run (E : Env) (name : bytes) (args : list bytes)
    (w : World E) (log : list event) :
  bind (runCmd E name args) (checked E) (w, log)
  = (match snd (fst (runCmdIn E name args w)) with
     | Some msg => inl (ErrExternal msg)
     | None => inr (fst (fst (runCmdIn E name args w)))
     end,
     (snd (runCmdIn E name args w), log ++ [EvCmd name args])).
Proof.
  unfold bind, runCmd, logged, checked. cbn [fst snd].
  destruct (runCmdIn E name args w) as [[out [msg|]] w']; reflexivity.
Qed.

Lemma isCleanRepo_run (E : Env) (w : World E) (log : list event) :
  isCleanRepo E (w, log)
  = (inr (match snd (fst (runCmdIn E (b "git")
                            [b "diff-index"; b "--quiet"; b "HEAD"; b "--"] w)) with
          | Some _ => false
          | None => true
          end),
     (snd (runCmdIn E (b "git") [b "diff-index"; b "--quiet"; b "HEAD"; b "--"] w),
      log ++ [cleanCheck])).
Proof.
  unfold isCleanRepo, bind, runCmd, logged, ret. cbn [fst snd].
  destruct (runCmdIn E _ _ w) as [[out [msg|]] w']; reflexivity.
Qed.

Lemma readExamples_log (E : Env) (examplesPath : bytes) (urls : list bytes) :
  forall acc w log,
  exists ps, snd (readExamples E examplesPath urls acc (w, log)) = (w, log ++ ps)
             /\ forallb isProbe ps = true.
Proof.
  induction urls as [|u urls IH]; intros acc w log.
  - exists []. cbn. rewrite app_nil_r. split; reflexivity.
  - rewrite readExamples_step. destruct (isDirIn E _ w).
    + destruct (IH (acc ++ [exampleOf E examplesPath u]) w
                  (log ++ [EvStat (ExamplePath (exampleOf E examplesPath u))]))
        as (ps & Hps & Hp).
      exists (EvStat (ExamplePath (exampleOf E examplesPath u)) :: ps).
      rewrite Hps, <- app_assoc. split; [reflexivity | exact Hp].
    + exists [EvStat (ExamplePath (exampleOf E examplesPath u))].
      split; reflexivity.
Qed.

Lemma parseMetadata_log (E : Env) (fr : functionRelease) (examplesPath : bytes)
    (w : World E) (log : list event) :
  exists ps, snd (parseMetadata E fr examplesPath (w, log)) = (w, log ++ ps)
             /\ forallb isProbe ps = true.
Proof.
  unfold parseMetadata. destruct (isEmpty (FunctionPath fr)).
  - exists []. cbn. rewrite app_nil_r. split; reflexivity.
  - unfold bind at 1. rewrite readFile_run.
    destruct (readFileIn E _ w) as [y | msg].
    + destruct (yamlExampleURLs E y) as [urls | msg].
      * unfold bind.
        destruct (readExamples_log E examplesPath urls (Examples fr) w
                    (log ++ [EvReadFile (pathJoin E [FunctionPath fr; b "metadata.yaml"])]))
          as (ps & Hps & Hp).
        destruct (readExamples E examplesPath urls (Examples fr) _) as [[e | ex] st1];
          cbn [snd] in *; subst st1;
          exists (EvReadFile (pathJoin E [FunctionPath fr; b "metadata.yaml"]) :: ps);
          rewrite <- app_assoc; (split; [reflexivity | exact Hp]).
      * exists [EvReadFile (pathJoin E [FunctionPath fr; b "metadata.yaml"])].
        split; reflexivity.
    + exists [EvReadFile (pathJoin E [FunctionPath fr; b "metadata.yaml"])].
      split; reflexivity.
Qed.

Lemma readDocPaths_log (E : Env) (fr : functionRelease)
    (w : World E) (log : list event) :
  exists ps, snd (readDocPaths E fr (w, log)) = (w, log ++ ps)
             /\ forallb isProbe ps = true.
Proof.
  destruct (executableIn E w) as [exe | msg] eqn:He.
  2:{ exists []. unfold readDocPaths, bind, executable. cbn [fst]. rewrite He.
      cbn. rewrite app_nil_r. split; reflexivity. }
  rewrite (@readDocPaths_run E fr exe w log He). cbv zeta.
  set (core := pathJoin E [_; b "functions"; _; _]).
  set (contrib := pathJoin E [_; b "contrib"; _; _; _]).
  assert (Hmeta : forall fr0 root pre,
            forallb isProbe pre = true ->
            exists ps, snd (parseMetadata E fr0 root (w, log ++ pre)) = (w, log ++ ps)
                       /\ forallb isProbe ps = true).
  { intros fr0 root pre Hpre.
    destruct (parseMetadata_log E fr0 root w (log ++ pre)) as (ps & Hps & Hp).
    exists (pre ++ ps). rewrite Hps, <- app_assoc. split; [reflexivity|].
    rewrite forallb_app, Hpre, Hp. reflexivity. }
  destruct (isDirIn E core w).
  - destruct (isEmpty core).
    + exists [EvStat core]. split; reflexivity.
    + apply Hmeta. reflexivity.
  - destruct (isDirIn E contrib w).
    + destruct (isEmpty contrib).
      * exists [EvStat core; EvStat contrib]. split; reflexivity.
      * apply Hmeta. reflexivity.
    + destruct (isEmpty (FunctionPath fr)).
      * exists [EvStat core; EvStat contrib]. split; reflexivity.
      * apply Hmeta. reflexivity.
Qed.

Lemma readLatestPatchVersion_run (E : Env) (fr : functionRelease)
    (w : World E) (log : list event) :
  isEmpty (FunctionName fr) || isEmpty (MinorVersion fr) = false ->
  readLatestPatchVersion E fr (w, log)
  = (match snd (fst (runCmdIn E (b "git") [b "tag"] w)) with
     | Some msg => inl (ErrExternal msg)
     | None => resolveFromTags fr (fst (fst (runCmdIn E (b "git") [b "tag"] w)))
     end,
     (snd (runCmdIn E (b "git") [b "tag"] w), log ++ [EvCmd (b "git") [b "tag"]])).
Proof.
  intros H. unfold readLatestPatchVersion. rewrite H.
  unfold bind at 1. unfold gitTag. rewrite command_run.
  destruct (snd (fst (runCmdIn E (b "git") [b "tag"] w))); [reflexivity|].
  destruct (resolveFromTags fr _); reflexivity.
Qed.

Lemma newFunctionRelease_run (E : Env) (branch mv fn : bytes)
    (st : World E * list event) :
  MatchString releaseBranchPattern branch = true ->
  fromEnd (strings.Split branch "/") 1 = Some mv ->
  fromEnd (strings.Split branch "/") 2 = Some fn ->
  newFunctionRelease E branch st
  = bind (readLatestPatchVersion E (named fn mv)) (readDocPaths E) st.
Proof.
  intros Hm H1 H2. unfold newFunctionRelease, indexFromEnd.
  rewrite Hm, H1, H2. reflexivity.
Qed.

Lemma isFileEvent_probes (ps : list event) :
  forallb isProbe ps = true -> forallb isFileEvent ps = true.
Proof.
  apply forallb_impl. intros [n a | p | p | p c]; try reflexivity; discriminate.
Qed.

Lemma isFileEvent_rewrites (fr : functionRelease) (done : list (bytes * bytes)) :
  forallb isFileEvent (flat_map (rewriteEvents fr) done) = true.
Proof. induction done as [|pc done IH]; [reflexivity | exact IH]. Qed.

(** The start of [main]: the three commands before the release is
    built, or the failure of one of them. *)
Lemma main_start (E : Env) (prog branch : bytes) (rest : list bytes)
    (w : World E) (log : list event) :
  (exists k e w',
      1 <= k <= 3
      /\ main E (prog :: branch :: rest) (w, log)
         = (inl e, (w', log ++ firstn k (preamble branch)))
      /\ (2 <= k ->
          snd (fst (runCmdIn E (b "git")
                      [b "diff-index"; b "--quiet"; b "HEAD"; b "--"] w)) = None)
      /\ ((e = ErrDirtyRepo
           /\ snd (fst (runCmdIn E (b "git")
                          [b "diff-index"; b "--quiet"; b "HEAD"; b "--"] w)) <> None)
          \/ exists msg, e = ErrExternal msg))
  \/ (exists w3,
        main E (prog :: branch :: rest) (w, log)
        = bind (newFunctionRelease E branch)
            (fun fr =>
               bind (updateDocs E fr) (fun _ =>
               bind (isCleanRepo E)
                 (fun clean' : bool =>
                    if clean' then throw E ErrDocsUpToDate
                    else bind (gitAdd E) (fun _ =>
                         bind (gitCommit E (b "docs: Update tags for " ++ Language fr
                                            ++ b "/" ++ FunctionName fr ++ b "/"
                                            ++ LatestPatchVersion fr)) (fun _ =>
                         bind (gitShow E) (fun _ => ret E tt))))))
            (w3, log ++ firstn 3 (preamble branch))
        /\ snd (fst (runCmdIn E (b "git")
                       [b "diff-index"; b "--quiet"; b "HEAD"; b "--"] w)) = None).
Proof.
  destruct (snd (fst (runCmdIn E (b "git")
                        [b "diff-index"; b "--quiet"; b "HEAD"; b "--"] w)))
    as [msg|] eqn:Hclean.
  { left. exists 1, ErrDirtyRepo. eexists. split; [lia|].
    split; [|split; [lia | left; split; [reflexivity | discriminate]]].
    unfold main. unfold bind at 1. rewrite isCleanRepo_run, Hclean. reflexivity. }
  destruct (snd (fst (runCmdIn E (b "git") [b "fetch"; b "--tags"]
                        (snd (runCmdIn E (b "git")
                                [b "diff-index"; b "--quiet"; b "HEAD"; b "--"] w)))))
    as [msg1|] eqn:Hfetch.
  { left. exists 2, (ErrExternal msg1). eexists. split; [lia|].
    split; [|split; [reflexivity | right; exists msg1; reflexivity]].
    unfold main. unfold bind at 1. rewrite isCleanRepo_run, Hclean. cbn [negb].
    unfold bind at 1. unfold gitFetch. rewrite command_run, Hfetch.
    rewrite <- !(app_assoc log). reflexivity. }
  destruct (snd (fst (runCmdIn E (b "git") [b "checkout"; branch]
                        (snd (runCmdIn E (b "git") [b "fetch"; b "--tags"]
                                (snd (runCmdIn E (b "git")
                                        [b "diff-index"; b "--quiet"; b "HEAD"; b "--"]
                                        w)))))))
    as [msg2|] eqn:Hcheckout.
  { left. exists 3, (ErrExternal msg2). eexists. split; [lia|].
    split; [|split; [reflexivity | right; exists msg2; reflexivity]].
    unfold main. unfold bind at 1. rewrite isCleanRepo_run, Hclean. cbn [negb].
    unfold bind at 1. unfold gitFetch. rewrite command_run, Hfetch.
    unfold bind at 1. unfold gitCheckout. rewrite command_run, Hcheckout.
    rewrite <- !(app_assoc log). reflexivity. }
  right. eexists. split; [|reflexivity].
  unfold main. unfold bind at 1. rewrite isCleanRepo_run, Hclean. cbn [negb].
  unfold bind at 1. unfold gitFetch. rewrite command_run, Hfetch.
  unfold bind at 1. unfold gitCheckout. rewrite command_run, Hcheckout.
  rewrite <- !(app_assoc log). reflexivity.
Qed.

(** The run in the repository of the example. *)
Example main_repo_run :
  fst (main (repoEnv []) [b "update_function_docs"; b "apply-setters/v1.0"]
         (repoStart [])) = inr tt
  /\ snd (snd (main (repoEnv []) [b "update_function_docs"; b "apply-setters/v1.0"]
                 (repoStart [])))
     = preamble (b "apply-setters/v1.0")
       ++ [EvStat (b "/repo/functions/go/apply-setters");
           EvReadFile (b "/repo/functions/go/apply-setters/metadata.yaml");
           EvStat (b "/repo/examples/apply-setters-simple")]
       ++ flat_map (rewriteEvents documented)
            [(b "/repo/functions/go/apply-setters/README.md",
              b "gcr.io/kpt-fn/apply-setters:unstable" ++ [newline]);
             (b "/repo/examples/apply-setters-simple/README.md",
              b "kpt pkg get " ++ pkgLine)]
       ++ epilogue documented.
Proof. split; vm_compute; reflexivity. Qed.

(** ** The release that is built *)

Lemma Split_cons (s : bytes) (c : ascii) :
  exists seg segs, strings.Split s c = seg :: segs.
Proof.
  destruct (strings.Split s c) as [|seg segs] eqn:H.
  - exfalso. exact (Split_nonempty s c H).
  - exists seg, segs. reflexivity.
Qed.

(** A piece of a split holds bytes of the text, and not the separator. *)
Lemma Split_pieces (s : bytes) (c : ascii) :
  forall x, In x (strings.Split s c) ->
            ~ In c x /\ forall ch, In ch x -> In ch s.
Proof.
  induction s as [|d s IH]; intros x Hx.
  - cbn [strings.Split] in Hx. destruct Hx as [<- | []]. split; [intros [] | intros ch []].
  - cbn [strings.Split] in Hx. destruct (ascii_dec d c) as [-> | Hd].
    + destruct Hx as [<- | Hx]; [split; [intros [] | intros ch []]|].
      destruct (IH x Hx) as [H1 H2]. split; [exact H1|].
      intros ch Hch. right. apply H2. exact Hch.
    + destruct (Split_cons s c) as (seg & segs & Es). rewrite Es in Hx, IH.
      destruct Hx as [<- | Hx].
      * destruct (IH seg (or_introl eq_refl)) as [H1 H2]. split.
        -- intros [Hc | Hc]; [congruence | exact (H1 Hc)].
        -- intros ch [<- | Hch]; [left; reflexivity | right; apply H2; exact Hch].
      * destruct (IH x (or_intror Hx)) as [H1 H2]. split; [exact H1|].
        intros ch Hch. right. apply H2. exact Hch.
Qed.

Lemma fromEnd_In (segs : list bytes) (k : nat) (x : bytes) :
  fromEnd segs k = Some x -> In x segs.
Proof.
  unfold fromEnd. destruct (k <=? length segs); [|discriminate].
  apply nth_error_In.
Qed.

Lemma not_In_noSlash (x : bytes) : ~ In "/"%char x -> noSlash x = true.
Proof.
  intros H. unfold noSlash. apply forallb_forall. intros c Hc.
  destruct (ascii_dec c "/") as [-> |]; [contradiction | reflexivity].
Qed.

Lemma not_In_count (x : bytes) (c : ascii) : ~ In c x -> count_occ ascii_dec x c = 0.
Proof. apply count_occ_not_In. Qed.

Lemma segment_noSlash (s x : bytes) (k : nat) :
  fromEnd (strings.Split s "/") k = Some x -> noSlash x = true.
Proof.
  intros H. apply fromEnd_In in H. apply not_In_noSlash.
  exact (proj1 (Split_pieces _ _ _ H)).
Qed.

Lemma segment_of_line (tags tag x : bytes) (k : nat) :
  In tag (strings.Split tags newline) ->
  fromEnd (strings.Split tag "/") k = Some x ->
  count_occ ascii_dec x newline = 0.
Proof.
  intros Ht Hx. apply not_In_count. intros Hin.
  apply fromEnd_In in Hx.
  apply (proj1 (Split_pieces _ _ _ Ht)).
  exact (proj2 (Split_pieces _ _ _ Hx) _ Hin).
Qed.

Lemma newFunctionRelease_inr (E : Env) (branch : bytes) (fr : functionRelease)
    (st st' : World E * list event) :
  newFunctionRelease E branch st = (inr fr, st') ->
  exists fn mv tags tag,
    fromEnd (strings.Split branch "/") 2 = Some fn
    /\ fromEnd (strings.Split branch "/") 1 = Some mv
    /\ isEmpty fn || isEmpty mv = false
    /\ tags = fst (fst (runCmdIn E (b "git") [b "tag"] (fst st)))
    /\ In tag (strings.Split tags newline)
    /\ survives (fn ++ b "/" ++ mv) tag = true
    /\ patchOf tag <> [] /\ langOf tag <> []
    /\ readDocPaths E (withVersion (named fn mv) (langOf tag) (patchOf tag))
         (snd (runCmdIn E (b "git") [b "tag"] (fst st)),
          snd st ++ [EvCmd (b "git") [b "tag"]])
       = (inr fr, st').
Proof.
  destruct st as [w log]. intros H.
  destruct (MatchString releaseBranchPattern branch) eqn:Hm.
  2:{ unfold newFunctionRelease in H. rewrite Hm in H. discriminate H. }
  pose proof Hm as Hs. rewrite MatchString_branch in Hs. apply hasMinorMark_slash in Hs.
  destruct (@fromEnd_Some (strings.Split branch "/") 1) as (mv & E1);
    [rewrite Split_length; lia|].
  destruct (@fromEnd_Some (strings.Split branch "/") 2) as (fn & E2);
    [rewrite Split_length; lia|].
  rewrite (@newFunctionRelease_run E branch mv fn (w, log) Hm E1 E2) in H.
  destruct (isEmpty (FunctionName (named fn mv)) || isEmpty (MinorVersion (named fn mv)))
    eqn:Hid.
  { unfold bind, readLatestPatchVersion in H. rewrite Hid in H. discriminate H. }
  unfold bind in H. rewrite (@readLatestPatchVersion_run E (named fn mv) w log Hid) in H.
  destruct (snd (fst (runCmdIn E (b "git") [b "tag"] w))) as [msg|]; [discriminate H|].
  destruct (resolveFromTags (named fn mv) _) as [e | fr1] eqn:Hr; [discriminate H|].
  unfold resolveFromTags in Hr.
  destruct (resolveFromLines_maximal _ _ Hr) as [(tag & Hin & Hsv & Efr) _].
  apply resolveFromLines_inr in Hr as (Efr' & Hp & Hl).
  rewrite Efr in Efr'. assert (Hp' : patchOf tag <> []).
  { intros E0. apply Hp. rewrite Efr in *.
    apply (f_equal LatestPatchVersion) in Efr'. cbn [LatestPatchVersion withVersion] in Efr'.
    congruence. }
  assert (Hl' : langOf tag <> []).
  { intros E0. apply Hl. apply (f_equal Language) in Efr'.
    cbn [Language withVersion] in Efr'. congruence. }
  exists fn, mv, (fst (fst (runCmdIn E (b "git") [b "tag"] w))), tag.
  cbn [fst snd]. subst fr1. repeat split; try assumption.
Qed.

(** X14. Every release that [newFunctionRelease] returns is complete:
    its name and minor version are the last two segments of the branch; its
    language and latest patch version are the third segment from the end
    and the last segment of one and the same line of what [git tag] printed
    in this run, a line that contains [<name>/<minor version>] and that the
    release-tag pattern matches; none of the four is empty or holds a
    slash, and neither the language nor the patch version holds a line
    feed; its function path is not empty and is a directory, and each of
    its examples has a name without slash and a path that is a
    directory. *)
Theorem newFunctionRelease_populates
    (E : Env) (branch : bytes) (fr : functionRelease) (st st' : World E * list event) :
  newFunctionRelease E branch st = (inr fr, st') ->
  fromEnd (strings.Split branch "/") 2 = Some (FunctionName fr)
  /\ fromEnd (strings.Split branch "/") 1 = Some (MinorVersion fr)
  /\ (FunctionName fr <> [] /\ MinorVersion fr <> []
      /\ Language fr <> [] /\ LatestPatchVersion fr <> [] /\ FunctionPath fr <> [])
  /\ (noSlash (FunctionName fr) = true /\ noSlash (MinorVersion fr) = true
      /\ noSlash (Language fr) = true /\ noSlash (LatestPatchVersion fr) = true)
  /\ (exists tag,
        In tag (strings.Split (fst (fst (runCmdIn E (b "git") [b "tag"] (fst st))))
                  newline)
        /\ strings.Contains tag (FunctionName fr ++ b "/" ++ MinorVersion fr) = true
        /\ MatchString releaseTagPattern tag = true
        /\ fromEnd (strings.Split tag "/") 3 = Some (Language fr)
        /\ fromEnd (strings.Split tag "/") 1 = Some (LatestPatchVersion fr))
  /\ (count_occ ascii_dec (Language fr) newline = 0
      /\ count_occ ascii_dec (LatestPatchVersion fr) newline = 0)
  /\ isDirIn E (FunctionPath fr) (fst st') = true
  /\ (forall ex, In ex (Examples fr) ->
                 noSlash (ExampleName ex) = true
                 /\ isDirIn E (ExamplePath ex) (fst st') = true).
Proof.
  intros H.
  apply newFunctionRelease_inr
    in H as (fn & mv & tags & tag & E2 & E1 & Hid & Htags & Hin & Hsv & Hp & Hl & Hd).
  apply orb_false_elim in Hid as [Hfn Hmv].
  apply andb_prop in Hsv as [Hct Hmt].
  destruct (match_three_segments _ Hmt) as [T1 T3].
  apply readDocPaths_inr in Hd; [|reflexivity].
  destruct Hd as (exe & urls & probes & He & Hsel & Hpath & Hst & _).
  cbv zeta in Hsel. cbn [fst snd FunctionName Language withVersion named] in Hsel, Hst.
  assert (Hfields :
            FunctionName fr = fn /\ MinorVersion fr = mv
            /\ Language fr = langOf tag /\ LatestPatchVersion fr = patchOf tag
            /\ isDirIn E (FunctionPath fr) (fst st') = true
            /\ exists root,
                 Examples fr = map (exampleOf E root) urls
                 /\ forall u, In u urls ->
                      isDirIn E (ExamplePath (exampleOf E root u)) (fst st') = true).
  { rewrite Hst. cbn [fst].
    destruct Hsel as [(Hc & -> & Hex) | (Hc & Hc' & -> & Hex)];
      cbn [FunctionName MinorVersion Language LatestPatchVersion FunctionPath Examples
           withExamples withPath withVersion named app];
      repeat split; try assumption; eexists; (split; [reflexivity | exact Hex]). }
  destruct Hfields as (F1 & F2 & F3 & F4 & F5 & root & F6 & F7).
  rewrite F1, F2, F3, F4.
  split; [exact E2|]. split; [exact E1|].
  split.
  { repeat split; try assumption.
    - intros E0. rewrite E0 in Hfn. discriminate Hfn.
    - intros E0. rewrite E0 in Hmv. discriminate Hmv. }
  split.
  { repeat split; eapply segment_noSlash; eassumption. }
  split.
  { exists tag. rewrite <- Htags. repeat split; assumption. }
  split.
  { rewrite Htags in Hin. split; eapply segment_of_line; eassumption. }
  split; [exact F5|].
  intros ex Hex. rewrite F6 in Hex. apply in_map_iff in Hex as (u & <- & Hu).
  split; [|apply F7; exact Hu].
  cbn [ExampleName exampleOf]. apply segment_noSlash with (s := u) (k := 1).
  apply last_segment.
Qed.

Lemma newFunctionRelease_populates_witness :
  fromEnd (strings.Split (b "apply-setters/v1.0") "/") 2 = Some (FunctionName documented)
  /\ fromEnd (strings.Split (b "apply-setters/v1.0") "/") 1
     = Some (MinorVersion documented)
  /\ (FunctionName documented <> [] /\ MinorVersion documented <> []
      /\ Language documented <> [] /\ LatestPatchVersion documented <> []
      /\ FunctionPath documented <> [])
  /\ (noSlash (FunctionName documented) = true /\ noSlash (MinorVersion documented) = true
      /\ noSlash (Language documented) = true
      /\ noSlash (LatestPatchVersion documented) = true)
  /\ (exists tag,
        In tag (strings.Split
                  (fst (fst (runCmdIn (repoEnv []) (b "git") [b "tag"]
                               (fst (repoStart []))))) newline)
        /\ strings.Contains tag (FunctionName documented ++ b "/"
                                 ++ MinorVersion documented) = true
        /\ MatchString releaseTagPattern tag = true
        /\ fromEnd (strings.Split tag "/") 3 = Some (Language documented)
        /\ fromEnd (strings.Split tag "/") 1 = Some (LatestPatchVersion documented))
  /\ (count_occ ascii_dec (Language documented) newline = 0
      /\ count_occ ascii_dec (LatestPatchVersion documented) newline = 0)
  /\ isDirIn (repoEnv []) (FunctionPath documented)
       (fst (snd (newFunctionRelease (repoEnv []) (b "apply-setters/v1.0")
                    (repoStart [])))) = true
  /\ (forall ex, In ex (Examples documented) ->
                 noSlash (ExampleName ex) = true
                 /\ isDirIn (repoEnv []) (ExamplePath ex)
                      (fst (snd (newFunctionRelease (repoEnv []) (b "apply-setters/v1.0")
                                   (repoStart [])))) = true).
Proof.
  apply (@newFunctionRelease_populates (repoEnv []) (b "apply-setters/v1.0") documented
           (repoStart [])
           (snd (newFunctionRelease (repoEnv []) (b "apply-setters/v1.0") (repoStart [])))).
  vm_compute. reflexivity.
Defined.

(** ** The guard of [parseMetadata] *)

Lemma command_guard (E : Env) (name : bytes) (args : list bytes)
    (st : World E * list event) :
  fst (bind (runCmd E name args) (checked E) st) <> inl ErrExpectedFunctionPath.
Proof.
  destruct st as [w log]. rewrite command_run. cbn [fst].
  destruct (snd (fst (runCmdIn E name args w))); discriminate.
Qed.

Lemma readExamples_guard (E : Env) (examplesPath : bytes) (urls : list bytes) :
  forall acc st,
    fst (readExamples E examplesPath urls acc st) <> inl ErrExpectedFunctionPath.
Proof.
  induction urls as [|u urls IH]; intros acc [w log]; [discriminate|].
  rewrite readExamples_step. destruct (isDirIn E _ w); [apply IH | discriminate].
Qed.

Lemma parseMetadata_guard (E : Env) (fr : functionRelease) (examplesPath : bytes)
    (st : World E * list event) :
  isEmpty (FunctionPath fr) = false ->
  fst (parseMetadata E fr examplesPath st) <> inl ErrExpectedFunctionPath.
Proof.
  intros H. destruct st as [w log]. unfold parseMetadata. rewrite H.
  unfold bind at 1. rewrite readFile_run.
  destruct (readFileIn E _ w) as [y | msg]; [|discriminate].
  destruct (yamlExampleURLs E y) as [urls | msg]; [|discriminate].
  apply bind_never; [apply readExamples_guard | intros; discriminate].
Qed.

Lemma readDocPaths_guard (E : Env) (fr : functionRelease) (st : World E * list event) :
  fst (readDocPaths E fr st) <> inl ErrExpectedFunctionPath.
Proof.
  destruct st as [w log].
  destruct (executableIn E w) as [exe | msg] eqn:He.
  2:{ unfold readDocPaths, bind, executable. cbn [fst]. rewrite He. discriminate. }
  rewrite (@readDocPaths_run E fr exe w log He). cbv zeta.
  destruct (isDirIn E _ w).
  - destruct (isEmpty _) eqn:Hne; [discriminate | apply parseMetadata_guard; exact Hne].
  - destruct (isDirIn E _ w).
    + destruct (isEmpty _) eqn:Hne; [discriminate | apply parseMetadata_guard; exact Hne].
    + destruct (isEmpty (FunctionPath fr)) eqn:Hne;
        [discriminate | apply parseMetadata_guard; exact Hne].
Qed.

Lemma newFunctionRelease_guard (E : Env) (branch : bytes) (st : World E * list event) :
  fst (newFunctionRelease E branch st) <> inl ErrExpectedFunctionPath.
Proof.
  unfold newFunctionRelease.
  destruct (MatchString releaseBranchPattern branch); cbn [negb]; [|discriminate].
  apply bind_never.
  { unfold indexFromEnd. destruct (fromEnd _ 1); discriminate. }
  intros mv st1. apply bind_never.
  { unfold indexFromEnd. destruct (fromEnd _ 2); discriminate. }
  intros fn st2. apply bind_never; [|intros; apply readDocPaths_guard].
  unfold readLatestPatchVersion.
  destruct (isEmpty _ || isEmpty _); [discriminate|].
  apply bind_never; [apply command_guard|].
  intros tags st3. unfold resolveFromTags, resolveFromLines.
  destruct (scanTags _ _ _ _) as [[lang latest]|]; [|discriminate].
  destruct (isEmpty latest || isEmpty lang); discriminate.
Qed.

Lemma updateExamples_guard (E : Env) (fr : functionRelease) (ex : functionExamples) :
  forall st, fst (updateExamples E fr ex st) <> inl ErrExpectedFunctionPath.
Proof.
  induction ex as [|e ex IH]; intros [w log]; cbn [updateExamples]; [discriminate|].
  apply bind_never; [|intros; apply IH].
  rewrite updateDoc_run. destruct (readFileIn E _ w) as [c | msg]; [|discriminate].
  cbn [fst]. destruct (fst (writeFileIn E _ _ w)); discriminate.
Qed.

(** X15. The guard of [parseMetadata] against an empty function path
    never fires in a run: [readDocPaths] calls it only once the path is set,
    so neither [readDocPaths] nor [main] ever ends in the error that a
    function path was expected. *)
Theorem parseMetadata_guard_never_fires (E : Env) :
  (forall fr st, fst (readDocPaths E fr st) <> inl ErrExpectedFunctionPath)
  /\ (forall args st, fst (main E args st) <> inl ErrExpectedFunctionPath).
Proof.
  split; [intros; apply readDocPaths_guard|].
  intros args st. unfold main. destruct args as [|prog [|branch rest]]; try discriminate.
  apply bind_never.
  { destruct st as [w log]. rewrite isCleanRepo_run. discriminate. }
  intros clean st1. destruct clean; cbn [negb]; [|discriminate].
  apply bind_never; [apply command_guard|]. intros _ st2.
  apply bind_never; [apply command_guard|]. intros _ st3.
  apply bind_never; [apply newFunctionRelease_guard|]. intros fr st4.
  apply bind_never.
  { exact (updateExamples_guard E fr
             ({| ExamplePath := FunctionPath fr; ExampleName := [] |} :: Examples fr) st4). }
  intros _ st5. apply bind_never.
  { destruct st5 as [w log]. rewrite isCleanRepo_run. discriminate. }
  intros clean' st6. destruct clean'; [discriminate|].
  apply bind_never; [apply command_guard|]. intros _ st7.
  apply bind_never; [apply command_guard|]. intros _ st8.
  apply bind_never; [apply command_guard|]. intros _ st9.
  discriminate.
Qed.

(** ** The errors of [main] itself *)

Ltac own_error H :=
  cbn [In] in H; repeat (destruct H as [H | H]; [discriminate H|]); contradiction.

Ltac own_leaf H :=
  first [ discriminate
        | let Heq := fresh in intros Heq; injection Heq as Heq; subst; own_error H ].

Lemma own_command (E : Env) (e0 : error) (name : bytes) (args : list bytes)
    (st : World E * list event) :
  In e0 [ErrUsage; ErrDirtyRepo; ErrDocsUpToDate] ->
  fst (bind (runCmd E name args) (checked E) st) <> inl e0.
Proof.
  intros H. destruct st as [w log]. rewrite command_run. cbn [fst].
  destruct (snd (fst (runCmdIn E name args w))); own_leaf H.
Qed.

Lemma own_readExamples (E : Env) (e0 : error) (examplesPath : bytes)
    (urls : list bytes) :
  In e0 [ErrUsage; ErrDirtyRepo; ErrDocsUpToDate] ->
  forall acc st, fst (readExamples E examplesPath urls acc st) <> inl e0.
Proof.
  intros H. induction urls as [|u urls IH]; intros acc [w log]; [discriminate|].
  rewrite readExamples_step. destruct (isDirIn E _ w); [apply IH | own_leaf H].
Qed.

Lemma own_parseMetadata (E : Env) (e0 : error) (fr : functionRelease)
    (examplesPath : bytes) (st : World E * list event) :
  In e0 [ErrUsage; ErrDirtyRepo; ErrDocsUpToDate] ->
  fst (parseMetadata E fr examplesPath st) <> inl e0.
Proof.
  intros H. destruct st as [w log]. unfold parseMetadata.
  destruct (isEmpty (FunctionPath fr)); [own_leaf H|].
  unfold bind at 1. rewrite readFile_run.
  destruct (readFileIn E _ w) as [y | msg]; [|own_leaf H].
  destruct (yamlExampleURLs E y) as [urls | msg]; [|own_leaf H].
  apply bind_never; [apply own_readExamples; exact H | intros; discriminate].
Qed.

Lemma own_readDocPaths (E : Env) (e0 : error) (fr : functionRelease)
    (st : World E * list event) :
  In e0 [ErrUsage; ErrDirtyRepo; ErrDocsUpToDate] ->
  fst (readDocPaths E fr st) <> inl e0.
Proof.
  intros H. destruct st as [w log].
  destruct (executableIn E w) as [exe | msg] eqn:He.
  2:{ unfold readDocPaths, bind, executable. cbn [fst]. rewrite He. own_leaf H. }
  rewrite (@readDocPaths_run E fr exe w log He). cbv zeta.
  destruct (isDirIn E _ w).
  - destruct (isEmpty _); [own_leaf H | apply own_parseMetadata; exact H].
  - destruct (isDirIn E _ w).
    + destruct (isEmpty _); [own_leaf H | apply own_parseMetadata; exact H].
    + destruct (isEmpty (FunctionPath fr)); [own_leaf H | apply own_parseMetadata; exact H].
Qed.

Lemma own_newFunctionRelease (E : Env) (e0 : error) (branch : bytes)
    (st : World E * list event) :
  In e0 [ErrUsage; ErrDirtyRepo; ErrDocsUpToDate] ->
  fst (newFunctionRelease E branch st) <> inl e0.
Proof.
  intros H. unfold newFunctionRelease.
  destruct (MatchString releaseBranchPattern branch); cbn [negb]; [|own_leaf H].
  apply bind_never.
  { unfold indexFromEnd. destruct (fromEnd _ 1); own_leaf H. }
  intros mv st1. apply bind_never.
  { unfold indexFromEnd. destruct (fromEnd _ 2); own_leaf H. }
  intros fn st2. apply bind_never; [|intros; apply own_readDocPaths; exact H].
  unfold readLatestPatchVersion.
  destruct (isEmpty _ || isEmpty _); [own_leaf H|].
  apply bind_never; [apply own_command; exact H|].
  intros tags st3. unfold resolveFromTags, resolveFromLines.
  destruct (scanTags _ _ _ _) as [[lang latest]|]; [|own_leaf H].
  destruct (isEmpty latest || isEmpty lang); own_leaf H.
Qed.

Lemma own_updateDocs (E : Env) (e0 : error) (fr : functionRelease)
    (st : World E * list event) :
  In e0 [ErrUsage; ErrDirtyRepo; ErrDocsUpToDate] ->
  fst (updateDocs E fr st) <> inl e0.
Proof.
  intros H.
  change (updateDocs E fr)
    with (updateExamples E fr
            ({| ExamplePath := FunctionPath fr; ExampleName := [] |} :: Examples fr)).
  revert st.
  induction ({| ExamplePath := FunctionPath fr; ExampleName := [] |} :: Examples fr)
    as [|e ex IH]; intros [w log]; cbn [updateExamples]; [discriminate|].
  apply bind_never; [|intros; apply IH].
  rewrite updateDoc_run. destruct (readFileIn E _ w) as [c | msg]; [|own_leaf H].
  cbn [fst]. destruct (fst (writeFileIn E _ _ w)); own_leaf H.
Qed.

(** The end of [main] reports that the docs are up to date only when the
    second check finds the tree clean, and then nothing more is run. *)
Lemma epilogue_errors (E : Env) (fr : functionRelease) (w : World E) (log : list event) :
  fst (bind (isCleanRepo E)
         (fun clean' : bool =>
            if clean' then throw E ErrDocsUpToDate
            else bind (gitAdd E) (fun _ =>
                 bind (gitCommit E (b "docs: Update tags for " ++ Language fr
                                    ++ b "/" ++ FunctionName fr ++ b "/"
                                    ++ LatestPatchVersion fr)) (fun _ =>
                 bind (gitShow E) (fun _ => ret E tt))))
         (w, log)) <> inl ErrUsage
  /\ fst (bind (isCleanRepo E)
            (fun clean' : bool =>
               if clean' then throw E ErrDocsUpToDate
               else bind (gitAdd E) (fun _ =>
                    bind (gitCommit E (b "docs: Update tags for " ++ Language fr
                                       ++ b "/" ++ FunctionName fr ++ b "/"
                                       ++ LatestPatchVersion fr)) (fun _ =>
                    bind (gitShow E) (fun _ => ret E tt))))
            (w, log)) <> inl ErrDirtyRepo
  /\ (fst (bind (isCleanRepo E)
             (fun clean' : bool =>
                if clean' then throw E ErrDocsUpToDate
                else bind (gitAdd E) (fun _ =>
                     bind (gitCommit E (b "docs: Update tags for " ++ Language fr
                                        ++ b "/" ++ FunctionName fr ++ b "/"
                                        ++ LatestPatchVersion fr)) (fun _ =>
                     bind (gitShow E) (fun _ => ret E tt))))
             (w, log)) = inl ErrDocsUpToDate ->
      snd (snd (bind (isCleanRepo E)
                  (fun clean' : bool =>
                     if clean' then throw E ErrDocsUpToDate
                     else bind (gitAdd E) (fun _ =>
                          bind (gitCommit E (b "docs: Update tags for " ++ Language fr
                                             ++ b "/" ++ FunctionName fr ++ b "/"
                                             ++ LatestPatchVersion fr)) (fun _ =>
                          bind (gitShow E) (fun _ => ret E tt))))
                  (w, log))) = log ++ [cleanCheck]
      /\ snd (fst (runCmdIn E (b "git")
                     [b "diff-index"; b "--quiet"; b "HEAD"; b "--"] w)) = None).
Proof.
  set (m := bind (isCleanRepo E) _).
  assert (Hm : m (w, log)
               = match snd (fst (runCmdIn E (b "git")
                                   [b "diff-index"; b "--quiet"; b "HEAD"; b "--"] w)) with
                 | None =>
                     (inl ErrDocsUpToDate,
                      (snd (runCmdIn E (b "git")
                              [b "diff-index"; b "--quiet"; b "HEAD"; b "--"] w),
                       log ++ [cleanCheck]))
                 | Some _ =>
                     bind (gitAdd E) (fun _ =>
                     bind (gitCommit E (b "docs: Update tags for " ++ Language fr
                                        ++ b "/" ++ FunctionName fr ++ b "/"
                                        ++ LatestPatchVersion fr)) (fun _ =>
                     bind (gitShow E) (fun _ => ret E tt)))
                       (snd (runCmdIn E (b "git")
                               [b "diff-index"; b "--quiet"; b "HEAD"; b "--"] w),
                        log ++ [cleanCheck])
                 end).
  { unfold m. unfold bind at 1. rewrite isCleanRepo_run.
    destruct (snd (fst (runCmdIn E (b "git") _ w))); reflexivity. }
  rewrite Hm. clear Hm m.
  destruct (snd (fst (runCmdIn E (b "git")
                        [b "diff-index"; b "--quiet"; b "HEAD"; b "--"] w))) as [msg|].
  2:{ cbn [fst snd]. repeat split; discriminate. }
  assert (Hn : forall e0, In e0 [ErrUsage; ErrDirtyRepo; ErrDocsUpToDate] ->
               forall st,
                 fst (bind (gitAdd E) (fun _ =>
                      bind (gitCommit E (b "docs: Update tags for " ++ Language fr
                                         ++ b "/" ++ FunctionName fr ++ b "/"
                                         ++ LatestPatchVersion fr)) (fun _ =>
                      bind (gitShow E) (fun _ => ret E tt))) st) <> inl e0).
  { intros e0 H st.
    apply bind_never; [apply own_command; exact H|]. intros _ st1.
    apply bind_never; [apply own_command; exact H|]. intros _ st2.
    apply bind_never; [apply own_command; exact H|]. intros _ st3. discriminate. }
  split; [apply Hn; cbn; tauto|]. split; [apply Hn; cbn; tauto|].
  intros H. exfalso. revert H. apply Hn. cbn. tauto.
Qed.

Lemma release_onwards_own (E : Env) (e0 : error) (branch : bytes)
    (st : World E * list event) :
  In e0 [ErrUsage; ErrDirtyRepo] ->
  fst (bind (newFunctionRelease E branch)
         (fun fr =>
            bind (updateDocs E fr) (fun _ =>
            bind (isCleanRepo E)
              (fun clean' : bool =>
                 if clean' then throw E ErrDocsUpToDate
                 else bind (gitAdd E) (fun _ =>
                      bind (gitCommit E (b "docs: Update tags for " ++ Language fr
                                         ++ b "/" ++ FunctionName fr ++ b "/"
                                         ++ LatestPatchVersion fr)) (fun _ =>
                      bind (gitShow E) (fun _ => ret E tt)))))) st) <> inl e0.
Proof.
  intros H.
  assert (H' : In e0 [ErrUsage; ErrDirtyRepo; ErrDocsUpToDate])
    by (cbn in *; tauto).
  apply bind_never; [apply own_newFunctionRelease; exact H'|]. intros fr st1.
  apply bind_never; [apply own_updateDocs; exact H'|]. intros _ [w log].
  destruct (epilogue_errors E fr w log) as (H1 & H2 & _).
  destruct H as [<- | [<- | []]]; assumption.
Qed.

(** X16. The two first errors of [main] mean what they say: a run ends
    with the usage error exactly when the command line has no argument, and
    a run on a branch ends with the dirty-repository error exactly when the
    first check of the working tree fails; in that case the check is all
    that was run. *)
Theorem main_usage_and_dirty_repo (E : Env) :
  (forall args st, fst (main E args st) = inl ErrUsage <-> length args < 2)
  /\ (forall prog branch rest w log,
        (fst (main E (prog :: branch :: rest) (w, log)) = inl ErrDirtyRepo
         <-> snd (fst (runCmdIn E (b "git")
                         [b "diff-index"; b "--quiet"; b "HEAD"; b "--"] w)) <> None)
        /\ (fst (main E (prog :: branch :: rest) (w, log)) = inl ErrDirtyRepo ->
            snd (snd (main E (prog :: branch :: rest) (w, log))) = log ++ [cleanCheck])).
Proof.
  assert (Hrun : forall prog branch rest w log,
            (exists e, fst (main E (prog :: branch :: rest) (w, log)) = inl e
                       /\ ((e = ErrDirtyRepo
                            /\ snd (fst (runCmdIn E (b "git")
                                           [b "diff-index"; b "--quiet"; b "HEAD"; b "--"]
                                           w)) <> None
                            /\ snd (snd (main E (prog :: branch :: rest) (w, log)))
                               = log ++ [cleanCheck])
                           \/ (exists msg, e = ErrExternal msg)
                              /\ snd (fst (runCmdIn E (b "git")
                                             [b "diff-index"; b "--quiet"; b "HEAD"; b "--"]
                                             w)) = None))
            \/ (snd (fst (runCmdIn E (b "git")
                            [b "diff-index"; b "--quiet"; b "HEAD"; b "--"] w)) = None
                /\ fst (main E (prog :: branch :: rest) (w, log)) <> inl ErrUsage
                /\ fst (main E (prog :: branch :: rest) (w, log)) <> inl ErrDirtyRepo)).
  { intros prog branch rest w log.
    destruct (snd (fst (runCmdIn E (b "git")
                          [b "diff-index"; b "--quiet"; b "HEAD"; b "--"] w)))
      as [msg|] eqn:Hclean.
    - left. exists ErrDirtyRepo.
      assert (Hm : main E (prog :: branch :: rest) (w, log)
                   = (inl ErrDirtyRepo,
                      (snd (runCmdIn E (b "git")
                              [b "diff-index"; b "--quiet"; b "HEAD"; b "--"] w),
                       log ++ [cleanCheck]))).
      { unfold main. unfold bind at 1. rewrite isCleanRepo_run, Hclean. reflexivity. }
      rewrite Hm. split; [reflexivity|]. left. repeat split. discriminate.
    - destruct (main_start E prog branch rest w log)
        as [(k & e & w' & Hk & Hm & _ & He) | (w3 & Hm & _)].
      + left. exists e. rewrite Hm. split; [reflexivity|].
        destruct He as [[_ Hne] | Hext]; [rewrite Hclean in Hne; congruence|].
        right. split; [exact Hext | reflexivity].
      + right. rewrite Hm. split; [reflexivity|].
        split; apply release_onwards_own; cbn; tauto. }
  split.
  - intros args st. destruct args as [|prog [|branch rest]]; cbn [length].
    + split; [lia | reflexivity].
    + split; [lia | reflexivity].
    + destruct st as [w log]. split; [|lia]. intros H. exfalso.
      destruct (Hrun prog branch rest w log)
        as [(e & He & [(-> & _) | ((msg & ->) & _)]) | (_ & Hu & _)]; congruence.
  - intros prog branch rest w log.
    destruct (Hrun prog branch rest w log)
      as [(e & He & [(-> & Hd & Hl) | ((msg & ->) & Hc)]) | (Hc & _ & Hd)].
    + split; [split; [intros _; exact Hd | intros _; exact He] | intros _; exact Hl].
    + split; [split|]; intros H; congruence.
    + split; [split|]; intros H; congruence.
Qed.

(** ** The order of the examples *)

Lemma scanFuel_ext (occ1 occ2 : bytes -> option (bytes * bytes)) :
  (forall s, occ1 s = occ2 s) ->
  forall fuel s, scanFuel occ1 fuel s = scanFuel occ2 fuel s.
Proof.
  intros H fuel. induction fuel as [|fuel IH]; intros s; [reflexivity|].
  cbn [scanFuel]. rewrite H. destruct (occ2 s) as [[out rest]|].
  - rewrite IH. reflexivity.
  - destruct s as [|x s]; [reflexivity|]. rewrite IH. reflexivity.
Qed.

(** A name without white space that white space follows is the run of
    bytes up to that white space. *)
Lemma name_before_space (s n : bytes) :
  noSpace n = true ->
  strings.HasPrefix s n && startsWithSpace (skipn (length n) s) = true ->
  n = takeRun (fun c => negb (isSpace c)) s.
Proof.
  intros Hn H. apply andb_prop in H as [Hp Hs].
  apply HasPrefix_split in Hp. revert Hs. rewrite Hp at 2.
  generalize (skipn (length n) s). intros r Hs.
  destruct r as [|y r]; [discriminate Hs|]. cbn [startsWithSpace] in Hs.
  rewrite takeRun_app_stop; [reflexivity | exact Hn | rewrite Hs; reflexivity].
Qed.

Lemma pkgRefAt_perm (sub : bytes) (names names' : list bytes) (s : bytes) :
  Permutation names names' ->
  forallb noSpace names = true ->
  pkgRefAt sub names s = pkgRefAt sub names' s.
Proof.
  intros HP Hn. unfold pkgRefAt. cbv zeta.
  destruct (strings.HasPrefix s (catalogGit ++ sub ++ b "/")); [|reflexivity].
  assert (Hn' : forallb noSpace names' = true).
  { apply forallb_forall. intros x Hx. rewrite forallb_forall in Hn. apply Hn.
    apply (Permutation_in _ (Permutation_sym HP)). exact Hx. }
  destruct names as [|a names].
  - apply Permutation_nil in HP. subst names'. reflexivity.
  - destruct names' as [|a' names'];
      [apply Permutation_sym, Permutation_nil in HP; discriminate HP|].
    cbn [nameChoices].
    set (f := fun n => strings.HasPrefix _ n && startsWithSpace _).
    assert (Hf : find f (a :: names) = find f (a' :: names')).
    { destruct (find f (a :: names)) as [x|] eqn:F1;
        destruct (find f (a' :: names')) as [y|] eqn:F2; try reflexivity.
      - apply find_some in F1 as [I1 F1]. apply find_some in F2 as [I2 F2].
        rewrite forallb_forall in Hn, Hn'.
        rewrite (name_before_space _ _ (Hn x I1) F1).
        rewrite (name_before_space _ _ (Hn' y I2) F2). reflexivity.
      - apply find_some in F1 as [I1 F1].
        rewrite (find_none _ _ F2 x (Permutation_in _ HP I1)) in F1. discriminate F1.
      - apply find_some in F2 as [I2 F2].
        rewrite (find_none _ _ F1 y (Permutation_in _ (Permutation_sym HP) I2)) in F2.
        discriminate F2. }
    rewrite Hf. reflexivity.
Qed.

(** X18. The order in which the metadata lists the examples does not
    matter to the package rule: with example names free of white space (and
    of regex metacharacters), the rule gives the same contents for the same
    examples in any order, also when one name starts with another, since the
    white space the pattern asks for after the name leaves one candidate. *)
Theorem replaceKptPackages_example_order
    (fr : functionRelease) (examples' : functionExamples) (contents : bytes) :
  Permutation (exampleNames (Examples fr)) (exampleNames examples') ->
  forallb literalName (exampleNames (Examples fr)) = true ->
  forallb noSpace (exampleNames (Examples fr)) = true ->
  noDollar (FunctionName fr) = true ->
  noDollar (LatestPatchVersion fr) = true ->
  replaceKptPackages (withExamples fr examples') contents
  = replaceKptPackages fr contents.
Proof.
  intros HP _ Hn Hf Hl.
  rewrite !replaceKptPackages_scan by assumption.
  unfold scan. apply scanFuel_ext. intros s. unfold pkgOcc.
  change (exampleSubPath (withExamples fr examples')) with (exampleSubPath fr).
  cbn [Examples FunctionName LatestPatchVersion withExamples].
  rewrite (pkgRefAt_perm (exampleSubPath fr) s (Permutation_sym HP)).
  - reflexivity.
  - apply forallb_forall. intros x Hx. rewrite forallb_forall in Hn. apply Hn.
    apply (Permutation_in _ (Permutation_sym HP)). exact Hx.
Qed.

Lemma replaceKptPackages_example_order_witness :
  replaceKptPackages
    (withExamples
       (withExamples (applySetters (b "v1.0.1"))
          [{| ExamplePath := []; ExampleName := b "apply-setters" |};
           {| ExamplePath := []; ExampleName := b "apply-setters-simple" |}])
       [{| ExamplePath := []; ExampleName := b "apply-setters-simple" |};
        {| ExamplePath := []; ExampleName := b "apply-setters" |}])
    (b "kpt pkg get " ++ pkgLine)
  = replaceKptPackages
      (withExamples (applySetters (b "v1.0.1"))
         [{| ExamplePath := []; ExampleName := b "apply-setters" |};
          {| ExamplePath := []; ExampleName := b "apply-setters-simple" |}])
      (b "kpt pkg get " ++ pkgLine).
Proof.
  apply replaceKptPackages_example_order.
  - vm_compute. apply perm_swap.
  - vm_compute. reflexivity.
  - vm_compute. reflexivity.
  - vm_compute. reflexivity.
  - vm_compute. reflexivity.
Defined.

(** A name that starts another one does not hide it. *)
Example replaceKptPackages_prefix_name :
  replaceKptPackages
    (withExamples (applySetters (b "v1.0.1"))
       [{| ExamplePath := []; ExampleName := b "apply-setters" |};
        {| ExamplePath := []; ExampleName := b "apply-setters-simple" |}])
    (b "kpt pkg get " ++ pkgLine)
  = b "kpt pkg get " ++ catalogGit
    ++ b "examples/apply-setters-simple@apply-setters/v1.0.1" ++ [newline].
Proof. vm_compute. reflexivity. Qed.

(** ** Valid versions and longer minor versions *)

(** X19. A tag whose last segment is not a semantic version never wins
    over one whose last segment is: when some tag that takes part has a
    valid semantic version, the latest patch version of the resolution is a
    valid semantic version. *)
Theorem resolved_version_valid_when_some_tag_is
    (fr fr' : functionRelease) (tags tag : bytes) :
  resolveFromTags fr tags = inr fr' ->
  In tag (strings.Split tags newline) ->
  survives (funcPatternOf fr) tag = true ->
  semver.parse (patchOf tag) <> None ->
  semver.parse (LatestPatchVersion fr') <> None.
Proof.
  intros H Hin Hs Hv Hbad. unfold resolveFromTags in H.
  destruct (resolveFromLines_maximal _ _ H) as [_ Hall].
  apply (Hall tag Hin Hs). unfold semver.Compare. rewrite Hbad.
  destruct (semver.parse (patchOf tag)); [reflexivity | congruence].
Qed.

Lemma resolved_version_valid_when_some_tag_is_witness :
  semver.parse
    (LatestPatchVersion
       (withVersion (named (b "apply-setters") (b "v1.0")) (b "go") (b "v1.0.1")))
  <> None.
Proof.
  apply (@resolved_version_valid_when_some_tag_is
           (named (b "apply-setters") (b "v1.0"))
           (withVersion (named (b "apply-setters") (b "v1.0")) (b "go") (b "v1.0.1"))
           (b "functions/go/apply-setters/v1.0.x" ++ [newline]
            ++ b "functions/go/apply-setters/v1.0.1")
           (b "functions/go/apply-setters/v1.0.1")).
  - vm_compute. reflexivity.
  - vm_compute. right. left. reflexivity.
  - vm_compute. reflexivity.
  - vm_compute. discriminate.
Defined.

Lemma Contains_app (a l c : bytes) : strings.Contains (a ++ l ++ c) l = true.
Proof.
  induction a as [|x a IH].
  - cbn [app]. destruct (l ++ c) eqn:E; cbn [strings.Contains];
      rewrite <- E, HasPrefix_app; reflexivity.
  - cbn [app strings.Contains]. rewrite IH. apply orb_true_r.
Qed.

Lemma star_zero (cs : cset) (s : bytes) (c : caps) : In (s, c) (star cs s c).
Proof.
  destruct s as [|x s]; cbn [star]; [left; reflexivity|].
  destruct (cset_mem cs x); [apply in_or_app; right|]; left; reflexivity.
Qed.

Lemma star_inhabited (cs : cset) (s : bytes) (c : caps) : star cs s c <> [].
Proof. intros E. pose proof (star_zero cs s c) as H. rewrite E in H. exact H. Qed.

Lemma digits_wordDash_stop (d t : bytes) :
  forallb isDigit d = true -> dropRun isDigit (d ++ "."%char :: t) = "."%char :: t.
Proof.
  intros H. rewrite dropRun_app_all by exact H. reflexivity.
Qed.

(** A tag that ends in [go/] or [ts/], a name, and a patch version is
    matched by the release-tag pattern, whatever stands before. *)
Lemma releaseTag_matches (pre lang fn v1 v2 v3 : bytes) :
  lang = b "go" \/ lang = b "ts" ->
  forallb isWordDash fn = true ->
  forallb isDigit v1 = true -> forallb isDigit v2 = true ->
  MatchString releaseTagPattern
    (pre ++ lang ++ b "/" ++ fn ++ b "/v" ++ v1 ++ b "." ++ v2 ++ b "." ++ v3) = true.
Proof.
  intros Hlang Hfn H1 H2. apply MatchString_at.
  unfold matchAt, releaseTagPattern. cbn [rseq].
  set (tail := b "/" ++ fn ++ b "/v" ++ v1 ++ b "." ++ v2 ++ b "." ++ v3).
  set (R := RCat (RCap 1 (RAlt (lit (b "go")) (lit (b "ts")))) _).
  assert (HR : exec R (lang ++ tail) [] <> []).
  { unfold R. cbn [exec]. rewrite !exec_lit.
    assert (Hgo : forall c0,
              exec (RCat (rchar "/")
                      (RCat (RStar CsWordDash) (RCat (rchar "/") (RCap 2 patchRe))))
                tail c0 <> []).
    { intros c0. unfold tail. rewrite exec_char_cat. cbn [b list_ascii_of_string app afterChar].
      destruct (ascii_dec "/" "/") as [_ | N]; [|congruence].
      rewrite exec_star_char_cat by reflexivity.
      change (cset_mem CsWordDash) with isWordDash.
      rewrite dropRun_app_all by exact Hfn. cbn [dropRun afterChar].
      replace (isWordDash "/") with false by reflexivity. cbn [afterChar].
      destruct (ascii_dec "/" "/") as [_ | N]; [|congruence].
      cbn [exec]. rewrite exec_patchRe. cbn [afterChar].
      destruct (ascii_dec "v" "v") as [_ | N]; [|congruence].
      rewrite (digits_wordDash_stop _ _ H1). cbn [afterChar].
      destruct (ascii_dec "." ".") as [_ | N]; [|congruence].
      rewrite (digits_wordDash_stop _ _ H2). cbn [afterChar].
      destruct (ascii_dec "." ".") as [_ | N]; [|congruence].
      intros E0. apply map_eq_nil in E0. exact (star_inhabited _ _ _ E0). }
    destruct Hlang as [-> | ->].
    - rewrite HasPrefix_app, skipn_app_exact. cbn [app map flat_map fst snd].
      intros E0. apply app_eq_nil in E0 as [E0 _]. exact (Hgo _ E0).
    - replace (strings.HasPrefix (b "ts" ++ tail) (b "go")) with false by reflexivity.
      rewrite HasPrefix_app, skipn_app_exact. cbn [app map flat_map fst snd].
      intros E0. apply app_eq_nil in E0 as [E0 _]. exact (Hgo _ E0). }
  cbn [exec]. change (lang ++ b "/" ++ fn ++ b "/v" ++ v1 ++ b "." ++ v2 ++ b "." ++ v3)
    with (lang ++ tail).
  pose proof (star_zero CsDot (lang ++ tail) []) as Hz.
  destruct (exec R (lang ++ tail) []) as [|p ps] eqn:Ep; [congruence|].
  intros E0.
  assert (Hin : In p (flat_map (fun q => exec R (fst q) (snd q))
                        (star CsDot (lang ++ tail) []))).
  { apply in_flat_map. exists (lang ++ tail, []). split; [exact Hz|].
    cbn [fst snd]. rewrite Ep. left. reflexivity. }
  destruct (flat_map _ _); [exact Hin | discriminate E0].
Qed.

Lemma version_noSlash (v1 v2 v3 : bytes) :
  forallb isDigit v1 = true -> forallb isDigit v2 = true -> forallb isDigit v3 = true ->
  noSlash (b "v" ++ v1 ++ b "." ++ v2 ++ b "." ++ v3) = true.
Proof.
  intros H1 H2 H3. unfold noSlash.
  repeat first [rewrite forallb_app | progress cbn [b list_ascii_of_string app forallb]].
  assert (Hd : forall v, forallb isDigit v = true ->
                 forallb (fun c => if ascii_dec c "/" then false else true) v = true).
  { intros v. apply forallb_impl. intros c Hc.
    destruct (ascii_dec c "/") as [-> |]; [discriminate Hc | reflexivity]. }
  rewrite (Hd _ H1), (Hd _ H2), (Hd _ H3). reflexivity.
Qed.

(** X20. The tags of a branch are found by the substring
    [<name>/<minor version>], so the tags of every minor version that
    continues the one of the branch with more digits take part too: for the
    branch [<name>/v<a>.<b>], a tag [.../go/<name>/v<a>.<b><d>.<c>] passes the
    filter, and a resolution that succeeds gives a patch version that
    [semver.Compare] does not put below [v<a>.<b><d>.<c>]. *)
Theorem longer_minor_version_takes_part
    (fn lang pre va vb vd vc tags : bytes) (fr' : functionRelease) :
  forallb isWordDash fn = true ->
  lang = b "go" \/ lang = b "ts" ->
  forallb isDigit va = true -> forallb isDigit vb = true ->
  forallb isDigit vd = true -> forallb isDigit vc = true ->
  In (pre ++ lang ++ b "/" ++ fn ++ b "/v" ++ va ++ b "." ++ (vb ++ vd) ++ b "." ++ vc)
     (strings.Split tags newline) ->
  resolveFromTags (named fn (b "v" ++ va ++ b "." ++ vb)) tags = inr fr' ->
  survives (fn ++ b "/" ++ b "v" ++ va ++ b "." ++ vb)
    (pre ++ lang ++ b "/" ++ fn ++ b "/v" ++ va ++ b "." ++ (vb ++ vd) ++ b "." ++ vc)
  = true
  /\ semver.Compare (b "v" ++ va ++ b "." ++ (vb ++ vd) ++ b "." ++ vc)
       (LatestPatchVersion fr') <> 1%Z.
Proof.
  intros Hfn Hlang Ha Hb Hd Hc Hin H.
  assert (Hbd : forallb isDigit (vb ++ vd) = true)
    by (rewrite forallb_app, Hb, Hd; reflexivity).
  assert (Hs : survives (fn ++ b "/" ++ b "v" ++ va ++ b "." ++ vb)
                 (pre ++ lang ++ b "/" ++ fn ++ b "/v" ++ va ++ b "."
                  ++ (vb ++ vd) ++ b "." ++ vc) = true).
  { unfold survives. rewrite releaseTag_matches by assumption.
    rewrite andb_true_r.
    replace (pre ++ lang ++ b "/" ++ fn ++ b "/v" ++ va ++ b "." ++ (vb ++ vd)
             ++ b "." ++ vc)
      with ((pre ++ lang ++ b "/") ++ (fn ++ b "/" ++ b "v" ++ va ++ b "." ++ vb)
            ++ (vd ++ b "." ++ vc))
      by (rewrite <- !app_assoc; reflexivity).
    apply Contains_app. }
  split; [exact Hs|].
  unfold resolveFromTags in H.
  destruct (resolveFromLines_maximal _ _ H) as [_ Hall].
  specialize (Hall _ Hin Hs).
  assert (Hp : patchOf (pre ++ lang ++ b "/" ++ fn ++ b "/v" ++ va ++ b "."
                        ++ (vb ++ vd) ++ b "." ++ vc)
               = b "v" ++ va ++ b "." ++ (vb ++ vd) ++ b "." ++ vc).
  { unfold patchOf.
    replace (pre ++ lang ++ b "/" ++ fn ++ b "/v" ++ va ++ b "." ++ (vb ++ vd)
             ++ b "." ++ vc)
      with ((pre ++ lang ++ b "/" ++ fn) ++ "/"%char
            :: (b "v" ++ va ++ b "." ++ (vb ++ vd) ++ b "." ++ vc))
      by (rewrite <- !app_assoc; reflexivity).
    rewrite Split_snoc by (apply version_noSlash; assumption).
    rewrite fromEnd_last. reflexivity. }
  rewrite Hp in Hall. exact Hall.
Qed.

Lemma longer_minor_version_takes_part_witness :
  survives (b "apply-setters" ++ b "/" ++ b "v" ++ b "1" ++ b "." ++ b "1")
    (b "functions/" ++ b "go" ++ b "/" ++ b "apply-setters" ++ b "/v" ++ b "1" ++ b "."
     ++ (b "1" ++ b "0") ++ b "." ++ b "0")
  = true
  /\ semver.Compare (b "v" ++ b "1" ++ b "." ++ (b "1" ++ b "0") ++ b "." ++ b "0")
       (LatestPatchVersion
          (withVersion (named (b "apply-setters") (b "v1.1")) (b "go") (b "v1.10.0")))
     <> 1%Z.
Proof.
  apply (@longer_minor_version_takes_part
           (b "apply-setters") (b "go") (b "functions/") (b "1") (b "1") (b "0") (b "0")
           (b "functions/go/apply-setters/v1.1.5" ++ [newline]
            ++ b "functions/go/apply-setters/v1.10.0")
           (withVersion (named (b "apply-setters") (b "v1.1")) (b "go") (b "v1.10.0"))).
  - vm_compute. reflexivity.
  - left. reflexivity.
  - vm_compute. reflexivity.
  - vm_compute. reflexivity.
  - vm_compute. reflexivity.
  - vm_compute. reflexivity.
  - vm_compute. right. left. reflexivity.
  - vm_compute. reflexivity.
Defined.

(** The branch [apply-setters/v1.1] with tags of the minor versions 1.1
    and 1.10: the release gets a patch version of 1.10. *)
Example resolve_longer_minor :
  resolveFromTags (named (b "apply-setters") (b "v1.1"))
    (b "functions/go/apply-setters/v1.1.5" ++ [newline]
     ++ b "functions/go/apply-setters/v1.10.0")
  = inr (withVersion (named (b "apply-setters") (b "v1.1")) (b "go") (b "v1.10.0")).
Proof. vm_compute. reflexivity. Qed.

(** ** Runs and the worlds they go through *)

Lemma replay_app (E : Env) (evs evs' : list event) (w : World E) :
  replay E (evs ++ evs') w = replay E evs' (replay E evs w).
Proof. apply fold_left_app. Qed.

Lemma replay_probes (E : Env) (ps : list event) (w : World E) :
  forallb isProbe ps = true -> replay E ps w = w.
Proof.
  revert w; induction ps as [|ev ps IH]; intros w H; [reflexivity|].
  cbn [forallb] in H. apply andb_prop in H as [Hev H].
  cbn [replay fold_left]. destruct ev; try discriminate Hev; apply IH; exact H.
Qed.

Lemma Rewrote_replay (E : Env) (fr : functionRelease) (w w' : World E)
    (done : list (bytes * bytes)) :
  Rewrote E fr w done w' -> w' = replay E (flat_map (rewriteEvents fr) done) w.
Proof. induction 1 as [w | w w' p c done Hr Hw _ IH]; [reflexivity | exact IH]. Qed.

Lemma bind_command (E : Env) (B : Type) (name : bytes) (args : list bytes)
    (k : bytes -> M E B) (w : World E) (log : list event) :
  bind (bind (runCmd E name args) (checked E)) k (w, log)
  = match snd (fst (runCmdIn E name args w)) with
    | Some msg =>
        (inl (ErrExternal msg), (replay E [EvCmd name args] w, log ++ [EvCmd name args]))
    | None =>
        k (fst (fst (runCmdIn E name args w)))
          (replay E [EvCmd name args] w, log ++ [EvCmd name args])
    end.
Proof.
  unfold bind at 1. rewrite command_run.
  destruct (snd (fst (runCmdIn E name args w))); reflexivity.
Qed.

Lemma bind_isCleanRepo (E : Env) (B : Type) (k : bool -> M E B)
    (w : World E) (log : list event) :
  bind (isCleanRepo E) k (w, log)
  = k (cleanIn E w) (replay E [cleanCheck] w, log ++ [cleanCheck]).
Proof. unfold bind at 1. rewrite isCleanRepo_run. reflexivity. Qed.

(** [updateDocs] and the like, file by file: the files rewritten, then
    success, a file that cannot be read, or a file that cannot be
    written. *)
Lemma updateExamples_rewrote (E : Env) (fr : functionRelease) (ex : functionExamples) :
  forall w log,
  exists done wd,
    Rewrote E fr w done wd
    /\ map fst done
       = firstn (length done)
           (map (fun e => pathJoin E [ExamplePath e; b "README.md"]) ex)
    /\ ((updateExamples E fr ex (w, log)
         = (inr tt, (wd, log ++ flat_map (rewriteEvents fr) done))
         /\ map fst done = map (fun e => pathJoin E [ExamplePath e; b "README.md"]) ex)
        \/ (exists p msg,
              nth_error (map (fun e => pathJoin E [ExamplePath e; b "README.md"]) ex)
                (length done) = Some p
              /\ readFileIn E p wd = inr msg
              /\ updateExamples E fr ex (w, log)
                 = (inl (ErrExternal msg),
                    (wd, log ++ flat_map (rewriteEvents fr) done ++ [EvReadFile p])))
        \/ (exists p c msg,
              nth_error (map (fun e => pathJoin E [ExamplePath e; b "README.md"]) ex)
                (length done) = Some p
              /\ readFileIn E p wd = inl c
              /\ fst (writeFileIn E p (updateContents fr c) wd) = Some msg
              /\ updateExamples E fr ex (w, log)
                 = (inl (ErrExternal msg),
                    (snd (writeFileIn E p (updateContents fr c) wd),
                     log ++ flat_map (rewriteEvents fr) done ++ rewriteEvents fr (p, c))))).
Proof.
  induction ex as [|e ex IH]; intros w log.
  - exists [], w. split; [constructor|]. split; [reflexivity|].
    left. cbn. rewrite app_nil_r. split; reflexivity.
  - cbn [updateExamples map]. unfold bind. rewrite updateDoc_run.
    set (p := pathJoin E [ExamplePath e; b "README.md"]).
    destruct (readFileIn E p w) as [c | msg] eqn:Hr.
    + destruct (fst (writeFileIn E p (updateContents fr c) w)) as [msg|] eqn:Hw.
      * exists [], w. split; [constructor|]. split; [reflexivity|].
        right; right. exists p, c, msg. cbn [length nth_error flat_map app].
        repeat split; assumption || reflexivity.
      * destruct (IH (snd (writeFileIn E p (updateContents fr c) w))
                    (log ++ rewriteEvents fr (p, c)))
          as (done & wd & HR & Hpre & Hcases).
        exists ((p, c) :: done), wd.
        split; [econstructor; eassumption|].
        split; [cbn [map fst length firstn]; f_equal; exact Hpre|].
        cbn [length nth_error flat_map map fst].
        destruct Hcases as [[H1 H2] | [(q & msg & H1 & H2 & H3) | (q & c' & msg & H1 & H2 & H3 & H4)]].
        -- left. rewrite <- app_assoc in H1. split; [exact H1 | f_equal; exact H2].
        -- right; left. exists q, msg. rewrite <- !app_assoc in H3 |- *.
           repeat split; assumption.
        -- right; right. exists q, c', msg. rewrite <- !app_assoc in H4 |- *.
           repeat split; assumption.
    + exists [], w. split; [constructor|]. split; [reflexivity|].
      right; left. exists p, msg. cbn [length nth_error flat_map app].
      repeat split; assumption || reflexivity.
Qed.

Lemma newFunctionRelease_trace (E : Env) (branch : bytes)
    (w : World E) (log : list event) :
  (exists e, newFunctionRelease E branch (w, log) = (inl e, (w, log)))
  \/ (exists r ps,
        newFunctionRelease E branch (w, log)
        = (r, (replay E [EvCmd (b "git") [b "tag"]] w,
               log ++ EvCmd (b "git") [b "tag"] :: ps))
        /\ forallb isProbe ps = true).
Proof.
  destruct (MatchString releaseBranchPattern branch) eqn:Hm.
  2:{ left. exists ErrInvalidBranch. unfold newFunctionRelease. rewrite Hm. reflexivity. }
  pose proof Hm as Hs. rewrite MatchString_branch in Hs. apply hasMinorMark_slash in Hs.
  destruct (@fromEnd_Some (strings.Split branch "/") 1) as (mv & E1);
    [rewrite Split_length; lia|].
  destruct (@fromEnd_Some (strings.Split branch "/") 2) as (fn & E2);
    [rewrite Split_length; lia|].
  rewrite (@newFunctionRelease_run E branch mv fn (w, log) Hm E1 E2).
  destruct (isEmpty (FunctionName (named fn mv)) || isEmpty (MinorVersion (named fn mv)))
    eqn:Hid.
  { left. exists ErrMissingIdentifier.
    unfold bind, readLatestPatchVersion. rewrite Hid. reflexivity. }
  right. unfold bind. rewrite (@readLatestPatchVersion_run E (named fn mv) w log Hid).
  destruct (snd (fst (runCmdIn E (b "git") [b "tag"] w))) as [msg|].
  { eexists. exists []. split; reflexivity. }
  destruct (resolveFromTags (named fn mv) _) as [e | fr].
  { eexists. exists []. split; reflexivity. }
  destruct (readDocPaths_log E fr (snd (runCmdIn E (b "git") [b "tag"] w))
              (log ++ [EvCmd (b "git") [b "tag"]])) as (ps & Hps & Hp).
  destruct (readDocPaths E fr _) as [r st'] eqn:Hd. cbn [snd] in Hps. subst st'.
  exists (match r with inl e => inl e | inr a => inr a end), ps.
  rewrite <- app_assoc. split; [destruct r; reflexivity | exact Hp].
Qed.

Lemma finish_cases (E : Env) (fr : functionRelease) (w : World E) (log : list event) :
  exists j r,
    finish E fr (w, log)
    = (r, (replay E (firstn j (epilogue fr)) w, log ++ firstn j (epilogue fr)))
    /\ 1 <= j <= 4
    /\ (cleanIn E w = true -> j = 1 /\ r = inl ErrDocsUpToDate)
    /\ (cleanIn E w = false -> 2 <= j /\ (r = inr tt \/ exists msg, r = inl (ErrExternal msg)))
    /\ (r = inr tt -> j = 4).
Proof.
  unfold finish. rewrite bind_isCleanRepo.
  destruct (cleanIn E w) eqn:Hc.
  { exists 1, (inl ErrDocsUpToDate). repeat split; try lia; try discriminate. }
  unfold gitAdd. rewrite bind_command.
  destruct (snd (fst (runCmdIn E (b "git") [b "add"; b "-u"] _))) as [msg1|].
  { exists 2, (inl (ErrExternal msg1)). rewrite <- app_assoc.
    repeat split; try lia; try discriminate. right. exists msg1. reflexivity. }
  unfold gitCommit. rewrite bind_command.
  match goal with
  | |- context [snd (fst (runCmdIn E (b "git") ?a ?w0))] =>
      destruct (snd (fst (runCmdIn E (b "git") a w0))) as [msg2|]
  end.
  { exists 3, (inl (ErrExternal msg2)). rewrite <- !app_assoc.
    repeat split; try lia; try discriminate. right. exists msg2. reflexivity. }
  unfold gitShow. rewrite bind_command.
  destruct (snd (fst (runCmdIn E (b "git") [b "show"] _))) as [msg3|].
  { exists 4, (inl (ErrExternal msg3)). rewrite <- !app_assoc.
    repeat split; try lia; try discriminate. right. exists msg3. reflexivity. }
  exists 4, (inr tt). rewrite <- !app_assoc.
  repeat split; try lia; try discriminate. left. reflexivity.
Qed.

Lemma main_run (E : Env) (prog branch : bytes) (rest : list bytes)
    (w : World E) (log : list event) :
  (cleanIn E w = false
   /\ main E (prog :: branch :: rest) (w, log)
      = (inl ErrDirtyRepo, (replay E [cleanCheck] w, log ++ [cleanCheck])))
  \/ (cleanIn E w = true
      /\ exists k msg,
           2 <= k <= 3
           /\ main E (prog :: branch :: rest) (w, log)
              = (inl (ErrExternal msg),
                 (replay E (firstn k (preamble branch)) w,
                  log ++ firstn k (preamble branch))))
  \/ (cleanIn E w = true
      /\ main E (prog :: branch :: rest) (w, log)
         = bind (newFunctionRelease E branch)
             (fun fr => bind (updateDocs E fr) (fun _ => finish E fr))
             (replay E (firstn 3 (preamble branch)) w,
              log ++ firstn 3 (preamble branch))).
Proof.
  unfold main. rewrite bind_isCleanRepo.
  destruct (cleanIn E w) eqn:Hc; cbn [negb]; [|left; split; reflexivity].
  right. unfold gitFetch. rewrite bind_command.
  destruct (snd (fst (runCmdIn E (b "git") [b "fetch"; b "--tags"] _))) as [msg1|].
  { left. split; [reflexivity|]. exists 2, msg1. rewrite <- app_assoc.
    split; [lia | reflexivity]. }
  unfold gitCheckout. rewrite bind_command.
  destruct (snd (fst (runCmdIn E (b "git") [b "checkout"; branch] _))) as [msg2|].
  { left. split; [reflexivity|]. exists 3, msg2. rewrite <- !app_assoc.
    split; [lia | reflexivity]. }
  right. split; [reflexivity|]. rewrite <- !app_assoc. reflexivity.
Qed.

(** ** Releases the rules are faithful for *)




Lemma bind_eq (E : Env) (A B : Type) (m : M E A) (k : A -> M E B)
    (st st' : World E * list event) (r : error + A) :
  m st = (r, st') ->
  bind m k st = match r with
                | inl e => (inl e, st')
                | inr a => k a st'
                end.
Proof. intros H. unfold bind. rewrite H. reflexivity. Qed.

(** ** The runs of [main] on a branch

    Every run, with the worlds it goes through: the start, the release,
    the files, the end. *)
Lemma main_cases (E : Env) (prog branch : bytes) (rest : list bytes)
    (w : World E) (log : list event) :
  (cleanIn E w = false
   /\ main E (prog :: branch :: rest) (w, log)
      = (inl ErrDirtyRepo, (replay E [cleanCheck] w, log ++ [cleanCheck])))
  \/ (cleanIn E w = true
      /\ exists k msg,
           2 <= k <= 3
           /\ main E (prog :: branch :: rest) (w, log)
              = (inl (ErrExternal msg),
                 (replay E (firstn k (preamble branch)) w,
                  log ++ firstn k (preamble branch))))
  \/ (cleanIn E w = true
      /\ exists e,
           newFunctionRelease E branch
             (replay E (firstn 3 (preamble branch)) w, log ++ firstn 3 (preamble branch))
           = (inl e, (replay E (firstn 3 (preamble branch)) w,
                      log ++ firstn 3 (preamble branch)))
           /\ main E (prog :: branch :: rest) (w, log)
              = (inl e, (replay E (firstn 3 (preamble branch)) w,
                         log ++ firstn 3 (preamble branch))))
  \/ (cleanIn E w = true
      /\ exists e ps,
           forallb isProbe ps = true
           /\ newFunctionRelease E branch
                (replay E (firstn 3 (preamble branch)) w,
                 log ++ firstn 3 (preamble branch))
              = (inl e, (replay E (preamble branch) w, log ++ preamble branch ++ ps))
           /\ main E (prog :: branch :: rest) (w, log)
              = (inl e, (replay E (preamble branch) w, log ++ preamble branch ++ ps)))
  \/ (cleanIn E w = true
      /\ exists fr ps done wd,
           forallb isProbe ps = true
           /\ newFunctionRelease E branch
                (replay E (firstn 3 (preamble branch)) w,
                 log ++ firstn 3 (preamble branch))
              = (inr fr, (replay E (preamble branch) w, log ++ preamble branch ++ ps))
           /\ Rewrote E fr (replay E (preamble branch) w) done wd
           /\ map fst done = firstn (length done) (docTargets E fr)
           /\ ((exists p msg,
                  nth_error (docTargets E fr) (length done) = Some p
                  /\ readFileIn E p wd = inr msg
                  /\ main E (prog :: branch :: rest) (w, log)
                     = (inl (ErrExternal msg),
                        (wd, log ++ preamble branch ++ ps
                             ++ flat_map (rewriteEvents fr) done ++ [EvReadFile p])))
               \/ (exists p c msg,
                     nth_error (docTargets E fr) (length done) = Some p
                     /\ readFileIn E p wd = inl c
                     /\ fst (writeFileIn E p (updateContents fr c) wd) = Some msg
                     /\ main E (prog :: branch :: rest) (w, log)
                        = (inl (ErrExternal msg),
                           (replay E (rewriteEvents fr (p, c)) wd,
                            log ++ preamble branch ++ ps
                            ++ flat_map (rewriteEvents fr) done
                            ++ rewriteEvents fr (p, c))))
               \/ (map fst done = docTargets E fr
                   /\ exists j r,
                        main E (prog :: branch :: rest) (w, log)
                        = (r, (replay E (firstn j (epilogue fr)) wd,
                               log ++ preamble branch ++ ps
                               ++ flat_map (rewriteEvents fr) done
                               ++ firstn j (epilogue fr)))
                        /\ 1 <= j <= 4
                        /\ (cleanIn E wd = true -> j = 1 /\ r = inl ErrDocsUpToDate)
                        /\ (cleanIn E wd = false ->
                            2 <= j /\ (r = inr tt \/ exists msg, r = inl (ErrExternal msg)))
                        /\ (r = inr tt -> j = 4)))).
Proof.
  destruct (main_run E prog branch rest w log)
    as [[Hc Hm] | [(Hc & k & msg & Hk & Hm) | [Hc Hm]]].
  { left. split; assumption. }
  { right; left. split; [exact Hc|]. exists k, msg. split; assumption. }
  right; right. rewrite Hm. clear Hm.
  destruct (newFunctionRelease_trace E branch (replay E (firstn 3 (preamble branch)) w)
              (log ++ firstn 3 (preamble branch)))
    as [(e & Hn) | (r & ps & Hn & Hps)].
  { left. split; [exact Hc|]. exists e. split; [exact Hn|].
    rewrite (@bind_eq E _ _ _ _ _ _ _ Hn). reflexivity. }
  right.
  assert (Hw4 : replay E [EvCmd (b "git") [b "tag"]]
                  (replay E (firstn 3 (preamble branch)) w)
                = replay E (preamble branch) w) by reflexivity.
  assert (Hl4 : (log ++ firstn 3 (preamble branch)) ++ EvCmd (b "git") [b "tag"] :: ps
                = log ++ preamble branch ++ ps)
    by (rewrite <- app_assoc; reflexivity).
  rewrite Hw4, Hl4 in Hn.
  destruct r as [e | fr].
  { left. split; [exact Hc|]. exists e, ps. split; [exact Hps|]. split; [exact Hn|].
    rewrite (@bind_eq E _ _ _ _ _ _ _ Hn). reflexivity. }
  right. split; [exact Hc|]. rewrite (@bind_eq E _ _ _ _ _ _ _ Hn).
  destruct (updateExamples_rewrote E fr
              ({| ExamplePath := FunctionPath fr; ExampleName := [] |} :: Examples fr)
              (replay E (preamble branch) w) (log ++ preamble branch ++ ps))
    as (done & wd & HR & Hpre & Hcases).
  change (updateExamples E fr
            ({| ExamplePath := FunctionPath fr; ExampleName := [] |} :: Examples fr))
    with (updateDocs E fr) in Hcases.
  change (map (fun e => pathJoin E [ExamplePath e; b "README.md"])
            ({| ExamplePath := FunctionPath fr; ExampleName := [] |} :: Examples fr))
    with (docTargets E fr) in Hpre, Hcases.
  exists fr, ps, done, wd.
  split; [exact Hps|]. split; [exact Hn|]. split; [exact HR|]. split; [exact Hpre|].
  destruct Hcases as [[Hu Hall] | [(p & msg & Hp & Hr & Hu) | (p & c & msg & Hp & Hr & Hwf & Hu)]].
  - right; right. split; [exact Hall|]. rewrite (@bind_eq E _ _ _ _ _ _ _ Hu).
    destruct (finish_cases E fr wd
                ((log ++ preamble branch ++ ps) ++ flat_map (rewriteEvents fr) done))
      as (j & r & Hf & Hj & H1 & H2 & H3).
    exists j, r. rewrite Hf. rewrite <- !app_assoc.
    repeat split; try assumption; try lia; try (apply H1; assumption);
      try (apply H2; assumption).
  - left. exists p, msg. split; [exact Hp|]. split; [exact Hr|].
    rewrite (@bind_eq E _ _ _ _ _ _ _ Hu). rewrite <- !app_assoc. reflexivity.
  - right; left. exists p, c, msg. split; [exact Hp|]. split; [exact Hr|].
    split; [exact Hwf|]. rewrite (@bind_eq E _ _ _ _ _ _ _ Hu). rewrite <- !app_assoc. reflexivity.
Qed.

(** X11. For a release whose function name and example names are plain
    (no regex metacharacter, ASCII only) and whose versions are free of
    [$], [updateDocs] goes through [README.md] of the function and of each
    example, in this order, and stops at the first file it cannot read or
    write.  Each file
    is read in the world that the writes before it have left, and what is
    written back to it is the rewriting of what was read there.  When it
    succeeds, every one of these files has been read and written once and
    nothing else was done; otherwise it ends with the error of the read or
    of the write that failed: a file that cannot be read is not written,
    and no file after the failing one is touched. *)
Theorem updateDocs_writes_what_it_read
    (E : Env) (fr : functionRelease) (w : World E) (log : list event) :
  plainRelease fr = true ->
  exists done wd,
    Rewrote E fr w done wd
    /\ map fst done = firstn (length done) (docTargets E fr)
    /\ ((updateDocs E fr (w, log)
         = (inr tt, (wd, log ++ flat_map (rewriteEvents fr) done))
         /\ map fst done = docTargets E fr)
        \/ (exists p msg,
              nth_error (docTargets E fr) (length done) = Some p
              /\ readFileIn E p wd = inr msg
              /\ updateDocs E fr (w, log)
                 = (inl (ErrExternal msg),
                    (wd, log ++ flat_map (rewriteEvents fr) done ++ [EvReadFile p])))
        \/ (exists p c msg,
              nth_error (docTargets E fr) (length done) = Some p
              /\ readFileIn E p wd = inl c
              /\ fst (writeFileIn E p (updateContents fr c) wd) = Some msg
              /\ updateDocs E fr (w, log)
                 = (inl (ErrExternal msg),
                    (snd (writeFileIn E p (updateContents fr c) wd),
                     log ++ flat_map (rewriteEvents fr) done ++ rewriteEvents fr (p, c))))).
Proof.
  intros _.
  exact (updateExamples_rewrote E fr
           ({| ExamplePath := FunctionPath fr; ExampleName := [] |} :: Examples fr)
           w log).
Qed.

Lemma updateDocs_writes_what_it_read_witness :
  exists done wd,
    Rewrote (repoEnv []) documented (fst (repoStart [])) done wd
    /\ map fst done = firstn (length done) (docTargets (repoEnv []) documented)
    /\ ((updateDocs (repoEnv []) documented (repoStart [])
         = (inr tt, (wd, snd (repoStart []) ++ flat_map (rewriteEvents documented) done))
         /\ map fst done = docTargets (repoEnv []) documented)
        \/ (exists p msg,
              nth_error (docTargets (repoEnv []) documented) (length done) = Some p
              /\ readFileIn (repoEnv []) p wd = inr msg
              /\ updateDocs (repoEnv []) documented (repoStart [])
                 = (inl (ErrExternal msg),
                    (wd, snd (repoStart []) ++ flat_map (rewriteEvents documented) done
                         ++ [EvReadFile p])))
        \/ (exists p c msg,
              nth_error (docTargets (repoEnv []) documented) (length done) = Some p
              /\ readFileIn (repoEnv []) p wd = inl c
              /\ fst (writeFileIn (repoEnv []) p (updateContents documented c) wd) = Some msg
              /\ updateDocs (repoEnv []) documented (repoStart [])
                 = (inl (ErrExternal msg),
                    (snd (writeFileIn (repoEnv []) p (updateContents documented c) wd),
                     snd (repoStart []) ++ flat_map (rewriteEvents documented) done
                     ++ rewriteEvents documented (p, c))))).
Proof.
  apply (@updateDocs_writes_what_it_read (repoEnv []) documented
           (fst (repoStart [])) (snd (repoStart []))).
  reflexivity.
Defined.

(** X12. Whatever the repository answers, what [main] does outside on a
    branch is a start of this sequence: the check that the working tree is
    clean, [git fetch --tags], [git checkout] of the branch, [git tag], then
    only looking at directories and reading and writing files, then the
    check again, [git add -u], [git commit] and [git show]; and the world
    the run leaves is the one these actions make of the initial world, in
    this order.  The run goes beyond the first check exactly when that check
    finds the initial working tree clean, and no file is touched before the
    four first commands have run.  The second check looks at the world that
    the four commands and the file actions of this very run have left, and
    the run goes on to add and commit exactly when it finds changes there.
    A run that succeeds has gone through the whole sequence. *)
Theorem main_commands_in_order
    (E : Env) (prog branch : bytes) (rest : list bytes)
    (w : World E) (log : list event) :
  exists k files j fr,
    snd (main E (prog :: branch :: rest) (w, log))
    = (replay E (firstn k (preamble branch) ++ files ++ firstn j (epilogue fr)) w,
       log ++ firstn k (preamble branch) ++ files ++ firstn j (epilogue fr))
    /\ forallb isFileEvent files = true
    /\ 1 <= k <= 4 /\ j <= 4
    /\ (files <> [] \/ j <> 0 -> k = 4)
    /\ cleanIn E w = (2 <=? k)
    /\ (1 <= j -> cleanIn E (replay E (preamble branch ++ files) w) = (j =? 1))
    /\ (fst (main E (prog :: branch :: rest) (w, log)) = inr tt -> k = 4 /\ j = 4).
Proof.
  destruct (main_cases E prog branch rest w log)
    as [[Hc Hm] | [(Hc & k & msg & Hk & Hm) | [(Hc & e & _ & Hm)
        | [(Hc & e & ps & Hps & _ & Hm) | (Hc & fr & ps & done & wd & Hps & _ & HR & _ & Hd)]]]].
  - exists 1, [], 0, (named [] []). rewrite Hm, Hc. cbn [fst snd firstn app preamble].
    repeat split; try lia; try discriminate.
    intros [H | H]; congruence.
  - exists k, [], 0, (named [] []). rewrite Hm, Hc. cbn [fst snd firstn app].
    rewrite !app_nil_r.
    assert (Hk' : k = 2 \/ k = 3) by lia.
    repeat split; try lia; try discriminate.
    + intros [H | H]; congruence.
    + destruct Hk' as [-> | ->]; reflexivity.
  - exists 3, [], 0, (named [] []). rewrite Hm, Hc. cbn [fst snd].
    change (firstn 0 (epilogue (named [] []))) with (@nil event). rewrite !app_nil_r.
    repeat split; try lia; try discriminate.
    intros [H | H]; congruence.
  - exists 4, ps, 0, (named [] []). rewrite Hm, Hc. cbn [fst snd].
    change (firstn 0 (epilogue (named [] []))) with (@nil event).
    change (firstn 4 (preamble branch)) with (preamble branch). rewrite !app_nil_r.
    rewrite replay_app, (replay_probes _ _ _ Hps).
    repeat split; try lia; try discriminate.
    apply isFileEvent_probes. exact Hps.
  - apply Rewrote_replay in HR.
    change (firstn 4 (preamble branch)) with (preamble branch).
    destruct Hd as [(p & msg & _ & _ & Hm) | [(p & c & msg & _ & _ & _ & Hm)
                    | (_ & j & r & Hm & Hj & H1 & H2 & H3)]].
    + exists 4, (ps ++ flat_map (rewriteEvents fr) done ++ [EvReadFile p]), 0, fr.
      rewrite Hm, Hc. cbn [fst snd]. change (firstn 0 (epilogue fr)) with (@nil event).
      change (firstn 4 (preamble branch)) with (preamble branch).
      rewrite !app_nil_r, <- ?app_assoc.
      rewrite !replay_app, (replay_probes _ _ _ Hps), <- HR.
      repeat split; try lia; try discriminate.
      rewrite !forallb_app, (isFileEvent_probes _ Hps), isFileEvent_rewrites. reflexivity.
    + exists 4, (ps ++ flat_map (rewriteEvents fr) done ++ rewriteEvents fr (p, c)), 0, fr.
      rewrite Hm, Hc. cbn [fst snd]. change (firstn 0 (epilogue fr)) with (@nil event).
      change (firstn 4 (preamble branch)) with (preamble branch).
      rewrite !app_nil_r, <- ?app_assoc.
      rewrite !replay_app, (replay_probes _ _ _ Hps), <- HR.
      repeat split; try lia; try discriminate.
      rewrite !forallb_app, (isFileEvent_probes _ Hps), isFileEvent_rewrites. reflexivity.
    + exists 4, (ps ++ flat_map (rewriteEvents fr) done), j, fr.
      rewrite Hm, Hc. cbn [fst snd].
      change (firstn 4 (preamble branch)) with (preamble branch).
      rewrite <- ?app_assoc.
      rewrite !replay_app, (replay_probes _ _ _ Hps), <- HR.
      repeat split; try lia; try discriminate.
      * rewrite !forallb_app, (isFileEvent_probes _ Hps), isFileEvent_rewrites. reflexivity.
      * intros Hj1. destruct (cleanIn E wd) eqn:Hw.
        -- destruct (H1 eq_refl) as [-> _]. reflexivity.
        -- destruct (H2 eq_refl) as [Hj2 _]. symmetry. apply Nat.eqb_neq. lia.
      * apply H3. assumption.
Qed.







(** ** Two rules, one after the other *)

Section Commute.

Variables occA occB : bytes -> option (bytes * bytes).

Hypothesis A_suffix :
  forall s out rest, occA s = Some (out, rest) -> exists m, m <> [] /\ s = m ++ rest.
Hypothesis B_suffix :
  forall s out rest, occB s = Some (out, rest) -> exists m, m <> [] /\ s = m ++ rest.

(** What a rule writes and what it has read start with the same byte. *)
Hypothesis A_head :
  forall s out rest, occA s = Some (out, rest) -> hd_error out = hd_error s.
Hypothesis B_head :
  forall s out rest, occB s = Some (out, rest) -> hd_error out = hd_error s.

(** The other rule goes through what a rule writes and through what it
    has read, and a reference stays one whatever follows it, as long as
    that starts with the same byte. *)
Hypothesis A_through :
  forall s out rest, occA s = Some (out, rest) ->
    (forall t, scan occB (out ++ t) = out ++ scan occB t)
    /\ exists m, s = m ++ rest
         /\ (forall t, scan occB (m ++ t) = m ++ scan occB t)
         /\ (forall t, hd_error t = hd_error rest -> occA (m ++ t) = Some (out, t)).
Hypothesis B_through :
  forall s out rest, occB s = Some (out, rest) ->
    (forall t, scan occA (out ++ t) = out ++ scan occA t)
    /\ exists m, s = m ++ rest
         /\ (forall t, scan occA (m ++ t) = m ++ scan occA t)
         /\ (forall t, hd_error t = hd_error rest -> occB (m ++ t) = Some (out, t)).

(** Neither rule makes a reference of the other start where none did. *)
Hypothesis A_new :
  forall s, occA s = None -> occB s = None -> occA (scan occB s) = None.
Hypothesis B_new :
  forall s, occA s = None -> occB s = None -> occB (scan occA s) = None.

Lemma scan_head (occ : bytes -> option (bytes * bytes)) :
  (forall s out rest, occ s = Some (out, rest) -> exists m, m <> [] /\ s = m ++ rest) ->
  (forall s out rest, occ s = Some (out, rest) -> hd_error out = hd_error s) ->
  forall s, hd_error (scan occ s) = hd_error s.
Proof.
  intros Hs Hh s. rewrite scan_eq by exact Hs.
  destruct (occ s) as [[out rest]|] eqn:Ho.
  - pose proof (Hh _ _ _ Ho) as H. destruct (Hs _ _ _ Ho) as (m & Hm & ->).
    destruct m as [|x m]; [congruence|]. cbn [app hd_error] in H |- *.
    destruct out as [|y out]; [discriminate H | exact H].
  - destruct s; reflexivity.
Qed.

Lemma scan_nil (occ : bytes -> option (bytes * bytes)) :
  (forall s out rest, occ s = Some (out, rest) -> exists m, m <> [] /\ s = m ++ rest) ->
  scan occ [] = [].
Proof.
  intros Hs. rewrite scan_eq by exact Hs.
  destruct (occ []) as [[out rest]|] eqn:Ho; [|reflexivity].
  destruct (Hs _ _ _ Ho) as (m & Hm & E). destruct m; [congruence | discriminate E].
Qed.

Lemma scans_commute_upto (k : nat) :
  forall s, length s <= k -> scan occA (scan occB s) = scan occB (scan occA s).
Proof.
  induction k as [|k IH]; intros s Hl.
  - destruct s; [|simpl in Hl; lia].
    repeat (rewrite (@scan_nil occB B_suffix) || rewrite (@scan_nil occA A_suffix));
      reflexivity.
  - destruct (occA s) as [[out rest]|] eqn:Ha.
    + destruct (A_through Ha) as (Hout & m & Hs & Hm & Hloc).
      destruct (A_suffix Ha) as (m' & Hm' & Hs').
      assert (Hlen : length rest <= k).
      { rewrite Hs' in Hl. rewrite length_app in Hl.
        destruct m'; [congruence | simpl in Hl; lia]. }
      rewrite (@scan_eq occA A_suffix s), Ha, Hout.
      rewrite Hs at 1. rewrite Hm.
      rewrite (@scan_eq occA A_suffix (m ++ scan occB rest)).
      rewrite (Hloc (scan occB rest) (@scan_head occB B_suffix B_head rest)).
      f_equal. apply IH. exact Hlen.
    + destruct (occB s) as [[out rest]|] eqn:Hb.
      * destruct (B_through Hb) as (Hout & m & Hs & Hm & Hloc).
        destruct (B_suffix Hb) as (m' & Hm' & Hs').
        assert (Hlen : length rest <= k).
        { rewrite Hs' in Hl. rewrite length_app in Hl.
          destruct m'; [congruence | simpl in Hl; lia]. }
        rewrite (@scan_eq occB B_suffix s), Hb, Hout.
        rewrite Hs at 1. rewrite Hm.
        rewrite (@scan_eq occB B_suffix (m ++ scan occA rest)).
        rewrite (Hloc (scan occA rest) (@scan_head occA A_suffix A_head rest)).
        f_equal. apply IH. exact Hlen.
      * pose proof (A_new Ha Hb) as Na. pose proof (B_new Ha Hb) as Nb.
        destruct s as [|x s].
        { repeat (rewrite (@scan_nil occB B_suffix) || rewrite (@scan_nil occA A_suffix));
      reflexivity. }
        rewrite (@scan_eq occB B_suffix (x :: s)), Hb in Na |- *.
        rewrite (@scan_eq occA A_suffix (x :: s)), Ha in Nb |- *.
        rewrite (@scan_eq occA A_suffix (x :: scan occB s)), Na.
        rewrite (@scan_eq occB B_suffix (x :: scan occA s)), Nb.
        f_equal. apply IH. simpl in Hl. lia.
Qed.

Lemma scans_commute (s : bytes) :
  scan occA (scan occB s) = scan occB (scan occA s).
Proof. apply scans_commute_upto with (k := length s). lia. Qed.

End Commute.

(** The first reference of a text, and the text up to it. *)
Lemma scan_first (occ : bytes -> option (bytes * bytes)) :
  (forall s out rest, occ s = Some (out, rest) -> exists m, m <> [] /\ s = m ++ rest) ->
  forall s,
    scan occ s = s
    \/ exists w z out rest,
         s = w ++ z /\ occ z = Some (out, rest)
         /\ scan occ s = w ++ out ++ scan occ rest.
Proof.
  intros Hs. induction s as [|x s IH].
  - left. apply scan_nil. exact Hs.
  - rewrite (@scan_eq occ Hs (x :: s)).
    destruct (occ (x :: s)) as [[out rest]|] eqn:Ho.
    + right. exists [], (x :: s), out, rest. repeat split; assumption || reflexivity.
    + destruct IH as [-> | (w & z & out & rest & -> & Ho' & ->)].
      * left. reflexivity.
      * right. exists (x :: w), z, out, rest. repeat split; assumption || reflexivity.
Qed.

(** ** Version tokens and what follows them *)

Lemma afterChar_head (c : ascii) (s t : bytes) :
  hd_error t = hd_error s -> afterChar c s = None -> afterChar c t = None.
Proof.
  destruct s as [|x s], t as [|y t]; cbn [hd_error afterChar]; try discriminate; auto.
  intros [= ->]. destruct (ascii_dec c x); [discriminate | reflexivity].
Qed.

Lemma dropRun_head (p : ascii -> bool) (s t : bytes) :
  hd_error t = hd_error (dropRun p s) -> dropRun p t = t.
Proof.
  intros H. apply dropRun_id. pose proof (dropRun_stops p s) as Hs.
  destruct (dropRun p s) as [|x r], t as [|y t]; cbn [hd_error] in H;
    try discriminate; try reflexivity.
  injection H as ->. exact Hs.
Qed.

Lemma token_v_two (d1 d2 t : bytes) :
  forallb isDigit d1 = true -> forallb isDigit d2 = true ->
  tokenRest ("v"%char :: d1 ++ "."%char :: d2 ++ t)
  = match afterChar "." (dropRun isDigit t) with
    | Some s3 => Some (dropRun isDigit s3)
    | None => Some (dropRun isDigit t)
    end.
Proof.
  intros H1 H2. unfold tokenRest.
  replace (strings.HasPrefix ("v"%char :: d1 ++ "."%char :: d2 ++ t) (b "unstable"))
    with false by reflexivity.
  cbn [afterChar]. destruct (ascii_dec "v" "v"); [|congruence].
  rewrite (dropRun_app_all isDigit d1 _ H1). cbn [dropRun isDigit afterChar].
  replace (isDigit ".") with false by reflexivity. cbn [afterChar].
  destruct (ascii_dec "." "."); [|congruence].
  rewrite (dropRun_app_all isDigit d2 _ H2). reflexivity.
Qed.

(** What [tokenRest] reads: a token, made of bytes of tokens, that starts
    with [u] or [v] and holds no [h]; it is read again whatever follows
    that starts like the rest, and something is read whatever follows. *)
Lemma tokenRest_token (s rest : bytes) :
  tokenRest s = Some rest ->
  exists c tok,
    s = (c :: tok) ++ rest
    /\ (c = "u"%char \/ c = "v"%char)
    /\ forallb isTokenChar (c :: tok) = true
    /\ ~ In "h"%char (c :: tok)
    /\ (forall t, hd_error t = hd_error rest -> tokenRest ((c :: tok) ++ t) = Some t)
    /\ (forall t, tokenRest ((c :: tok) ++ t) <> None).
Proof.
  unfold tokenRest at 1.
  destruct (strings.HasPrefix s (b "unstable")) eqn:Hu.
  - intros [= <-]. apply HasPrefix_split in Hu.
    exists "u"%char, (b "nstable"). split; [exact Hu|]. split; [left; reflexivity|].
    split; [reflexivity|]. split.
    + cbn. intuition discriminate.
    + split; intros t; [intros _; reflexivity | discriminate].
  - destruct (afterChar "v" s) as [s1|] eqn:H1; [|discriminate].
    apply afterChar_Some in H1. subst s.
    destruct (afterChar "." (dropRun isDigit s1)) as [s2|] eqn:H2; [|discriminate].
    apply afterChar_Some in H2.
    pose proof (takeRun_dropRun isDigit s1) as E1. rewrite H2 in E1.
    pose proof (takeRun_dropRun isDigit s2) as E2.
    pose proof (takeRun_all isDigit s1) as D1.
    pose proof (takeRun_all isDigit s2) as D2.
    assert (NH : forall d, forallb isDigit d = true -> ~ In "h"%char d).
    { intros d Hd Hin. rewrite forallb_forall in Hd. specialize (Hd _ Hin).
      discriminate Hd. }
    assert (TC : forall d, forallb isDigit d = true -> forallb isTokenChar d = true).
    { intros d. apply forallb_impl. exact digit_tokenChar. }
    destruct (afterChar "." (dropRun isDigit s2)) as [s3|] eqn:H3.
    + apply afterChar_Some in H3. rewrite H3 in E2.
      pose proof (takeRun_dropRun isDigit s3) as E3.
      pose proof (takeRun_all isDigit s3) as D3.
      intros [= <-].
      exists "v"%char, (takeRun isDigit s1 ++ "."%char :: takeRun isDigit s2
                        ++ "."%char :: takeRun isDigit s3).
      split.
      { rewrite <- E1 at 1. rewrite <- E2 at 1. rewrite <- E3 at 1.
        cbn [app]. rewrite <- !app_assoc. cbn [app].
        do 2 f_equal. rewrite <- !app_assoc. reflexivity. }
      split; [right; reflexivity|].
      split.
      { cbn [forallb]. rewrite !forallb_app. cbn [forallb]. rewrite !forallb_app.
        cbn [forallb]. rewrite (TC _ D1), (TC _ D2), (TC _ D3). reflexivity. }
      split.
      { intros [Hc | Hc]; [discriminate Hc|].
        apply in_app_or in Hc as [Hc | [Hc | Hc]]; [exact (NH _ D1 Hc) | discriminate Hc|].
        apply in_app_or in Hc as [Hc | [Hc | Hc]];
          [exact (NH _ D2 Hc) | discriminate Hc | exact (NH _ D3 Hc)]. }
      assert (Hgo : forall t,
                tokenRest (("v"%char :: takeRun isDigit s1 ++ "."%char :: takeRun isDigit s2
                            ++ "."%char :: takeRun isDigit s3) ++ t)
                = Some (dropRun isDigit t)).
      { intros t. cbn [app]. rewrite <- !app_assoc. cbn [app]. rewrite <- !app_assoc.
        cbn [app]. rewrite token_v_two by assumption.
        cbn [dropRun]. replace (isDigit ".") with false by reflexivity.
        cbn [afterChar]. destruct (ascii_dec "." "."); [|congruence].
        rewrite (dropRun_app_all isDigit _ _ D3). reflexivity. }
      split; intros t.
      * intros Ht. rewrite Hgo. f_equal. apply (dropRun_head isDigit s3). exact Ht.
      * rewrite Hgo. discriminate.
    + intros [= <-].
      exists "v"%char, (takeRun isDigit s1 ++ "."%char :: takeRun isDigit s2).
      split.
      { rewrite <- E1 at 1. rewrite <- E2 at 1.
        cbn [app]. rewrite <- !app_assoc. reflexivity. }
      split; [right; reflexivity|].
      split.
      { cbn [forallb]. rewrite !forallb_app. cbn [forallb].
        rewrite (TC _ D1), (TC _ D2). reflexivity. }
      split.
      { intros [Hc | Hc]; [discriminate Hc|].
        apply in_app_or in Hc as [Hc | [Hc | Hc]];
          [exact (NH _ D1 Hc) | discriminate Hc | exact (NH _ D2 Hc)]. }
      assert (Hgo : forall t,
                tokenRest (("v"%char :: takeRun isDigit s1 ++ "."%char :: takeRun isDigit s2)
                           ++ t)
                = match afterChar "." (dropRun isDigit t) with
                  | Some s3 => Some (dropRun isDigit s3)
                  | None => Some (dropRun isDigit t)
                  end).
      { intros t. cbn [app]. rewrite <- !app_assoc. cbn [app].
        apply token_v_two; assumption. }
      split; intros t.
      * intros Ht. rewrite Hgo. rewrite (dropRun_head isDigit s2 t Ht).
        rewrite (afterChar_head "." _ t Ht H3). reflexivity.
      * rewrite Hgo. destruct (afterChar "." (dropRun isDigit t)); discriminate.
Qed.

(** ** The shape of a reference, and what it depends on *)

Lemma tagOcc_parts (fn latest s out rest : bytes) :
  tagOcc fn latest s = Some (out, rest) ->
  exists sep c tok,
    isSep sep = true
    /\ (c = "u"%char \/ c = "v"%char)
    /\ forallb isTokenChar (c :: tok) = true
    /\ ~ In "h"%char (c :: tok)
    /\ s = (fn ++ sep :: c :: tok) ++ rest
    /\ out = fn ++ sep :: latest
    /\ (forall t, hd_error t = hd_error rest ->
                  tagOcc fn latest ((fn ++ sep :: c :: tok) ++ t) = Some (out, t))
    /\ (forall t, tagOcc fn latest ((fn ++ sep :: c :: tok) ++ t) <> None).
Proof.
  unfold tagOcc at 1. destruct (tagRefAt fn s) as [[sep r]|] eqn:H; [|discriminate].
  intros [= <- <-]. apply tagRefAt_split in H as (tok' & _ & Hsep & -> & Htok).
  apply tokenRest_token in Htok as (c & tok & E & Hc & Hch & Hh & Hloc & Htot).
  apply app_inv_tail in E. subst tok'.
  exists sep, c, tok.
  assert (Hat : forall t, tagRefAt fn ((fn ++ sep :: c :: tok) ++ t)
                          = match tokenRest ((c :: tok) ++ t) with
                            | Some rest => Some (sep, rest)
                            | None => None
                            end).
  { intros t. unfold tagRefAt. rewrite <- app_assoc.
    rewrite HasPrefix_app, skipn_app_exact. cbn [app]. rewrite Hsep. reflexivity. }
  split; [exact Hsep|]. split; [exact Hc|]. split; [exact Hch|]. split; [exact Hh|].
  split; [rewrite <- !app_assoc; reflexivity|]. split; [reflexivity|].
  split; intros t.
  - intros Ht. unfold tagOcc. rewrite Hat, (Hloc t Ht). reflexivity.
  - unfold tagOcc. rewrite Hat. specialize (Htot t).
    destruct (tokenRest ((c :: tok) ++ t)); [discriminate | congruence].
Qed.

Lemma catalogOcc_parts (fn mv s out rest : bytes) :
  catalogOcc fn mv s = Some (out, rest) ->
  exists c tok,
    (c = "u"%char \/ c = "v"%char)
    /\ forallb isTokenChar (c :: tok) = true
    /\ ~ In "h"%char (c :: tok)
    /\ s = (catalogURL ++ fn ++ "/"%char :: c :: tok) ++ rest
    /\ out = catalogURL ++ fn ++ "/"%char :: mv
    /\ (forall t, hd_error t = hd_error rest ->
                  catalogOcc fn mv ((catalogURL ++ fn ++ "/"%char :: c :: tok) ++ t)
                  = Some (out, t))
    /\ (forall t, catalogOcc fn mv ((catalogURL ++ fn ++ "/"%char :: c :: tok) ++ t)
                  <> None).
Proof.
  unfold catalogOcc at 1. destruct (catalogRefAt fn s) as [r|] eqn:H; [|discriminate].
  intros [= <- <-]. apply catalogRefAt_split in H as (tok' & _ & -> & Htok).
  apply tokenRest_token in Htok as (c & tok & E & Hc & Hch & Hh & Hloc & Htot).
  apply app_inv_tail in E. subst tok'.
  exists c, tok.
  assert (Hat : forall t, catalogRefAt fn ((catalogURL ++ fn ++ "/"%char :: c :: tok) ++ t)
                          = tokenRest ((c :: tok) ++ t)).
  { intros t. unfold catalogRefAt. cbv zeta.
    replace ((catalogURL ++ fn ++ "/"%char :: c :: tok) ++ t)
      with ((catalogURL ++ fn ++ b "/") ++ (c :: tok) ++ t)
      by (rewrite <- !app_assoc; reflexivity).
    rewrite HasPrefix_app, skipn_app_exact. reflexivity. }
  split; [exact Hc|]. split; [exact Hch|]. split; [exact Hh|].
  split; [rewrite <- !app_assoc; reflexivity|]. split; [reflexivity|].
  split; intros t.
  - intros Ht. unfold catalogOcc. rewrite Hat, (Hloc t Ht). reflexivity.
  - unfold catalogOcc. rewrite Hat. specialize (Htot t).
    destruct (tokenRest ((c :: tok) ++ t)); [discriminate | congruence].
Qed.

Lemma find_ext {A} (f g : A -> bool) (l : list A) :
  (forall x, In x l -> f x = g x) -> find f l = find g l.
Proof.
  induction l as [|x l IH]; intros H; [reflexivity|]. cbn [find].
  rewrite <- (H x (or_introl eq_refl)). destruct (f x); [reflexivity|].
  apply IH. intros y Hy. apply H. right. exact Hy.
Qed.

Lemma space_not_wordDash (w : ascii) (n : bytes) :
  isSpace w = true -> forallb isWordDash n = true -> ~ In w n.
Proof.
  intros Hw Hn Hin. rewrite forallb_forall in Hn. specialize (Hn _ Hin).
  apply wordDash_space in Hn. congruence.
Qed.

(** Whether a name is there and white space follows it is decided before
    the end of the first white space after a name. *)
Lemma name_test_local (n n' X X' : bytes) (w : ascii) :
  forallb isWordDash n' = true -> isSpace w = true ->
  strings.HasPrefix (n ++ w :: X) n'
  && startsWithSpace (skipn (length n') (n ++ w :: X))
  = strings.HasPrefix (n ++ w :: X') n'
    && startsWithSpace (skipn (length n') (n ++ w :: X')).
Proof.
  intros Hn' Hw.
  rewrite !HasPrefix_app_stop by (apply space_not_wordDash; assumption).
  destruct (strings.HasPrefix n n') eqn:Hp; [|reflexivity]. cbn [andb].
  apply HasPrefix_length in Hp. rewrite !skipn_app_le by exact Hp.
  destruct (skipn (length n') n); reflexivity.
Qed.

Lemma pkgOcc_parts (fr : functionRelease) (s out rest : bytes) :
  forallb (forallb isWordDash) (exampleNames (Examples fr)) = true ->
  pkgOcc fr s = Some (out, rest) ->
  exists n w W,
    In n (nameChoices (exampleNames (Examples fr)))
    /\ forallb isWordDash n = true
    /\ forallb isSpace (w :: W) = true
    /\ s = ((catalogGit ++ exampleSubPath fr ++ b "/") ++ n ++ w :: W) ++ rest
    /\ out = (catalogGit ++ exampleSubPath fr ++ b "/") ++ n
             ++ "@"%char :: FunctionName fr ++ "/"%char :: LatestPatchVersion fr
             ++ w :: W
    /\ (forall t, hd_error t = hd_error rest ->
                  pkgOcc fr (((catalogGit ++ exampleSubPath fr ++ b "/") ++ n ++ w :: W) ++ t)
                  = Some (out, t)).
Proof.
  intros Hnames H. unfold pkgOcc in H.
  destruct (pkgRefAt (exampleSubPath fr) (exampleNames (Examples fr)) s)
    as [[n r]|] eqn:Hr; [|discriminate H].
  injection H as <- <-.
  pose proof (pkgRefAt_split _ _ _ Hr) as (Hin & Hs & Hsp).
  pose proof (choices_wordDash _ Hnames n Hin) as Hn.
  pose proof (takeRun_dropRun isSpace r) as Er.
  pose proof (takeRun_all isSpace r) as HW.
  pose proof (takeRun_nonempty _ Hsp) as HWne.
  destruct (takeRun isSpace r) as [|w W] eqn:EW; [congruence|].
  exists n, w, W. split; [exact Hin|]. split; [exact Hn|]. split; [exact HW|].
  assert (Es : s = ((catalogGit ++ exampleSubPath fr ++ b "/") ++ n ++ w :: W)
                   ++ dropRun isSpace r).
  { rewrite Hs. rewrite <- Er at 1. rewrite <- !app_assoc. reflexivity. }
  split; [exact Es|].
  split; [rewrite <- !app_assoc; cbn [app]; rewrite <- ?app_assoc; reflexivity|].
  intros t Ht. unfold pkgOcc.
  assert (Hw : isSpace w = true)
    by (cbn [forallb] in HW; apply andb_prop in HW as [HW1 _]; exact HW1).
  assert (Hfind : pkgRefAt (exampleSubPath fr) (exampleNames (Examples fr))
                    (((catalogGit ++ exampleSubPath fr ++ b "/") ++ n ++ w :: W) ++ t)
                  = Some (n, (w :: W) ++ t)).
  { unfold pkgRefAt in Hr |- *. cbv zeta in Hr |- *.
    rewrite Es in Hr.
    replace (((catalogGit ++ exampleSubPath fr ++ b "/") ++ n ++ w :: W)
             ++ dropRun isSpace r)
      with ((catalogGit ++ exampleSubPath fr ++ b "/")
            ++ (n ++ (w :: W) ++ dropRun isSpace r)) in Hr
      by (rewrite <- !app_assoc; reflexivity).
    replace (((catalogGit ++ exampleSubPath fr ++ b "/") ++ n ++ w :: W) ++ t)
      with ((catalogGit ++ exampleSubPath fr ++ b "/") ++ (n ++ (w :: W) ++ t))
      by (rewrite <- !app_assoc; reflexivity).
    rewrite HasPrefix_app, skipn_app_exact in Hr |- *.
    rewrite (@find_ext _ _
               (fun n0 => strings.HasPrefix (n ++ (w :: W) ++ dropRun isSpace r) n0
                          && startsWithSpace
                               (skipn (length n0) (n ++ (w :: W) ++ dropRun isSpace r)))).
    2:{ intros n' Hn'. cbn [app]. apply name_test_local; [|exact Hw].
        apply choices_wordDash with (names := exampleNames (Examples fr)); assumption. }
    destruct (find _ (nameChoices (exampleNames (Examples fr)))) as [n0|];
      [|discriminate Hr].
    injection Hr as -> _. rewrite skipn_app_exact. reflexivity. }
  rewrite Hfind.
  assert (Ht' : match t with x :: _ => isSpace x | [] => false end = false).
  { pose proof (dropRun_stops isSpace r) as Hst.
    destruct (dropRun isSpace r) as [|x r'], t as [|y t']; cbn [hd_error] in Ht;
      try discriminate; try reflexivity.
    injection Ht as ->. exact Hst. }
  destruct (takeRun_exact isSpace (w :: W) t HW Ht') as [-> ->].
  do 2 f_equal; rewrite <- ?app_assoc; cbn [app]; rewrite <- ?app_assoc; reflexivity.
Qed.

(** ** Where no reference of another rule starts *)

Lemma catalogOcc_needs_scheme (fn mv s : bytes) :
  strings.HasPrefix s (b "https:") = false -> catalogOcc fn mv s = None.
Proof.
  intros H. unfold catalogOcc, catalogRefAt. cbv zeta.
  destruct (strings.HasPrefix s (catalogURL ++ fn ++ b "/")) eqn:Hp; [|reflexivity].
  exfalso.
  change (catalogURL ++ fn ++ b "/")
    with (b "https:" ++ (skipn 6 catalogURL ++ fn ++ b "/")) in Hp.
  rewrite HasPrefix_app_iff in Hp. apply andb_prop in Hp as [Hp _]. congruence.
Qed.

Lemma HasPrefix_head (s l : bytes) (c : ascii) :
  match s with x :: _ => x <> c | [] => True end ->
  strings.HasPrefix s (c :: l) = false.
Proof.
  destruct s as [|x s]; [reflexivity|]. cbn [strings.HasPrefix]. intros H.
  destruct (ascii_dec c x); [congruence | reflexivity].
Qed.

(** The scheme does not start inside a text without [h]. *)
Lemma no_scheme_without_h (u t : bytes) :
  u <> [] -> ~ In "h"%char u -> strings.HasPrefix (u ++ t) (b "https:") = false.
Proof.
  intros Hu Hh. destruct u as [|x u]; [congruence|].
  apply HasPrefix_head. cbn [app]. intros ->. apply Hh. left. reflexivity.
Qed.

(** Inside a package reference, pinned or not, and the white space after
    it, the scheme of a URL starts at the start only. *)
Lemma no_scheme_in_reference (fr : functionRelease) (Z W t : bytes) (w : ascii) :
  ~ In ":"%char Z -> forallb isSpace (w :: W) = true ->
  forall u1 u2,
    u1 <> [] -> u2 <> [] ->
    (catalogGit ++ exampleSubPath fr ++ b "/") ++ Z ++ w :: W = u1 ++ u2 ->
    strings.HasPrefix (u2 ++ t) (b "https:") = false.
Proof.
  intros HZ HW u1 u2 Hu1 Hu2 E.
  cbn [forallb] in HW. apply andb_prop in HW as [Hw HW].
  apply app_eq_app in E as [l [[E1 E2] | [E1 E2]]].
  - destruct l as [|d l].
    + rewrite E2. cbn [app]. rewrite <- app_assoc. cbn [app].
      apply https_inside; [exact HZ | apply space_not_https; exact Hw].
    + pose proof (@prefix_no_overlap fr (length u1) ((Z ++ w :: W) ++ t)) as N.
      rewrite E1 in N. rewrite skipn_app_exact in N.
      rewrite E2, <- app_assoc. apply N.
      * destruct u1; [congruence | cbn [length]; lia].
      * rewrite length_app. cbn [length]. lia.
  - apply app_eq_app in E2 as [l' [[E3 E4] | [E3 E4]]].
    + rewrite E4, <- app_assoc. cbn [app].
      apply https_inside; [|apply space_not_https; exact Hw].
      intros Hc. apply HZ. rewrite E3. apply in_or_app. right. exact Hc.
    + destruct l' as [|e l'].
      * cbn [app] in E4. rewrite <- E4. cbn [app].
        apply (@https_inside [] _ w); [intros [] | apply space_not_https; exact Hw].
      * cbn [app] in E4. injection E4 as _ E4.
        destruct u2 as [|w2 u2]; [congruence|].
        rewrite E4, forallb_app in HW. apply andb_prop in HW as [_ HW].
        cbn [forallb] in HW. apply andb_prop in HW as [Hw2 _].
        cbn [app].
        apply (@https_inside [] _ w2); [intros [] | apply space_not_https; exact Hw2].
Qed.

(** L1: the catalog rule goes through a package reference. *)
Lemma catalog_through_reference (fr : functionRelease) (fn mv Z W t : bytes) (w : ascii) :
  ~ In ":"%char Z -> forallb isSpace (w :: W) = true ->
  scan (catalogOcc fn mv) (((catalogGit ++ exampleSubPath fr ++ b "/") ++ Z ++ w :: W) ++ t)
  = ((catalogGit ++ exampleSubPath fr ++ b "/") ++ Z ++ w :: W)
    ++ scan (catalogOcc fn mv) t.
Proof.
  intros HZ HW. apply scan_copy; [apply catalogOcc_suffix|].
  intros u1 u2 E Hu2. destruct u1 as [|c u1].
  - cbn [app] in E. subst u2. unfold catalogOcc, catalogRefAt. cbv zeta.
    rewrite <- !app_assoc.
    replace (strings.HasPrefix _ (catalogURL ++ fn ++ b "/")) with false; [reflexivity|].
    symmetry. reflexivity.
  - apply catalogOcc_needs_scheme.
    apply (@no_scheme_in_reference fr Z W t w HZ HW (c :: u1) u2);
      [discriminate | exact Hu2 | exact E].
Qed.

Lemma pkgOcc_not_catalog (fr : functionRelease) (X : bytes) :
  pkgOcc fr (catalogURL ++ X) = None.
Proof.
  unfold pkgOcc, pkgRefAt. cbv zeta.
  replace (strings.HasPrefix (catalogURL ++ X) (catalogGit ++ exampleSubPath fr ++ b "/"))
    with false; [reflexivity|].
  symmetry. reflexivity.
Qed.

Lemma catalogURL_no_overlap (i : nat) (t : bytes) :
  1 <= i -> i < length catalogURL ->
  strings.HasPrefix (skipn i catalogURL ++ t) (b "https:") = false.
Proof.
  intros H1 H2. destruct i as [|i]; [lia|].
  do 23 (destruct i as [|i]; [reflexivity|]). vm_compute in H2. lia.
Qed.

Lemma wordDash_no_colon (n : bytes) : forallb isWordDash n = true -> ~ In ":"%char n.
Proof. apply forallb_not_In. exact wordDash_not_colon. Qed.

(** L2: the package rule goes through a catalog URL of the function and a
    text without [h] after it. *)
Lemma pkg_through_catalog (fr : functionRelease) (fn X t : bytes) :
  forallb isWordDash fn = true -> ~ In "h"%char X ->
  scan (pkgOcc fr) ((catalogURL ++ fn ++ "/"%char :: X) ++ t)
  = (catalogURL ++ fn ++ "/"%char :: X) ++ scan (pkgOcc fr) t.
Proof.
  intros Hfn HX. apply scan_copy; [apply pkgOcc_suffix|].
  intros u1 u2 E Hu2. destruct u1 as [|c u1].
  - cbn [app] in E. subst u2. rewrite <- app_assoc. apply pkgOcc_not_catalog.
  - apply pkgOcc_needs_scheme.
    apply app_eq_app in E as [l [[E1 E2] | [E1 E2]]].
    + destruct l as [|d l].
      * rewrite E2. cbn [app]. rewrite <- app_assoc. cbn [app].
        apply https_inside; [apply wordDash_no_colon; exact Hfn|].
        cbn. intuition discriminate.
      * pose proof (@catalogURL_no_overlap (length (c :: u1))
                      ((fn ++ "/"%char :: X) ++ t)) as N.
        rewrite E1 in N. rewrite skipn_app_exact in N.
        rewrite E2, <- app_assoc. apply N.
        -- cbn [length]. lia.
        -- rewrite length_app. cbn [length]. lia.
    + apply app_eq_app in E2 as [l' [[E3 E4] | [E3 E4]]].
      * rewrite E4, <- app_assoc. cbn [app].
        apply https_inside; [|cbn; intuition discriminate].
        apply wordDash_no_colon. rewrite E3, forallb_app in Hfn.
        apply andb_prop in Hfn as [_ Hfn]. exact Hfn.
      * destruct l' as [|e l'].
        -- cbn [app] in E4. rewrite <- E4. cbn [app].
           apply (@https_inside [] _ "/"%char); [intros [] | cbn; intuition discriminate].
        -- cbn [app] in E4. injection E4 as _ E4.
           apply no_scheme_without_h; [exact Hu2|].
           intros Hin. apply HX. rewrite E4. apply in_or_app. right. exact Hin.
Qed.

Lemma pkgOcc_needs_slashes (fr : functionRelease) (s : bytes) :
  strings.HasPrefix s (b "https:/") = false -> pkgOcc fr s = None.
Proof.
  intros H. unfold pkgOcc, pkgRefAt. cbv zeta.
  destruct (strings.HasPrefix s (catalogGit ++ exampleSubPath fr ++ b "/")) eqn:Hp;
    [|reflexivity].
  exfalso.
  change (catalogGit ++ exampleSubPath fr ++ b "/")
    with (b "https:/" ++ (skipn 7 catalogGit ++ exampleSubPath fr ++ b "/")) in Hp.
  rewrite HasPrefix_app_iff in Hp. apply andb_prop in Hp as [Hp _]. congruence.
Qed.

(** The scheme and its slash do not start in a text without colon that a
    separator and a byte other than a slash follow. *)
Lemma scheme_slash_inside (u t : bytes) (y z : ascii) :
  ~ In ":"%char u -> isSep y = true -> z <> "/"%char ->
  strings.HasPrefix (u ++ y :: z :: t) (b "https:/") = false.
Proof.
  intros Hu Hy Hz.
  destruct (strings.HasPrefix (u ++ y :: z :: t) (b "https:/")) eqn:H;
    [exfalso|reflexivity].
  apply HasPrefix_split in H. revert H.
  generalize (skipn (length (b "https:/")) (u ++ y :: z :: t)). intros r H.
  cbn [b list_ascii_of_string app] in H.
  do 5 (destruct u as [|? u]; cbn [app] in H;
        [injection H as H _; subst y; discriminate Hy | injection H as _ H]).
  destruct u as [|c5 u]; cbn [app] in H.
  - injection H as _ H _. congruence.
  - injection H as H _. subst. apply Hu. cbn. tauto.
Qed.

(** L3: the package rule goes through a tag reference, rewritten or
    not. *)
Lemma pkg_through_tag (fr : functionRelease) (fn X t : bytes) (sep c : ascii) :
  forallb isWordDash fn = true -> isSep sep = true ->
  c <> "/"%char -> ~ In "h"%char (c :: X) ->
  scan (pkgOcc fr) ((fn ++ sep :: c :: X) ++ t)
  = (fn ++ sep :: c :: X) ++ scan (pkgOcc fr) t.
Proof.
  intros Hfn Hsep Hc HX. apply scan_copy; [apply pkgOcc_suffix|].
  intros u1 u2 E Hu2.
  assert (Hs : sep <> "h"%char)
    by (destruct (isSep_cases _ Hsep) as [-> | ->]; discriminate).
  apply app_eq_app in E as [l [[E1 E2] | [E1 E2]]].
  - apply pkgOcc_needs_slashes. rewrite E2, <- app_assoc. cbn [app].
    apply scheme_slash_inside; [|exact Hsep | exact Hc].
    apply wordDash_no_colon. rewrite E1, forallb_app in Hfn.
    apply andb_prop in Hfn as [_ Hfn]. exact Hfn.
  - destruct l as [|e l].
    + cbn [app] in E2. rewrite <- E2. apply pkgOcc_needs_slashes. cbn [app].
      apply (@scheme_slash_inside [] _ sep c); [intros [] | exact Hsep | exact Hc].
    + cbn [app] in E2. injection E2 as _ E2. apply pkgOcc_needs_scheme.
      apply no_scheme_without_h; [exact Hu2|].
      intros Hin. apply HX. rewrite E2. apply in_or_app. right. exact Hin.
Qed.

Lemma tagRefAt_inv (fn s rest : bytes) (sep : ascii) :
  forallb isWordDash fn = true ->
  tagRefAt fn s = Some (sep, rest) ->
  exists z, dropRun isWordDash s = sep :: z /\ isSep sep = true
            /\ tokenRest z = Some rest /\ takeRun isWordDash s = fn.
Proof.
  intros Hfn. rewrite tagRefAt_name by exact Hfn.
  destruct (beq (takeRun isWordDash s) fn) eqn:Hb; [|discriminate].
  apply beq_true in Hb.
  destruct (dropRun isWordDash s) as [|y z]; [discriminate|].
  destruct (isSep y) eqn:Hy; [|discriminate].
  destruct (tokenRest z) as [r|] eqn:Hz; [|discriminate].
  intros [= <- <-]. exists z. repeat split; assumption.
Qed.

(** A name that does not start with [unstable] and is followed by a byte
    that is neither of a name nor a dot does not start with a version
    token. *)
Lemma tokenRest_name_none (n X : bytes) (y : ascii) :
  forallb isWordDash n = true ->
  strings.HasPrefix n (b "unstable") = false ->
  isWordDash y = false -> y <> "."%char ->
  tokenRest (n ++ y :: X) = None.
Proof.
  intros Hn Hu Hy Hdot. unfold tokenRest.
  rewrite HasPrefix_app_stop, Hu.
  2:{ intros Hin. cbn in Hin.
      repeat (destruct Hin as [<- | Hin]; [discriminate Hy|]). exact Hin. }
  destruct n as [|c n]; cbn [app afterChar].
  - destruct (ascii_dec "v" y) as [<- |]; [discriminate Hy | reflexivity].
  - destruct (ascii_dec "v" c) as [<- |]; [|reflexivity].
    cbn [forallb] in Hn. apply andb_prop in Hn as [_ Hn].
    assert (Hd : isDigit y = false).
    { destruct (isDigit y) eqn:Hd; [|reflexivity].
      apply digit_tokenChar in Hd. unfold isTokenChar in Hd.
      apply orb_prop in Hd as [Hd | Hd].
      - unfold isWordDash in Hy. rewrite Hd in Hy. discriminate Hy.
      - destruct (ascii_dec y "."); [contradiction | discriminate Hd]. }
    rewrite dropRun_app_stop by exact Hd.
    pose proof (takeRun_dropRun isDigit n) as E.
    assert (Hr : forallb isWordDash (dropRun isDigit n) = true).
    { rewrite <- E, forallb_app in Hn. apply andb_prop in Hn as [_ Hn]. exact Hn. }
    destruct (dropRun isDigit n) as [|d r]; cbn [app afterChar].
    + destruct (ascii_dec "." y); [congruence | reflexivity].
    + destruct (ascii_dec "." d) as [<- |]; [|reflexivity].
      cbn [forallb] in Hr. apply andb_prop in Hr as [Hr _]. discriminate Hr.
Qed.

Ltac tag_position H :=
  let z := fresh "z" in
  let Hd := fresh "Hd" in
  let Hsep := fresh "Hsep" in
  let Ht := fresh "Ht" in
  apply tagRefAt_inv in H as (z & Hd & Hsep & Ht & _); [|assumption];
  vm_compute in Hd;
  first [ discriminate Hd
        | injection Hd as <- <-;
          first [ vm_compute in Hsep; discriminate Hsep
                | congruence
                | vm_compute in Ht; discriminate Ht ] ].

(** No tag reference starts inside the prefix of a package reference
    when no version token follows the prefix. *)
Lemma tag_not_in_prefix (fr : functionRelease) (fn tail : bytes) (i : nat) :
  forallb isWordDash fn = true ->
  tokenRest tail = None ->
  i < length (catalogGit ++ exampleSubPath fr ++ b "/") ->
  tagRefAt fn (skipn i (catalogGit ++ exampleSubPath fr ++ b "/") ++ tail) = None.
Proof.
  intros Hfn Htail Hi.
  destruct (tagRefAt fn _) as [[sep rest]|] eqn:H; [exfalso|reflexivity].
  revert H. unfold exampleSubPath in *. destruct (IsContrib fr).
  - do 83 (destruct i as [|i]; [intros H; tag_position H|]).
    vm_compute in Hi. lia.
  - do 75 (destruct i as [|i]; [intros H; tag_position H|]).
    vm_compute in Hi. lia.
Qed.

Lemma tag_not_at (fn s : bytes) (y : ascii) :
  isName fn = true -> isWordDash y = false -> tagRefAt fn (y :: s) = None.
Proof.
  intros Hfn Hy. apply isName_parts in Hfn as [Hne Hfn].
  destruct fn as [|c fn]; [congruence|].
  unfold tagRefAt. cbn [strings.HasPrefix].
  destruct (ascii_dec c y) as [-> |]; [|reflexivity].
  cbn [forallb] in Hfn. apply andb_prop in Hfn as [Hc _]. congruence.
Qed.

Lemma dropRun_all (p : ascii -> bool) (a : bytes) :
  forallb p a = true -> dropRun p a = [].
Proof.
  intros H. pose proof (dropRun_app_all p a [] H) as E.
  rewrite app_nil_r in E. exact E.
Qed.

Lemma tag_through_spaces (fn latest W t : bytes) :
  isName fn = true -> forallb isSpace W = true ->
  scan (tagOcc fn latest) (W ++ t) = W ++ scan (tagOcc fn latest) t.
Proof.
  intros Hfn HW. apply scan_copy; [apply tagOcc_suffix|].
  intros u1 u2 E Hu2. destruct u2 as [|y u2]; [congruence|].
  unfold tagOcc. cbn [app]. rewrite tag_not_at; [reflexivity | exact Hfn|].
  rewrite E, forallb_app in HW. apply andb_prop in HW as [_ HW].
  cbn [forallb] in HW. apply andb_prop in HW as [HW _].
  destruct (isWordDash y) eqn:Hy; [|reflexivity].
  apply wordDash_space in Hy. congruence.
Qed.

(** The tag rule goes through the start of a package reference, up to
    the end of the example name. *)
Lemma tag_through_name (fr : functionRelease) (fn latest n X : bytes) (y : ascii) :
  isName fn = true ->
  forallb isWordDash n = true ->
  strings.HasPrefix n (b "unstable") = false ->
  isWordDash y = false -> isSep y = false -> y <> "."%char ->
  scan (tagOcc fn latest) (((catalogGit ++ exampleSubPath fr ++ b "/") ++ n) ++ y :: X)
  = ((catalogGit ++ exampleSubPath fr ++ b "/") ++ n)
    ++ scan (tagOcc fn latest) (y :: X).
Proof.
  intros Hfn Hn Hu Hy Hsep Hdot. pose proof (isName_parts _ Hfn) as [Hne Hw].
  apply scan_copy; [apply tagOcc_suffix|].
  intros u1 u2 E Hu2. unfold tagOcc.
  replace (tagRefAt fn (u2 ++ y :: X)) with (@None (ascii * bytes)); [reflexivity|].
  symmetry. apply app_eq_app in E as [l [[E1 E2] | [E1 E2]]].
  - destruct l as [|d l].
    + cbn [app] in E2. subst u2. rewrite tagRefAt_name by exact Hw.
      rewrite dropRun_app_stop, (dropRun_all _ _ Hn) by exact Hy. cbn [app].
      rewrite Hsep. destruct (beq _ fn); reflexivity.
    + rewrite E2, <- app_assoc.
      pose proof (@tag_not_in_prefix fr fn (n ++ y :: X) (length u1) Hw
                    (tokenRest_name_none n X Hn Hu Hy Hdot)) as N.
      rewrite E1 in N. rewrite skipn_app_exact in N. apply N.
      rewrite length_app. cbn [length]. lia.
  - rewrite tagRefAt_name by exact Hw.
    assert (Hu2w : forallb isWordDash u2 = true).
    { rewrite E2, forallb_app in Hn. apply andb_prop in Hn as [_ Hn]. exact Hn. }
    rewrite dropRun_app_stop, (dropRun_all _ _ Hu2w) by exact Hy. cbn [app].
    rewrite Hsep. destruct (beq _ fn); reflexivity.
Qed.

Lemma isSpace_start (w : ascii) (s : bytes) :
  isSpace w = true -> startsWithDigit (w :: s) = false.
Proof.
  intros H. cbn [startsWithDigit]. destruct (isDigit w) eqn:Hd; [|reflexivity].
  assert (Hw : isWordDash w = true)
    by (unfold isWordDash, isWord; rewrite Hd; reflexivity).
  apply wordDash_space in Hw. congruence.
Qed.

Lemma space_not_name (w : ascii) :
  isSpace w = true -> isWordDash w = false /\ isSep w = false /\ w <> "."%char.
Proof.
  intros H. split; [|split].
  - destruct (isWordDash w) eqn:Hw; [|reflexivity]. apply wordDash_space in Hw. congruence.
  - destruct (isSep w) eqn:Hs; [|reflexivity].
    destruct (isSep_cases _ Hs) as [-> | ->]; discriminate H.
  - intros ->. discriminate H.
Qed.

(** L4: the tag rule goes through a package reference and the white
    space after it. *)
Lemma tag_through_reference (fr : functionRelease) (fn latest n W t : bytes) (w : ascii) :
  isName fn = true ->
  forallb isWordDash n = true ->
  strings.HasPrefix n (b "unstable") = false ->
  forallb isSpace (w :: W) = true ->
  scan (tagOcc fn latest) (((catalogGit ++ exampleSubPath fr ++ b "/") ++ n ++ w :: W) ++ t)
  = ((catalogGit ++ exampleSubPath fr ++ b "/") ++ n ++ w :: W)
    ++ scan (tagOcc fn latest) t.
Proof.
  intros Hfn Hn Hu HW. pose proof HW as HW'.
  cbn [forallb] in HW'. apply andb_prop in HW' as [Hw _].
  destruct (space_not_name _ Hw) as (H1 & H2 & H3).
  replace (((catalogGit ++ exampleSubPath fr ++ b "/") ++ n ++ w :: W) ++ t)
    with (((catalogGit ++ exampleSubPath fr ++ b "/") ++ n) ++ w :: (W ++ t))
    by (rewrite <- !app_assoc; reflexivity).
  rewrite tag_through_name by assumption.
  change (w :: W ++ t) with ((w :: W) ++ t).
  rewrite tag_through_spaces by assumption.
  rewrite <- !app_assoc. reflexivity.
Qed.

(** And through a pinned one: the name and the version of the pin are a
    tag reference that the rule writes back as it is. *)
Lemma tag_through_pinned (fr : functionRelease) (fn latest n W t : bytes) (w : ascii) :
  isName fn = true ->
  isPatchForm latest = true ->
  forallb isWordDash n = true ->
  strings.HasPrefix n (b "unstable") = false ->
  forallb isSpace (w :: W) = true ->
  scan (tagOcc fn latest)
    (((catalogGit ++ exampleSubPath fr ++ b "/") ++ n
      ++ "@"%char :: fn ++ "/"%char :: latest ++ w :: W) ++ t)
  = ((catalogGit ++ exampleSubPath fr ++ b "/") ++ n
     ++ "@"%char :: fn ++ "/"%char :: latest ++ w :: W)
    ++ scan (tagOcc fn latest) t.
Proof.
  intros Hfn Hl Hn Hu HW. pose proof HW as HW'.
  cbn [forallb] in HW'. apply andb_prop in HW' as [Hw _].
  replace (((catalogGit ++ exampleSubPath fr ++ b "/") ++ n
            ++ "@"%char :: fn ++ "/"%char :: latest ++ w :: W) ++ t)
    with (((catalogGit ++ exampleSubPath fr ++ b "/") ++ n)
          ++ "@"%char :: (fn ++ "/"%char :: latest ++ (w :: W) ++ t)).
  2:{ rewrite <- !app_assoc. cbn [app]. rewrite <- !app_assoc. cbn [app].
      rewrite <- !app_assoc. reflexivity. }
  rewrite tag_through_name; try assumption; try reflexivity; try discriminate.
  rewrite (@scan_eq (tagOcc fn latest) (@tagOcc_suffix fn latest)
             ("@"%char :: fn ++ "/"%char :: latest ++ (w :: W) ++ t)).
  unfold tagOcc at 1. rewrite tag_not_at by (exact Hfn || reflexivity).
  rewrite (@scan_eq (tagOcc fn latest) (@tagOcc_suffix fn latest)
             (fn ++ "/"%char :: latest ++ (w :: W) ++ t)).
  unfold tagOcc at 1. unfold tagRefAt.
  rewrite HasPrefix_app, skipn_app_exact. cbn [isSep].
  replace (isSep "/") with true by reflexivity.
  rewrite patchForm_token by (exact Hl || (apply isSpace_start; exact Hw)).
  rewrite tag_through_spaces by assumption.
  rewrite <- !app_assoc. cbn [app]. rewrite <- !app_assoc. cbn [app].
  rewrite <- ?app_assoc. reflexivity.
Qed.

(** ** No reference of another rule appears *)

Lemma tokenChar_not_at (c : ascii) : isTokenChar c = true -> c <> "@"%char.
Proof. intros H ->. discriminate H. Qed.

Lemma wordDash_no_at (n : bytes) : forallb isWordDash n = true -> ~ In "@"%char n.
Proof. apply forallb_not_In. exact wordDash_not_at. Qed.

Lemma tokenChars_no_at (n : bytes) : forallb isTokenChar n = true -> ~ In "@"%char n.
Proof. apply forallb_not_In. exact tokenChar_not_at. Qed.

Lemma tokenChars_no_colon (n : bytes) : forallb isTokenChar n = true -> ~ In ":"%char n.
Proof. apply forallb_not_In. exact tokenChar_not_colon. Qed.

(** N4: pinning makes no tag reference start. *)
Lemma pinned_no_new_tag (fr : functionRelease) (fn latest s : bytes) :
  forallb isWordDash fn = true ->
  tagOcc fn latest s = None ->
  tagOcc fn latest (scan (pkgOcc fr) s) = None.
Proof.
  intros Hfn Hs.
  destruct (tagOcc fn latest (scan (pkgOcc fr) s)) as [[out rest]|] eqn:Ho;
    [exfalso|reflexivity].
  apply tagOcc_parts in Ho as (sep & c & tok & Hsep & _ & Hch & _ & E & _ & _ & Htot).
  assert (Hp : strings.HasPrefix (scan (pkgOcc fr) s) (fn ++ sep :: c :: tok) = true)
    by (rewrite E; apply HasPrefix_app).
  apply (@pinned_prefix fr (length s)) in Hp; [|lia|].
  - apply HasPrefix_split in Hp. apply (Htot (skipn (length (fn ++ sep :: c :: tok)) s)).
    rewrite <- Hp. exact Hs.
  - intros Hin. apply in_app_or in Hin as [Hin | [Hin | Hin]].
    + exact (wordDash_no_at _ Hfn Hin).
    + subst sep. discriminate Hsep.
    + exact (tokenChars_no_at _ Hch Hin).
Qed.

(** N2: pinning makes no catalog URL start. *)
Lemma pinned_no_new_catalog (fr : functionRelease) (fn mv s : bytes) :
  forallb isWordDash fn = true ->
  catalogOcc fn mv s = None ->
  catalogOcc fn mv (scan (pkgOcc fr) s) = None.
Proof.
  intros Hfn Hs.
  destruct (catalogOcc fn mv (scan (pkgOcc fr) s)) as [[out rest]|] eqn:Ho;
    [exfalso|reflexivity].
  apply catalogOcc_parts in Ho as (c & tok & _ & Hch & _ & E & _ & _ & Htot).
  assert (Hp : strings.HasPrefix (scan (pkgOcc fr) s)
                 (catalogURL ++ fn ++ "/"%char :: c :: tok) = true)
    by (rewrite E; apply HasPrefix_app).
  apply (@pinned_prefix fr (length s)) in Hp; [|lia|].
  - apply HasPrefix_split in Hp.
    apply (Htot (skipn (length (catalogURL ++ fn ++ "/"%char :: c :: tok)) s)).
    rewrite <- Hp. exact Hs.
  - intros Hin. apply in_app_or in Hin as [Hin | Hin].
    + cbn in Hin. repeat (destruct Hin as [Hin | Hin]; [discriminate Hin|]). exact Hin.
    + apply in_app_or in Hin as [Hin | [Hin | Hin]].
      * exact (wordDash_no_at _ Hfn Hin).
      * discriminate Hin.
      * exact (tokenChars_no_at _ Hch Hin).
Qed.

Lemma HasPrefix_cases (q X m : bytes) :
  strings.HasPrefix (q ++ X) m = true ->
  strings.HasPrefix q m = true
  \/ exists m3, m3 <> [] /\ m = q ++ m3 /\ strings.HasPrefix X m3 = true.
Proof.
  revert m; induction q as [|x q IH]; intros m H.
  - destruct m as [|c m]; [left; reflexivity|].
    right. exists (c :: m). repeat split; [discriminate | exact H].
  - destruct m as [|c m]; [left; reflexivity|].
    cbn [app strings.HasPrefix] in H |- *.
    destruct (ascii_dec c x) as [-> |]; [|discriminate H].
    destruct (IH m H) as [Hq | (m3 & Hm3 & -> & HX)]; [left; exact Hq|].
    right. exists m3. repeat split; assumption.
Qed.

(** A package reference is one whatever follows the first white space
    after the name. *)
Lemma pkgOcc_of_prefix (fr : functionRelease) (n r : bytes) (w : ascii) :
  In n (nameChoices (exampleNames (Examples fr))) -> isSpace w = true ->
  pkgOcc fr (((catalogGit ++ exampleSubPath fr ++ b "/") ++ n) ++ w :: r) <> None.
Proof.
  intros Hin Hw. unfold pkgOcc, pkgRefAt. cbv zeta.
  rewrite <- app_assoc. rewrite HasPrefix_app, skipn_app_exact.
  destruct (find _ (nameChoices (exampleNames (Examples fr)))) as [n'|] eqn:F;
    [discriminate|].
  apply find_none with (x := n) in F; [|exact Hin].
  rewrite HasPrefix_app, skipn_app_exact in F. cbn [startsWithSpace andb] in F.
  congruence.
Qed.

Lemma pkgOcc_prefix (fr : functionRelease) (s out rest : bytes) :
  pkgOcc fr s = Some (out, rest) ->
  exists n w r,
    In n (nameChoices (exampleNames (Examples fr))) /\ isSpace w = true
    /\ s = ((catalogGit ++ exampleSubPath fr ++ b "/") ++ n) ++ w :: r.
Proof.
  intros H. apply pkgOcc_shape in H as (n & r & Hin & Hs & Hsp & _ & _).
  destruct r as [|w r]; [discriminate Hsp|].
  exists n, w, r. repeat split; try assumption.
  rewrite Hs, <- !app_assoc. reflexivity.
Qed.

Lemma no_catalog_in_reference (fr : functionRelease) (n w0 Y : bytes) (w : ascii) :
  forallb isWordDash n = true -> isSpace w = true ->
  ((catalogGit ++ exampleSubPath fr ++ b "/") ++ n) ++ [w] = w0 ++ catalogURL ++ Y ->
  False.
Proof.
  intros Hn Hw E. destruct w0 as [|x w0].
  - cbn [app] in E.
    assert (H : strings.HasPrefix
                  (((catalogGit ++ exampleSubPath fr ++ b "/") ++ n) ++ [w]) catalogURL
                = true) by (rewrite E; apply HasPrefix_app).
    rewrite <- !app_assoc in H. discriminate H.
  - assert (H : strings.HasPrefix ((catalogURL ++ Y) ++ []) (b "https:") = false).
    { apply (@no_scheme_in_reference fr n [] [] w (wordDash_no_colon _ Hn)
               ltac:(cbn [forallb]; rewrite Hw; reflexivity) (x :: w0) (catalogURL ++ Y)).
      - discriminate.
      - discriminate.
      - rewrite <- E, <- !app_assoc. reflexivity. }
    rewrite <- app_assoc in H. discriminate H.
Qed.

(** N1: the catalog rule makes no package reference start. *)
Lemma catalog_no_new_reference (fr : functionRelease) (fn mv s : bytes) :
  forallb (forallb isWordDash) (exampleNames (Examples fr)) = true ->
  pkgOcc fr s = None ->
  pkgOcc fr (scan (catalogOcc fn mv) s) = None.
Proof.
  intros Hnames Hs.
  destruct (pkgOcc fr (scan (catalogOcc fn mv) s)) as [[out rest]|] eqn:Ho;
    [exfalso|reflexivity].
  apply pkgOcc_prefix in Ho as (n & w & r & Hin & Hw & E).
  pose proof (choices_wordDash _ Hnames n Hin) as Hn.
  destruct (@scan_first (catalogOcc fn mv) (@catalogOcc_suffix fn mv) s)
    as [Hid | (w0 & z & out' & rest' & Es & Hz & Eu)].
  { rewrite Hid in E. rewrite E in Hs. exact (pkgOcc_of_prefix fr n r w Hin Hw Hs). }
  apply catalogOcc_parts in Hz as (c & tok & _ & _ & _ & Ez & Eout & _ & _).
  subst out' z.
  assert (Hp : strings.HasPrefix
                 ((w0 ++ catalogURL ++ fn ++ b "/")
                  ++ (mv ++ scan (catalogOcc fn mv) rest'))
                 (((catalogGit ++ exampleSubPath fr ++ b "/") ++ n) ++ [w]) = true).
  { replace ((w0 ++ catalogURL ++ fn ++ b "/") ++ (mv ++ scan (catalogOcc fn mv) rest'))
      with (scan (catalogOcc fn mv) s)
      by (rewrite Eu, <- !app_assoc; cbn [app]; rewrite <- ?app_assoc; reflexivity).
    rewrite E.
    replace ((((catalogGit ++ exampleSubPath fr ++ b "/") ++ n) ++ w :: r))
      with ((((catalogGit ++ exampleSubPath fr ++ b "/") ++ n) ++ [w]) ++ r)
      by (rewrite <- !app_assoc; reflexivity).
    apply HasPrefix_app. }
  apply HasPrefix_cases in Hp as [Hq | (m3 & Hm3 & Em & _)].
  - apply HasPrefix_split in Hq. revert Hq.
    generalize (skipn (length (((catalogGit ++ exampleSubPath fr ++ b "/") ++ n) ++ [w]))
                      (w0 ++ catalogURL ++ fn ++ b "/")).
    intros k Hq.
    apply (pkgOcc_of_prefix fr n (k ++ (c :: tok) ++ rest') w Hin Hw).
    rewrite <- Hs. f_equal. rewrite Es.
    replace (w0 ++ (catalogURL ++ fn ++ "/"%char :: c :: tok) ++ rest')
      with ((w0 ++ catalogURL ++ fn ++ b "/") ++ (c :: tok) ++ rest')
      by (rewrite <- !app_assoc; cbn [app]; rewrite <- ?app_assoc; reflexivity).
    rewrite Hq. rewrite <- !app_assoc. reflexivity.
  - apply (@no_catalog_in_reference fr n w0 (fn ++ b "/" ++ m3) w Hn Hw).
    rewrite Em, <- !app_assoc. reflexivity.
Qed.

Lemma prefix_no_v (fr : functionRelease) :
  ~ In "v"%char (catalogGit ++ exampleSubPath fr ++ b "/").
Proof.
  apply forallb_not_In with (p := fun c => if ascii_dec c "v" then false else true).
  - intros x H ->. discriminate H.
  - unfold exampleSubPath. destruct (IsContrib fr); vm_compute; reflexivity.
Qed.

(** A text that starts with a name and a byte that is not in [l] starts
    with [l] only if the name does. *)
Lemma HasPrefix_name_end (l : bytes) :
  forall n X (y : ascii),
    ~ In y l -> strings.HasPrefix (l ++ X) (n ++ [y]) = true ->
    exists n2, n = l ++ n2.
Proof.
  induction l as [|c l IH]; intros n X y Hy H.
  - exists n. reflexivity.
  - destruct n as [|d n]; cbn [app strings.HasPrefix] in H.
    + destruct (ascii_dec y c) as [-> |]; [|discriminate H].
      exfalso. apply Hy. left. reflexivity.
    + destruct (ascii_dec d c) as [-> |]; [|discriminate H].
      destruct (IH n X y) as (n2 & ->); [|exact H|].
      * intros Hin. apply Hy. right. exact Hin.
      * exists n2. reflexivity.
Qed.

Lemma patchForm_parts (latest : bytes) :
  isPatchForm latest = true ->
  exists tok, latest = "v"%char :: tok
              /\ In "."%char latest
              /\ forallb isTokenChar latest = true
              /\ ~ In "h"%char latest.
Proof.
  intros Hp. pose proof (patchForm_token latest [] Hp eq_refl) as Ht.
  apply tokenRest_token in Ht as (c & tok & E & _ & Hch & Hh & _ & _).
  rewrite !app_nil_r in E. rewrite <- E in Hch, Hh.
  unfold isPatchForm in Hp.
  destruct (afterChar "v" latest) as [s1|] eqn:H1; [|discriminate].
  apply afterChar_Some in H1.
  destruct (afterChar "." (dropRun isDigit s1)) as [s2|] eqn:H2; [|discriminate].
  apply afterChar_Some in H2.
  exists s1. split; [exact H1|]. split; [|split; assumption].
  rewrite H1. right. rewrite <- (takeRun_dropRun isDigit s1), H2.
  apply in_or_app. right. left. reflexivity.
Qed.

Lemma tokenChar_space (c : ascii) : isTokenChar c = true -> isSpace c = false.
Proof.
  intros H. apply tokenChar_noSpace in H. destruct (isSpace c); [discriminate H | reflexivity].
Qed.

(** N3: the tag rule makes no package reference start. *)
Lemma tag_no_new_reference (fr : functionRelease) (fn latest s : bytes) :
  forallb (forallb isWordDash) (exampleNames (Examples fr)) = true ->
  isPatchForm latest = true ->
  pkgOcc fr s = None ->
  pkgOcc fr (scan (tagOcc fn latest) s) = None.
Proof.
  intros Hnames Hl Hs.
  destruct (pkgOcc fr (scan (tagOcc fn latest) s)) as [[out rest]|] eqn:Ho;
    [exfalso|reflexivity].
  apply pkgOcc_prefix in Ho as (n & w & r & Hin & Hw & E).
  pose proof (choices_wordDash _ Hnames n Hin) as Hn.
  destruct (patchForm_parts _ Hl) as (ltok & El & Hdot & Hlch & _).
  destruct (@scan_first (tagOcc fn latest) (@tagOcc_suffix fn latest) s)
    as [Hid | (w0 & z & out' & rest' & Es & Hz & Eu)].
  { rewrite Hid in E. rewrite E in Hs. exact (pkgOcc_of_prefix fr n r w Hin Hw Hs). }
  apply tagOcc_parts in Hz as (sep & c & tok & Hsep & _ & _ & _ & Ez & Eout & _ & _).
  subst out' z.
  assert (Hp : strings.HasPrefix
                 ((w0 ++ fn ++ [sep]) ++ (latest ++ scan (tagOcc fn latest) rest'))
                 (((catalogGit ++ exampleSubPath fr ++ b "/") ++ n) ++ [w]) = true).
  { replace ((w0 ++ fn ++ [sep]) ++ (latest ++ scan (tagOcc fn latest) rest'))
      with (scan (tagOcc fn latest) s)
      by (rewrite Eu, <- !app_assoc; cbn [app]; rewrite <- ?app_assoc; reflexivity).
    rewrite E.
    replace ((((catalogGit ++ exampleSubPath fr ++ b "/") ++ n) ++ w :: r))
      with ((((catalogGit ++ exampleSubPath fr ++ b "/") ++ n) ++ [w]) ++ r)
      by (rewrite <- !app_assoc; reflexivity).
    apply HasPrefix_app. }
  apply HasPrefix_cases in Hp as [Hq | (m3 & Hm3 & Em & Hm)].
  - apply HasPrefix_split in Hq. revert Hq.
    generalize (skipn (length (((catalogGit ++ exampleSubPath fr ++ b "/") ++ n) ++ [w]))
                      (w0 ++ fn ++ [sep])).
    intros k Hq.
    apply (pkgOcc_of_prefix fr n (k ++ (c :: tok) ++ rest') w Hin Hw).
    rewrite <- Hs. f_equal. rewrite Es.
    replace (w0 ++ (fn ++ sep :: c :: tok) ++ rest')
      with ((w0 ++ fn ++ [sep]) ++ (c :: tok) ++ rest')
      by (rewrite <- !app_assoc; cbn [app]; rewrite <- ?app_assoc; reflexivity).
    rewrite Hq. rewrite <- !app_assoc. reflexivity.
  - assert (Hsn : ~ In sep (n ++ [w])).
    { intros Hi. apply in_app_or in Hi as [Hi | [<- | []]].
      - rewrite forallb_forall in Hn. specialize (Hn _ Hi).
        rewrite (isSep_not_word _ Hsep) in Hn. discriminate Hn.
      - destruct (isSep_cases _ Hsep) as [-> | ->]; discriminate Hw. }
    assert (Em' : (catalogGit ++ exampleSubPath fr ++ b "/") ++ (n ++ [w])
                  = (w0 ++ fn) ++ sep :: m3).
    { rewrite app_assoc, Em, <- !app_assoc. reflexivity. }
    apply app_eq_app in Em' as [l [[E1 E2] | [E1 E2]]].
    + destruct l as [|d l].
      * cbn [app] in E2. apply Hsn. rewrite <- E2. left. reflexivity.
      * cbn [app] in E2. injection E2 as <- E2.
        destruct l as [|e l].
        -- cbn [app] in E2. subst m3.
           destruct (@HasPrefix_name_end latest n (scan (tagOcc fn latest) rest') w)
             as (n2 & En); [|exact Hm|].
           ++ intros Hi. rewrite forallb_forall in Hlch. specialize (Hlch _ Hi).
              apply tokenChar_space in Hlch. congruence.
           ++ rewrite En in Hn. rewrite forallb_forall in Hn.
              assert (Hd : isWordDash "." = true)
                by (apply Hn; apply in_or_app; left; exact Hdot).
              discriminate Hd.
        -- rewrite E2, El in Hm. cbn [app strings.HasPrefix] in Hm.
           destruct (ascii_dec e "v") as [-> |]; [|discriminate Hm].
           apply (prefix_no_v fr). rewrite E1. apply in_or_app. right. right. left.
           reflexivity.
    + apply Hsn. rewrite E2. apply in_or_app. right. left. reflexivity.
Qed.

(** ** The example rule commutes with the other two *)

Lemma choices_not_unstable (names : list bytes) (n : bytes) :
  forallb (fun n' => negb (strings.HasPrefix n' (b "unstable"))) names = true ->
  In n (nameChoices names) -> strings.HasPrefix n (b "unstable") = false.
Proof.
  intros H Hin. destruct names as [|a l].
  - destruct Hin as [<- | []]. reflexivity.
  - cbn [nameChoices] in Hin. rewrite forallb_forall in H. specialize (H _ Hin).
    apply negb_true_iff in H. exact H.
Qed.

Lemma scan_pkgs_tags_commute (fr : functionRelease) (s : bytes) :
  isName (FunctionName fr) = true ->
  forallb (forallb isWordDash) (exampleNames (Examples fr)) = true ->
  forallb (fun n => negb (strings.HasPrefix n (b "unstable")))
          (exampleNames (Examples fr)) = true ->
  isPatchForm (LatestPatchVersion fr) = true ->
  scan (pkgOcc fr) (scan (tagOcc (FunctionName fr) (LatestPatchVersion fr)) s)
  = scan (tagOcc (FunctionName fr) (LatestPatchVersion fr)) (scan (pkgOcc fr) s).
Proof.
  intros Hn Hnames Hun Hl.
  pose proof (isName_parts _ Hn) as [Hne Hwd].
  destruct (patchForm_parts _ Hl) as (ltok & El & Hdot & Hlch & Hlh).
  apply scans_commute.
  - intros s0 out rest. apply pkgOcc_suffix.
  - intros s0 out rest. apply tagOcc_suffix.
  - intros s0 out rest H.
    destruct (pkgOcc_parts _ _ Hnames H) as (n & w & W & _ & _ & _ & -> & -> & _).
    reflexivity.
  - intros s0 out rest H.
    destruct (tagOcc_parts _ _ _ H) as (sep & c & tok & _ & _ & _ & _ & -> & -> & _).
    destruct (FunctionName fr); [congruence | reflexivity].
  - intros s0 out rest H.
    destruct (pkgOcc_parts _ _ Hnames H) as (n & w & W & Hin & Hnw & Hsp & Es & Eo & Hloc).
    pose proof (choices_not_unstable _ _ Hun Hin) as Hu.
    split.
    + intros t. rewrite Eo. apply tag_through_pinned; assumption.
    + exists ((catalogGit ++ exampleSubPath fr ++ b "/") ++ n ++ w :: W).
      split; [exact Es|]. split; [|exact Hloc].
      intros t. apply tag_through_reference; assumption.
  - intros s0 out rest H.
    destruct (tagOcc_parts _ _ _ H)
      as (sep & c & tok & Hsep & Hc & Htc & Hnh & Es & Eo & Hloc & _).
    split.
    + intros t. rewrite Eo, El. apply pkg_through_tag; try assumption.
      * discriminate.
      * rewrite <- El. exact Hlh.
    + exists (FunctionName fr ++ sep :: c :: tok).
      split; [exact Es|]. split; [|exact Hloc].
      intros t. apply pkg_through_tag; try assumption.
      destruct Hc as [-> | ->]; discriminate.
  - intros s0 Ha Hb. apply tag_no_new_reference; assumption.
  - intros s0 Ha Hb. apply pinned_no_new_tag; assumption.
Qed.

Lemma isToken_no_h (mv : bytes) : isToken mv = true -> ~ In "h"%char mv.
Proof.
  unfold isToken. destruct (tokenRest mv) as [[|z r]|] eqn:Hr; try discriminate.
  intros _. apply tokenRest_token in Hr as (c & tok & Es & _ & _ & Hh & _).
  rewrite app_nil_r in Es. rewrite Es. exact Hh.
Qed.

Lemma scan_pkgs_urls_commute (fr : functionRelease) (s : bytes) :
  isName (FunctionName fr) = true ->
  forallb (forallb isWordDash) (exampleNames (Examples fr)) = true ->
  isToken (MinorVersion fr) = true ->
  isPatchForm (LatestPatchVersion fr) = true ->
  scan (pkgOcc fr) (scan (catalogOcc (FunctionName fr) (MinorVersion fr)) s)
  = scan (catalogOcc (FunctionName fr) (MinorVersion fr)) (scan (pkgOcc fr) s).
Proof.
  intros Hn Hnames Hm Hl.
  pose proof (isName_parts _ Hn) as [Hne Hwd].
  destruct (patchForm_parts _ Hl) as (ltok & El & Hdot & Hlch & Hlh).
  pose proof (isToken_no_h _ Hm) as Hmh.
  apply scans_commute.
  - intros s0 out rest. apply pkgOcc_suffix.
  - intros s0 out rest. apply catalogOcc_suffix.
  - intros s0 out rest H.
    destruct (pkgOcc_parts _ _ Hnames H) as (n & w & W & _ & _ & _ & -> & -> & _).
    reflexivity.
  - intros s0 out rest H.
    destruct (catalogOcc_parts _ _ _ H) as (c & tok & _ & _ & _ & -> & -> & _).
    reflexivity.
  - intros s0 out rest H.
    destruct (pkgOcc_parts _ _ Hnames H) as (n & w & W & Hin & Hnw & Hsp & Es & Eo & Hloc).
    split.
    + intros t. rewrite Eo.
      replace ((catalogGit ++ exampleSubPath fr ++ b "/") ++ n
               ++ "@"%char :: FunctionName fr ++ "/"%char :: LatestPatchVersion fr
               ++ w :: W)
        with ((catalogGit ++ exampleSubPath fr ++ b "/")
              ++ (n ++ "@"%char :: FunctionName fr ++ "/"%char :: LatestPatchVersion fr)
              ++ w :: W)
        by (rewrite <- ?app_assoc; cbn [app]; rewrite <- ?app_assoc; reflexivity).
      apply catalog_through_reference; [|exact Hsp].
      intros Hi. apply in_app_or in Hi as [Hi | [Hi | Hi]].
      * exact (wordDash_no_colon _ Hnw Hi).
      * discriminate Hi.
      * apply in_app_or in Hi as [Hi | [Hi | Hi]].
        -- exact (wordDash_no_colon _ Hwd Hi).
        -- discriminate Hi.
        -- exact (tokenChars_no_colon _ Hlch Hi).
    + exists ((catalogGit ++ exampleSubPath fr ++ b "/") ++ n ++ w :: W).
      split; [exact Es|]. split; [|exact Hloc].
      intros t. apply catalog_through_reference; [|exact Hsp].
      exact (wordDash_no_colon _ Hnw).
  - intros s0 out rest H.
    destruct (catalogOcc_parts _ _ _ H) as (c & tok & Hc & Htc & Hnh & Es & Eo & Hloc & _).
    split.
    + intros t. rewrite Eo. apply pkg_through_catalog; assumption.
    + exists (catalogURL ++ FunctionName fr ++ "/"%char :: c :: tok).
      split; [exact Es|]. split; [|exact Hloc].
      intros t. apply pkg_through_catalog; assumption.
  - intros s0 Ha Hb. apply catalog_no_new_reference; assumption.
  - intros s0 Ha Hb. apply pinned_no_new_catalog; assumption.
Qed.

(** The example rule may be moved before either of the other two rules. *)
Lemma replaceKptPackages_moves (fr : functionRelease) (contents : bytes) :
  isName (FunctionName fr) = true ->
  forallb (forallb isWordDash) (exampleNames (Examples fr)) = true ->
  forallb (fun n => negb (strings.HasPrefix n (b "unstable")))
          (exampleNames (Examples fr)) = true ->
  isToken (MinorVersion fr) = true ->
  isPatchForm (LatestPatchVersion fr) = true ->
  replaceKptPackages fr (replaceTags fr contents)
  = replaceTags fr (replaceKptPackages fr contents)
  /\ replaceKptPackages fr (replaceURLs fr contents)
     = replaceURLs fr (replaceKptPackages fr contents).
Proof.
  intros Hn Hnames Hun Hm Hl.
  pose proof (isName_noDollar _ Hn) as Dn.
  pose proof (isToken_noDollar _ Hm) as Dm.
  pose proof (isPatchForm_noDollar _ Hl) as Dl.
  split.
  - rewrite !replaceTags_scan by exact Dl.
    rewrite !replaceKptPackages_scan by assumption.
    apply scan_pkgs_tags_commute; assumption.
  - rewrite !replaceURLs_scan by exact Dm.
    rewrite !replaceKptPackages_scan by assumption.
    apply scan_pkgs_urls_commute; assumption.
Qed.

(** C2, as amended.  For every contents, every order of the three rules in
    which the tag rule comes before the catalog rule gives what the fixed
    order (tags, catalog URLs, example references) gives: the example rule
    may be applied second or first.  This holds for a release whose
    function name is a non-empty run of letters, digits, [_] and [-],
    whose example names are runs of such bytes none of which starts with
    [unstable], whose minor version is a version token and whose latest
    patch version has the form v, digits, dot, digits, dot, digits (each
    run of digits possibly empty, as in the pattern of the code).  The
    orders in which the catalog rule comes before the tag rule are not
    covered: they differ from the fixed order on a catalog URL. *)
Theorem rules_order_tags_before_urls (fr : functionRelease) (contents : bytes) :
  isName (FunctionName fr) = true ->
  forallb (forallb isWordDash) (exampleNames (Examples fr)) = true ->
  forallb (fun n => negb (strings.HasPrefix n (b "unstable")))
          (exampleNames (Examples fr)) = true ->
  isToken (MinorVersion fr) = true ->
  isPatchForm (LatestPatchVersion fr) = true ->
  replaceURLs fr (replaceKptPackages fr (replaceTags fr contents))
  = updateContents fr contents
  /\ replaceURLs fr (replaceTags fr (replaceKptPackages fr contents))
     = updateContents fr contents.
Proof.
  intros Hn Hnames Hun Hm Hl. unfold updateContents.
  assert (E1 : replaceURLs fr (replaceKptPackages fr (replaceTags fr contents))
               = replaceKptPackages fr (replaceURLs fr (replaceTags fr contents))).
  { symmetry.
    exact (proj2 (@replaceKptPackages_moves fr (replaceTags fr contents)
                    Hn Hnames Hun Hm Hl)). }
  split; [exact E1|].
  rewrite <- (proj1 (@replaceKptPackages_moves fr contents Hn Hnames Hun Hm Hl)).
  exact E1.
Qed.

Lemma rules_order_tags_before_urls_witness :
  replaceURLs (applySetters (b "v1.0.5"))
    (replaceKptPackages (applySetters (b "v1.0.5"))
       (replaceTags (applySetters (b "v1.0.5"))
          (b "Run apply-setters:v1.0 from https://catalog.kpt.dev/apply-setters/v1.0.1 on "
           ++ pkgLine)))
  = updateContents (applySetters (b "v1.0.5"))
      (b "Run apply-setters:v1.0 from https://catalog.kpt.dev/apply-setters/v1.0.1 on "
       ++ pkgLine)
  /\ replaceURLs (applySetters (b "v1.0.5"))
       (replaceTags (applySetters (b "v1.0.5"))
          (replaceKptPackages (applySetters (b "v1.0.5"))
             (b "Run apply-setters:v1.0 from https://catalog.kpt.dev/apply-setters/v1.0.1 on "
              ++ pkgLine)))
     = updateContents (applySetters (b "v1.0.5"))
         (b "Run apply-setters:v1.0 from https://catalog.kpt.dev/apply-setters/v1.0.1 on "
          ++ pkgLine).
Proof.
  apply (@rules_order_tags_before_urls (applySetters (b "v1.0.5"))
           (b "Run apply-setters:v1.0 from https://catalog.kpt.dev/apply-setters/v1.0.1 on "
            ++ pkgLine));
    vm_compute; reflexivity.
Defined.

(** What the fixed order makes of that text: all three references are
    rewritten. *)
Example rules_order_sample :
  updateContents (applySetters (b "v1.0.5"))
    (b "Run apply-setters:v1.0 from https://catalog.kpt.dev/apply-setters/v1.0.1 on "
     ++ pkgLine)
  = b "Run apply-setters:v1.0.5 from https://catalog.kpt.dev/apply-setters/v1.0 on "
    ++ catalogGit ++ b "examples/apply-setters-simple@apply-setters/v1.0.5" ++ [newline].
Proof. vm_compute. reflexivity. Qed.

(** With a latest patch version that carries a pre-release part the example
    rule may not be moved before the tag rule: the tag rule then matches
    inside the reference the example rule has pinned. *)
Example rules_order_needs_patch_form :
  updateContents (applySetters (b "v1.0.1-rc1")) pkgLine
  = catalogGit ++ b "examples/apply-setters-simple@apply-setters/v1.0.1-rc1" ++ [newline]
  /\ replaceURLs (applySetters (b "v1.0.1-rc1"))
       (replaceTags (applySetters (b "v1.0.1-rc1"))
          (replaceKptPackages (applySetters (b "v1.0.1-rc1")) pkgLine))
     = catalogGit ++ b "examples/apply-setters-simple@apply-setters/v1.0.1-rc1-rc1"
       ++ [newline].
Proof. split; vm_compute; reflexivity. Qed.

(** With an example name that starts with [unstable] and a function name
    that ends the word [examples], the tag rule matches inside an example
    reference, and the example rule may not be moved before it. *)
Example rules_order_needs_plain_example_names :
  updateContents
    {| FunctionName := b "examples"; MinorVersion := b "v1.0"; Language := b "go";
       LatestPatchVersion := b "v1.0.1"; FunctionPath := b "functions/go/examples";
       Examples := [ {| ExamplePath := b "examples/unstable-demo";
                        ExampleName := b "unstable-demo" |} ];
       IsContrib := false |}
    (catalogGit ++ b "examples/unstable-demo" ++ [newline])
  = catalogGit ++ b "examples/v1.0.1-demo" ++ [newline]
  /\ replaceURLs
       {| FunctionName := b "examples"; MinorVersion := b "v1.0"; Language := b "go";
          LatestPatchVersion := b "v1.0.1"; FunctionPath := b "functions/go/examples";
          Examples := [ {| ExamplePath := b "examples/unstable-demo";
                           ExampleName := b "unstable-demo" |} ];
          IsContrib := false |}
       (replaceTags
          {| FunctionName := b "examples"; MinorVersion := b "v1.0"; Language := b "go";
             LatestPatchVersion := b "v1.0.1"; FunctionPath := b "functions/go/examples";
             Examples := [ {| ExamplePath := b "examples/unstable-demo";
                              ExampleName := b "unstable-demo" |} ];
             IsContrib := false |}
          (replaceKptPackages
             {| FunctionName := b "examples"; MinorVersion := b "v1.0"; Language := b "go";
                LatestPatchVersion := b "v1.0.1"; FunctionPath := b "functions/go/examples";
                Examples := [ {| ExamplePath := b "examples/unstable-demo";
                                 ExampleName := b "unstable-demo" |} ];
                IsContrib := false |}
             (catalogGit ++ b "examples/unstable-demo" ++ [newline])))
     = catalogGit ++ b "examples/v1.0.1-demo@examples/v1.0.1" ++ [newline].
Proof. split; vm_compute; reflexivity. Qed.
